(** * Polariton cavity simulator: the dynamical core and its configuration loader

    A shallow embedding of [scripts/cpp/polariton.h] and
    [scripts/cpp/cavity_config.h].

    - C++ [double] is an abstract carrier with the operations the source
      applies to it ([DoubleOps]).  Everything that only moves numbers around
      (packing, unpacking, the layout of the state vector, the bookkeeping of
      the steppers) is proved for every such carrier, hence for IEEE binary64.
      Algebraic identities are proved at the instance [R_double], the real
      numbers.
    - Objects reached through raw pointers ([PolaritonMode*], [PhononMode*])
      live in a [Heap]; a pointer is an address, and dereferencing an address
      that holds no object is undefined behaviour, modelled as an exception.
    - Methods that mutate are computations in a state-and-exception monad
      that keeps the state reached when the exception was thrown; [const]
      methods are functions from the heap to a [result]. *)

From Stdlib Require Import Reals Lra QArith_base Qreals String Ascii.
From stdpp Require Import base option list gmap strings.

Local Open Scope string_scope.

(** ** Numbers *)

(** The operations on [double] used by the source.  [lit q] is the value of
    the decimal literal [q]; [uninit i] is whatever the [i]-th cell of
    freshly sized vector storage happens to hold ([arma::vec::set_size] does
    not initialise). *)
Class DoubleOps (double : Type) := {
  lit : Q -> double;
  dadd : double -> double -> double;
  dsub : double -> double -> double;
  dmul : double -> double -> double;
  ddiv : double -> double -> double;
  dneg : double -> double;
  dsqrt : double -> double;
  dcos : double -> double;
  dsin : double -> double;
  uninit : nat -> double
}.

Declare Scope double_scope.
Delimit Scope double_scope with D.
Infix "+" := dadd : double_scope.
Infix "-" := dsub : double_scope.
Infix "*" := dmul : double_scope.
Infix "/" := ddiv : double_scope.
Notation "- x" := (dneg x) : double_scope.

(** Real arithmetic as an instance. *)
#[export] Instance R_double : DoubleOps R := {|
  lit := Q2R;
  dadd := Rplus;
  dsub := Rminus;
  dmul := Rmult;
  ddiv := Rdiv;
  dneg := Ropp;
  dsqrt := sqrt;
  dcos := cos;
  dsin := sin;
  uninit := fun _ => 0%R
|}.

(** [std::complex<double>] ([arma::cx_double]). *)
Module Complex.
Section complex.
Context {double : Type} `{!DoubleOps double}.
Local Open Scope double_scope.

Record cx_double := cx { real : double; imag : double }.

(** [constexpr arma::cx_double I(0.0, 1.0)] *)
Definition I : cx_double := cx (lit 0) (lit 1).

(** Implicit conversion [double -> std::complex<double>]. *)
Definition of_double (x : double) : cx_double := cx x (lit 0).

Definition add (a b : cx_double) : cx_double :=
  cx (real a + real b) (imag a + imag b).

Definition neg (a : cx_double) : cx_double := cx (- real a) (- imag a).

(** [complex * complex] *)
Definition mul (a b : cx_double) : cx_double :=
  cx (real a * real b - imag a * imag b) (real a * imag b + imag a * real b).

(** [complex * double] *)
Definition mul_d (a : cx_double) (x : double) : cx_double :=
  cx (real a * x) (imag a * x).

(** [double * complex] *)
Definition d_mul (x : double) (a : cx_double) : cx_double :=
  cx (x * real a) (x * imag a).

Definition conj (a : cx_double) : cx_double := cx (real a) (- imag a).

(** [std::polar(rho, theta)] *)
Definition polar (rho theta : double) : cx_double :=
  cx (rho * dcos theta) (rho * dsin theta).
End complex.
Arguments cx_double : clear implicits.
End Complex.
Import Complex.

(** ** Exceptions, results, and the state monad *)

Inductive exn :=
| runtime_error (what : string)
| domain_error (what : string)
| range_error (what : string)
| logic_error (what : string)         (* armadillo's bounds check *)
| invalid_argument (what : string)    (* std::stod, std::stoul *)
| out_of_range (what : string)
| undefined_behavior (what : string). (* wild pointer, unchecked index *)

(** The result of a [const] method: a value or an exception. *)
Inductive result (A : Type) := Val (a : A) | Exn (e : exn).
Arguments Val {A} a.
Arguments Exn {A} e.

#[export] Instance result_ret : MRet result := fun A a => Val a.
#[export] Instance result_bind : MBind result := fun A B f r =>
  match r with Val a => f a | Exn e => Exn e end.

(** The outcome of a mutating method, with the state it leaves behind. *)
Inductive outcome (S A : Type) := Ok (a : A) (s : S) | Throw (e : exn) (s : S).
Arguments Ok {S A} a s.
Arguments Throw {S A} e s.

Definition M (S A : Type) : Type := S -> outcome S A.

#[export] Instance M_ret {S} : MRet (M S) := fun A a s => Ok a s.
#[export] Instance M_bind {S} : MBind (M S) := fun A B f m s =>
  match m s with Ok a s' => f a s' | Throw e s' => Throw e s' end.

Definition throw {S A} (e : exn) : M S A := fun s => Throw e s.
Definition get {S} : M S S := fun s => Ok s s.
Definition gets {S A} (f : S -> A) : M S A := fun s => Ok (f s) s.
Definition modify {S} (f : S -> S) : M S unit := fun s => Ok tt (f s).

(** Run a [const] computation on (a part of) the state. *)
Definition lift {S T A} (proj : S -> T) (f : T -> result A) : M S A := fun s =>
  match f (proj s) with Val a => Ok a s | Exn e => Throw e s end.

(** A pure, possibly throwing expression evaluated inside a method. *)
Definition eval {S A} (r : result A) : M S A := fun s =>
  match r with Val a => Ok a s | Exn e => Throw e s end.

(** Range-based [for] with a loop-carried local (the running index). *)
Fixpoint for_each {S A B} (body : B -> A -> M S B) (l : list A) (acc : B) : M S B :=
  match l with
  | [] => mret acc
  | a :: l' => acc' ← body acc a; for_each body l' acc'
  end.

(** The same for a [const] method. *)
Fixpoint for_each_r {A B} (body : B -> A -> result B) (l : list A) (acc : B) : result B :=
  match l with
  | [] => mret acc
  | a :: l' => acc' ← body acc a; for_each_r body l' acc'
  end.

(** A computation leaves an observation of the state alone, whether it
    returns or throws. *)
Definition frames {S A X} (obs : S -> X) (m : M S A) : Prop :=
  forall s, match m s with Ok _ s' => obs s' = obs s | Throw _ s' => obs s' = obs s end.

(** A computation keeps an invariant of the state, whether it returns or
    throws. *)
Definition preserves {S A} (Inv : S -> Prop) (m : M S A) : Prop :=
  forall s, Inv s -> match m s with Ok _ s' => Inv s' | Throw _ s' => Inv s' end.

(** [sub] occurs in [s]. *)
Definition contains (sub s : string) : Prop :=
  exists pre post, s = pre ++ sub ++ post.

(** ** Containers of the source *)

(** A raw pointer is an address; address [0] is not special in the model:
    [nullptr] is simply an address at which the heap holds nothing. *)
Abbreviation ptr := nat (only parsing).

(** [std::vector::operator[]]: unchecked, so an index past the end is
    undefined behaviour. *)
Definition vector_at {A} (v : list A) (i : nat) : result A :=
  match v !! i with
  | Some a => Val a
  | None => Exn (undefined_behavior "std::vector subscript out of range")
  end.

(** [arma::vec] (the element type is always [double]) *)
Abbreviation vec := list (only parsing).

Section vec.
Context {double : Type} `{!DoubleOps double}.

(** [x(i)], read access with armadillo's bounds check. *)
Definition vec_at (x : vec double) (i : nat) : result double :=
  match x !! i with
  | Some a => Val a
  | None => Exn (logic_error "Mat::operator(): index out of bounds")
  end.

(** [x(i) = a], write access with armadillo's bounds check. *)
Definition vec_set (x : vec double) (i : nat) (a : double) : result (vec double) :=
  if decide (i < length x) then Val (<[i := a]> x)
  else Exn (logic_error "Mat::operator(): index out of bounds").

(** [x.set_size(n)]: keeps the storage when the size already matches, and
    otherwise yields [n] cells of unspecified content. *)
Definition set_size (n : nat) (x : vec double) : vec double :=
  if decide (length x = n) then x else uninit <$> seq 0 n.
End vec.

(** ** The entities *)

Module NonResonantDriving.
Section defs.
Context {double : Type} `{!DoubleOps double}.

Record t := mk {
  polariton : ptr;
  coupling_constant : double;
  time_factor : double;
  power : double;
  alpha : double;
  value : double
}.

Definition get_value (r : t) : double := value r.

Definition set_value (n : double) (r : t) : t :=
  mk (polariton r) (coupling_constant r) (time_factor r) (power r) (alpha r) n.

Definition set_power (P : double) (r : t) : t :=
  mk (polariton r) (coupling_constant r) (time_factor r) P (alpha r) (value r).
End defs.
Arguments t : clear implicits.
End NonResonantDriving.

Module PolaritonMode.
Section defs.
Context {double : Type} `{!DoubleOps double}.

Record t := mk {
  neighboring_polaritons : list ptr;
  neighboring_phonons : list ptr;
  constant_couplings : list (cx_double double);
  phonon_couplings : list (cx_double double);
  detunings_from_resonance : list double;
  signs : list double;
  n_neighbors : nat;
  r_driving_amp : cx_double double;
  r_driving_detuning : double;
  reservoir_owned : option (NonResonantDriving.t double);
  reservoir_coupling : double;
  dissipative_gamma : double;
  self_interaction : double;
  value : cx_double double
}.

(** [PolaritonMode(double gamma, double U)] *)
Definition new (gamma U : double) : t :=
  mk [] [] [] [] [] [] 0 (of_double (lit 0)) (lit 0) None (lit 0) gamma U
     (of_double (lit 0)).

Definition connect (polariton phonon : ptr) (J g delta : double) (above : bool)
    (p : t) : t :=
  mk (neighboring_polaritons p ++ [polariton])
     (neighboring_phonons p ++ [phonon])
     (constant_couplings p ++ [of_double J])
     (phonon_couplings p ++ [of_double g])
     (detunings_from_resonance p ++ [delta])
     (signs p ++ [if above then lit 1 else dneg (lit 1)])
     (n_neighbors p + 1)
     (r_driving_amp p) (r_driving_detuning p) (reservoir_owned p)
     (reservoir_coupling p) (dissipative_gamma p) (self_interaction p) (value p).

(** [add_reservoir]; [this] is the address of the object the method is
    called on, which the new reservoir records as its polariton. *)
Definition add_reservoir (this : ptr) (coupling tau pump_power alpha initial_n : double)
    (p : t) : t :=
  mk (neighboring_polaritons p) (neighboring_phonons p) (constant_couplings p)
     (phonon_couplings p) (detunings_from_resonance p) (signs p) (n_neighbors p)
     (r_driving_amp p) (r_driving_detuning p)
     (Some (NonResonantDriving.mk this coupling tau pump_power alpha initial_n))
     coupling (dissipative_gamma p) (self_interaction p) (value p).

Definition get_reservoir (p : t) : option (NonResonantDriving.t double) :=
  reservoir_owned p.

Definition get_value (p : t) : cx_double double := value p.

Definition set_value (val : cx_double double) (p : t) : t :=
  mk (neighboring_polaritons p) (neighboring_phonons p) (constant_couplings p)
     (phonon_couplings p) (detunings_from_resonance p) (signs p) (n_neighbors p)
     (r_driving_amp p) (r_driving_detuning p) (reservoir_owned p)
     (reservoir_coupling p) (dissipative_gamma p) (self_interaction p) val.

Definition set_driving (amp : cx_double double) (detuning : double) (p : t) : t :=
  mk (neighboring_polaritons p) (neighboring_phonons p) (constant_couplings p)
     (phonon_couplings p) (detunings_from_resonance p) (signs p) (n_neighbors p)
     amp detuning (reservoir_owned p)
     (reservoir_coupling p) (dissipative_gamma p) (self_interaction p) (value p).

(** [p->get_reservoir()->set_value(n)] on a polariton that owns one. *)
Definition set_reservoir_value (n : double) (p : t) : t :=
  mk (neighboring_polaritons p) (neighboring_phonons p) (constant_couplings p)
     (phonon_couplings p) (detunings_from_resonance p) (signs p) (n_neighbors p)
     (r_driving_amp p) (r_driving_detuning p)
     (NonResonantDriving.set_value n <$> reservoir_owned p)
     (reservoir_coupling p) (dissipative_gamma p) (self_interaction p) (value p).

Definition set_n_neighbors (n : nat) (p : t) : t :=
  mk (neighboring_polaritons p) (neighboring_phonons p) (constant_couplings p)
     (phonon_couplings p) (detunings_from_resonance p) (signs p) n
     (r_driving_amp p) (r_driving_detuning p) (reservoir_owned p)
     (reservoir_coupling p) (dissipative_gamma p) (self_interaction p) (value p).

(** [std::all_of(dimensions, x == dimensions.front())] *)
Definition all_same_size (dimensions : list nat) : bool :=
  forallb (fun x => Nat.eqb x (hd 0 dimensions)) dimensions.

Definition check (p : t) : result t :=
  let dimensions :=
    [ length (neighboring_polaritons p); length (neighboring_phonons p);
      length (constant_couplings p); length (phonon_couplings p);
      length (detunings_from_resonance p); length (signs p) ] in
  if all_same_size dimensions
  then Val (set_n_neighbors (hd 0 dimensions) p)
  else Exn (domain_error "All system arrays must have the same dimensions").
End defs.
Arguments t : clear implicits.
End PolaritonMode.

Module PhononMode.
Section defs.
Context {double : Type} `{!DoubleOps double}.

Record t := mk {
  pairs : list (ptr * ptr);
  detunings : list double;
  couplings : list double;
  n_pairings : nat;
  frequency : double;
  dissipation : double;
  position : double;
  velocity : double
}.

(** [PhononMode(double Omega, double Gamma)] *)
Definition new (Omega Gamma : double) : t :=
  mk [] [] [] 0 Omega Gamma (lit 0) (lit 0).

Definition add_pairing (polariton_pair : ptr * ptr) (delta coupling : double)
    (ph : t) : t :=
  mk (pairs ph ++ [polariton_pair]) (detunings ph ++ [delta])
     (couplings ph ++ [coupling]) (n_pairings ph + 1)
     (frequency ph) (dissipation ph) (position ph) (velocity ph).

Definition set_n_pairings (n : nat) (ph : t) : t :=
  mk (pairs ph) (detunings ph) (couplings ph) n
     (frequency ph) (dissipation ph) (position ph) (velocity ph).

Definition check (ph : t) : result t :=
  let dimensions :=
    [ length (pairs ph); length (detunings ph); length (couplings ph) ] in
  if PolaritonMode.all_same_size dimensions
  then Val (set_n_pairings (hd 0 dimensions) ph)
  else Exn (domain_error "All system arrays must have the same dimensions").

Definition get_position (ph : t) : double := position ph.
Definition get_velocity (ph : t) : double := velocity ph.
Definition get_freq (ph : t) : double := frequency ph.

Definition set_position (x : double) (ph : t) : t :=
  mk (pairs ph) (detunings ph) (couplings ph) (n_pairings ph)
     (frequency ph) (dissipation ph) x (velocity ph).

Definition set_velocity (v : double) (ph : t) : t :=
  mk (pairs ph) (detunings ph) (couplings ph) (n_pairings ph)
     (frequency ph) (dissipation ph) (position ph) v.
End defs.
Arguments t : clear implicits.
End PhononMode.

(** ** The heap of entities *)

Section heap.
Context {double : Type} `{!DoubleOps double}.
Local Open Scope double_scope.

Record Heap := mkHeap {
  polariton_objects : gmap nat (PolaritonMode.t double);
  phonon_objects : gmap nat (PhononMode.t double)
}.

(** [*p] for a [PolaritonMode* p] *)
Definition polariton_at (h : Heap) (p : ptr) : result (PolaritonMode.t double) :=
  match polariton_objects h !! p with
  | Some o => Val o
  | None => Exn (undefined_behavior "dereference of an invalid PolaritonMode*")
  end.

(** [*ph] for a [PhononMode* ph] *)
Definition phonon_at (h : Heap) (ph : ptr) : result (PhononMode.t double) :=
  match phonon_objects h !! ph with
  | Some o => Val o
  | None => Exn (undefined_behavior "dereference of an invalid PhononMode*")
  end.

(** A mutating method call [p->f(...)]. *)
Definition update_polariton (p : ptr)
    (f : PolaritonMode.t double -> PolaritonMode.t double) (h : Heap) : result Heap :=
  o ← polariton_at h p;
  mret (mkHeap (<[p := f o]> (polariton_objects h)) (phonon_objects h)).

Definition update_phonon (ph : ptr)
    (f : PhononMode.t double -> PhononMode.t double) (h : Heap) : result Heap :=
  o ← phonon_at h ph;
  mret (mkHeap (polariton_objects h) (<[ph := f o]> (phonon_objects h))).

(** ** Out-of-line definitions: the three derivative laws *)

(** One iteration of the neighbour loop of [PolaritonMode::derivative]. *)
Definition neighbor_term (h : Heap) (p : PolaritonMode.t double) (t : double)
    (drv : cx_double double) (i : nat) : result (cx_double double) :=
  sign ← vector_at (PolaritonMode.signs p) i;
  ph_ptr ← vector_at (PolaritonMode.neighboring_phonons p) i;
  ph ← phonon_at h ph_ptr;
  delta ← vector_at (PolaritonMode.detunings_from_resonance p) i;
  let phase := sign * (PhononMode.get_freq ph + delta) * t in
  g ← vector_at (PolaritonMode.phonon_couplings p) i;
  let phonon_term := mul_d g (PhononMode.get_position ph) in
  J ← vector_at (PolaritonMode.constant_couplings p) i;
  nb_ptr ← vector_at (PolaritonMode.neighboring_polaritons p) i;
  nb ← polariton_at h nb_ptr;
  mret (add drv (mul (mul (add J phonon_term) (polar (lit 1) phase))
                     (PolaritonMode.get_value nb))).

Definition PolaritonMode_derivative (h : Heap) (p : PolaritonMode.t double)
    (t : double) : result (cx_double double) :=
  let res : cx_double double :=
    match PolaritonMode.reservoir_owned p with
    | Some r => of_double (NonResonantDriving.get_value r)
    | None => of_double (lit 0)
    end in
  let value := PolaritonMode.value p in
  let drv :=
    add (mul value
           (add (add (mul_d (neg I) (PolaritonMode.dissipative_gamma p))
                     (mul (d_mul (PolaritonMode.self_interaction p) value) (conj value)))
                (mul (mul_d I (PolaritonMode.reservoir_coupling p)) res)))
        (mul (PolaritonMode.r_driving_amp p)
             (polar (lit 1) (PolaritonMode.r_driving_detuning p * t))) in
  drv ← for_each_r (neighbor_term h p t) (seq 0 (PolaritonMode.n_neighbors p)) drv;
  mret (mul (neg I) drv).

(** One iteration of the pairing loop of [PhononMode::second_derivative]. *)
Definition pairing_term (h : Heap) (ph : PhononMode.t double) (t : double)
    (backaction : cx_double double) (i : nat) : result (cx_double double) :=
  delta ← vector_at (PhononMode.detunings ph) i;
  let phase_factor := polar (lit 1) (- (PhononMode.frequency ph + delta) * t) in
  c ← vector_at (PhononMode.couplings ph) i;
  pr ← vector_at (PhononMode.pairs ph) i;
  p0 ← polariton_at h pr.1;
  p1 ← polariton_at h pr.2;
  mret (add backaction
            (mul (mul (d_mul c (PolaritonMode.get_value p0))
                      (conj (PolaritonMode.get_value p1)))
                 phase_factor)).

Definition PhononMode_second_derivative (h : Heap) (ph : PhononMode.t double)
    (t : double) : result double :=
  let drv := - PhononMode.frequency ph * PhononMode.frequency ph * PhononMode.position ph
             - PhononMode.dissipation ph * PhononMode.velocity ph in
  backaction ← for_each_r (pairing_term h ph t) (seq 0 (PhononMode.n_pairings ph))
                          (cx (lit 0) (lit 0));
  mret (drv + - lit 2 * PhononMode.frequency ph * PhononMode.dissipation ph
              * real backaction).

Definition NonResonantDriving_derivative (h : Heap) (r : NonResonantDriving.t double)
    (t : double) : result double :=
  p ← polariton_at h (NonResonantDriving.polariton r);
  let intensity :=
    real (mul (PolaritonMode.get_value p) (conj (PolaritonMode.get_value p))) in
  mret (NonResonantDriving.time_factor r
        * (NonResonantDriving.power r
           - NonResonantDriving.value r
             * (lit 1 + NonResonantDriving.alpha r * NonResonantDriving.alpha r * intensity))).
End heap.
Arguments Heap : clear implicits.

(** ** Boost.Odeint

    An external library.  What the source relies on is modelled from the
    library's documented interface: the system concept
    [sys(x, dxdt, t)], the classical Runge-Kutta tableau of
    [runge_kutta4], and the parameter passing of [do_step] ([x] by
    reference, [t] and [dt] by value) and of the controlled stepper's
    [try_step] ([x], [t] and [dt] by reference). *)
Module odeint.
Section defs.
Context {double : Type} `{!DoubleOps double}.
Local Open Scope double_scope.

(** The system concept: [sys x dxdt t] returns the new content of the
    derivative buffer [dxdt]. *)
Definition system (S : Type) : Type :=
  vec double -> vec double -> double -> M S (vec double).

(** [runge_kutta4<arma::vec>]: its derivative buffers, one per stage. *)
Record runge_kutta4 := mk_rk4 {
  m_dxdt : vec double;
  m_F1 : vec double;
  m_F2 : vec double;
  m_F3 : vec double
}.

(** [x + c * k], element by element. *)
Definition scale_sum (x : vec double) (c : double) (k : vec double) : vec double :=
  zip_with (fun xi ki => xi + c * ki) x k.

(** [runge_kutta4::do_step(sys, x, t, dt)].  The result is the stepper and
    the new content of [x]; [t] is a value parameter, so there is no new
    [t] to return.  Buffers are sized like [x] before use. *)
Definition do_step {S} (sys : system S) (st : runge_kutta4)
    (x : vec double) (t dt : double) : M S (runge_kutta4 * vec double) :=
  let n := length x in
  let half := lit 1 / lit 2 in
  k1 ← sys x (set_size n (m_dxdt st)) t;
  k2 ← sys (scale_sum x (dt * half) k1) (set_size n (m_F1 st)) (t + dt * half);
  k3 ← sys (scale_sum x (dt * half) k2) (set_size n (m_F2 st)) (t + dt * half);
  k4 ← sys (scale_sum x (dt * lit 1) k3) (set_size n (m_F3 st)) (t + dt * lit 1);
  mret (mk_rk4 k1 k2 k3 k4,
        scale_sum
          (scale_sum
             (scale_sum
                (scale_sum x (dt * (lit 1 / lit 6)) k1)
                (dt * (lit 1 / lit 3)) k2)
             (dt * (lit 1 / lit 3)) k3)
          (dt * (lit 1 / lit 6)) k4).

(** [controlled_runge_kutta<runge_kutta_dopri5<arma::vec>>]: the two
    tolerances it was made with, and its internal buffers. *)
Record controlled_runge_kutta := mk_controlled {
  eps_abs : double;
  eps_rel : double;
  m_first_call : bool;
  m_buffers : list (vec double)
}.

(** [make_controlled<error_stepper>(abs, rel)] *)
Definition make_controlled (eps_abs eps_rel : double) : controlled_runge_kutta :=
  mk_controlled eps_abs eps_rel true [].

(** The type of [controlled_runge_kutta::try_step(sys, x, t, dt)]: from
    the stepper and the referents of [x], [t], [dt] to the stepper and the
    new referents.  The embedded Dormand-Prince pair and its step-size
    controller are not modelled; [Cavity.adaptive_step] takes the
    function as a parameter. *)
Definition try_step_t : Type :=
  forall S, system S -> controlled_runge_kutta -> vec double -> double -> double ->
            M S (controlled_runge_kutta * vec double * double * double).
End defs.
Arguments runge_kutta4 : clear implicits.
Arguments controlled_runge_kutta : clear implicits.
Arguments try_step_t double : clear implicits.
End odeint.

(** ** The cavity *)

Module Cavity.
Section defs.
Context {double : Type} `{!DoubleOps double}.

Record t := mk {
  polaritons : list ptr;
  phonons : list ptr;
  current_state : vec double;
  current_time : double;
  rk4_stepper : odeint.runge_kutta4 double;
  dopri5_stepper : odeint.controlled_runge_kutta double;
  abs_stepper_tol : double;
  rel_stepper_tol : double;
  used_time_step : double;
  system_dimension : nat;
  evaluating_rhs : bool
}.

(** What a method of [Cavity] can touch: the entities and the object. *)
Record state := mk_state { heap : Heap double; this : t }.

Definition with_this (f : t -> t) (s : state) : state := mk_state (heap s) (f (this s)).

Definition set_polaritons (v : list ptr) (c : t) : t :=
  mk v (phonons c) (current_state c) (current_time c) (rk4_stepper c)
     (dopri5_stepper c) (abs_stepper_tol c) (rel_stepper_tol c) (used_time_step c)
     (system_dimension c) (evaluating_rhs c).
Definition set_phonons (v : list ptr) (c : t) : t :=
  mk (polaritons c) v (current_state c) (current_time c) (rk4_stepper c)
     (dopri5_stepper c) (abs_stepper_tol c) (rel_stepper_tol c) (used_time_step c)
     (system_dimension c) (evaluating_rhs c).
Definition set_current_state (v : vec double) (c : t) : t :=
  mk (polaritons c) (phonons c) v (current_time c) (rk4_stepper c)
     (dopri5_stepper c) (abs_stepper_tol c) (rel_stepper_tol c) (used_time_step c)
     (system_dimension c) (evaluating_rhs c).
Definition set_current_time (v : double) (c : t) : t :=
  mk (polaritons c) (phonons c) (current_state c) v (rk4_stepper c)
     (dopri5_stepper c) (abs_stepper_tol c) (rel_stepper_tol c) (used_time_step c)
     (system_dimension c) (evaluating_rhs c).
Definition set_rk4_stepper (v : odeint.runge_kutta4 double) (c : t) : t :=
  mk (polaritons c) (phonons c) (current_state c) (current_time c) v
     (dopri5_stepper c) (abs_stepper_tol c) (rel_stepper_tol c) (used_time_step c)
     (system_dimension c) (evaluating_rhs c).
Definition set_dopri5_stepper (v : odeint.controlled_runge_kutta double) (c : t) : t :=
  mk (polaritons c) (phonons c) (current_state c) (current_time c) (rk4_stepper c)
     v (abs_stepper_tol c) (rel_stepper_tol c) (used_time_step c)
     (system_dimension c) (evaluating_rhs c).
Definition set_used_time_step (v : double) (c : t) : t :=
  mk (polaritons c) (phonons c) (current_state c) (current_time c) (rk4_stepper c)
     (dopri5_stepper c) (abs_stepper_tol c) (rel_stepper_tol c) v
     (system_dimension c) (evaluating_rhs c).
Definition set_system_dimension (v : nat) (c : t) : t :=
  mk (polaritons c) (phonons c) (current_state c) (current_time c) (rk4_stepper c)
     (dopri5_stepper c) (abs_stepper_tol c) (rel_stepper_tol c) (used_time_step c)
     v (evaluating_rhs c).
Definition set_evaluating_rhs (v : bool) (c : t) : t :=
  mk (polaritons c) (phonons c) (current_state c) (current_time c) (rk4_stepper c)
     (dopri5_stepper c) (abs_stepper_tol c) (rel_stepper_tol c) (used_time_step c)
     (system_dimension c) v.

(** The default member initialisers and the default constructor
    [Cavity()]. *)
Definition default : t :=
  let abs_tol := lit (1 # 1000000) in
  let rel_tol := lit (1 # 1000000) in
  mk [] [] [] (lit 0) (odeint.mk_rk4 [] [] [] [])
     (odeint.make_controlled abs_tol rel_tol)
     abs_tol rel_tol (lit (1 # 1000)) 0 false.

(** *** Access to the entities and to [current_state] from a method *)

Definition deref_polariton (p : ptr) : M state (PolaritonMode.t double) :=
  lift heap (fun h => polariton_at h p).

Definition deref_phonon (ph : ptr) : M state (PhononMode.t double) :=
  lift heap (fun h => phonon_at h ph).

(** [p->f(...)] for a mutating [f]. *)
Definition call_polariton (p : ptr)
    (f : PolaritonMode.t double -> PolaritonMode.t double) : M state unit := fun s =>
  match update_polariton p f (heap s) with
  | Val h => Ok tt (mk_state h (this s))
  | Exn e => Throw e s
  end.

Definition call_phonon (ph : ptr)
    (f : PhononMode.t double -> PhononMode.t double) : M state unit := fun s =>
  match update_phonon ph f (heap s) with
  | Val h => Ok tt (mk_state h (this s))
  | Exn e => Throw e s
  end.

(** [current_state(i) = a] *)
Definition write_current_state (i : nat) (a : double) : M state unit := fun s =>
  match vec_set (current_state (this s)) i a with
  | Val x => Ok tt (with_this (set_current_state x) s)
  | Exn e => Throw e s
  end.

(** *** [pack_state] *)

Definition pack_polariton (idx : nat) (p : ptr) : M state nat :=
  o ← deref_polariton p;
  let v := PolaritonMode.get_value o in
  write_current_state idx (real v);;
  write_current_state (idx + 1) (imag v);;
  mret (idx + 2).

Definition pack_phonon (idx : nat) (ph : ptr) : M state nat :=
  o ← deref_phonon ph;
  write_current_state idx (PhononMode.get_position o);;
  o ← deref_phonon ph;
  write_current_state (idx + 1) (PhononMode.get_velocity o);;
  mret (idx + 2).

Definition pack_reservoir (idx : nat) (p : ptr) : M state nat :=
  o ← deref_polariton p;
  match PolaritonMode.get_reservoir o with
  | Some r =>
      write_current_state idx (NonResonantDriving.get_value r);;
      mret (idx + 1)
  | None => mret idx
  end.

Definition pack_state : M state unit :=
  c ← gets this;
  idx ← for_each pack_polariton (polaritons c) 0;
  idx ← for_each pack_phonon (phonons c) idx;
  for_each pack_reservoir (polaritons c) idx;;
  mret tt.

(** *** [unpack_state] *)

Definition unpack_polariton (x : vec double) (idx : nat) (p : ptr) : M state nat :=
  re ← eval (vec_at x idx);
  im ← eval (vec_at x (idx + 1));
  call_polariton p (PolaritonMode.set_value (cx re im));;
  mret (idx + 2).

Definition unpack_phonon (x : vec double) (idx : nat) (ph : ptr) : M state nat :=
  pos ← eval (vec_at x idx);
  call_phonon ph (PhononMode.set_position pos);;
  vel ← eval (vec_at x (idx + 1));
  call_phonon ph (PhononMode.set_velocity vel);;
  mret (idx + 2).

Definition unpack_reservoir (x : vec double) (idx : nat) (p : ptr) : M state nat :=
  o ← deref_polariton p;
  match PolaritonMode.get_reservoir o with
  | Some _ =>
      n ← eval (vec_at x idx);
      call_polariton p (PolaritonMode.set_reservoir_value n);;
      mret (idx + 1)
  | None => mret idx
  end.

Definition unpack_state (x : vec double) : M state unit :=
  c ← gets this;
  idx ← for_each (unpack_polariton x) (polaritons c) 0;
  idx ← for_each (unpack_phonon x) (phonons c) idx;
  for_each (unpack_reservoir x) (polaritons c) idx;;
  mret tt.

(** *** [operator()]: the vector field *)

(** The loop-carried locals of [operator()] are the buffer [dxdt] and the
    running index. *)
Definition rhs_polariton (t : double) (acc : vec double * nat) (p : ptr)
    : M state (vec double * nat) :=
  let '(dxdt, idx) := acc in
  o ← deref_polariton p;
  d ← lift heap (fun h => PolaritonMode_derivative h o t);
  dxdt ← eval (vec_set dxdt idx (real d));
  dxdt ← eval (vec_set dxdt (idx + 1) (imag d));
  mret (dxdt, idx + 2).

Definition rhs_phonon (t : double) (acc : vec double * nat) (ph : ptr)
    : M state (vec double * nat) :=
  let '(dxdt, idx) := acc in
  o ← deref_phonon ph;
  dxdt ← eval (vec_set dxdt idx (PhononMode.get_velocity o));
  o ← deref_phonon ph;
  a ← lift heap (fun h => PhononMode_second_derivative h o t);
  dxdt ← eval (vec_set dxdt (idx + 1) a);
  mret (dxdt, idx + 2).

Definition rhs_reservoir (t : double) (acc : vec double * nat) (p : ptr)
    : M state (vec double * nat) :=
  let '(dxdt, idx) := acc in
  o ← deref_polariton p;
  match PolaritonMode.get_reservoir o with
  | Some r =>
      d ← lift heap (fun h => NonResonantDriving_derivative h r t);
      dxdt ← eval (vec_set dxdt idx d);
      mret (dxdt, idx + 1)
  | None => mret (dxdt, idx)
  end.

(** [operator()(x, dxdt, t)]; the result is the new content of [dxdt]. *)
Definition call : odeint.system state := fun x dxdt t =>
  c ← gets this;
  let dxdt := set_size (system_dimension c) dxdt in
  modify (with_this (set_evaluating_rhs true));;
  unpack_state x;;
  acc ← for_each (rhs_polariton t) (polaritons c) (dxdt, 0);
  acc ← for_each (rhs_phonon t) (phonons c) acc;
  acc ← for_each (rhs_reservoir t) (polaritons c) acc;
  modify (with_this (set_evaluating_rhs false));;
  mret acc.1.

(** *** The two steppers *)

Definition get_time_step (c : t) : double := used_time_step c.
Definition get_state (c : t) : vec double := current_state c.
Definition get_time (c : t) : double := current_time c.

Definition do_step (dt : double) : M state unit :=
  c ← gets this;
  r ← odeint.do_step call (rk4_stepper c) (current_state c) (current_time c) dt;
  modify (with_this (fun c => set_current_state r.2 (set_rk4_stepper r.1 c)));;
  c ← gets this;
  unpack_state (current_state c);;
  modify (with_this (set_used_time_step dt)).

Definition adaptive_step (try_step : odeint.try_step_t double) : M state unit :=
  c ← gets this;
  r ← try_step state call (dopri5_stepper c) (current_state c) (current_time c)
               (used_time_step c);
  let '(stepper, x, t, dt) := r in
  modify (with_this (fun c =>
    set_used_time_step dt
      (set_current_time t (set_current_state x (set_dopri5_stepper stepper c)))));;
  c ← gets this;
  unpack_state (current_state c).

(** *** Construction *)

Definition check_polariton (_ : unit) (p : ptr) : M state unit := fun s =>
  match polariton_at (heap s) p with
  | Exn e => Throw e s
  | Val o =>
      match PolaritonMode.check o with
      | Exn e => Throw e s
      | Val o' =>
          Ok tt (mk_state (mkHeap (<[p := o']> (polariton_objects (heap s)))
                                  (phonon_objects (heap s))) (this s))
      end
  end.

Definition check_phonon (_ : unit) (ph : ptr) : M state unit := fun s =>
  match phonon_at (heap s) ph with
  | Exn e => Throw e s
  | Val o =>
      match PhononMode.check o with
      | Exn e => Throw e s
      | Val o' =>
          Ok tt (mk_state (mkHeap (polariton_objects (heap s))
                                  (<[ph := o']> (phonon_objects (heap s)))) (this s))
      end
  end.

Definition count_reservoir (N : nat) (p : ptr) : M state nat :=
  o ← deref_polariton p;
  match PolaritonMode.get_reservoir o with
  | Some _ => mret (N + 1)
  | None => mret N
  end.

(** The part of the main constructor after the member initialisers,
    shared with the end of [CavityConfig::load_from_ini]. *)
Definition assemble : M state unit :=
  c ← gets this;
  modify (with_this (set_dopri5_stepper
    (odeint.make_controlled (abs_stepper_tol c) (rel_stepper_tol c))));;
  for_each check_polariton (polaritons c) tt;;
  for_each check_phonon (phonons c) tt;;
  N ← for_each count_reservoir (polaritons c)
               (2 * length (polaritons c) + 2 * length (phonons c));
  modify (with_this (set_system_dimension N));;
  modify (with_this (fun c => set_current_state (set_size N (current_state c)) c));;
  pack_state.

(** [Cavity(polariton_modes, phonon_modes, t0)], run on a heap that holds
    the entities. *)
Definition new (polariton_modes phonon_modes : list ptr) (t0 : double)
    (h : Heap double) : outcome state unit :=
  assemble (mk_state h
    (set_current_time t0 (set_phonons phonon_modes (set_polaritons polariton_modes default)))).

Definition get_polariton (index : nat) (c : t) : result ptr :=
  match polaritons c !! index with
  | Some p => Val p
  | None => Exn (range_error "Polariton index out of bounds")
  end.

Definition get_phonon (index : nat) (c : t) : result ptr :=
  match phonons c !! index with
  | Some p => Val p
  | None => Exn (range_error "Phonon index out of bounds")
  end.
End defs.
Arguments t : clear implicits.
Arguments state : clear implicits.
End Cavity.

(** ** The configuration loader ([cavity_config.h]) *)

(** The operations of [std::string] used by the parser; [size_t] values are
    numbers below [2^64], and their arithmetic wraps. *)
Module cstring.
Definition npos : N := (2 ^ 64 - 1)%N.

Definition size_t (z : Z) : N := Z.to_N (z mod 2 ^ 64).

Definition size (s : string) : N := N.of_nat (String.length s).

(** [s.find(c)] *)
Fixpoint find_aux (c : ascii) (s : string) (i : N) : N :=
  match s with
  | EmptyString => npos
  | String a s' => if Ascii.eqb a c then i else find_aux c s' (N.succ i)
  end.
Definition find (s : string) (c : ascii) : N := find_aux c s 0%N.

(** [s.substr(pos, count)] *)
Definition substr (s : string) (pos count : N) : result string :=
  if (size s <? pos)%N then Exn (out_of_range "basic_string::substr")
  else Val (String.substring (N.to_nat pos)
                             (N.to_nat (N.min count (size s - pos))) s).

Definition is_space (a : ascii) : bool :=
  Ascii.eqb a " " || Ascii.eqb a "009" || Ascii.eqb a "013" || Ascii.eqb a "010".

Fixpoint drop_spaces (l : list ascii) : list ascii :=
  match l with
  | a :: l' => if is_space a then drop_spaces l' else l
  | [] => []
  end.

(** [ConfigParser::trim]: the part of [s] between its first and its last
    character outside [" \t\r\n"], empty when there is none. *)
Definition trim (s : string) : string :=
  string_of_list_ascii
    (rev (drop_spaces (rev (drop_spaces (list_ascii_of_string s))))).
End cstring.

(** The pieces of the C++ standard library behind [ConfigParser]: number
    parsing and the random engine with its two distributions. *)
Class StdLib (double : Type) := {
  mt19937 : Type;
  mt19937_seed : N -> mt19937;
  stod : string -> result double;
  stoul : string -> result N;
  uniform_real_distribution : double -> double -> mt19937 -> double * mt19937;
  normal_distribution : double -> double -> mt19937 -> double * mt19937
}.

Module ConfigParser.
Section defs.
Context {double : Type} `{!DoubleOps double} `{!StdLib double}.

(** [sections] lists the entries of the outer [unordered_map] in the
    order in which iterating over it visits them. *)
Record t := mk {
  rng : mt19937;
  sections : list (string * gmap string string)
}.

Definition set_seed (seed : N) (p : t) : t :=
  mk (mt19937_seed (seed mod 2 ^ 32)%N) (sections p).

(** The arguments [(a, b)] of a distribution expression, when the three
    delimiters are there. *)
Definition distribution_arguments (trimmed : string) : result (option (double * double)) :=
  let start := cstring.find trimmed "(" in
  let comma := cstring.find trimmed "," in
  let end_ := cstring.find trimmed ")" in
  if bool_decide (start ≠ cstring.npos ∧ comma ≠ cstring.npos ∧ end_ ≠ cstring.npos)
  then
    sa ← cstring.substr trimmed (start + 1)%N
           (cstring.size_t (Z.of_N comma - Z.of_N start - 1));
    a ← stod sa;
    sb ← cstring.substr trimmed (comma + 1)%N
           (cstring.size_t (Z.of_N end_ - Z.of_N comma - 1));
    b ← stod sb;
    mret (Some (a, b))
  else mret None.

Definition starts_with (n : N) (trimmed : string) (w1 w2 : string) : bool :=
  match cstring.substr trimmed 0 n with
  | Val pre => bool_decide (pre = w1) || bool_decide (pre = w2)
  | Exn _ => false
  end.

(** One of the two [if] blocks of [parse_expression]: [Some] when the
    block returns a drawn number, [None] when control falls through. *)
Definition distribution (n : N) (w1 w2 : string)
    (dist : double -> double -> mt19937 -> double * mt19937)
    (trimmed : string) : M t (option double) := fun p =>
  if starts_with n trimmed w1 w2 then
    match distribution_arguments trimmed with
    | Exn e => Throw e p
    | Val None => Ok None p
    | Val (Some (a, b)) =>
        let '(d, g) := dist a b (rng p) in Ok (Some d) (mk g (sections p))
    end
  else Ok None p.

Definition parse_expression (expr : string) : M t double :=
  let trimmed := cstring.trim expr in
  match stod trimmed with
  | Val d => mret d
  | Exn _ =>
      u ← distribution 7 "uniform" "Uniform" uniform_real_distribution trimmed;
      match u with
      | Some d => mret d
      | None =>
          n ← distribution 6 "normal" "Normal" normal_distribution trimmed;
          match n with
          | Some d => mret d
          | None => throw (runtime_error ("Cannot parse expression: " ++ expr))
          end
      end
  end.

Fixpoint find_section (l : list (string * gmap string string)) (section : string)
    : option (gmap string string) :=
  match l with
  | [] => None
  | (name, keys) :: l' => if bool_decide (name = section) then Some keys
                          else find_section l' section
  end.

Definition has_section (p : t) (section : string) : bool :=
  bool_decide (is_Some (find_section (sections p) section)).

Definition get_string (p : t) (section key default_val : string) : string :=
  match find_section (sections p) section with
  | None => default_val
  | Some keys => match keys !! key with
                 | None => default_val
                 | Some v => v
                 end
  end.

Definition get_double (section key : string) (default_val : double) : M t double :=
  p ← get;
  let val := get_string p section key EmptyString in
  if bool_decide (val = EmptyString) then mret default_val else parse_expression val.

Definition get_bool (p : t) (section key : string) (default_val : bool) : bool :=
  let val := get_string p section key EmptyString in
  if bool_decide (val = EmptyString) then default_val
  else bool_decide (val = "true") || bool_decide (val = "True")
       || bool_decide (val = "1") || bool_decide (val = "yes").

Definition get_sections_by_type (p : t) (type : string) : list string :=
  List.filter
    (fun name => match cstring.substr name 0 (cstring.size type) with
                 | Val pre => bool_decide (pre = type)
                 | Exn _ => false
                 end)
    (sections p).*1.

Definition extract_name (section : string) : string :=
  let space := cstring.find section " " in
  if bool_decide (space ≠ cstring.npos) then
    match cstring.substr section (space + 1)%N cstring.npos with
    | Val rest => cstring.trim rest
    | Exn _ => section
    end
  else section.
End defs.
Arguments t double {_}.
End ConfigParser.

Module CavityConfig.
Section defs.
Context {double : Type} `{!DoubleOps double} `{!StdLib double}.

Record t := mk {
  polariton_map : gmap string nat;
  phonon_map : gmap string nat
}.

(** The objects [load_from_ini] works on: [*this], the argument [cavity]
    together with the heap of entities, and the local [parser] as
    [parser.load(filename)] has left it (reading the file is outside the
    model). *)
Record state := mk_state {
  this : t;
  cavity : Cavity.state double;
  parser : ConfigParser.t double
}.

Definition on_parser {A} (m : M (ConfigParser.t double) A) : M state A := fun s =>
  match m (parser s) with
  | Ok a p => Ok a (mk_state (this s) (cavity s) p)
  | Throw e p => Throw e (mk_state (this s) (cavity s) p)
  end.

Definition on_cavity {A} (m : M (Cavity.state double) A) : M state A := fun s =>
  match m (cavity s) with
  | Ok a c => Ok a (mk_state (this s) c (parser s))
  | Throw e c => Throw e (mk_state (this s) c (parser s))
  end.

Definition get_double (section key : string) (default_val : double) : M state double :=
  on_parser (ConfigParser.get_double section key default_val).

Definition get_string (section key : string) : M state string :=
  gets (fun s => ConfigParser.get_string (parser s) section key EmptyString).

Definition get_sections_by_type (type : string) : M state (list string) :=
  gets (fun s => ConfigParser.get_sections_by_type (parser s) type).

(** [new PolaritonMode(gamma, U)]: the object is placed at an address
    the heap does not use yet. *)
Definition new_polariton (o : PolaritonMode.t double) : M state ptr := fun s =>
  let h := Cavity.heap (cavity s) in
  let a := fresh (dom (polariton_objects h)) in
  Ok a (mk_state (this s)
          (Cavity.mk_state (mkHeap (<[a := o]> (polariton_objects h)) (phonon_objects h))
                           (Cavity.this (cavity s)))
          (parser s)).

Definition new_phonon (o : PhononMode.t double) : M state ptr := fun s =>
  let h := Cavity.heap (cavity s) in
  let a := fresh (dom (phonon_objects h)) in
  Ok a (mk_state (this s)
          (Cavity.mk_state (mkHeap (polariton_objects h) (<[a := o]> (phonon_objects h)))
                           (Cavity.this (cavity s)))
          (parser s)).

Definition set_polariton_map (name : string) (id : nat) (s : state) : state :=
  mk_state (mk (<[name := id]> (polariton_map (this s))) (phonon_map (this s)))
           (cavity s) (parser s).

Definition set_phonon_map (name : string) (id : nat) (s : state) : state :=
  mk_state (mk (polariton_map (this s)) (<[name := id]> (phonon_map (this s))))
           (cavity s) (parser s).

(** [cavity.polaritons[id]] and [cavity.phonons[id]] *)
Definition polariton_ptr (id : nat) : M state ptr :=
  on_cavity (c ← gets Cavity.this; eval (vector_at (Cavity.polaritons c) id)).

Definition phonon_ptr (id : nat) : M state ptr :=
  on_cavity (c ← gets Cavity.this; eval (vector_at (Cavity.phonons c) id)).

(** The custom seed. *)
Definition seed_phase : M state unit :=
  s ← get;
  if ConfigParser.has_section (parser s) "global" then
    seed_str ← get_string "global" "random_seed";
    if bool_decide (seed_str ≠ "auto") && negb (bool_decide (seed_str = EmptyString)) then
      on_parser (fun p => match stoul seed_str with
                          | Val n => Ok tt (ConfigParser.set_seed n p)
                          | Exn e => Throw e p
                          end)
    else mret tt
  else mret tt.

(** Phase 1, the body of the loop over the polariton sections. *)
Definition create_polariton (_ : unit) (section : string) : M state unit :=
  let name := ConfigParser.extract_name section in
  gamma ← get_double section "gamma" (lit 1);
  U ← get_double section "U" (lit 0);
  id ← gets (fun s => length (Cavity.polaritons (Cavity.this (cavity s))));
  a ← new_polariton (PolaritonMode.new gamma U);
  on_cavity (modify (Cavity.with_this (fun c =>
    Cavity.set_polaritons (Cavity.polaritons c ++ [a]) c)));;
  modify (set_polariton_map name id);;
  re ← get_double section "initial_real" (lit 0);
  im ← get_double section "initial_imag" (lit 0);
  p ← polariton_ptr id;
  on_cavity (Cavity.call_polariton p (PolaritonMode.set_value (cx re im))).

(** Phase 2, the body of the loop over the phonon sections. *)
Definition create_phonon (_ : unit) (section : string) : M state unit :=
  let name := ConfigParser.extract_name section in
  omega ← get_double section "omega" (lit 20);
  gamma ← get_double section "gamma" (lit (5 # 100));
  id ← gets (fun s => length (Cavity.phonons (Cavity.this (cavity s))));
  a ← new_phonon (PhononMode.new omega gamma);
  on_cavity (modify (Cavity.with_this (fun c =>
    Cavity.set_phonons (Cavity.phonons c ++ [a]) c)));;
  modify (set_phonon_map name id);;
  x ← get_double section "initial_position" (lit 0);
  v ← get_double section "initial_velocity" (lit 0);
  ph ← phonon_ptr id;
  on_cavity (Cavity.call_phonon ph (PhononMode.set_position x));;
  ph ← phonon_ptr id;
  on_cavity (Cavity.call_phonon ph (PhononMode.set_velocity v)).

(** [map.find(name) == map.end()] throws, otherwise [map[name]]. *)
Definition resolve (map : state -> gmap string nat) (what name : string) : M state nat :=
  s ← get;
  match map s !! name with
  | None => throw (runtime_error (what ++ name))
  | Some id => mret id
  end.

(** Phase 3, the body of the loop over the reservoir sections. *)
Definition create_reservoir (_ : unit) (section : string) : M state unit :=
  target ← get_string section "target";
  pol_id ← resolve (fun s => polariton_map (this s)) "Reservoir target not found: " target;
  coupling ← get_double section "coupling" (lit 1);
  tau ← get_double section "tau" (lit 1);
  power ← get_double section "power" (lit 0);
  alpha_cfg ← get_double section "alpha" (lit 1);
  let alpha := dsqrt alpha_cfg in
  initial_n ← get_double section "n0" (lit 0);
  p ← polariton_ptr pol_id;
  on_cavity (Cavity.call_polariton p
               (PolaritonMode.add_reservoir p coupling tau power alpha initial_n)).

(** Phase 4, the body of the loop over the coupling sections. *)
Definition create_coupling (_ : unit) (section : string) : M state unit :=
  from ← get_string section "from";
  to ← get_string section "to";
  phonon ← get_string section "phonon";
  s ← get;
  if bool_decide (polariton_map (this s) !! from = None)
  then throw (runtime_error ("Coupling 'from' not found: " ++ from))
  else if bool_decide (polariton_map (this s) !! to = None)
  then throw (runtime_error ("Coupling 'to' not found: " ++ to))
  else if bool_decide (phonon_map (this s) !! phonon = None)
  then throw (runtime_error ("Coupling phonon not found: " ++ phonon))
  else
    let from_id := default 0 (polariton_map (this s) !! from) in
    let to_id := default 0 (polariton_map (this s) !! to) in
    let ph_id := default 0 (phonon_map (this s) !! phonon) in
    J ← get_double section "J" (lit 0);
    g ← get_double section "g" (lit 1);
    delta ← get_double section "delta" (lit 0);
    above ← gets (fun s => ConfigParser.get_bool (parser s) section "above" true);
    p_from ← polariton_ptr from_id;
    p_to ← polariton_ptr to_id;
    ph ← phonon_ptr ph_id;
    on_cavity (Cavity.call_polariton p_from
                 (PolaritonMode.connect p_to ph J g delta above)).

(** [s.erase(0, s.find_first_not_of(" \t"))] *)
Fixpoint drop_blanks (s : string) : string :=
  match s with
  | String a s' => if Ascii.eqb a " " || Ascii.eqb a "009" then drop_blanks s' else s
  | EmptyString => EmptyString
  end.

(** Phase 5, the body of the loop over the pairing sections. *)
Definition create_pairing (_ : unit) (section : string) : M state unit :=
  phonon ← get_string section "phonon";
  sites_str ← get_string section "sites";
  ph_id ← resolve (fun s => phonon_map (this s)) "Pairing phonon not found: " phonon;
  let comma := cstring.find sites_str "," in
  if bool_decide (comma = cstring.npos)
  then throw (runtime_error "Pairing sites must be comma-separated")
  else
    site1 ← on_cavity (eval (cstring.substr sites_str 0 comma));
    site2 ← on_cavity (eval (cstring.substr sites_str (comma + 1)%N cstring.npos));
    let site1 := drop_blanks site1 in
    let site2 := drop_blanks site2 in
    p1_id ← resolve (fun s => polariton_map (this s)) "Pairing site not found: " site1;
    p2_id ← resolve (fun s => polariton_map (this s)) "Pairing site not found: " site2;
    g ← get_double section "g" (lit 1);
    delta ← get_double section "delta" (lit 0);
    ph ← phonon_ptr ph_id;
    p1 ← polariton_ptr p1_id;
    p2 ← polariton_ptr p2_id;
    on_cavity (Cavity.call_phonon ph (PhononMode.add_pairing (p1, p2) delta g)).

(** Everything up to and including phase 3. *)
Definition create_entities : M state unit :=
  seed_phase;;
  polariton_sections ← get_sections_by_type "polariton";
  for_each create_polariton polariton_sections tt;;
  phonon_sections ← get_sections_by_type "phonon";
  for_each create_phonon phonon_sections tt;;
  reservoir_sections ← get_sections_by_type "reservoir";
  for_each create_reservoir reservoir_sections tt.

(** The last block: "Initialize cavity". *)
Definition initialize_cavity : M state unit :=
  t0 ← get_double "global" "time" (lit 0);
  on_cavity (modify (Cavity.with_this (Cavity.set_current_time t0)));;
  on_cavity Cavity.assemble.

(** [load_from_ini(cavity, filename)] from the statement after
    [parser.load(filename)] on. *)
Definition load_from_ini : M state unit :=
  create_entities;;
  coupling_sections ← get_sections_by_type "coupling";
  for_each create_coupling coupling_sections tt;;
  pairing_sections ← get_sections_by_type "pairing";
  for_each create_pairing pairing_sections tt;;
  initialize_cavity.

Definition get_polariton_id (name : string) (c : t) : result nat :=
  match polariton_map c !! name with
  | Some id => Val id
  | None => Exn (runtime_error ("Polariton not found: " ++ name))
  end.

Definition get_phonon_id (name : string) (c : t) : result nat :=
  match phonon_map c !! name with
  | Some id => Val id
  | None => Exn (runtime_error ("Phonon not found: " ++ name))
  end.
End defs.
Arguments state double {_}.
End CavityConfig.

(** What stays fixed while a configuration with an unresolvable name [to]
    is being loaded: the name stays unresolvable, the sections stay the
    sections, and the cavity's dimension and state vector are not touched. *)
Definition loading {double : Type} `{!DoubleOps double} `{!StdLib double}
    (to : string) (secs : list (string * gmap string string))
    (d : nat) (cs : vec double) (st : CavityConfig.state double) : Prop :=
  CavityConfig.polariton_map (CavityConfig.this st) !! to = None /\
  ConfigParser.sections (CavityConfig.parser st) = secs /\
  Cavity.system_dimension (Cavity.this (CavityConfig.cavity st)) = d /\
  Cavity.current_state (Cavity.this (CavityConfig.cavity st)) = cs.

(** ** The layout of the flat state vector, as a specification

    These definitions are not translated from code: they say what the
    loops of [pack_state], [unpack_state] and [operator()] are proved to
    compute. *)

(** A component of the flat state vector stands for one real field of one
    entity. *)
Inductive slot :=
| Re (p : ptr) | Im (p : ptr)
| Position (ph : ptr) | Velocity (ph : ptr)
| Reservoir (p : ptr).

#[export] Instance slot_eq_dec : EqDecision slot.
Proof. solve_decision. Defined.

Section layout.
Context {double : Type} `{!DoubleOps double}.
Local Open Scope list_scope.

Definition owns_reservoir (h : Heap double) (p : ptr) : bool :=
  match polariton_objects h !! p with
  | Some o => match PolaritonMode.reservoir_owned o with Some _ => true | None => false end
  | None => false
  end.

(** The oscillators that own a reservoir, in creation order. *)
Definition owners (h : Heap double) (ps : list ptr) : list ptr :=
  List.filter (owns_reservoir h) ps.

Definition polariton_slots (ps : list ptr) : list slot :=
  ps ≫= (fun p => [Re p; Im p]).

Definition phonon_slots (phs : list ptr) : list slot :=
  phs ≫= (fun ph => [Position ph; Velocity ph]).

Definition reservoir_slots (h : Heap double) (ps : list ptr) : list slot :=
  Reservoir <$> owners h ps.

Definition layout (h : Heap double) (ps phs : list ptr) : list slot :=
  polariton_slots ps ++ phonon_slots phs ++ reservoir_slots h ps.

Definition read_slot (h : Heap double) (s : slot) : option double :=
  match s with
  | Re p => o ← polariton_objects h !! p; Some (real (PolaritonMode.value o))
  | Im p => o ← polariton_objects h !! p; Some (imag (PolaritonMode.value o))
  | Position ph => o ← phonon_objects h !! ph; Some (PhononMode.position o)
  | Velocity ph => o ← phonon_objects h !! ph; Some (PhononMode.velocity o)
  | Reservoir p =>
      o ← polariton_objects h !! p;
      r ← PolaritonMode.reservoir_owned o;
      Some (NonResonantDriving.value r)
  end.

Definition write_slot (h : Heap double) (w : slot * double) : Heap double :=
  let v := w.2 in
  match w.1 with
  | Re p =>
      mkHeap (alter (fun o => PolaritonMode.set_value
                                (cx v (imag (PolaritonMode.value o))) o)
                    p (polariton_objects h)) (phonon_objects h)
  | Im p =>
      mkHeap (alter (fun o => PolaritonMode.set_value
                                (cx (real (PolaritonMode.value o)) v) o)
                    p (polariton_objects h)) (phonon_objects h)
  | Position ph =>
      mkHeap (polariton_objects h) (alter (PhononMode.set_position v) ph (phonon_objects h))
  | Velocity ph =>
      mkHeap (polariton_objects h) (alter (PhononMode.set_velocity v) ph (phonon_objects h))
  | Reservoir p =>
      mkHeap (alter (PolaritonMode.set_reservoir_value v) p (polariton_objects h))
             (phonon_objects h)
  end.

(** The heap after the components of [x] have been stored into the
    fields the layout assigns to them, in order. *)
Definition unpacked (h : Heap double) (ps phs : list ptr) (x : vec double) : Heap double :=
  foldl write_slot h (zip (layout h ps phs) x).

(** Every pointer of the cavity points to an object. *)
Definition pointers_valid (h : Heap double) (ps phs : list ptr) : Prop :=
  Forall (fun p => is_Some (polariton_objects h !! p)) ps ∧
  Forall (fun ph => is_Some (phonon_objects h !! ph)) phs.

(** The invariant the constructor establishes: the pointers are valid and
    both the recorded dimension and the size of the state vector are the
    length of the layout. *)
Definition assembled (s : Cavity.state double) : Prop :=
  let c := Cavity.this s in
  pointers_valid (Cavity.heap s) (Cavity.polaritons c) (Cavity.phonons c) ∧
  Cavity.system_dimension c
    = length (layout (Cavity.heap s) (Cavity.polaritons c) (Cavity.phonons c)) ∧
  length (Cavity.current_state c) = Cavity.system_dimension c.

(** Two heaps hold the same objects with the same state; they may differ
    in the link counters that [check] refreshes. *)
Definition same_entities (h h' : Heap double) : Prop :=
  (forall p, is_Some (polariton_objects h' !! p) <-> is_Some (polariton_objects h !! p)) /\
  (forall p, is_Some (phonon_objects h' !! p) <-> is_Some (phonon_objects h !! p)) /\
  (forall s, read_slot h' s = read_slot h s).

(** The rows the three loops of [operator()] write, computed without a
    buffer. *)
Fixpoint polariton_rows (h : Heap double) (t : double) (ps : list ptr)
    : result (list double) :=
  match ps with
  | [] => Val []
  | p :: ps' =>
      o ← polariton_at h p;
      d ← PolaritonMode_derivative h o t;
      rest ← polariton_rows h t ps';
      mret (real d :: imag d :: rest)
  end.

Fixpoint phonon_rows (h : Heap double) (t : double) (phs : list ptr)
    : result (list double) :=
  match phs with
  | [] => Val []
  | ph :: phs' =>
      o ← phonon_at h ph;
      a ← PhononMode_second_derivative h o t;
      rest ← phonon_rows h t phs';
      mret (PhononMode.get_velocity o :: a :: rest)
  end.

Fixpoint reservoir_rows (h : Heap double) (t : double) (ps : list ptr)
    : result (list double) :=
  match ps with
  | [] => Val []
  | p :: ps' =>
      o ← polariton_at h p;
      match PolaritonMode.get_reservoir o with
      | Some r =>
          d ← NonResonantDriving_derivative h r t;
          rest ← reservoir_rows h t ps';
          mret (d :: rest)
      | None => reservoir_rows h t ps'
      end
  end.

(** The vector field as a function of the time, the state vector and the
    entities' parameters. *)
Definition vector_field (h : Heap double) (ps phs : list ptr) (x : vec double) (t : double)
    : result (vec double) :=
  let h' := unpacked h ps phs x in
  a ← polariton_rows h' t ps;
  b ← phonon_rows h' t phs;
  c ← reservoir_rows h' t ps;
  mret (a ++ b ++ c).
End layout.

(** ** Real arithmetic: the laws the derivative claims are stated with *)

Section real_laws.
Local Open Scope R_scope.

(** [|z|^2] *)
Definition Cnorm2 (z : cx_double R) : R := real z * real z + imag z * imag z.

(** [exp(i theta)] *)
Definition expi (theta : R) : cx_double R := cx (cos theta) (sin theta).

(** The imaginary unit and the embedding of the reals. *)
Definition Ci : cx_double R := cx 0 1.
Definition of_real (x : R) : cx_double R := cx x 0.

Definition Csub (a b : cx_double R) : cx_double R :=
  cx (real a - real b) (imag a - imag b).

(** [-i*value*(-i*gamma + U*|value|^2) - i*drive_amp*exp(i*detuning*t)] *)
Definition free_oscillator_law (value : cx_double R) (gamma U : R)
    (drive_amp : cx_double R) (detuning t : R) : cx_double R :=
  Csub (mul (mul (neg Ci) value)
            (add (mul_d (neg Ci) gamma) (of_real (U * Cnorm2 value))))
       (mul (mul Ci drive_amp) (expi (detuning * t))).

(** The same with the reservoir term:
    [-i*value*(-i*gamma + U*|value|^2 + i*xi*n) - i*drive_amp*exp(i*detuning*t)] *)
Definition pumped_oscillator_law (value : cx_double R) (gamma U xi n : R)
    (drive_amp : cx_double R) (detuning t : R) : cx_double R :=
  Csub (mul (mul (neg Ci) value)
            (add (add (mul_d (neg Ci) gamma) (of_real (U * Cnorm2 value)))
                 (mul_d Ci (xi * n))))
       (mul (mul Ci drive_amp) (expi (detuning * t))).

(** The reservoir an oscillator feels: coupling and value, zero without
    one. *)
Definition reservoir_term (p : PolaritonMode.t R) : R * R :=
  match PolaritonMode.reservoir_owned p with
  | Some r => (PolaritonMode.reservoir_coupling p, NonResonantDriving.value r)
  | None => (PolaritonMode.reservoir_coupling p, 0)
  end.

(** The six parallel arrays of an oscillator have [n_neighbors] entries
    and its links point to objects. *)
Definition links_resolve {double : Type} (h : Heap double) (p : PolaritonMode.t double)
    : Prop :=
  let n := PolaritonMode.n_neighbors p in
  length (PolaritonMode.neighboring_polaritons p) = n /\
  length (PolaritonMode.neighboring_phonons p) = n /\
  length (PolaritonMode.constant_couplings p) = n /\
  length (PolaritonMode.phonon_couplings p) = n /\
  length (PolaritonMode.detunings_from_resonance p) = n /\
  length (PolaritonMode.signs p) = n /\
  Forall (fun a => is_Some (polariton_objects h !! a)) (PolaritonMode.neighboring_polaritons p) /\
  Forall (fun a => is_Some (phonon_objects h !! a)) (PolaritonMode.neighboring_phonons p).

(** All links have [J = 0] and [g = 0]. *)
Definition links_uncoupled (p : PolaritonMode.t R) : Prop :=
  Forall (fun J => real J = 0 /\ imag J = 0) (PolaritonMode.constant_couplings p) /\
  Forall (fun g => real g = 0 /\ imag g = 0) (PolaritonMode.phonon_couplings p).

(** The three parallel arrays of a mechanical mode have [n_pairings]
    entries and its pairs point to objects. *)
Definition pairings_resolve {double : Type} (h : Heap double) (ph : PhononMode.t double)
    : Prop :=
  let n := PhononMode.n_pairings ph in
  length (PhononMode.pairs ph) = n /\
  length (PhononMode.detunings ph) = n /\
  length (PhononMode.couplings ph) = n /\
  Forall (fun pr => is_Some (polariton_objects h !! pr.1) /\
                    is_Some (polariton_objects h !! pr.2)) (PhononMode.pairs ph).
End real_laws.

(** ** Concrete inputs *)

(** The default-constructed cavity [Cavity model;] on a heap without
    entities, in real arithmetic. *)
Definition empty_cavity : Cavity.state R := Cavity.mk_state (mkHeap ∅ ∅) Cavity.default.

(** An oscillator without links, without damping, nonlinearity or drive, at
    amplitude [1 + 0i], to which [add_reservoir(1, 1, 0, 0, 1)] has given a
    reservoir of coupling [1] and value [1]; it lives at address [1]. *)
Definition pumped_site : PolaritonMode.t R :=
  PolaritonMode.add_reservoir 1 1%R 1%R 0%R 0%R 1%R
    (PolaritonMode.set_value (cx 1%R 0%R) (PolaritonMode.new 0%R 0%R)).

Definition pumped_heap : Heap R := mkHeap {[ 1 := pumped_site ]} ∅.

(** The two-site model of the driver scripts: two oscillators at addresses
    [1] and [2], each with a reservoir, linked to each other through the
    mechanical mode at address [1] of the phonon heap, which pairs them. *)
Definition site_1 : PolaritonMode.t R :=
  PolaritonMode.connect 2 1 (1 / 2)%R 1%R 0%R true
    (PolaritonMode.add_reservoir 1 1%R 1%R 12%R 2%R (1 / 4)%R
       (PolaritonMode.set_driving (cx 1%R 0%R) (6 / 10)%R
          (PolaritonMode.set_value (cx (1 / 2)%R (1 / 3)%R) (PolaritonMode.new 1%R 0%R)))).

Definition site_2 : PolaritonMode.t R :=
  PolaritonMode.connect 1 1 (1 / 2)%R 1%R 0%R false
    (PolaritonMode.add_reservoir 2 1%R 1%R 6%R (21 / 10)%R 3%R
       (PolaritonMode.set_value (cx (1 / 5)%R (1 / 7)%R) (PolaritonMode.new 1%R 0%R))).

Definition phonon_1 : PhononMode.t R :=
  PhononMode.add_pairing (1, 2) 0%R 1%R
    (PhononMode.set_velocity 100%R
       (PhononMode.set_position 5%R (PhononMode.new 20%R (5 / 100)%R))).

Definition two_site_heap : Heap R :=
  mkHeap (<[2 := site_2]> {[ 1 := site_1 ]}) {[ 1 := phonon_1 ]}.

(** The state [Cavity model(sites, phonons, 0.0)] leaves. *)
Definition two_site_cavity : Cavity.state R :=
  match Cavity.new [1; 2] [1] 0%R two_site_heap with
  | Ok _ s | Throw _ s => s
  end.

(** A state vector of dimension eight. *)
Definition eight : vec R := [1; 2; 3; 4; 5; 6; 7; 8]%R.

(** A standard library for the closed examples.  [stod] and [stoul] read
    plain decimal numerals (an optional sign, digits, an optional fraction;
    what follows the numeral is ignored, as [std::stod] does); the random
    engine is a counter, a uniform draw is the lower bound and a normal
    draw is the mean. *)
Module example_lib.
Definition digit (a : ascii) : option N :=
  let n := N_of_ascii a in
  if ((48 <=? n) && (n <=? 57))%N then Some (n - 48)%N else None.

(** The leading digits of [s]: their value, their number, the rest. *)
Fixpoint digits (s : string) (acc : N) (k : nat) : N * nat * string :=
  match s with
  | String a s' =>
      match digit a with
      | Some d => digits s' (10 * acc + d)%N (S k)
      | None => (acc, k, s)
      end
  | EmptyString => (acc, k, s)
  end.

Definition decimal (s : string) : option Q :=
  let '(negative, s) :=
    match s with
    | String "-" s' => (true, s')
    | String "+" s' => (false, s')
    | _ => (false, s)
    end in
  let '(ip, k1, rest) := digits s 0 0 in
  let '(fp, k2, _) :=
    match rest with
    | String "." r => digits r 0 0
    | _ => (0%N, 0, rest)
    end in
  if (k1 + k2 =? 0)%nat then None
  else
    let q := Qmake (Z.of_N (ip * 10 ^ N.of_nat k2 + fp)) (Pos.pow 10 (Pos.of_nat k2)) in
    Some (if negative then Qopp q else q).

Definition read_double (s : string) : result R :=
  match decimal s with
  | Some q => Val (Q2R q)
  | None => Exn (invalid_argument "stod")
  end.

Definition read_unsigned (s : string) : result N :=
  match digits s 0 0 with
  | (_, O, _) => Exn (invalid_argument "stoul")
  | (n, _, _) => Val n
  end.

#[export] Instance lib : StdLib R := {|
  mt19937 := N;
  mt19937_seed := fun n => n;
  stod := read_double;
  stoul := read_unsigned;
  uniform_real_distribution := fun a _ g => (a, N.succ g);
  normal_distribution := fun m _ g => (m, N.succ g)
|}.
End example_lib.

(** The loader on a default-constructed cavity, after [parser.load] has read
    the sections [secs]. *)
Definition loaded (secs : list (string * gmap string string)) : CavityConfig.state R :=
  CavityConfig.mk_state (CavityConfig.mk ∅ ∅) empty_cavity
    (ConfigParser.mk (example_lib.lib.(mt19937_seed) 0%N) secs).

Definition global_section : string * gmap string string :=
  ("global", <["random_seed" := "42"]> {[ "time" := "0.0" ]}).

Definition site_1_section : string * gmap string string :=
  ("polariton site_1",
   <["gamma" := "1.0"]> (<["U" := "0.01"]> {[ "initial_real" := "0.5" ]})).

Definition mech_section : string * gmap string string :=
  ("phonon mech", <["omega" := "20.0"]> {[ "gamma" := "0.05" ]}).

Definition pump_section : string * gmap string string :=
  ("reservoir pump_1",
   <["target" := "site_1"]> (<["alpha" := "4"]> (<["power" := "12.0"]> {[ "n0" := "0.25" ]}))).

(** A coupling whose ['to'] names a site the file does not declare. *)
Definition dangling_to : list (string * gmap string string) :=
  [ global_section; site_1_section; mech_section; pump_section;
    ("coupling link",
     <["from" := "site_1"]> (<["to" := "site_9"]> {[ "phonon" := "mech" ]})) ].

(** The same with a ['from'] that is not declared either. *)
Definition dangling_both : list (string * gmap string string) :=
  [ global_section; site_1_section; mech_section; pump_section;
    ("coupling link",
     <["from" := "site_7"]> (<["to" := "site_9"]> {[ "phonon" := "mech" ]})) ].



(** ** Substrings, decided *)

Fixpoint occurs (sub s : string) : bool :=
  String.prefix sub s ||
  match s with
  | String _ s' => occurs sub s'
  | EmptyString => false
  end.

(** ** Doubles with their special values *)

(** A double as IEEE 754 classifies it: a number, an infinity or NaN.
    Arithmetic on numbers is exact (rounding, overflow and the sign of zero
    are left out); an operation that involves an infinity or NaN gives what
    IEEE 754 prescribes, so that [0 * inf] is NaN and NaN propagates. *)
Inductive ieee := Num (x : R) | Inf (negative : bool) | NaN.

Module ieee_ops.
Local Open Scope R_scope.

Definition negative (x : R) : bool := if Rlt_dec x 0 then true else false.

Definition add (a b : ieee) : ieee :=
  match a, b with
  | NaN, _ | _, NaN => NaN
  | Num x, Num y => Num (x + y)
  | Inf s, Num _ | Num _, Inf s => Inf s
  | Inf s, Inf s' => if Bool.eqb s s' then Inf s else NaN
  end.

Definition neg (a : ieee) : ieee :=
  match a with
  | Num x => Num (- x)
  | Inf s => Inf (negb s)
  | NaN => NaN
  end.

Definition sub (a b : ieee) : ieee := add a (neg b).

Definition mul (a b : ieee) : ieee :=
  match a, b with
  | NaN, _ | _, NaN => NaN
  | Num x, Num y => Num (x * y)
  | Num x, Inf s | Inf s, Num x =>
      if Req_dec_T x 0 then NaN else Inf (xorb (negative x) s)
  | Inf s, Inf s' => Inf (xorb s s')
  end.

Definition div (a b : ieee) : ieee :=
  match a, b with
  | NaN, _ | _, NaN => NaN
  | Num x, Num y =>
      if Req_dec_T y 0 then (if Req_dec_T x 0 then NaN else Inf (negative x))
      else Num (x / y)
  | Num _, Inf _ => Num 0
  | Inf s, Num y => Inf (xorb s (negative y))
  | Inf _, Inf _ => NaN
  end.

Definition sqrt (a : ieee) : ieee :=
  match a with
  | Num x => if Rlt_dec x 0 then NaN else Num (R_sqrt.sqrt x)
  | Inf false => Inf false
  | Inf true => NaN
  | NaN => NaN
  end.

Definition cos (a : ieee) : ieee :=
  match a with
  | Num x => Num (Rtrigo_def.cos x)
  | _ => NaN
  end.

Definition sin (a : ieee) : ieee :=
  match a with
  | Num x => Num (Rtrigo_def.sin x)
  | _ => NaN
  end.
End ieee_ops.

#[export] Instance ieee_double : DoubleOps ieee := {|
  lit := fun q => Num (Q2R q);
  dadd := ieee_ops.add;
  dsub := ieee_ops.sub;
  dmul := ieee_ops.mul;
  ddiv := ieee_ops.div;
  dneg := ieee_ops.neg;
  dsqrt := ieee_ops.sqrt;
  dcos := ieee_ops.cos;
  dsin := ieee_ops.sin;
  uninit := fun _ => Num 0%R
|}.

Section finite_values.
Local Open Scope double_scope.

(** A double that is neither an infinity nor NaN, and a complex number
    with two such parts. *)
Definition is_num (a : ieee) : Prop :=
  match a with
  | Num _ => True
  | _ => False
  end.

Definition cx_num (z : cx_double ieee) : Prop := is_num (real z) /\ is_num (imag z).

(** A complex number of real arithmetic as a complex double. *)
Definition of_reals (z : cx_double R) : cx_double ieee := cx (Num (real z)) (Num (imag z)).

(** All links have [J = 0] and [g = 0]. *)
Definition zero_links (p : PolaritonMode.t ieee) : Prop :=
  Forall (fun J => J = cx (Num 0%R) (Num 0%R)) (PolaritonMode.constant_couplings p) /\
  Forall (fun g => g = cx (Num 0%R) (Num 0%R)) (PolaritonMode.phonon_couplings p).

(** What the couplings of the links are multiplied with at time [t] is
    finite: the position of every linked mode, the phase factor of every
    link and the amplitude of every linked oscillator. *)
Definition links_finite (h : Heap ieee) (p : PolaritonMode.t ieee) (t : ieee) : Prop :=
  (forall i a ph,
     PolaritonMode.neighboring_phonons p !! i = Some a ->
     phonon_objects h !! a = Some ph ->
     is_num (PhononMode.get_position ph) /\
     forall sign delta,
       PolaritonMode.signs p !! i = Some sign ->
       PolaritonMode.detunings_from_resonance p !! i = Some delta ->
       cx_num (polar (lit 1) (sign * (PhononMode.get_freq ph + delta) * t))) /\
  (forall i b nb,
     PolaritonMode.neighboring_polaritons p !! i = Some b ->
     polariton_objects h !! b = Some nb ->
     cx_num (PolaritonMode.get_value nb)).

(** The oscillator's own state holds the given numbers; [n] is the value
    of its reservoir, [0] when it has none. *)
Definition local_state (p : PolaritonMode.t ieee) (value : cx_double R)
    (gamma U xi n : R) (drive_amp : cx_double R) (detuning : R) : Prop :=
  PolaritonMode.value p = of_reals value /\
  PolaritonMode.dissipative_gamma p = Num gamma /\
  PolaritonMode.self_interaction p = Num U /\
  PolaritonMode.reservoir_coupling p = Num xi /\
  match PolaritonMode.reservoir_owned p with
  | Some r => NonResonantDriving.value r = Num n
  | None => n = 0%R
  end /\
  PolaritonMode.r_driving_amp p = of_reals drive_amp /\
  PolaritonMode.r_driving_detuning p = Num detuning.

(** All pairings have coupling [0]. *)
Definition zero_pairings (ph : PhononMode.t ieee) : Prop :=
  Forall (fun c => c = Num 0%R) (PhononMode.couplings ph).

(** What the couplings of the pairings are multiplied with at time [t]
    is finite: the phase factor of every pairing and the amplitudes of
    the two oscillators it pairs. *)
Definition pairings_finite (h : Heap ieee) (ph : PhononMode.t ieee) (t : ieee) : Prop :=
  (forall i delta,
     PhononMode.detunings ph !! i = Some delta ->
     cx_num (polar (lit 1) (- (PhononMode.frequency ph + delta) * t))) /\
  (forall i pr p0 p1,
     PhononMode.pairs ph !! i = Some pr ->
     polariton_objects h !! pr.1 = Some p0 ->
     polariton_objects h !! pr.2 = Some p1 ->
     cx_num (PolaritonMode.get_value p0) /\ cx_num (PolaritonMode.get_value p1)).
End finite_values.

(** *** Concrete inputs with special values *)

(** An oscillator at [gamma = 1], [U = 0], no drive, no reservoir and
    [value = 1 + 0i], linked to the oscillator at address [2] through the
    mode at address [1] with [J = 0] and [g = 0]. *)
Definition idle_site : PolaritonMode.t ieee :=
  PolaritonMode.connect 2 1 (Num 0%R) (Num 0%R) (Num (1 / 2)%R) true
    (PolaritonMode.set_driving (cx (Num 0%R) (Num 0%R)) (Num 0%R)
       (PolaritonMode.set_value (cx (Num 1%R) (Num 0%R))
          (PolaritonMode.new (Num 1%R) (Num 0%R)))).

(** A mechanical mode at [Omega = 20], [Gamma = 0.05], [position = 1],
    [velocity = 0] that pairs the oscillators at [1] and [2] with coupling
    [0]. *)
Definition idle_mode : PhononMode.t ieee :=
  PhononMode.add_pairing (1, 2) (Num 3%R) (Num 0%R)
    (PhononMode.set_velocity (Num 0%R)
       (PhononMode.set_position (Num 1%R) (PhononMode.new (Num 20%R) (Num (5 / 100)%R)))).

(** The second oscillator, at a finite amplitude and after its amplitude
    has diverged. *)
Definition calm_site : PolaritonMode.t ieee :=
  PolaritonMode.set_value (cx (Num (1 / 5)%R) (Num (1 / 7)%R))
    (PolaritonMode.new (Num 1%R) (Num 0%R)).

Definition diverged_site : PolaritonMode.t ieee :=
  PolaritonMode.set_value (cx (Inf false) (Num 0%R)) (PolaritonMode.new (Num 1%R) (Num 0%R)).

Definition calm_heap : Heap ieee :=
  mkHeap (<[2 := calm_site]> {[ 1 := idle_site ]}) {[ 1 := idle_mode ]}.

Definition diverged_heap : Heap ieee :=
  mkHeap (<[2 := diverged_site]> {[ 1 := idle_site ]}) {[ 1 := idle_mode ]}.

(** ** Objects as the public interface builds them *)

Section built.
Context {double : Type} `{!DoubleOps double}.

(** The oscillators that can be reached from the constructor through the
    public methods of [PolaritonMode] (and, for the reservoir's value,
    through [get_reservoir()->set_value]). *)
Inductive polariton_built : PolaritonMode.t double -> Prop :=
| built_new gamma U :
    polariton_built (PolaritonMode.new gamma U)
| built_connect polariton phonon J g delta above o :
    polariton_built o ->
    polariton_built (PolaritonMode.connect polariton phonon J g delta above o)
| built_add_reservoir this coupling tau P alpha n0 o :
    polariton_built o ->
    polariton_built (PolaritonMode.add_reservoir this coupling tau P alpha n0 o)
| built_set_value v o :
    polariton_built o -> polariton_built (PolaritonMode.set_value v o)
| built_set_driving amp detuning o :
    polariton_built o -> polariton_built (PolaritonMode.set_driving amp detuning o)
| built_set_reservoir_value n o :
    polariton_built o -> polariton_built (PolaritonMode.set_reservoir_value n o)
| built_check o o' :
    polariton_built o -> PolaritonMode.check o = Val o' -> polariton_built o'.

(** The same for [PhononMode]. *)
Inductive phonon_built : PhononMode.t double -> Prop :=
| phonon_built_new Omega Gamma :
    phonon_built (PhononMode.new Omega Gamma)
| phonon_built_add_pairing pair delta coupling o :
    phonon_built o -> phonon_built (PhononMode.add_pairing pair delta coupling o)
| phonon_built_set_position x o :
    phonon_built o -> phonon_built (PhononMode.set_position x o)
| phonon_built_set_velocity v o :
    phonon_built o -> phonon_built (PhononMode.set_velocity v o)
| phonon_built_check o o' :
    phonon_built o -> PhononMode.check o = Val o' -> phonon_built o'.

(** The six parallel arrays of an oscillator have [n_neighbors] entries. *)
Definition polariton_consistent (o : PolaritonMode.t double) : Prop :=
  let n := PolaritonMode.n_neighbors o in
  length (PolaritonMode.neighboring_polaritons o) = n /\
  length (PolaritonMode.neighboring_phonons o) = n /\
  length (PolaritonMode.constant_couplings o) = n /\
  length (PolaritonMode.phonon_couplings o) = n /\
  length (PolaritonMode.detunings_from_resonance o) = n /\
  length (PolaritonMode.signs o) = n.

(** The three parallel arrays of a mechanical mode have [n_pairings]
    entries. *)
Definition phonon_consistent (o : PhononMode.t double) : Prop :=
  let n := PhononMode.n_pairings o in
  length (PhononMode.pairs o) = n /\
  length (PhononMode.detunings o) = n /\
  length (PhononMode.couplings o) = n.
(** The exceptions a [check] loop can end with. *)
Definition check_failure (e : exn) : Prop :=
  e = domain_error "All system arrays must have the same dimensions" \/
  e = undefined_behavior "dereference of an invalid PolaritonMode*" \/
  e = undefined_behavior "dereference of an invalid PhononMode*".
End built.

(** ** Systems whose links lead somewhere *)

Section wired.
Context {double : Type} `{!DoubleOps double}.

(** The link arrays of an oscillator are consistent, its neighbours are
    objects of the heap, and so is the oscillator its reservoir points
    back to. *)
Definition polariton_wired (h : Heap double) (o : PolaritonMode.t double) : Prop :=
  polariton_consistent o /\
  Forall (fun a => is_Some (polariton_objects h !! a))
         (PolaritonMode.neighboring_polaritons o) /\
  Forall (fun a => is_Some (phonon_objects h !! a))
         (PolaritonMode.neighboring_phonons o) /\
  match PolaritonMode.reservoir_owned o with
  | Some r => is_Some (polariton_objects h !! NonResonantDriving.polariton r)
  | None => True
  end.

(** The pairing arrays of a mechanical mode are consistent and its pairs
    are objects of the heap. *)
Definition phonon_wired (h : Heap double) (o : PhononMode.t double) : Prop :=
  phonon_consistent o /\
  Forall (fun pr => is_Some (polariton_objects h !! pr.1) /\
                    is_Some (polariton_objects h !! pr.2)) (PhononMode.pairs o).

(** Every entity of the cavity is wired. *)
Definition wired (h : Heap double) (ps phs : list nat) : Prop :=
  Forall (fun p => exists o, polariton_objects h !! p = Some o /\ polariton_wired h o) ps /\
  Forall (fun ph => exists o, phonon_objects h !! ph = Some o /\ phonon_wired h o) phs.
End wired.

(** ** The classical Runge-Kutta step of a vector field *)

Section rk4.
Context {double : Type} `{!DoubleOps double}.
Local Open Scope double_scope.

(** [x + dt/6 (k1 + 2 k2 + 2 k3 + k4)] with the four stages of the
    classical tableau, for a vector field that may fail. *)
Definition rk4_step (f : vec double -> double -> result (vec double))
    (x : vec double) (t dt : double) : result (vec double) :=
  let half := lit 1 / lit 2 in
  k1 ← f x t;
  k2 ← f (odeint.scale_sum x (dt * half) k1) (t + dt * half);
  k3 ← f (odeint.scale_sum x (dt * half) k2) (t + dt * half);
  k4 ← f (odeint.scale_sum x (dt * lit 1) k3) (t + dt * lit 1);
  mret (odeint.scale_sum
          (odeint.scale_sum
             (odeint.scale_sum
                (odeint.scale_sum x (dt * (lit 1 / lit 6)) k1)
                (dt * (lit 1 / lit 3)) k2)
             (dt * (lit 1 / lit 3)) k3)
          (dt * (lit 1 / lit 6)) k4).
End rk4.

(** ** Triples *)

(** From a state that satisfies [P], the computation [m] either returns
    some [a] in a state that satisfies [Q a], or throws in a state that
    satisfies [E]. *)
Definition triple {S A} (P : S -> Prop) (m : M S A) (Q : A -> S -> Prop) (E : S -> Prop)
    : Prop :=
  forall s, P s -> match m s with Ok a s' => Q a s' | Throw _ s' => E s' end.

(** ** What the loader keeps true of the cavity it fills *)

Section loader_invariant.
Context {double : Type} `{!DoubleOps double} `{!StdLib double}.

(** No entity is listed twice, every listed entity is wired, and the two
    name tables hold indices into the two lists. *)
Definition loader_inv (st : CavityConfig.state double) : Prop :=
  let h := Cavity.heap (CavityConfig.cavity st) in
  let c := Cavity.this (CavityConfig.cavity st) in
  NoDup (Cavity.polaritons c) /\
  NoDup (Cavity.phonons c) /\
  wired h (Cavity.polaritons c) (Cavity.phonons c) /\
  (forall name id, CavityConfig.polariton_map (CavityConfig.this st) !! name = Some id ->
                   id < length (Cavity.polaritons c)) /\
  (forall name id, CavityConfig.phonon_map (CavityConfig.this st) !! name = Some id ->
                   id < length (Cavity.phonons c)).

(** The same, with the dimension and the state vector of the cavity
    still what they were: they are only written by the final assembly. *)
Definition loader_inv_at (d : nat) (cs : vec double) (st : CavityConfig.state double)
    : Prop :=
  loader_inv st /\
  Cavity.system_dimension (Cavity.this (CavityConfig.cavity st)) = d /\
  Cavity.current_state (Cavity.this (CavityConfig.cavity st)) = cs.

(** An assertion that does not look at the parser. *)
Definition parser_free (P : CavityConfig.state double -> Prop) : Prop :=
  forall st p, P st ->
    P (CavityConfig.mk_state (CavityConfig.this st) (CavityConfig.cavity st) p).
End loader_invariant.

(** ** The stand-alone two-site right-hand side ([test.cpp]) *)

Module test_cpp.
Section defs.
Context {double : Type} `{!DoubleOps double}.
Local Open Scope double_scope.

(** [struct Params] *)
Record Params := mk {
  gamma1 : double;
  gamma2 : double;
  U1 : double;
  U2 : double;
  J : double;
  g : double;
  delta : double;
  Omega : double;
  Gamma : double;
  xi : double;
  tau : double;
  P : double;
  alpha : double
}.

(** The default member initialisers. *)
Definition default : Params :=
  mk (lit 1) (lit 1) (lit 0) (lit 0) (lit 0) (lit 1) (lit 0) (lit 20) (lit (5 # 100))
     (lit 1) (lit 600) (lit 7) (dsqrt (lit (325 # 100))).

(** [std::abs] of a complex number, the modulus. *)
Definition abs (z : cx_double double) : double :=
  dsqrt (real z * real z + imag z * imag z).

(** [complex + double] *)
Definition add_d (z : cx_double double) (x : double) : cx_double double :=
  cx (real z + x) (imag z).

(** [std::vector::resize(n)]: the first [n] elements, padded with zeros. *)
Definition resize (n : nat) (v : list double) : list double :=
  take n v ++ replicate (n - length v) (lit 0).

(** [v[i] = a], unchecked. *)
Definition vector_set (v : list double) (i : nat) (a : double) : result (list double) :=
  if decide (i < length v) then Val (<[i := a]> v)
  else Exn (undefined_behavior "std::vector subscript out of range").

(** [rhs(y, dydt, t)] with the global [params]; the result is the new
    content of [dydt]. *)
Definition rhs (params : Params) (y dydt : list double) (t : double)
    : result (list double) :=
  let dydt := if decide (length dydt = 7) then dydt else resize 7 dydt in
  y0 ← vector_at y 0; y1 ← vector_at y 1;
  let phi1 := cx y0 y1 in
  y2 ← vector_at y 2; y3 ← vector_at y 3;
  let phi2 := cx y2 y3 in
  x ← vector_at y 4;
  v ← vector_at y 5;
  n ← vector_at y 6;
  let I := cx (lit 0) (lit 1) in
  let H1 := mul phi1 (add (add_d (mul_d (neg I) (gamma1 params))
                                 (U1 params * abs phi1 * abs phi1))
                          (mul_d (mul_d I (xi params)) n)) in
  let coupling_1to2 :=
    mul (d_mul (J params + g params * x) (polar (lit 1) (Omega params * t))) phi2 in
  let dphi1dt := mul (neg I) (add H1 coupling_1to2) in
  let H2 := mul phi2 (add_d (mul_d (neg I) (gamma2 params))
                            (U2 params * abs phi2 * abs phi2)) in
  let coupling_2to1 :=
    mul (d_mul (J params + g params * x) (polar (lit 1) (- Omega params * t))) phi1 in
  let dphi2dt := mul (neg I) (add H2 coupling_2to1) in
  let dxdt := v in
  let backaction :=
    mul (mul (d_mul (g params) phi1) (conj phi2)) (polar (lit 1) (- Omega params * t)) in
  let dvdt := - Omega params * Omega params * x - Gamma params * v
              - lit 2 * Omega params * Gamma params * real backaction in
  let intensity1 := abs phi1 * abs phi1 in
  let dndt := tau params * (P params - n * (lit 1 + alpha params * alpha params * intensity1)) in
  dydt ← vector_set dydt 0 (real dphi1dt);
  dydt ← vector_set dydt 1 (imag dphi1dt);
  dydt ← vector_set dydt 2 (real dphi2dt);
  dydt ← vector_set dydt 3 (imag dphi2dt);
  dydt ← vector_set dydt 4 dxdt;
  dydt ← vector_set dydt 5 dvdt;
  dydt ← vector_set dydt 6 dndt;
  mret dydt.

(** The same system as entities, the way the drivers build it: site 1
    at address [1] with its reservoir, site 2 at address [2], the
    mechanical mode at address [1] of the phonon heap; the two sites are
    linked through the mode in both directions (above and below), the
    mode pairs them, all detunings are [0.0].  [phi1], [phi2], [x], [v]
    and [n] are the initial conditions. *)
Definition two_site (params : Params) (phi1 phi2 : cx_double double) (x v n : double)
    : Heap double :=
  let site_1 :=
    PolaritonMode.connect 2 1 (J params) (g params) (lit 0) true
      (PolaritonMode.add_reservoir 1 (xi params) (tau params) (P params) (alpha params) n
         (PolaritonMode.set_value phi1 (PolaritonMode.new (gamma1 params) (U1 params)))) in
  let site_2 :=
    PolaritonMode.connect 1 1 (J params) (g params) (lit 0) false
      (PolaritonMode.set_value phi2 (PolaritonMode.new (gamma2 params) (U2 params))) in
  let phonon :=
    PhononMode.add_pairing (1, 2) (lit 0) (g params)
      (PhononMode.set_velocity v
         (PhononMode.set_position x (PhononMode.new (Omega params) (Gamma params)))) in
  mkHeap (<[2 := site_2]> {[ 1 := site_1 ]}) {[ 1 := phonon ]}.
End defs.
Arguments Params : clear implicits.
End test_cpp.

(** ** Further concrete inputs *)

(** What [Cavity model({p}, {}, 0.0)] leaves when [p] points to no
    object. *)
Definition stray_cavity : Cavity.state R :=
  match Cavity.new [7] [] 0%R (mkHeap ∅ ∅) with
  | Ok _ s | Throw _ s => s
  end.

(** A vector with fewer components than the two-site cavity has. *)
Definition three : vec R := [1; 2; 3]%R.

(** The two-site configuration file: two oscillators, the mechanical mode,
    the reservoir of the first site, the two couplings and the pairing. *)
Definition site_2_section : string * gmap string string :=
  ("polariton site_2", <["gamma" := "1.0"]> {[ "initial_real" := "0.2" ]}).

Definition link_12_section : string * gmap string string :=
  ("coupling link_12",
   <["from" := "site_1"]> (<["to" := "site_2"]> (<["phonon" := "mech"]>
     (<["J" := "0.5"]> {[ "above" := "true" ]})))).

Definition link_21_section : string * gmap string string :=
  ("coupling link_21",
   <["from" := "site_2"]> (<["to" := "site_1"]> (<["phonon" := "mech"]>
     (<["J" := "0.5"]> {[ "above" := "false" ]})))).

Definition pairing_section : string * gmap string string :=
  ("pairing pair_1", <["phonon" := "mech"]> {[ "sites" := "site_1, site_2" ]}).

Definition two_site_config : list (string * gmap string string) :=
  [ global_section; site_1_section; site_2_section; mech_section; pump_section;
    link_12_section; link_21_section; pairing_section ].

(** The loader after [load_from_ini] on the two-site configuration. *)
Definition two_site_loaded : CavityConfig.state R :=
  match CavityConfig.load_from_ini (loaded two_site_config) with
  | Ok _ s | Throw _ s => s
  end.

(** The loader after [load_from_ini] on the configuration with the
    undeclared ['to']. *)
Definition failed_load : CavityConfig.state R :=
  match CavityConfig.load_from_ini (loaded dangling_to) with
  | Ok _ s | Throw _ s => s
  end.

(** The cavity over the entities of [test.cpp]'s system at its default
    parameters, both sites at amplitude [1]. *)
Definition test_cavity : Cavity.state R :=
  match Cavity.new [1; 2] [1] 0%R
          (test_cpp.two_site test_cpp.default (cx 1%R 0%R) (cx 1%R 0%R) 0%R 0%R 0%R) with
  | Ok _ s | Throw _ s => s
  end.

(** A state of that system. *)
Definition seven : vec R := [1; 0; 1; 0; 0; 0; 0]%R.

(** ** Reading the configuration file ([ConfigParser::load]) *)

Module config_file.
(** What [sections] holds: the keys of every section. *)
Abbreviation content := (gmap string (gmap string string)).

(** The lines that [std::getline(file, line)] yields until it fails, for
    a file of the given text. *)
Fixpoint getlines (file : string) : list string :=
  match file with
  | EmptyString => []
  | String a rest =>
      if Ascii.eqb a "010" then EmptyString :: getlines rest
      else match getlines rest with
           | [] => [String a EmptyString]
           | line :: lines => String a line :: lines
           end
  end.

(** [line[0]] and [line.back()] *)
Definition front (s : string) : option ascii :=
  match s with
  | String a _ => Some a
  | EmptyString => None
  end.

Fixpoint back (s : string) : option ascii :=
  match s with
  | EmptyString => None
  | String a EmptyString => Some a
  | String _ s' => back s'
  end.

(** [sections[current_section][key] = value] *)
Definition store (current_section key value : string) (sections : content) : content :=
  <[current_section := <[key := value]> (default ∅ (sections !! current_section))]> sections.

(** The body of the [while] loop: the local [current_section] and the
    member [sections] after one line. *)
Definition load_line (st : string * content) (line : string) : result (string * content) :=
  let '(current_section, sections) := st in
  let comment := cstring.find line "#" in
  line ← (if bool_decide (comment ≠ cstring.npos) then cstring.substr line 0 comment
          else Val line);
  let line := cstring.trim line in
  if bool_decide (line = EmptyString) then Val st
  else if bool_decide (front line = Some "["%char ∧ back line = Some "]"%char) then
    current_section ←
      cstring.substr line 1 (cstring.size_t (Z.of_N (cstring.size line) - 2));
    Val (cstring.trim current_section, sections)
  else
    let eq := cstring.find line "=" in
    if bool_decide (eq ≠ cstring.npos) then
      key ← cstring.substr line 0 eq;
      value ← cstring.substr line (eq + 1) cstring.npos;
      Val (current_section,
           store current_section (cstring.trim key) (cstring.trim value) sections)
    else Val st.

(** [load(filename)]; [file] is the text of the file when it can be
    opened. *)
Definition load (filename : string) (file : option string) (sections : content)
    : result content :=
  match file with
  | None => Exn (runtime_error ("Cannot open config file: " ++ filename))
  | Some text =>
      st ← for_each_r load_line (getlines text) (EmptyString, sections);
      Val st.2
  end.

(** The list [l] visits the sections of [m], each once, in some order:
    what iterating over the [unordered_map] gives. *)
Definition enumerates (l : list (string * gmap string string)) (m : content) : Prop :=
  NoDup l.*1 ∧ ∀ name keys, (name, keys) ∈ l ↔ m !! name = Some keys.

(** A text file of the given lines. *)
Definition unlines (lines : list string) : string :=
  foldr (fun line text => line ++ String "010" text) EmptyString lines.

(** The characters of [s] are all whitespace for [trim]. *)
Definition blank (s : string) : Prop :=
  Forall (fun a => cstring.is_space a = true) (list_ascii_of_string s).

(** None of the characters [cs] occurs in [s]. *)
Definition avoids (cs : list ascii) (s : string) : Prop :=
  Forall (fun a => a ∉ cs) (list_ascii_of_string s).
End config_file.

(** ** Whitespace and section types *)

(** The characters of [l] are all whitespace for [trim]. *)
Definition spaces (l : list ascii) : Prop := Forall (fun a => cstring.is_space a = true) l.

(** [trim] on the characters. *)
Definition trim_chars (l : list ascii) : list ascii :=
  rev (cstring.drop_spaces (rev (cstring.drop_spaces l))).

(** The five types of section that [load_from_ini] visits. *)
Definition section_kinds : list string :=
  ["polariton"; "phonon"; "reservoir"; "coupling"; "pairing"].

(** ** What [load] leaves in [sections] *)

(** Every section holds at least one key; section names, keys and values
    carry no outer whitespace and no ['#'], and keys no ['=']. *)
Definition tidy (m : config_file.content) : Prop :=
  ∀ name keys, m !! name = Some keys →
    keys ≠ ∅ ∧ cstring.trim name = name ∧ config_file.avoids ["#"%char] name ∧
    ∀ key value, keys !! key = Some value →
      cstring.trim key = key ∧ cstring.trim value = value ∧
      config_file.avoids ["#"%char; "="%char] key ∧ config_file.avoids ["#"%char] value.

(** ** A configuration file *)

(** The lines of a file for the two-site system. *)
Definition two_site_lines : list string :=
  [ "# two sites, one mechanical mode";
    "[global]";
    "random_seed = 42";
    "time = 0.0";
    EmptyString;
    "[polariton site_1]";
    "gamma = 1.0   # damping";
    "U = 0.01";
    "initial_real = 0.5";
    "[polariton site_2]";
    "gamma = 1.0";
    "[phonon mech]";
    "omega = 20.0";
    "gamma = 0.05";
    "[reservoir pump_1]";
    "target = site_1";
    "power = 12.0" ].

Definition two_site_text : string := config_file.unlines two_site_lines.

(** What [load] stores from it. *)
Definition two_site_content : config_file.content :=
  match config_file.load "two_site.ini" (Some two_site_text) ∅ with
  | Val m => m
  | Exn _ => ∅
  end.

Local Open Scope list_scope.

(** * Proofs *)

(** ** The monads *)

Lemma M_bind_unfold {S A B} (m : M S A) (f : A -> M S B) (s : S) :
  (m ≫= f) s = match m s with Ok a s' => f a s' | Throw e s' => Throw e s' end.
Proof. reflexivity. Qed.

Lemma M_bind_Ok {S A B} (m : M S A) (f : A -> M S B) (s s' : S) (a : A) :
  m s = Ok a s' -> (m ≫= f) s = f a s'.
Proof. intros E. rewrite M_bind_unfold, E. reflexivity. Qed.

Lemma M_bind_Throw {S A B} (m : M S A) (f : A -> M S B) (s s' : S) (e : exn) :
  m s = Throw e s' -> (m ≫= f) s = Throw e s'.
Proof. intros E. rewrite M_bind_unfold, E. reflexivity. Qed.

Lemma for_each_app {S A B} (body : B -> A -> M S B) (l1 l2 : list A) (acc : B) (s : S) :
  for_each body (l1 ++ l2) acc s
  = (acc' ← for_each body l1 acc; for_each body l2 acc') s.
Proof.
  revert acc s. induction l1 as [|a l1 IH]; intros acc s; simpl.
  - reflexivity.
  - rewrite !M_bind_unfold. destruct (body acc a s); [apply IH | reflexivity].
Qed.

Section frames.
Context {S X : Type} (obs : S -> X).

Lemma frames_ret {A} (a : A) : frames obs (mret a : M S A).
Proof. intros s. reflexivity. Qed.

Lemma frames_throw {A} (e : exn) : frames obs (throw e : M S A).
Proof. intros s. reflexivity. Qed.

Lemma frames_bind {A B} (m : M S A) (f : A -> M S B) :
  frames obs m -> (forall a, frames obs (f a)) -> frames obs (m ≫= f).
Proof.
  intros Hm Hf s. rewrite M_bind_unfold. specialize (Hm s).
  destruct (m s) as [a s'|e s']; [|exact Hm].
  specialize (Hf a s'). destruct (f a s'); congruence.
Qed.

Lemma frames_gets {A} (f : S -> A) : frames obs (gets f).
Proof. intros s. reflexivity. Qed.

Lemma frames_get : frames obs get.
Proof. intros s. reflexivity. Qed.

Lemma frames_eval {A} (r : result A) : frames obs (eval r).
Proof. intros s. unfold eval. destruct r; reflexivity. Qed.

Lemma frames_lift {T A} (proj : S -> T) (f : T -> result A) : frames obs (lift proj f).
Proof. intros s. unfold lift. destruct (f (proj s)); reflexivity. Qed.

Lemma frames_modify (f : S -> S) : (forall s, obs (f s) = obs s) -> frames obs (modify f).
Proof. intros Hf s. apply Hf. Qed.

Lemma frames_for_each {A B} (body : B -> A -> M S B) (l : list A) (acc : B) :
  (forall b a, frames obs (body b a)) -> frames obs (for_each body l acc).
Proof.
  intros Hb. revert acc. induction l as [|a l IH]; intros acc; simpl.
  - apply frames_ret.
  - apply frames_bind; [apply Hb | intros b; apply IH].
Qed.
End frames.

(** ** What the methods of [Cavity] leave alone *)

Create HintDb frames.

Section cavity_frames.
Context {double : Type} `{!DoubleOps double}.
Implicit Types (s : Cavity.state double) (x : vec double).

Local Hint Resolve frames_ret frames_throw frames_gets frames_get frames_eval
  frames_lift : frames.

Ltac frames_step :=
  repeat first
    [ apply frames_bind; [|intros ?]
    | apply frames_for_each; intros ? ?
    | solve [auto with frames]
    | apply frames_modify; intros ?; reflexivity ].

Lemma call_polariton_frames {X} (obs : Cavity.t double -> X) p f :
  frames (fun s => obs (Cavity.this s)) (Cavity.call_polariton p f).
Proof.
  intros s. unfold Cavity.call_polariton.
  destruct (update_polariton p f (Cavity.heap s)); reflexivity.
Qed.

Lemma call_phonon_frames {X} (obs : Cavity.t double -> X) ph f :
  frames (fun s => obs (Cavity.this s)) (Cavity.call_phonon ph f).
Proof.
  intros s. unfold Cavity.call_phonon.
  destruct (update_phonon ph f (Cavity.heap s)); reflexivity.
Qed.

(** [unpack_state] touches the entities only. *)
Lemma unpack_state_frames {X} (obs : Cavity.t double -> X) x :
  frames (fun s => obs (Cavity.this s)) (Cavity.unpack_state x).
Proof.
  unfold Cavity.unpack_state, Cavity.unpack_polariton, Cavity.unpack_phonon,
    Cavity.unpack_reservoir, Cavity.deref_polariton.
  frames_step; try apply call_polariton_frames; try apply call_phonon_frames.
  destruct (PolaritonMode.get_reservoir _); frames_step.
  apply call_polariton_frames.
Qed.

(** Of the object, [operator()] touches the flag [evaluating_rhs] only. *)
Lemma call_frames {X} (obs : Cavity.t double -> X) x dxdt t :
  (forall b c, obs (Cavity.set_evaluating_rhs b c) = obs c) ->
  frames (fun s => obs (Cavity.this s)) (Cavity.call x dxdt t).
Proof.
  intros Hobs. unfold Cavity.call.
  apply frames_bind; [auto with frames|intros c].
  apply frames_bind; [apply frames_modify; intros s; apply Hobs|intros _].
  apply frames_bind; [apply unpack_state_frames|intros _].
  unfold Cavity.rhs_polariton, Cavity.rhs_phonon, Cavity.rhs_reservoir,
    Cavity.deref_polariton, Cavity.deref_phonon.
  repeat (apply frames_bind; [apply frames_for_each; intros [? ?] ?|intros ?]).
  - frames_step.
  - frames_step.
  - frames_step. destruct (PolaritonMode.get_reservoir _); frames_step.
  - apply frames_bind; [apply frames_modify; intros s; apply Hobs|intros _].
    auto with frames.
Qed.

Lemma odeint_do_step_frames {S X} (obs : S -> X) (sys : odeint.system S) st x t dt :
  (forall x dxdt t, frames obs (sys x dxdt t)) ->
  frames obs (odeint.do_step sys st x t dt).
Proof.
  intros Hsys. unfold odeint.do_step.
  repeat (apply frames_bind; [apply Hsys|intros ?]).
  apply frames_ret.
Qed.
End cavity_frames.

(** ** The fixed-step stepper and the clock, the steppers and the remembered
    step size *)

Section steppers.
Context {double : Type} `{!DoubleOps double}.
Implicit Types (s : Cavity.state double).

Lemma do_step_frames {X} (obs : Cavity.t double -> X) dt :
  (forall b c, obs (Cavity.set_evaluating_rhs b c) = obs c) ->
  (forall v c, obs (Cavity.set_current_state v c) = obs c) ->
  (forall v c, obs (Cavity.set_rk4_stepper v c) = obs c) ->
  (forall v c, obs (Cavity.set_used_time_step v c) = obs c) ->
  frames (fun s => obs (Cavity.this s)) (Cavity.do_step dt).
Proof.
  intros H1 H2 H3 H4. unfold Cavity.do_step.
  apply frames_bind; [apply frames_gets|intros c].
  apply frames_bind.
  { apply odeint_do_step_frames. intros. apply call_frames, H1. }
  intros r.
  apply frames_bind.
  { apply frames_modify. intros s. simpl. rewrite H2, H3. reflexivity. }
  intros _. apply frames_bind; [apply frames_gets|intros c'].
  apply frames_bind; [apply unpack_state_frames|intros _].
  apply frames_modify. intros s. apply H4.
Qed.

(** C1, the clock.  [do_step] never writes [current_time]: whether it
    returns or throws, [get_time()] reads afterwards what it read before.
    (Boost's [do_step] takes the time by value.) *)
Theorem C1_do_step_leaves_time (dt : double) (s : Cavity.state double) :
  match Cavity.do_step dt s with
  | Ok _ s' | Throw _ s' =>
      Cavity.get_time (Cavity.this s') = Cavity.get_time (Cavity.this s)
  end.
Proof.
  pose proof (do_step_frames Cavity.get_time dt) as F.
  specialize (F (fun _ _ => eq_refl) (fun _ _ => eq_refl) (fun _ _ => eq_refl)
                (fun _ _ => eq_refl) s).
  simpl in F. destruct (Cavity.do_step dt s); exact F.
Qed.

(** C8 as amended.  [do_step(dt)] that returns has overwritten the
    remembered step size with [dt] (and one that throws has left it
    alone); [adaptive_step()] keeps in it the step size the controlled
    stepper hands back through its reference parameter. *)
Theorem C8_remembered_step_size (s : Cavity.state double) :
  (forall dt,
     match Cavity.do_step dt s with
     | Ok _ s' => Cavity.get_time_step (Cavity.this s') = dt
     | Throw _ s' =>
         Cavity.get_time_step (Cavity.this s') = Cavity.get_time_step (Cavity.this s)
     end) /\
  (forall try_step : odeint.try_step_t double,
     let c := Cavity.this s in
     match try_step _ Cavity.call (Cavity.dopri5_stepper c) (Cavity.current_state c)
                    (Cavity.current_time c) (Cavity.used_time_step c) s with
     | Ok (_, _, _, dt') _ =>
         match Cavity.adaptive_step try_step s with
         | Ok _ s' | Throw _ s' => Cavity.get_time_step (Cavity.this s') = dt'
         end
     | Throw e s1 => Cavity.adaptive_step try_step s = Throw e s1
     end).
Proof.
  split.
  - intros dt. unfold Cavity.do_step.
    rewrite M_bind_unfold. cbn [gets].
    rewrite M_bind_unfold.
    pose proof (odeint_do_step_frames
      (fun s => Cavity.used_time_step (Cavity.this s)) Cavity.call
      (Cavity.rk4_stepper (Cavity.this s)) (Cavity.current_state (Cavity.this s))
      (Cavity.current_time (Cavity.this s)) dt) as F1.
    specialize (F1 (fun x d t =>
      call_frames Cavity.used_time_step x d t (fun _ _ => eq_refl)) s).
    destruct (odeint.do_step _ _ _ _ _ s) as [r s1|e s1]; [|exact F1].
    rewrite M_bind_unfold. cbn [modify].
    rewrite M_bind_unfold. cbn [gets].
    rewrite M_bind_unfold.
    match goal with |- context [Cavity.unpack_state ?x ?s2] =>
      pose proof (unpack_state_frames Cavity.used_time_step x s2) as F2;
      destruct (Cavity.unpack_state x s2) as [[] s3|e s3]
    end.
    + reflexivity.
    + unfold Cavity.get_time_step. etransitivity; [exact F2|exact F1].
  - intros try_step c. unfold Cavity.adaptive_step.
    rewrite M_bind_unfold. cbn [gets]. rewrite M_bind_unfold. fold c.
    destruct (try_step _ _ _ _ _ _ s) as [[[[st x] t] dt'] s1|e s1]; [|reflexivity].
    rewrite M_bind_unfold. cbn [modify].
    rewrite M_bind_unfold. cbn [gets].
    match goal with |- context [Cavity.unpack_state ?x ?s2] =>
      pose proof (unpack_state_frames Cavity.used_time_step x s2) as F2;
      destruct (Cavity.unpack_state x s2) as [[] s3|e s3]
    end; exact F2.
Qed.
End steppers.

(** C8 as stated fails: on the default-constructed cavity, whose remembered
    step size is [1e-3], [do_step(0.5)] returns and leaves [0.5] there. *)
Lemma C8_do_step_changes_step_size :
  exists s',
    Cavity.do_step (lit (1 # 2)) empty_cavity = Ok tt s' /\
    Cavity.get_time_step (Cavity.this s')
      <> Cavity.get_time_step (Cavity.this empty_cavity).
Proof.
  exists (Cavity.with_this (Cavity.set_used_time_step (lit (1 # 2))) empty_cavity).
  split; [reflexivity|].
  change (Q2R (1 # 2) <> Q2R (1 # 1000)).
  unfold Q2R. simpl. lra.
Qed.

(** ** Writing components into entity fields *)

Section heap_writes.
Context {double : Type} `{!DoubleOps double}.
Implicit Types (h : Heap double) (s : slot) (v : double) (ws : list (slot * double)).

Ltac heap_eq :=
  simpl; f_equal; apply map_eq; intros k; rewrite !lookup_alter;
  repeat case_decide; subst; try congruence;
  match goal with |- context [?m !! ?i] =>
    let o := fresh "o" in
    destruct (m !! i) as [o|]; simpl; try reflexivity;
    try (destruct o as [? ? ? ? ? ? ? ? ? [?|] ? ? ? ?]; reflexivity)
  end.

(** A later write to a field erases an earlier one. *)
Lemma write_slot_same h s v1 v2 :
  write_slot (write_slot h (s, v2)) (s, v1) = write_slot h (s, v1).
Proof. destruct s; unfold write_slot; heap_eq. Qed.

(** Writes to different fields commute. *)
Lemma write_slot_comm h s1 v1 s2 v2 :
  s1 <> s2 ->
  write_slot (write_slot h (s2, v2)) (s1, v1) = write_slot (write_slot h (s1, v1)) (s2, v2).
Proof.
  intros Hne. destruct s1, s2; unfold write_slot; try reflexivity; heap_eq.
Qed.

(** A sequence of writes erases an earlier write to any of its fields. *)
Lemma foldl_write_absorb ws s v h :
  s ∈ ws.*1 -> foldl write_slot (write_slot h (s, v)) ws = foldl write_slot h ws.
Proof.
  revert h. induction ws as [|[s1 v1] ws IH]; intros h Hin; simpl in *.
  - inversion Hin.
  - destruct (decide (s1 = s)) as [->|Hne].
    + rewrite write_slot_same. reflexivity.
    + rewrite write_slot_comm by done. apply IH.
      apply elem_of_cons in Hin as [?|?]; [congruence|done].
Qed.

Lemma foldl_write_erases ws' ws h :
  ws'.*1 ⊆ ws.*1 ->
  foldl write_slot (foldl write_slot h ws') ws = foldl write_slot h ws.
Proof.
  revert h. induction ws' as [|[s v] ws' IH]; intros h Hsub; simpl in *.
  - reflexivity.
  - rewrite IH by set_solver. apply foldl_write_absorb. set_solver.
Qed.

(** Writes change neither which objects exist nor who owns a reservoir. *)
Lemma write_slot_polariton_is_Some h w p :
  is_Some (polariton_objects (write_slot h w) !! p) <-> is_Some (polariton_objects h !! p).
Proof.
  destruct w as [[] v]; simpl; try reflexivity; apply lookup_alter_is_Some.
Qed.

Lemma write_slot_phonon_is_Some h w p :
  is_Some (phonon_objects (write_slot h w) !! p) <-> is_Some (phonon_objects h !! p).
Proof.
  destruct w as [[] v]; simpl; try reflexivity; apply lookup_alter_is_Some.
Qed.

Lemma write_slot_owns_reservoir h w p :
  owns_reservoir (write_slot h w) p = owns_reservoir h p.
Proof.
  unfold owns_reservoir.
  destruct w as [[] v]; simpl; try reflexivity;
    rewrite lookup_alter; case_decide; subst; try reflexivity;
    destruct (polariton_objects h !! p) as [o|]; simpl; try reflexivity.
  destruct (PolaritonMode.reservoir_owned o); reflexivity.
Qed.

Lemma foldl_write_polariton_is_Some ws h p :
  is_Some (polariton_objects (foldl write_slot h ws) !! p)
  <-> is_Some (polariton_objects h !! p).
Proof.
  revert h. induction ws as [|w ws IH]; intros h; simpl; [reflexivity|].
  rewrite IH. apply write_slot_polariton_is_Some.
Qed.

Lemma foldl_write_phonon_is_Some ws h p :
  is_Some (phonon_objects (foldl write_slot h ws) !! p)
  <-> is_Some (phonon_objects h !! p).
Proof.
  revert h. induction ws as [|w ws IH]; intros h; simpl; [reflexivity|].
  rewrite IH. apply write_slot_phonon_is_Some.
Qed.

Lemma foldl_write_owns_reservoir ws h p :
  owns_reservoir (foldl write_slot h ws) p = owns_reservoir h p.
Proof.
  revert h. induction ws as [|w ws IH]; intros h; simpl; [reflexivity|].
  rewrite IH. apply write_slot_owns_reservoir.
Qed.

Lemma owners_ext h h' ps :
  (forall p, owns_reservoir h' p = owns_reservoir h p) -> owners h' ps = owners h ps.
Proof.
  intros E. unfold owners. induction ps as [|p ps IH]; simpl; [reflexivity|].
  rewrite E, IH. reflexivity.
Qed.

Lemma layout_ext h h' ps phs :
  (forall p, owns_reservoir h' p = owns_reservoir h p) ->
  layout h' ps phs = layout h ps phs.
Proof.
  intros E. unfold layout, reservoir_slots. rewrite (owners_ext h h') by done.
  reflexivity.
Qed.

Lemma pointers_valid_foldl_write ws h ps phs :
  pointers_valid (foldl write_slot h ws) ps phs <-> pointers_valid h ps phs.
Proof.
  unfold pointers_valid. rewrite !Forall_forall.
  setoid_rewrite foldl_write_polariton_is_Some.
  setoid_rewrite foldl_write_phonon_is_Some. reflexivity.
Qed.

(** Reading a field back. *)
Lemma read_write_same h s v :
  is_Some (read_slot h s) -> read_slot (write_slot h (s, v)) s = Some v.
Proof.
  destruct s; simpl; rewrite lookup_alter_eq; intros [x Hx];
    match goal with |- context [?m !! ?i] => destruct (m !! i) as [o|] end;
    simpl in *; try discriminate; try reflexivity.
  destruct (PolaritonMode.reservoir_owned o); simpl in *; [reflexivity|discriminate].
Qed.

Lemma read_write_other h s s' v :
  s <> s' -> read_slot (write_slot h (s', v)) s = read_slot h s.
Proof.
  intros Hne. destruct s, s'; simpl; try reflexivity;
    rewrite lookup_alter; case_decide; subst; try congruence; try reflexivity;
    match goal with |- context [?m !! ?i] => destruct (m !! i) as [o|] end;
    simpl; try reflexivity.
  all: destruct (PolaritonMode.reservoir_owned o); reflexivity.
Qed.

(** Writing to a field the value it holds changes nothing. *)
Lemma write_slot_id h s v : read_slot h s = Some v -> write_slot h (s, v) = h.
Proof.
  destruct h as [pm phm]. destruct s; unfold write_slot; simpl; intros Hr; f_equal;
    apply alter_id;
    intros o Ho; rewrite Ho in Hr; simpl in Hr.
  - destruct o as [? ? ? ? ? ? ? ? ? ? ? ? ? [re im]]. by simplify_eq/=.
  - destruct o as [? ? ? ? ? ? ? ? ? ? ? ? ? [re im]]. by simplify_eq/=.
  - destruct o. by simplify_eq/=.
  - destruct o. by simplify_eq/=.
  - destruct o as [? ? ? ? ? ? ? ? ? [[]|] ? ? ? ?]; by simplify_eq/=.
Qed.

Lemma foldl_write_id h (l : list slot) (x : list double) :
  Forall2 (fun s v => read_slot h s = Some v) l x ->
  foldl write_slot h (zip l x) = h.
Proof.
  induction 1 as [|s v l x Hr _ IH]; simpl; [reflexivity|].
  rewrite write_slot_id by done. exact IH.
Qed.
End heap_writes.

(** ** [unpack_state] stores the components where the layout says *)

Section unpack.
Context {double : Type} `{!DoubleOps double}.
Implicit Types (h : Heap double) (c : Cavity.t double) (x : vec double).

Lemma insert_as_alter {A} (m : gmap nat A) (i : nat) (f : A -> A) (o : A) :
  m !! i = Some o -> <[i := f o]> m = alter f i m.
Proof.
  intros Ho. apply map_eq. intros k. rewrite lookup_insert, lookup_alter.
  case_decide; subst; [rewrite Ho|]; reflexivity.
Qed.

Lemma call_polariton_ok h c p o f :
  polariton_objects h !! p = Some o ->
  Cavity.call_polariton p f (Cavity.mk_state h c)
  = Ok tt (Cavity.mk_state (mkHeap (alter f p (polariton_objects h)) (phonon_objects h)) c).
Proof.
  intros Ho. unfold Cavity.call_polariton, update_polariton, polariton_at. simpl.
  rewrite Ho. simpl. rewrite (insert_as_alter _ _ _ _ Ho). reflexivity.
Qed.

Lemma call_phonon_ok h c p o f :
  phonon_objects h !! p = Some o ->
  Cavity.call_phonon p f (Cavity.mk_state h c)
  = Ok tt (Cavity.mk_state (mkHeap (polariton_objects h) (alter f p (phonon_objects h))) c).
Proof.
  intros Ho. unfold Cavity.call_phonon, update_phonon, phonon_at. simpl.
  rewrite Ho. simpl. rewrite (insert_as_alter _ _ _ _ Ho). reflexivity.
Qed.

Lemma eval_vec_at {S} x i v (s : S) : x !! i = Some v -> eval (vec_at x i) s = Ok v s.
Proof. intros Hx. unfold eval, vec_at. rewrite Hx. reflexivity. Qed.

Lemma unpack_polariton_ok x idx p h c re im :
  x !! idx = Some re -> x !! (idx + 1) = Some im ->
  is_Some (polariton_objects h !! p) ->
  Cavity.unpack_polariton x idx p (Cavity.mk_state h c)
  = Ok (idx + 2)
       (Cavity.mk_state (write_slot (write_slot h (Re p, re)) (Im p, im)) c).
Proof.
  intros Hre Him [o Ho]. unfold Cavity.unpack_polariton.
  rewrite (M_bind_Ok _ _ _ _ _ (eval_vec_at _ _ _ _ Hre)).
  rewrite (M_bind_Ok _ _ _ _ _ (eval_vec_at _ _ _ _ Him)).
  rewrite (M_bind_Ok _ _ _ _ _ (call_polariton_ok _ _ _ _ _ Ho)).
  unfold write_slot. simpl. do 3 f_equal.
  apply map_eq. intros k.
  destruct (decide (p = k)) as [->|];
    [rewrite !lookup_alter_eq, Ho | rewrite !lookup_alter_ne by done]; reflexivity.
Qed.

Lemma unpack_phonon_ok x idx p h c pos vel :
  x !! idx = Some pos -> x !! (idx + 1) = Some vel ->
  is_Some (phonon_objects h !! p) ->
  Cavity.unpack_phonon x idx p (Cavity.mk_state h c)
  = Ok (idx + 2)
       (Cavity.mk_state (write_slot (write_slot h (Position p, pos)) (Velocity p, vel)) c).
Proof.
  intros Hpos Hvel [o Ho]. unfold Cavity.unpack_phonon.
  rewrite (M_bind_Ok _ _ _ _ _ (eval_vec_at _ _ _ _ Hpos)).
  rewrite (M_bind_Ok _ _ _ _ _ (call_phonon_ok _ _ _ _ _ Ho)).
  rewrite (M_bind_Ok _ _ _ _ _ (eval_vec_at _ _ _ _ Hvel)).
  erewrite M_bind_Ok; [reflexivity|].
  erewrite call_phonon_ok; [reflexivity|].
  simpl. rewrite lookup_alter_eq, Ho. reflexivity.
Qed.

Lemma unpack_reservoir_ok x idx p h c :
  is_Some (polariton_objects h !! p) ->
  (owns_reservoir h p = true -> is_Some (x !! idx)) ->
  Cavity.unpack_reservoir x idx p (Cavity.mk_state h c)
  = if owns_reservoir h p
    then Ok (idx + 1)
           (Cavity.mk_state (write_slot h (Reservoir p, default (uninit 0) (x !! idx))) c)
    else Ok idx (Cavity.mk_state h c).
Proof.
  intros [o Ho] Hx. unfold Cavity.unpack_reservoir, owns_reservoir in *.
  unfold Cavity.deref_polariton, lift, polariton_at. rewrite M_bind_unfold. simpl.
  rewrite Ho in *. unfold PolaritonMode.get_reservoir.
  destruct (PolaritonMode.reservoir_owned o) as [r|]; [|reflexivity].
  destruct (Hx eq_refl) as [n Hn]. rewrite Hn. simpl.
  rewrite (M_bind_Ok _ _ _ _ _ (eval_vec_at _ _ _ _ Hn)).
  rewrite (M_bind_Ok _ _ _ _ _ (call_polariton_ok _ _ _ _ _ Ho)).
  reflexivity.
Qed.

Lemma polariton_slots_cons p ps :
  polariton_slots (p :: ps) = Re p :: Im p :: polariton_slots ps.
Proof. reflexivity. Qed.

Lemma phonon_slots_cons p ps :
  phonon_slots (p :: ps) = Position p :: Velocity p :: phonon_slots ps.
Proof. reflexivity. Qed.

Lemma length_polariton_slots ps : length (polariton_slots ps) = 2 * length ps.
Proof. induction ps; simpl in *; lia. Qed.

Lemma length_phonon_slots ps : length (phonon_slots ps) = 2 * length ps.
Proof. induction ps; simpl in *; lia. Qed.

Lemma length_reservoir_slots h ps :
  length (reservoir_slots h ps) = length (owners h ps).
Proof. unfold reservoir_slots. apply length_fmap. Qed.

Lemma length_layout h ps phs :
  length (layout h ps phs) = 2 * length ps + 2 * length phs + length (owners h ps).
Proof.
  unfold layout.
  rewrite !length_app, length_polariton_slots, length_phonon_slots,
    length_reservoir_slots. lia.
Qed.

Lemma drop_two x idx a b :
  x !! idx = Some a -> x !! (idx + 1) = Some b ->
  drop idx x = a :: b :: drop (idx + 2) x.
Proof.
  intros Ha Hb. rewrite (drop_S _ _ _ Ha).
  replace (idx + 1) with (S idx) in Hb by lia. rewrite (drop_S _ _ _ Hb).
  do 3 f_equal. lia.
Qed.

Lemma zip_app_drop {A B} (l1 l2 : list A) (k : list B) :
  zip (l1 ++ l2) k = zip l1 k ++ zip l2 (drop (length l1) k).
Proof.
  revert k. induction l1 as [|a l1 IH]; intros [|b k]; simpl; try reflexivity.
  - by destruct l2.
  - by rewrite IH.
Qed.

Lemma unpack_polaritons_spec x c ps : forall idx h,
  Forall (fun p => is_Some (polariton_objects h !! p)) ps ->
  idx + 2 * length ps <= length x ->
  for_each (Cavity.unpack_polariton x) ps idx (Cavity.mk_state h c)
  = Ok (idx + 2 * length ps)
       (Cavity.mk_state (foldl write_slot h (zip (polariton_slots ps) (drop idx x))) c).
Proof.
  induction ps as [|p ps IH]; intros idx h Hv Hlen; simpl.
  - rewrite Nat.add_0_r. reflexivity.
  - simpl in Hlen. apply Forall_cons in Hv as [Hp Hv].
    destruct (lookup_lt_is_Some_2 x idx ltac:(lia)) as [re Hre].
    destruct (lookup_lt_is_Some_2 x (idx + 1) ltac:(lia)) as [im Him].
    rewrite (M_bind_Ok _ _ _ _ _ (unpack_polariton_ok _ _ _ _ c _ _ Hre Him Hp)).
    rewrite IH.
    + rewrite (drop_two _ _ _ _ Hre Him). simpl. f_equal. lia.
    + eapply Forall_impl; [exact Hv|]. intros q Hq. simpl in Hq.
      by rewrite !write_slot_polariton_is_Some.
    + lia.
Qed.

Lemma unpack_phonons_spec x c ps : forall idx h,
  Forall (fun p => is_Some (phonon_objects h !! p)) ps ->
  idx + 2 * length ps <= length x ->
  for_each (Cavity.unpack_phonon x) ps idx (Cavity.mk_state h c)
  = Ok (idx + 2 * length ps)
       (Cavity.mk_state (foldl write_slot h (zip (phonon_slots ps) (drop idx x))) c).
Proof.
  induction ps as [|p ps IH]; intros idx h Hv Hlen; simpl.
  - rewrite Nat.add_0_r. reflexivity.
  - simpl in Hlen. apply Forall_cons in Hv as [Hp Hv].
    destruct (lookup_lt_is_Some_2 x idx ltac:(lia)) as [re Hre].
    destruct (lookup_lt_is_Some_2 x (idx + 1) ltac:(lia)) as [im Him].
    rewrite (M_bind_Ok _ _ _ _ _ (unpack_phonon_ok _ _ _ _ c _ _ Hre Him Hp)).
    rewrite IH.
    + rewrite (drop_two _ _ _ _ Hre Him). simpl. f_equal. lia.
    + eapply Forall_impl; [exact Hv|]. intros q Hq. simpl in Hq.
      by rewrite !write_slot_phonon_is_Some.
    + lia.
Qed.

Lemma unpack_reservoirs_spec x c ps : forall idx h,
  Forall (fun p => is_Some (polariton_objects h !! p)) ps ->
  idx + length (owners h ps) <= length x ->
  for_each (Cavity.unpack_reservoir x) ps idx (Cavity.mk_state h c)
  = Ok (idx + length (owners h ps))
       (Cavity.mk_state (foldl write_slot h (zip (reservoir_slots h ps) (drop idx x))) c).
Proof.
  induction ps as [|p ps IH]; intros idx h Hv Hlen; simpl.
  - rewrite Nat.add_0_r. reflexivity.
  - apply Forall_cons in Hv as [Hp Hv].
    rewrite M_bind_unfold, unpack_reservoir_ok; [|done|].
    2:{ intros Ho. unfold owners in Hlen. cbn [List.filter] in Hlen.
        rewrite Ho in Hlen. cbn [length] in Hlen.
        apply lookup_lt_is_Some_2. lia. }
    unfold reservoir_slots, owners in *. cbn [List.filter] in *.
    destruct (owns_reservoir h p) eqn:Ho.
    + cbn [length] in Hlen.
      destruct (lookup_lt_is_Some_2 x idx ltac:(lia)) as [n Hn].
      rewrite Hn, (drop_S _ _ _ Hn), fmap_cons.
      change (default (uninit 0) (Some n)) with n.
      cbn [zip zip_with foldl length].
      set (h' := write_slot h (Reservoir p, n)).
      assert (E : List.filter (owns_reservoir h') ps = List.filter (owns_reservoir h) ps).
      { apply (owners_ext h h'). intros q. apply write_slot_owns_reservoir. }
      rewrite <- E. replace (S idx) with (idx + 1) by lia. rewrite IH.
      * f_equal. lia.
      * eapply Forall_impl; [exact Hv|]. intros q Hq. simpl in Hq.
        unfold h'. by rewrite write_slot_polariton_is_Some.
      * rewrite E. lia.
    + apply IH; done.
Qed.

(** [unpack_state] returns on a heap whose pointers are valid when [x] is
    long enough, and leaves the heap [unpacked]. *)
Lemma unpack_state_spec x h c :
  pointers_valid h (Cavity.polaritons c) (Cavity.phonons c) ->
  length (layout h (Cavity.polaritons c) (Cavity.phonons c)) <= length x ->
  Cavity.unpack_state x (Cavity.mk_state h c)
  = Ok tt (Cavity.mk_state (unpacked h (Cavity.polaritons c) (Cavity.phonons c) x) c).
Proof.
  intros [Hp Hph] Hlen. rewrite length_layout in Hlen.
  unfold Cavity.unpack_state. rewrite M_bind_unfold. cbn [gets Cavity.this].
  rewrite M_bind_unfold, unpack_polaritons_spec by (done || lia).
  set (h1 := foldl write_slot h _).
  rewrite M_bind_unfold, unpack_phonons_spec; [| |lia].
  2:{ eapply Forall_impl; [exact Hph|]. intros q Hq. simpl in Hq.
      unfold h1. by rewrite foldl_write_phonon_is_Some. }
  set (h2 := foldl write_slot h1 _).
  assert (Eo : owners h2 (Cavity.polaritons c) = owners h (Cavity.polaritons c)).
  { apply owners_ext. intros q. unfold h2, h1.
    by rewrite !foldl_write_owns_reservoir. }
  rewrite M_bind_unfold, unpack_reservoirs_spec; [| |rewrite Eo; lia].
  2:{ eapply Forall_impl; [exact Hp|]. intros q Hq. simpl in Hq.
      unfold h2, h1. by rewrite !foldl_write_polariton_is_Some. }
  cbn [mret M_ret]. do 2 f_equal.
  unfold unpacked, layout.
  rewrite !zip_app_drop, !foldl_app, length_polariton_slots, length_phonon_slots, drop_drop.
  unfold reservoir_slots. rewrite Eo. unfold h2, h1.
  rewrite drop_0. repeat f_equal; lia.
Qed.
End unpack.

(** ** [pack_state] fills the state vector as the layout says *)

Section pack.
Context {double : Type} `{!DoubleOps double}.
Implicit Types (h : Heap double) (c : Cavity.t double) (x : vec double).

Lemma write_current_state_ok h c i a :
  i < length (Cavity.current_state c) ->
  Cavity.write_current_state i a (Cavity.mk_state h c)
  = Ok tt (Cavity.mk_state h (Cavity.set_current_state (<[i := a]> (Cavity.current_state c)) c)).
Proof.
  intros Hi. unfold Cavity.write_current_state, vec_set. simpl.
  rewrite decide_True by done. reflexivity.
Qed.

(** Writing in the middle of a vector. *)
Lemma insert_middle {A} (pre post : list A) (a b : A) :
  <[length pre := b]> (pre ++ a :: post) = pre ++ b :: post.
Proof.
  rewrite <- (Nat.add_0_r (length pre)), insert_app_r. reflexivity.
Qed.

Lemma insert_middle' {A} (pre post : list A) (a0 a b : A) :
  <[length pre + 1 := b]> (pre ++ a0 :: a :: post) = pre ++ a0 :: b :: post.
Proof. rewrite insert_app_r. reflexivity. Qed.

Lemma write_two h c pre post a b a' b' :
  (Cavity.write_current_state (length pre) a';;
   Cavity.write_current_state (length pre + 1) b')
    (Cavity.mk_state h (Cavity.set_current_state (pre ++ a :: b :: post) c))
  = Ok tt (Cavity.mk_state h (Cavity.set_current_state (pre ++ a' :: b' :: post) c)).
Proof.
  rewrite M_bind_unfold, write_current_state_ok
    by (simpl; rewrite length_app; simpl; lia).
  rewrite write_current_state_ok
    by (simpl; rewrite length_insert, length_app; simpl; lia).
  simpl. rewrite insert_middle, insert_middle'. reflexivity.
Qed.

Lemma write_one h c pre post a a' :
  Cavity.write_current_state (length pre) a'
    (Cavity.mk_state h (Cavity.set_current_state (pre ++ a :: post) c))
  = Ok tt (Cavity.mk_state h (Cavity.set_current_state (pre ++ a' :: post) c)).
Proof.
  rewrite write_current_state_ok by (simpl; rewrite length_app; simpl; lia).
  simpl. rewrite insert_middle. reflexivity.
Qed.

Lemma cons_middle {A} (pre post : list A) (a b : A) :
  pre ++ a :: b :: post = (pre ++ [a; b]) ++ post.
Proof. rewrite <- app_assoc. reflexivity. Qed.

Lemma pack_polaritons_spec h c ps : forall pre mid post,
  Forall (fun p => is_Some (polariton_objects h !! p)) ps ->
  length mid = 2 * length ps ->
  for_each Cavity.pack_polariton ps (length pre)
    (Cavity.mk_state h (Cavity.set_current_state (pre ++ mid ++ post) c))
  = Ok (length pre + 2 * length ps)
       (Cavity.mk_state h (Cavity.set_current_state
          (pre ++ omap (read_slot h) (polariton_slots ps) ++ post) c)).
Proof.
  induction ps as [|p ps IH]; intros pre mid post Hv Hmid.
  - destruct mid; [|discriminate]. simpl. rewrite Nat.add_0_r. reflexivity.
  - apply Forall_cons in Hv as [[o Ho] Hv].
    destruct mid as [|a [|b mid]]; simpl in Hmid; try lia.
    cbn [for_each]. rewrite M_bind_unfold.
    unfold Cavity.pack_polariton at 1.
    unfold Cavity.deref_polariton, lift, polariton_at. rewrite M_bind_unfold.
    cbn [Cavity.heap]. rewrite Ho.
    pose proof (write_two h c pre (mid ++ post) a b
      (real (PolaritonMode.get_value o)) (imag (PolaritonMode.get_value o))) as W.
    rewrite M_bind_unfold in W.
    cbn [app]. rewrite M_bind_unfold.
    destruct (Cavity.write_current_state (length pre) _ _) as [[] s1|e s1];
      [|discriminate W].
    rewrite M_bind_unfold, W. cbn [mret M_ret].
    rewrite cons_middle.
    replace (length pre + 2) with (length (pre ++ [real (PolaritonMode.get_value o);
                                                   imag (PolaritonMode.get_value o)]))
      by (rewrite length_app; reflexivity).
    rewrite (IH _ mid post Hv) by lia.
    rewrite length_app. cbn [length]. f_equal; [lia|].
    rewrite polariton_slots_cons. cbn [omap list_omap read_slot].
    rewrite Ho. cbn [mbind option_bind]. rewrite <- app_assoc. reflexivity.
Qed.

Lemma pack_phonons_spec h c ps : forall pre mid post,
  Forall (fun p => is_Some (phonon_objects h !! p)) ps ->
  length mid = 2 * length ps ->
  for_each Cavity.pack_phonon ps (length pre)
    (Cavity.mk_state h (Cavity.set_current_state (pre ++ mid ++ post) c))
  = Ok (length pre + 2 * length ps)
       (Cavity.mk_state h (Cavity.set_current_state
          (pre ++ omap (read_slot h) (phonon_slots ps) ++ post) c)).
Proof.
  induction ps as [|p ps IH]; intros pre mid post Hv Hmid.
  - destruct mid; [|discriminate]. simpl. rewrite Nat.add_0_r. reflexivity.
  - apply Forall_cons in Hv as [[o Ho] Hv].
    destruct mid as [|a [|b mid]]; simpl in Hmid; try lia.
    cbn [for_each]. rewrite M_bind_unfold.
    unfold Cavity.pack_phonon at 1.
    unfold Cavity.deref_phonon, lift, phonon_at. rewrite M_bind_unfold.
    cbn [Cavity.heap]. rewrite Ho.
    pose proof (write_two h c pre (mid ++ post) a b
      (PhononMode.get_position o) (PhononMode.get_velocity o)) as W.
    rewrite M_bind_unfold in W.
    cbn [app]. rewrite M_bind_unfold.
    destruct (Cavity.write_current_state (length pre) _ _) as [[] s1|e s1] eqn:E1;
      [|discriminate W].
    assert (Hh : Cavity.heap s1 = h).
    { rewrite write_current_state_ok in E1 by (simpl; rewrite length_app; simpl; lia).
      by injection E1 as <-. }
    rewrite M_bind_unfold. rewrite Hh, Ho.
    rewrite M_bind_unfold, W. cbn [mret M_ret].
    rewrite cons_middle.
    replace (length pre + 2) with (length (pre ++ [PhononMode.get_position o;
                                                   PhononMode.get_velocity o]))
      by (rewrite length_app; reflexivity).
    rewrite (IH _ mid post Hv) by lia.
    rewrite length_app. cbn [length]. f_equal; [lia|].
    rewrite phonon_slots_cons. cbn [omap list_omap read_slot].
    rewrite Ho. cbn [mbind option_bind]. rewrite <- app_assoc. reflexivity.
Qed.

Lemma pack_reservoirs_spec h c ps : forall pre mid post,
  Forall (fun p => is_Some (polariton_objects h !! p)) ps ->
  length mid = length (owners h ps) ->
  for_each Cavity.pack_reservoir ps (length pre)
    (Cavity.mk_state h (Cavity.set_current_state (pre ++ mid ++ post) c))
  = Ok (length pre + length (owners h ps))
       (Cavity.mk_state h (Cavity.set_current_state
          (pre ++ omap (read_slot h) (reservoir_slots h ps) ++ post) c)).
Proof.
  induction ps as [|p ps IH]; intros pre mid post Hv Hmid.
  - destruct mid; [|discriminate]. simpl. rewrite Nat.add_0_r. reflexivity.
  - apply Forall_cons in Hv as [[o Ho] Hv].
    cbn [for_each]. rewrite M_bind_unfold.
    unfold Cavity.pack_reservoir at 1.
    unfold Cavity.deref_polariton, lift, polariton_at. rewrite M_bind_unfold.
    cbn [Cavity.heap]. rewrite Ho.
    unfold PolaritonMode.get_reservoir.
    assert (Eown : owns_reservoir h p
                   = match PolaritonMode.reservoir_owned o with
                     | Some _ => true | None => false end)
      by (unfold owns_reservoir; rewrite Ho; reflexivity).
    unfold reservoir_slots, owners in *. cbn [List.filter] in *.
    rewrite Eown in *. clear Eown.
    destruct (PolaritonMode.reservoir_owned o) as [r|] eqn:Hr.
    + destruct mid as [|a mid]; simpl in Hmid; try lia.
      cbn [app]. rewrite M_bind_unfold, write_one. cbn [mret M_ret].
      replace (pre ++ NonResonantDriving.get_value r :: mid ++ post)
        with ((pre ++ [NonResonantDriving.get_value r]) ++ mid ++ post)
        by (rewrite <- app_assoc; reflexivity).
      replace (length pre + 1) with (length (pre ++ [NonResonantDriving.get_value r]))
        by (rewrite length_app; reflexivity).
      rewrite (IH _ mid post Hv) by lia.
      rewrite length_app. cbn [length]. f_equal; [lia|].
      rewrite fmap_cons. cbn [omap list_omap read_slot].
      rewrite Ho. cbn [mbind option_bind]. rewrite Hr. cbn [mbind option_bind].
      rewrite <- app_assoc. reflexivity.
    + cbn [mret M_ret]. apply IH; done.
Qed.
End pack.

Section pack_state.
Context {double : Type} `{!DoubleOps double}.
Implicit Types (h : Heap double) (c : Cavity.t double) (x : vec double).

(** The values of the fields of a list of slots. *)
Lemma omap_read_Forall2 h (l : list slot) :
  Forall (fun s => is_Some (read_slot h s)) l ->
  Forall2 (fun s v => read_slot h s = Some v) l (omap (read_slot h) l).
Proof.
  induction 1 as [|s l [v Hv] _ IH]; simpl; [constructor|].
  rewrite Hv. constructor; done.
Qed.

Lemma owners_owns h ps p : p ∈ owners h ps -> owns_reservoir h p = true.
Proof.
  unfold owners. intros Hin. apply list_elem_of_In, filter_In in Hin. tauto.
Qed.

Lemma layout_readable h ps phs :
  pointers_valid h ps phs ->
  Forall (fun s => is_Some (read_slot h s)) (layout h ps phs).
Proof.
  intros [Hp Hph]. unfold layout. rewrite !Forall_app. split_and!.
  - unfold polariton_slots. apply Forall_bind.
    eapply Forall_impl; [exact Hp|]. intros p [o Ho]. simpl.
    repeat constructor; simpl; rewrite Ho; simpl; eauto.
  - unfold phonon_slots. apply Forall_bind.
    eapply Forall_impl; [exact Hph|]. intros p [o Ho]. simpl.
    repeat constructor; simpl; rewrite Ho; simpl; eauto.
  - unfold reservoir_slots. apply Forall_fmap, Forall_forall.
    intros p Hin. apply owners_owns in Hin. unfold owns_reservoir in Hin. simpl.
    destruct (polariton_objects h !! p) as [o|]; [|discriminate]. simpl.
    destruct (PolaritonMode.reservoir_owned o); [|discriminate]. simpl. eauto.
Qed.

(** The flat vector of a heap: the fields of the layout, in order. *)
Lemma flat_Forall2 h ps phs :
  pointers_valid h ps phs ->
  Forall2 (fun s v => read_slot h s = Some v) (layout h ps phs)
          (omap (read_slot h) (layout h ps phs)).
Proof. intros Hv. apply omap_read_Forall2, layout_readable, Hv. Qed.

Lemma length_flat h ps phs :
  pointers_valid h ps phs ->
  length (omap (read_slot h) (layout h ps phs)) = length (layout h ps phs).
Proof. intros Hv. symmetry. eapply Forall2_length, flat_Forall2, Hv. Qed.

Lemma set_current_state_eta c : Cavity.set_current_state (Cavity.current_state c) c = c.
Proof. by destruct c. Qed.

(** [pack_state] returns when the pointers are valid and the state vector
    has the length of the layout, and the vector then holds the fields of
    the layout in order. *)
Lemma pack_state_spec h c :
  pointers_valid h (Cavity.polaritons c) (Cavity.phonons c) ->
  length (Cavity.current_state c)
    = length (layout h (Cavity.polaritons c) (Cavity.phonons c)) ->
  Cavity.pack_state (Cavity.mk_state h c)
  = Ok tt (Cavity.mk_state h (Cavity.set_current_state
             (omap (read_slot h) (layout h (Cavity.polaritons c) (Cavity.phonons c))) c)).
Proof.
  intros Hv Hlen. pose proof (layout_readable _ _ _ Hv) as Hr.
  destruct Hv as [Hp Hph].
  unfold layout in *. rewrite !Forall_app in Hr. destruct Hr as (Hr1 & Hr2 & Hr3).
  apply omap_read_Forall2, Forall2_length in Hr1, Hr2, Hr3.
  rewrite !length_app, length_polariton_slots, length_phonon_slots,
    length_reservoir_slots in Hlen.
  rewrite length_polariton_slots in Hr1. rewrite length_phonon_slots in Hr2.
  rewrite length_reservoir_slots in Hr3.
  set (ps := Cavity.polaritons c) in *. set (phs := Cavity.phonons c) in *.
  set (cs := Cavity.current_state c) in *.
  set (A := omap (read_slot h) (polariton_slots ps)) in *.
  set (B := omap (read_slot h) (phonon_slots phs)) in *.
  set (C := omap (read_slot h) (reservoir_slots h ps)) in *.
  pose proof (pack_polaritons_spec h c ps [] (take (2 * length ps) cs)
                (drop (2 * length ps) cs) Hp) as E1.
  rewrite length_take, take_drop in E1. specialize (E1 ltac:(lia)).
  cbn [length app Nat.add] in E1. fold A in E1.
  pose proof (pack_phonons_spec h c phs A (take (2 * length phs) (drop (2 * length ps) cs))
                (drop (2 * length phs) (drop (2 * length ps) cs)) Hph) as E2.
  rewrite length_take, length_drop, take_drop in E2. specialize (E2 ltac:(lia)).
  fold B in E2. rewrite <- Hr1 in E2.
  pose proof (pack_reservoirs_spec h c ps (A ++ B)
                (drop (2 * length phs) (drop (2 * length ps) cs)) [] Hp) as E3.
  rewrite !length_drop in E3. specialize (E3 ltac:(lia)).
  fold C in E3. rewrite length_app, <- Hr1, <- Hr2, !app_nil_r, <- app_assoc in E3.
  unfold Cavity.pack_state. rewrite M_bind_unfold. cbn [gets Cavity.this].
  fold ps phs.
  rewrite <- (set_current_state_eta c) at 1. fold cs.
  rewrite M_bind_unfold, E1, M_bind_unfold, E2, M_bind_unfold, E3.
  cbn [mret M_ret]. rewrite !omap_app, <- app_assoc. reflexivity.
Qed.

(** The round trip on the entities. *)
Lemma unpacked_flat h ps phs :
  pointers_valid h ps phs ->
  unpacked h ps phs (omap (read_slot h) (layout h ps phs)) = h.
Proof. intros Hv. apply foldl_write_id, flat_Forall2, Hv. Qed.

(** C3.  On an assembled cavity [pack_state()] returns, and
    [unpack_state(current_state)] after it returns and leaves every entity
    as it was: the heap of entities is the same heap, hence every
    amplitude, position, velocity and reservoir value is the same value of
    type [double]. *)
Theorem C3_pack_unpack_round_trip (s : Cavity.state double) :
  assembled s ->
  exists s1,
    Cavity.pack_state s = Ok tt s1 /\
    Cavity.unpack_state (Cavity.current_state (Cavity.this s1)) s1 = Ok tt s1 /\
    Cavity.heap s1 = Cavity.heap s.
Proof.
  destruct s as [h c]. intros (Hv & Hdim & Hlen). cbn [Cavity.heap Cavity.this] in *.
  eexists. split; [apply pack_state_spec; [done|congruence]|].
  cbn [Cavity.heap Cavity.this Cavity.current_state Cavity.set_current_state].
  split; [|reflexivity].
  rewrite unpack_state_spec.
  - cbn [Cavity.polaritons Cavity.phonons Cavity.set_current_state].
    rewrite unpacked_flat by done. reflexivity.
  - exact Hv.
  - cbn [Cavity.polaritons Cavity.phonons Cavity.set_current_state].
    rewrite length_flat by done. lia.
Qed.
End pack_state.

(** ** Construction establishes the invariant *)

Section assemble.
Context {double : Type} `{!DoubleOps double}.
Implicit Types (h : Heap double) (c : Cavity.t double) (x : vec double).

Lemma same_entities_refl h : same_entities h h.
Proof. by repeat split. Qed.

Lemma same_entities_trans h1 h2 h3 :
  same_entities h1 h2 -> same_entities h2 h3 -> same_entities h1 h3.
Proof.
  intros (A1 & A2 & A3) (B1 & B2 & B3). split; [|split]; intros q.
  - rewrite B1. apply A1.
  - rewrite B2. apply A2.
  - rewrite B3. apply A3.
Qed.

Lemma same_entities_owns h h' p :
  same_entities h h' -> owns_reservoir h' p = owns_reservoir h p.
Proof.
  intros (_ & _ & Hr). specialize (Hr (Reservoir p)). simpl in Hr.
  unfold owns_reservoir.
  destruct (polariton_objects h' !! p) as [o'|], (polariton_objects h !! p) as [o|];
    simpl in Hr; try reflexivity.
  - destruct (PolaritonMode.reservoir_owned o'), (PolaritonMode.reservoir_owned o);
      simpl in Hr; congruence.
  - destruct (PolaritonMode.reservoir_owned o'); simpl in Hr; congruence.
  - destruct (PolaritonMode.reservoir_owned o); simpl in Hr; congruence.
Qed.

Lemma check_polariton_inv h c p s' :
  Cavity.check_polariton tt p (Cavity.mk_state h c) = Ok tt s' ->
  Cavity.this s' = c /\ same_entities h (Cavity.heap s')
  /\ is_Some (polariton_objects h !! p).
Proof.
  unfold Cavity.check_polariton, polariton_at. cbn [Cavity.heap Cavity.this].
  destruct (polariton_objects h !! p) as [o|] eqn:Ho; [|discriminate].
  unfold PolaritonMode.check. destruct (PolaritonMode.all_same_size _); [|discriminate].
  intros [= <-]. cbn [Cavity.heap Cavity.this]. split; [reflexivity|]. split; [|eauto].
  repeat split; cbn [polariton_objects phonon_objects]; try tauto.
  - rewrite lookup_insert_is_Some. intros [<-|[_ ?]]; eauto.
  - intros Hq. rewrite lookup_insert_is_Some. destruct (decide (p = p0)); eauto.
  - intros s. destruct s; simpl; try reflexivity;
      rewrite lookup_insert; case_decide; subst; rewrite ?Ho; reflexivity.
Qed.

Lemma check_phonon_inv h c p s' :
  Cavity.check_phonon tt p (Cavity.mk_state h c) = Ok tt s' ->
  Cavity.this s' = c /\ same_entities h (Cavity.heap s')
  /\ is_Some (phonon_objects h !! p).
Proof.
  unfold Cavity.check_phonon, phonon_at. cbn [Cavity.heap Cavity.this].
  destruct (phonon_objects h !! p) as [o|] eqn:Ho; [|discriminate].
  unfold PhononMode.check. destruct (PolaritonMode.all_same_size _); [|discriminate].
  intros [= <-]. cbn [Cavity.heap Cavity.this]. split; [reflexivity|]. split; [|eauto].
  repeat split; cbn [polariton_objects phonon_objects]; try tauto.
  - rewrite lookup_insert_is_Some. intros [<-|[_ ?]]; eauto.
  - intros Hq. rewrite lookup_insert_is_Some. destruct (decide (p = p0)); eauto.
  - intros s. destruct s; simpl; try reflexivity;
      rewrite lookup_insert; case_decide; subst; rewrite ?Ho; reflexivity.
Qed.

Lemma check_polaritons_inv c ps : forall h s',
  for_each Cavity.check_polariton ps tt (Cavity.mk_state h c) = Ok tt s' ->
  Cavity.this s' = c /\ same_entities h (Cavity.heap s')
  /\ Forall (fun p => is_Some (polariton_objects h !! p)) ps.
Proof.
  induction ps as [|p ps IH]; intros h s'; cbn [for_each].
  - intros [= <-]. split; [reflexivity|]. split; [apply same_entities_refl|constructor].
  - rewrite M_bind_unfold.
    destruct (Cavity.check_polariton tt p _) as [[] [h1 c1]|] eqn:E1; [|discriminate].
    apply check_polariton_inv in E1 as (Hc1 & S1 & V1).
    cbn [Cavity.heap Cavity.this] in *. subst c1.
    intros E. apply IH in E as (Hc & S2 & V2).
    split; [exact Hc|]. split; [eapply same_entities_trans; eassumption|].
    constructor; [exact V1|].
    eapply Forall_impl; [exact V2|]. intros q. simpl. apply S1.
Qed.

Lemma check_phonons_inv c ps : forall h s',
  for_each Cavity.check_phonon ps tt (Cavity.mk_state h c) = Ok tt s' ->
  Cavity.this s' = c /\ same_entities h (Cavity.heap s')
  /\ Forall (fun p => is_Some (phonon_objects h !! p)) ps.
Proof.
  induction ps as [|p ps IH]; intros h s'; cbn [for_each].
  - intros [= <-]. split; [reflexivity|]. split; [apply same_entities_refl|constructor].
  - rewrite M_bind_unfold.
    destruct (Cavity.check_phonon tt p _) as [[] [h1 c1]|] eqn:E1; [|discriminate].
    apply check_phonon_inv in E1 as (Hc1 & S1 & V1).
    cbn [Cavity.heap Cavity.this] in *. subst c1.
    intros E. apply IH in E as (Hc & S2 & V2).
    split; [exact Hc|]. split; [eapply same_entities_trans; eassumption|].
    constructor; [exact V1|].
    eapply Forall_impl; [exact V2|]. intros q. simpl. apply S1.
Qed.

Lemma count_reservoirs_spec h c ps : forall N,
  Forall (fun p => is_Some (polariton_objects h !! p)) ps ->
  for_each Cavity.count_reservoir ps N (Cavity.mk_state h c)
  = Ok (N + length (owners h ps)) (Cavity.mk_state h c).
Proof.
  induction ps as [|p ps IH]; intros N Hv; cbn [for_each].
  - simpl. rewrite Nat.add_0_r. reflexivity.
  - apply Forall_cons in Hv as [[o Ho] Hv].
    rewrite M_bind_unfold. unfold Cavity.count_reservoir at 1.
    unfold Cavity.deref_polariton, lift, polariton_at. rewrite M_bind_unfold.
    cbn [Cavity.heap]. rewrite Ho. unfold PolaritonMode.get_reservoir.
    unfold owners. cbn [List.filter]. unfold owns_reservoir at 1. rewrite Ho.
    destruct (PolaritonMode.reservoir_owned o); cbn [mret M_ret length].
    + rewrite IH by done. f_equal. unfold owners. lia.
    + apply IH. done.
Qed.

Lemma with_this_mk (f : Cavity.t double -> Cavity.t double) h c :
  Cavity.with_this f (Cavity.mk_state h c) = Cavity.mk_state h (f c).
Proof. reflexivity. Qed.

Lemma length_set_size n x : length (set_size n x) = n.
Proof.
  unfold set_size. case_decide; [done|]. by rewrite length_fmap, length_seq.
Qed.

(** What a successful [assemble] leaves: an assembled cavity over the
    same entities, its vector holding the fields of the layout, the other
    members of the object as they were. *)
Lemma assemble_spec h c s' :
  Cavity.assemble (Cavity.mk_state h c) = Ok tt s' ->
  assembled s' /\ same_entities h (Cavity.heap s') /\
  Cavity.polaritons (Cavity.this s') = Cavity.polaritons c /\
  Cavity.phonons (Cavity.this s') = Cavity.phonons c /\
  Cavity.current_time (Cavity.this s') = Cavity.current_time c /\
  Cavity.used_time_step (Cavity.this s') = Cavity.used_time_step c /\
  Cavity.current_state (Cavity.this s')
    = omap (read_slot (Cavity.heap s'))
           (layout (Cavity.heap s') (Cavity.polaritons c) (Cavity.phonons c)).
Proof.
  unfold Cavity.assemble. rewrite M_bind_unfold. cbn [gets Cavity.this].
  rewrite M_bind_unfold. cbn [modify]. rewrite with_this_mk.
  set (c1 := Cavity.set_dopri5_stepper _ c).
  change (Cavity.polaritons c) with (Cavity.polaritons c1).
  change (Cavity.phonons c) with (Cavity.phonons c1).
  rewrite M_bind_unfold.
  destruct (for_each Cavity.check_polariton _ _ _) as [[] [h1 c1']|] eqn:E1; [|discriminate].
  apply check_polaritons_inv in E1 as (Hc1 & S1 & V1).
  cbn [Cavity.heap Cavity.this] in *. subst c1'.
  rewrite M_bind_unfold.
  destruct (for_each Cavity.check_phonon _ _ _) as [[] [h2 c2']|] eqn:E2; [|discriminate].
  apply check_phonons_inv in E2 as (Hc2 & S2 & V2).
  cbn [Cavity.heap Cavity.this] in *. subst c2'.
  assert (S12 : same_entities h h2) by (eapply same_entities_trans; eassumption).
  assert (Hv : pointers_valid h2 (Cavity.polaritons c1) (Cavity.phonons c1)).
  { split.
    - eapply Forall_impl; [exact V1|]. intros q. simpl. apply S12.
    - eapply Forall_impl; [exact V2|]. intros q. simpl. apply S2. }
  rewrite M_bind_unfold, count_reservoirs_spec by apply Hv.
  rewrite M_bind_unfold. cbn [modify]. rewrite with_this_mk.
  rewrite M_bind_unfold. cbn [modify]. rewrite with_this_mk.
  set (N := 2 * _ + 2 * _ + _).
  set (c3 := Cavity.set_current_state _ _).
  assert (HN : N = length (layout h2 (Cavity.polaritons c1) (Cavity.phonons c1))).
  { rewrite length_layout. reflexivity. }
  rewrite pack_state_spec.
  - intros [= <-]. cbn [Cavity.heap Cavity.this].
    split; [|split; [exact S12|by repeat split]].
    split; [exact Hv|]. split; [exact HN|].
    cbn [Cavity.current_state Cavity.set_current_state Cavity.system_dimension
         Cavity.polaritons Cavity.phonons c3].
    change (length (omap (read_slot h2)
              (layout h2 (Cavity.polaritons c1) (Cavity.phonons c1))) = N).
    rewrite length_flat by done. symmetry. exact HN.
  - exact Hv.
  - change (length (set_size N (Cavity.current_state c1))
            = length (layout h2 (Cavity.polaritons c1) (Cavity.phonons c1))).
    rewrite length_set_size. exact HN.
Qed.

Lemma new_spec h ps phs t0 s :
  Cavity.new ps phs t0 h = Ok tt s ->
  assembled s /\ same_entities h (Cavity.heap s) /\
  Cavity.polaritons (Cavity.this s) = ps /\
  Cavity.phonons (Cavity.this s) = phs /\
  Cavity.current_time (Cavity.this s) = t0 /\
  Cavity.current_state (Cavity.this s)
    = omap (read_slot (Cavity.heap s)) (layout (Cavity.heap s) ps phs).
Proof.
  unfold Cavity.new. intros E. apply assemble_spec in E. tauto.
Qed.
End assemble.

(** ** The index layout *)

Section index_layout.
Context {double : Type} `{!DoubleOps double}.
Implicit Types (h : Heap double) (c : Cavity.t double) (x : vec double).

Lemma read_foldl_other h s (ws : list (slot * double)) :
  s ∉ ws.*1 -> read_slot (foldl write_slot h ws) s = read_slot h s.
Proof.
  revert h. induction ws as [|[s' v] ws IH]; intros h Hn; simpl in *; [reflexivity|].
  apply not_elem_of_cons in Hn as [Hne Hn].
  rewrite IH by done. apply read_write_other. done.
Qed.

Lemma read_is_Some_write h s w :
  is_Some (read_slot h s) -> is_Some (read_slot (write_slot h w) s).
Proof.
  intros Hs. destruct w as [s' v]. destruct (decide (s = s')) as [<-|Hne].
  - rewrite read_write_same by done. eauto.
  - rewrite read_write_other by done. done.
Qed.

Lemma read_is_Some_foldl h s (ws : list (slot * double)) :
  is_Some (read_slot h s) -> is_Some (read_slot (foldl write_slot h ws) s).
Proof.
  revert h. induction ws as [|w ws IH]; intros h Hs; simpl; [done|].
  apply IH, read_is_Some_write, Hs.
Qed.

(** The last write to a field is what the field holds. *)
Lemma read_last_write h (l1 l2 : list slot) s x v :
  s ∉ l2 -> x !! length l1 = Some v -> is_Some (read_slot h s) ->
  read_slot (foldl write_slot h (zip (l1 ++ s :: l2) x)) s = Some v.
Proof.
  intros Hn Hx Hs. rewrite zip_app_drop, foldl_app, (drop_S _ _ _ Hx).
  cbn [zip zip_with foldl]. rewrite read_foldl_other.
  - apply read_write_same, read_is_Some_foldl, Hs.
  - intros Hin. apply Hn. apply list_elem_of_fmap in Hin as [[s' v'] [-> Hin]].
    apply elem_of_zip_l in Hin. exact Hin.
Qed.

Lemma NoDup_owners h ps : NoDup ps -> NoDup (owners h ps).
Proof.
  unfold owners. induction 1 as [|p ps Hn _ IH]; simpl; [constructor|].
  destruct (owns_reservoir h p); [|exact IH].
  constructor; [|exact IH].
  intros Hin. apply Hn. apply list_elem_of_In, filter_In in Hin as [Hin _].
  by apply list_elem_of_In.
Qed.

Lemma same_entities_owners h h' ps : same_entities h h' -> owners h' ps = owners h ps.
Proof. intros Hs. apply owners_ext. intros p. by apply same_entities_owns. Qed.

(** C2.  A cavity built from the pointer lists [ps] and [phs] records the
    dimension [2p + 2m + r], with [r] the number of listed oscillators that
    own a reservoir, and its state vector has that length.  The [k]-th
    such oscillator, in list order, has its reservoir value packed into
    component [2p + 2m + k]; and when the listed oscillators are distinct,
    [unpack_state(x)] stores component [2p + 2m + k] of [x] into that same
    reservoir. *)
Theorem C2_index_layout (h : Heap double) (ps phs : list ptr) (t0 : double)
    (s : Cavity.state double) :
  Cavity.new ps phs t0 h = Ok tt s ->
  let c := Cavity.this s in
  let base := 2 * length ps + 2 * length phs in
  let own := owners (Cavity.heap s) ps in
  own = owners h ps /\
  Cavity.system_dimension c = base + length own /\
  length (Cavity.get_state c) = base + length own /\
  (forall k a, own !! k = Some a ->
     exists v, read_slot (Cavity.heap s) (Reservoir a) = Some v /\
               Cavity.get_state c !! (base + k) = Some v) /\
  (NoDup ps -> forall x, length x = base + length own ->
     exists h', Cavity.unpack_state x s = Ok tt (Cavity.mk_state h' c) /\
       forall k a, own !! k = Some a ->
         is_Some (x !! (base + k)) /\
         read_slot h' (Reservoir a) = x !! (base + k)).
Proof.
  intros E c base own. destruct s as [h' c']. cbn [Cavity.this Cavity.heap] in *.
  subst c. apply new_spec in E as ((Hv & Hdim & Hlen) & Hsame & Hps & Hphs & _ & Hcs).
  cbn [Cavity.this Cavity.heap] in *. subst base own ps phs.
  set (ps := Cavity.polaritons c') in *. set (phs := Cavity.phonons c') in *.
  set (base := 2 * length ps + 2 * length phs).
  set (own := owners h' ps).
  rewrite length_layout in Hdim. fold base own in Hdim.
  assert (Hlay : forall k a, own !! k = Some a ->
            exists l1 l2, layout h' ps phs = l1 ++ Reservoir a :: l2 /\
                          length l1 = base + k /\ (NoDup ps -> Reservoir a ∉ l2)).
  { intros k a Hk.
    exists (polariton_slots ps ++ phonon_slots phs ++ (Reservoir <$> take k own)),
           (Reservoir <$> drop (S k) own).
    split; [|split].
    - unfold layout, reservoir_slots. fold own.
      rewrite <- (take_drop_middle own k a Hk) at 1.
      rewrite fmap_app, fmap_cons, <- !app_assoc. reflexivity.
    - rewrite !length_app, length_polariton_slots, length_phonon_slots, length_fmap,
        length_take_le; [unfold base; lia|].
      apply lookup_lt_Some in Hk. lia.
    - intros Hnd Hin. apply list_elem_of_fmap in Hin as [a' [[= <-] Hin]].
      assert (Hnd' : NoDup own) by apply NoDup_owners, Hnd.
      rewrite <- (take_drop_middle own k a Hk) in Hnd'.
      apply NoDup_app in Hnd' as (_ & _ & Hnd'). apply NoDup_cons in Hnd' as [Hn _].
      contradiction. }
  split; [by apply same_entities_owners|]. split; [exact Hdim|].
  split; [unfold Cavity.get_state; congruence|]. split.
  - intros k a Hk. destruct (Hlay k a Hk) as (l1 & l2 & El & Hl1 & _).
    pose proof (flat_Forall2 _ _ _ Hv) as F. rewrite <- Hcs in F.
    assert (Hl : layout h' ps phs !! (base + k) = Some (Reservoir a)).
    { rewrite El, <- Hl1. apply list_lookup_middle. reflexivity. }
    destruct (Forall2_lookup_l _ _ _ _ _ F Hl) as (v & Hx & Hr). eauto.
  - intros Hnd x Hx. eexists. split.
    + apply unpack_state_spec; [exact Hv|]. rewrite length_layout.
      fold ps phs own. unfold base in Hx. lia.
    + intros k a Hk. destruct (Hlay k a Hk) as (l1 & l2 & El & Hl1 & Hn).
      destruct (lookup_lt_is_Some_2 x (base + k)) as [v Hxv].
      { apply lookup_lt_Some in Hk. lia. }
      split; [eauto|]. rewrite Hxv. unfold unpacked. fold ps phs. rewrite El.
      apply read_last_write; [by apply Hn|congruence|].
      pose proof (layout_readable _ _ _ Hv) as R. rewrite El in R.
      apply Forall_app in R as [_ R]. apply Forall_cons in R as [R _]. exact R.
Qed.
End index_layout.

(** ** [operator()] computes the vector field *)

Section rhs.
Context {double : Type} `{!DoubleOps double}.
Implicit Types (h : Heap double) (c : Cavity.t double) (x : vec double).

Lemma result_bind_unfold {A B} (r : result A) (f : A -> result B) :
  (r ≫= f) = match r with Val a => f a | Exn e => Exn e end.
Proof. reflexivity. Qed.

Lemma eval_vec_set_middle {S} (pre post : list double) a v (s : S) :
  eval (vec_set (pre ++ a :: post) (length pre) v) s = Ok (pre ++ v :: post) s.
Proof.
  unfold eval, vec_set. rewrite decide_True by (rewrite length_app; simpl; lia).
  rewrite insert_middle. reflexivity.
Qed.

Lemma eval_vec_set_middle' {S} (pre post : list double) a0 a v (s : S) :
  eval (vec_set (pre ++ a0 :: a :: post) (length pre + 1) v) s
  = Ok (pre ++ a0 :: v :: post) s.
Proof.
  unfold eval, vec_set. rewrite decide_True by (rewrite length_app; simpl; lia).
  rewrite insert_middle'. reflexivity.
Qed.

Lemma rhs_polaritons_spec h c t ps : forall pre mid post,
  length mid = 2 * length ps ->
  for_each (Cavity.rhs_polariton t) ps (pre ++ mid ++ post, length pre) (Cavity.mk_state h c)
  = match polariton_rows h t ps with
    | Val vals => Ok (pre ++ vals ++ post, length pre + 2 * length ps) (Cavity.mk_state h c)
    | Exn e => Throw e (Cavity.mk_state h c)
    end.
Proof.
  induction ps as [|p ps IH]; intros pre mid post Hmid.
  - destruct mid; [|discriminate]. simpl. rewrite Nat.add_0_r. reflexivity.
  - destruct mid as [|a [|b mid]]; simpl in Hmid; try lia.
    cbn [for_each polariton_rows]. rewrite M_bind_unfold, result_bind_unfold.
    unfold Cavity.rhs_polariton at 1.
    unfold Cavity.deref_polariton, lift. rewrite M_bind_unfold. cbn [Cavity.heap].
    destruct (polariton_at h p) as [o|e]; [|reflexivity].
    rewrite M_bind_unfold, result_bind_unfold. cbn [Cavity.heap].
    destruct (PolaritonMode_derivative h o t) as [d|e]; [|reflexivity].
    cbn [app]. rewrite M_bind_unfold, eval_vec_set_middle.
    rewrite M_bind_unfold, eval_vec_set_middle'. cbn [mret M_ret].
    rewrite cons_middle.
    replace (length pre + 2) with (length (pre ++ [real d; imag d]))
      by (rewrite length_app; reflexivity).
    rewrite (IH _ mid post) by lia. rewrite result_bind_unfold.
    destruct (polariton_rows h t ps) as [vals|e]; [|reflexivity].
    cbn [mret result_ret]. rewrite length_app, <- app_assoc. cbn [length app].
    do 2 f_equal. lia.
Qed.

Lemma rhs_phonons_spec h c t ps : forall pre mid post,
  length mid = 2 * length ps ->
  for_each (Cavity.rhs_phonon t) ps (pre ++ mid ++ post, length pre) (Cavity.mk_state h c)
  = match phonon_rows h t ps with
    | Val vals => Ok (pre ++ vals ++ post, length pre + 2 * length ps) (Cavity.mk_state h c)
    | Exn e => Throw e (Cavity.mk_state h c)
    end.
Proof.
  induction ps as [|p ps IH]; intros pre mid post Hmid.
  - destruct mid; [|discriminate]. simpl. rewrite Nat.add_0_r. reflexivity.
  - destruct mid as [|a [|b mid]]; simpl in Hmid; try lia.
    cbn [for_each phonon_rows]. rewrite M_bind_unfold, result_bind_unfold.
    unfold Cavity.rhs_phonon at 1.
    unfold Cavity.deref_phonon, lift. rewrite M_bind_unfold. cbn [Cavity.heap].
    destruct (phonon_at h p) as [o|e] eqn:Ho; [|reflexivity].
    cbn [app]. rewrite M_bind_unfold, eval_vec_set_middle.
    rewrite M_bind_unfold. cbn [Cavity.heap]. rewrite Ho.
    rewrite M_bind_unfold, result_bind_unfold. cbn [Cavity.heap].
    destruct (PhononMode_second_derivative h o t) as [d|e]; [|reflexivity].
    rewrite M_bind_unfold, eval_vec_set_middle'. cbn [mret M_ret].
    rewrite cons_middle.
    replace (length pre + 2) with (length (pre ++ [PhononMode.get_velocity o; d]))
      by (rewrite length_app; reflexivity).
    rewrite (IH _ mid post) by lia. rewrite result_bind_unfold.
    destruct (phonon_rows h t ps) as [vals|e]; [|reflexivity].
    cbn [mret result_ret]. rewrite length_app, <- app_assoc. cbn [length app].
    do 2 f_equal. lia.
Qed.

Lemma rhs_reservoirs_spec h c t ps : forall pre mid post,
  length mid = length (owners h ps) ->
  for_each (Cavity.rhs_reservoir t) ps (pre ++ mid ++ post, length pre) (Cavity.mk_state h c)
  = match reservoir_rows h t ps with
    | Val vals =>
        Ok (pre ++ vals ++ post, length pre + length (owners h ps)) (Cavity.mk_state h c)
    | Exn e => Throw e (Cavity.mk_state h c)
    end.
Proof.
  induction ps as [|p ps IH]; intros pre mid post Hmid.
  - destruct mid; [|discriminate]. simpl. rewrite Nat.add_0_r. reflexivity.
  - cbn [for_each reservoir_rows]. rewrite M_bind_unfold, result_bind_unfold.
    unfold Cavity.rhs_reservoir at 1.
    unfold Cavity.deref_polariton, lift. rewrite M_bind_unfold. cbn [Cavity.heap].
    unfold owners in *. cbn [List.filter] in *. unfold owns_reservoir at 1 3.
    unfold owns_reservoir at 1 in Hmid. unfold polariton_at.
    destruct (polariton_objects h !! p) as [o|]; [|reflexivity].
    unfold PolaritonMode.get_reservoir.
    destruct (PolaritonMode.reservoir_owned o) as [r|].
    + destruct mid as [|a mid]; simpl in Hmid; try lia.
      rewrite M_bind_unfold, result_bind_unfold. cbn [Cavity.heap].
      destruct (NonResonantDriving_derivative h r t) as [d|e]; [|reflexivity].
      cbn [app]. rewrite M_bind_unfold, eval_vec_set_middle. cbn [mret M_ret].
      replace (pre ++ d :: mid ++ post) with ((pre ++ [d]) ++ mid ++ post)
        by (rewrite <- app_assoc; reflexivity).
      replace (length pre + 1) with (length (pre ++ [d]))
        by (rewrite length_app; reflexivity).
      rewrite (IH _ mid post) by lia. rewrite result_bind_unfold.
      destruct (reservoir_rows h t ps) as [vals|e]; [|reflexivity].
      cbn [mret result_ret]. rewrite length_app, <- app_assoc. cbn [length app].
      do 2 f_equal. lia.
    + cbn [mret M_ret]. apply IH. done.
Qed.

Lemma polariton_rows_length h t ps vals :
  polariton_rows h t ps = Val vals -> length vals = 2 * length ps.
Proof.
  revert vals. induction ps as [|p ps IH]; intros vals; cbn [polariton_rows].
  - by intros [= <-].
  - rewrite result_bind_unfold. destruct (polariton_at h p); [|discriminate].
    rewrite result_bind_unfold. destruct (PolaritonMode_derivative _ _ _); [|discriminate].
    rewrite result_bind_unfold. destruct (polariton_rows h t ps); [|discriminate].
    intros [= <-]. cbn [length]. rewrite (IH _ eq_refl). lia.
Qed.

Lemma phonon_rows_length h t ps vals :
  phonon_rows h t ps = Val vals -> length vals = 2 * length ps.
Proof.
  revert vals. induction ps as [|p ps IH]; intros vals; cbn [phonon_rows].
  - by intros [= <-].
  - rewrite result_bind_unfold. destruct (phonon_at h p); [|discriminate].
    rewrite result_bind_unfold. destruct (PhononMode_second_derivative _ _ _); [|discriminate].
    rewrite result_bind_unfold. destruct (phonon_rows h t ps); [|discriminate].
    intros [= <-]. cbn [length]. rewrite (IH _ eq_refl). lia.
Qed.

(** On an assembled cavity, [operator()(x, dxdt, t)] leaves the entities
    unpacked from [x], and returns the vector field at [(x, t)] whatever
    the buffer [dxdt] held. *)
Lemma call_spec h c x dxdt t :
  pointers_valid h (Cavity.polaritons c) (Cavity.phonons c) ->
  Cavity.system_dimension c = length (layout h (Cavity.polaritons c) (Cavity.phonons c)) ->
  Cavity.system_dimension c <= length x ->
  Cavity.call x dxdt t (Cavity.mk_state h c)
  = let h' := unpacked h (Cavity.polaritons c) (Cavity.phonons c) x in
    match vector_field h (Cavity.polaritons c) (Cavity.phonons c) x t with
    | Val v => Ok v (Cavity.mk_state h' (Cavity.set_evaluating_rhs false c))
    | Exn e => Throw e (Cavity.mk_state h' (Cavity.set_evaluating_rhs true c))
    end.
Proof.
  intros Hv Hdim Hx.
  set (ps := Cavity.polaritons c) in *. set (phs := Cavity.phonons c) in *.
  unfold Cavity.call. rewrite M_bind_unfold. cbn [gets Cavity.this].
  rewrite M_bind_unfold. cbn [modify]. rewrite with_this_mk.
  rewrite M_bind_unfold.
  rewrite (unpack_state_spec x h (Cavity.set_evaluating_rhs true c));
    [|exact Hv|change (length (layout h ps phs) <= length x); lia].
  cbn [Cavity.polaritons Cavity.phonons Cavity.set_evaluating_rhs]. fold ps phs.
  set (h' := unpacked h ps phs x). cbn zeta.
  assert (Hv' : pointers_valid h' ps phs) by (by apply pointers_valid_foldl_write).
  assert (Ho : owners h' ps = owners h ps).
  { apply owners_ext. intros q. apply foldl_write_owns_reservoir. }
  set (d := set_size (Cavity.system_dimension c) dxdt).
  assert (Hd : length d = 2 * length ps + 2 * length phs + length (owners h ps)).
  { unfold d. rewrite length_set_size, Hdim, length_layout. reflexivity. }
  unfold vector_field. fold h'.
  pose proof (rhs_polaritons_spec h' (Cavity.set_evaluating_rhs true c) t ps []
                (take (2 * length ps) d) (drop (2 * length ps) d)) as E1.
  rewrite length_take, take_drop in E1. specialize (E1 ltac:(lia)).
  cbn [length app Nat.add] in E1.
  rewrite M_bind_unfold, E1, result_bind_unfold. clear E1.
  destruct (polariton_rows h' t ps) as [A|e] eqn:EA; [|reflexivity].
  apply polariton_rows_length in EA.
  pose proof (rhs_phonons_spec h' (Cavity.set_evaluating_rhs true c) t phs A
                (take (2 * length phs) (drop (2 * length ps) d))
                (drop (2 * length phs) (drop (2 * length ps) d))) as E2.
  rewrite length_take, length_drop, take_drop, EA in E2. specialize (E2 ltac:(lia)).
  rewrite M_bind_unfold, E2, result_bind_unfold. clear E2.
  destruct (phonon_rows h' t phs) as [B|e] eqn:EB; [|reflexivity].
  apply phonon_rows_length in EB.
  pose proof (rhs_reservoirs_spec h' (Cavity.set_evaluating_rhs true c) t ps (A ++ B)
                (drop (2 * length phs) (drop (2 * length ps) d)) []) as E3.
  rewrite !length_drop, length_app, EA, EB, Ho, app_nil_r in E3.
  specialize (E3 ltac:(lia)).
  rewrite <- app_assoc in E3.
  rewrite M_bind_unfold, E3, result_bind_unfold. clear E3.
  destruct (reservoir_rows h' t ps) as [C|e]; [|reflexivity].
  rewrite M_bind_unfold. cbn [modify mret M_ret result_ret]. rewrite with_this_mk.
  cbn [fst]. rewrite app_nil_r, <- app_assoc. reflexivity.
Qed.

(** Unpacking twice is unpacking once. *)
Lemma unpacked_idem h ps phs x x' :
  length x = length x' ->
  unpacked (unpacked h ps phs x) ps phs x' = unpacked h ps phs x'.
Proof.
  intros Hlen. unfold unpacked at 1 3.
  rewrite (layout_ext h) by (intros q; apply foldl_write_owns_reservoir).
  unfold unpacked. apply foldl_write_erases.
  assert (Hz : forall y y' : list double, length y = length y' ->
            forall l : list slot, (zip l y).*1 = (zip l y').*1).
  { intros y y' Hy l. revert y y' Hy.
    induction l as [|s l IH]; intros [|a y] [|a' y'] Hy; simpl in *;
      try discriminate; try reflexivity.
    f_equal. apply IH. lia. }
  rewrite (Hz x x' Hlen). done.
Qed.

(** C7.  On an assembled cavity and a state vector of the system
    dimension, a second evaluation of [operator()] with the same [(x, t)]
    has the outcome of the first (the same derivative vector, or the same
    exception) and leaves the state the first one left, whatever the two
    output buffers held before. *)
Theorem C7_vector_field_deterministic (s : Cavity.state double) (x d1 d2 : vec double)
    (t : double) :
  assembled s ->
  length x = Cavity.system_dimension (Cavity.this s) ->
  match Cavity.call x d1 t s with
  | Ok dxdt s1 => Cavity.call x d2 t s1 = Ok dxdt s1
  | Throw e s1 => Cavity.call x d2 t s1 = Throw e s1
  end.
Proof.
  destruct s as [h c]. intros (Hv & Hdim & _) Hx. cbn [Cavity.heap Cavity.this] in *.
  pose (ps := Cavity.polaritons c). pose (phs := Cavity.phonons c).
  assert (Hv' : pointers_valid (unpacked h ps phs x) ps phs)
    by (by apply pointers_valid_foldl_write).
  assert (Hl : layout (unpacked h ps phs x) ps phs = layout h ps phs).
  { apply layout_ext. intros q. apply foldl_write_owns_reservoir. }
  assert (Hvf : vector_field (unpacked h ps phs x) ps phs x t = vector_field h ps phs x t).
  { unfold vector_field. rewrite unpacked_idem by done. reflexivity. }
  assert (Hsecond : forall b,
    Cavity.call x d2 t (Cavity.mk_state (unpacked h ps phs x) (Cavity.set_evaluating_rhs b c))
    = match vector_field h ps phs x t with
      | Val v => Ok v (Cavity.mk_state (unpacked h ps phs x) (Cavity.set_evaluating_rhs false c))
      | Exn e => Throw e (Cavity.mk_state (unpacked h ps phs x)
                                          (Cavity.set_evaluating_rhs true c))
      end).
  { intros b. rewrite call_spec.
    - change (Cavity.polaritons (Cavity.set_evaluating_rhs b c)) with ps.
      change (Cavity.phonons (Cavity.set_evaluating_rhs b c)) with phs.
      cbn zeta. rewrite Hvf, unpacked_idem by done. reflexivity.
    - exact Hv'.
    - change (Cavity.system_dimension c = length (layout (unpacked h ps phs x) ps phs)).
      rewrite Hl. exact Hdim.
    - change (Cavity.system_dimension c <= length x). lia. }
  subst ps phs. rewrite call_spec by (done || lia). cbn zeta.
  destruct (vector_field h _ _ x t) as [v|e]; apply Hsecond.
Qed.
End rhs.

(** ** The three derivative laws in real arithmetic *)

Section derivative_laws.
Local Open Scope R_scope.
Implicit Types (h : Heap R) (t : R).

Lemma Q2R_0 : Q2R 0 = 0.
Proof. unfold Q2R. simpl. lra. Qed.

Lemma Q2R_1 : Q2R 1 = 1.
Proof. unfold Q2R. simpl. lra. Qed.

Lemma Q2R_2 : Q2R 2 = 2.
Proof. unfold Q2R. simpl. lra. Qed.

Lemma cx_eq (a b : cx_double R) : real a = real b -> imag a = imag b -> a = b.
Proof. destruct a, b. simpl. by intros -> ->. Qed.

Lemma vector_at_Some {A} (v : list A) i a : v !! i = Some a -> vector_at v i = Val a.
Proof. unfold vector_at. by intros ->. Qed.

(** A loop whose body returns its accumulator returns its accumulator. *)
Lemma for_each_r_fixed {A B} (body : B -> A -> result B) (l : list A) (acc : B) :
  Forall (fun a => body acc a = Val acc) l -> for_each_r body l acc = Val acc.
Proof.
  induction 1 as [|a l Ha _ IH]; simpl; [reflexivity|].
  rewrite result_bind_unfold, Ha. exact IH.
Qed.

(** C6.  The reservoir created by [add_reservoir] points back to the
    oscillator it was added to, and for every reservoir whose oscillator
    pointer resolves, at every time, [derivative(t)] is
    [tau * (power - value * (1 + alpha^2 * |v|^2))] with [v] the amplitude
    that oscillator holds at the call. *)
Theorem C6_reservoir_derivative :
  (forall this coupling tau P alpha n0 (o : PolaritonMode.t R),
     exists r,
       PolaritonMode.get_reservoir
         (PolaritonMode.add_reservoir this coupling tau P alpha n0 o) = Some r /\
       NonResonantDriving.polariton r = this) /\
  (forall h (r : NonResonantDriving.t R) t (p : PolaritonMode.t R),
     polariton_objects h !! NonResonantDriving.polariton r = Some p ->
     NonResonantDriving_derivative h r t
     = Val (NonResonantDriving.time_factor r
            * (NonResonantDriving.power r
               - NonResonantDriving.value r
                 * (1 + NonResonantDriving.alpha r * NonResonantDriving.alpha r
                        * Cnorm2 (PolaritonMode.get_value p))))).
Proof.
  split.
  - intros. eexists. split; reflexivity.
  - intros h r t p Hp. unfold NonResonantDriving_derivative, polariton_at. rewrite Hp.
    unfold Cnorm2. simpl. rewrite Q2R_1. unfold mret, result_ret. f_equal. ring.
Qed.

(** *** The oscillator *)

Lemma neighbor_term_uncoupled h (p : PolaritonMode.t R) t drv i :
  links_resolve h p -> links_uncoupled p ->
  (i < PolaritonMode.n_neighbors p)%nat ->
  neighbor_term h p t drv i = Val drv.
Proof.
  intros (H1 & H2 & H3 & H4 & H5 & H6 & Hvp & Hvph) [HJ Hg] Hi.
  destruct (lookup_lt_is_Some_2 (PolaritonMode.signs p) i ltac:(lia)) as [sg Hsg].
  destruct (lookup_lt_is_Some_2 (PolaritonMode.neighboring_phonons p) i ltac:(lia))
    as [a Ha].
  destruct (lookup_lt_is_Some_2 (PolaritonMode.detunings_from_resonance p) i ltac:(lia))
    as [delta Hd].
  destruct (lookup_lt_is_Some_2 (PolaritonMode.phonon_couplings p) i ltac:(lia))
    as [g Hgi].
  destruct (lookup_lt_is_Some_2 (PolaritonMode.constant_couplings p) i ltac:(lia))
    as [J HJi].
  destruct (lookup_lt_is_Some_2 (PolaritonMode.neighboring_polaritons p) i ltac:(lia))
    as [b Hb].
  pose proof (proj1 (Forall_lookup _ _) Hvph _ _ Ha) as [ph Hph].
  pose proof (proj1 (Forall_lookup _ _) Hvp _ _ Hb) as [nb Hnb].
  pose proof (proj1 (Forall_lookup _ _) HJ _ _ HJi) as [J1 J2].
  pose proof (proj1 (Forall_lookup _ _) Hg _ _ Hgi) as [g1 g2].
  unfold neighbor_term.
  rewrite (vector_at_Some _ _ _ Hsg), (vector_at_Some _ _ _ Ha), (vector_at_Some _ _ _ Hd),
    (vector_at_Some _ _ _ Hgi), (vector_at_Some _ _ _ HJi), (vector_at_Some _ _ _ Hb).
  unfold polariton_at, phonon_at. simpl. rewrite Hph. simpl. rewrite Hnb. simpl.
  unfold mret, result_ret. f_equal. destruct drv as [x y].
  apply cx_eq; simpl; rewrite J1, J2, g1, g2; ring.
Qed.

(** With all links at [J = g = 0] the derivative is the local law, the
    reservoir term included. *)
Lemma derivative_uncoupled h (p : PolaritonMode.t R) t :
  links_resolve h p -> links_uncoupled p ->
  PolaritonMode_derivative h p t
  = Val (pumped_oscillator_law (PolaritonMode.value p) (PolaritonMode.dissipative_gamma p)
           (PolaritonMode.self_interaction p) (reservoir_term p).1 (reservoir_term p).2
           (PolaritonMode.r_driving_amp p) (PolaritonMode.r_driving_detuning p) t).
Proof.
  intros Hr Hu. unfold PolaritonMode_derivative.
  rewrite for_each_r_fixed.
  2:{ apply Forall_forall. intros i Hi. apply elem_of_seq in Hi.
      apply neighbor_term_uncoupled; [done|done|lia]. }
  unfold mret, result_ret. simpl. f_equal.
  unfold pumped_oscillator_law, reservoir_term.
  unfold Cnorm2, NonResonantDriving.get_value.
  destruct (PolaritonMode.reservoir_owned p) as [r|];
    apply cx_eq; simpl; rewrite ?Q2R_0, ?Q2R_1; ring.
Qed.

Lemma pumped_free_law value gamma U xi n amp det t :
  xi * n = 0 ->
  pumped_oscillator_law value gamma U xi n amp det t
  = free_oscillator_law value gamma U amp det t.
Proof.
  intros E. unfold pumped_oscillator_law, free_oscillator_law, Cnorm2.
  apply cx_eq; simpl; rewrite E; ring.
Qed.

(** C4 as stated fails: [pumped_site] has no links at all, so all its
    links have [J = g = 0], yet its derivative at [t = 0] is not what the
    formula without reservoir term gives ([1 + 0i] against [0]). *)
Lemma C4_reservoir_counterexample :
  links_resolve pumped_heap pumped_site /\ links_uncoupled pumped_site /\
  PolaritonMode_derivative pumped_heap pumped_site 0
  <> Val (free_oscillator_law (PolaritonMode.value pumped_site)
            (PolaritonMode.dissipative_gamma pumped_site)
            (PolaritonMode.self_interaction pumped_site)
            (PolaritonMode.r_driving_amp pumped_site)
            (PolaritonMode.r_driving_detuning pumped_site) 0).
Proof.
  assert (Hr : links_resolve pumped_heap pumped_site)
    by (repeat split; simpl; constructor).
  assert (Hu : links_uncoupled pumped_site) by (split; constructor).
  split; [exact Hr|]. split; [exact Hu|].
  rewrite derivative_uncoupled by done. intros [= E _]. revert E.
  simpl. rewrite ?Q2R_0. lra.
Qed.
End derivative_laws.

(** ** The zero-coupling laws with the special values of doubles *)

Section special_values.
Local Open Scope R_scope.
Implicit Types (h : Heap ieee) (t : ieee).

Local Ltac run_result := repeat (rewrite result_bind_unfold; cbv beta iota zeta).

Lemma is_num_inv (a : ieee) : is_num a -> exists x, a = Num x.
Proof. destruct a; simpl; [eauto|done|done]. Qed.

Lemma cx_num_inv (z : cx_double ieee) : cx_num z -> exists x y, z = cx (Num x) (Num y).
Proof.
  destruct z as [a b]. unfold cx_num. simpl.
  intros [[x ->]%is_num_inv [y ->]%is_num_inv]. eauto.
Qed.

(** Adding the complex zero changes nothing, whatever the other term
    is. *)
Lemma cx_add_zero (z : cx_double ieee) (x y : R) :
  x = 0 -> y = 0 -> add z (cx (Num x) (Num y)) = z.
Proof.
  intros -> ->. destruct z as [[a| |] [b| |]]; unfold add; simpl;
    rewrite ?Rplus_0_r; reflexivity.
Qed.

(** *** The mechanical mode *)

Lemma pairing_term_idle h (ph : PhononMode.t ieee) t acc i :
  pairings_resolve h ph -> zero_pairings ph -> pairings_finite h ph t ->
  (i < PhononMode.n_pairings ph)%nat ->
  pairing_term h ph t acc i = Val acc.
Proof.
  intros (H1 & H2 & H3 & Hv) Hc [Hphase Hamp] Hi.
  destruct (lookup_lt_is_Some_2 (PhononMode.detunings ph) i ltac:(lia)) as [delta Hd].
  destruct (lookup_lt_is_Some_2 (PhononMode.couplings ph) i ltac:(lia)) as [c Hci].
  destruct (lookup_lt_is_Some_2 (PhononMode.pairs ph) i ltac:(lia)) as [[a b] Hpr].
  pose proof (proj1 (Forall_lookup _ _) Hv _ _ Hpr) as [[p0 Hp0] [p1 Hp1]].
  pose proof (proj1 (Forall_lookup _ _) Hc _ _ Hci) as ->.
  destruct (Hamp _ _ _ _ Hpr Hp0 Hp1) as [(a0 & b0 & E0)%cx_num_inv (a1 & b1 & E1)%cx_num_inv].
  destruct (cx_num_inv _ (Hphase _ _ Hd)) as (c & s & Ephase).
  unfold pairing_term.
  rewrite (vector_at_Some _ _ _ Hd), (vector_at_Some _ _ _ Hci), (vector_at_Some _ _ _ Hpr).
  unfold polariton_at. simpl in Hp0, Hp1.
  run_result. cbn [fst snd]. rewrite Hp0. run_result. rewrite Hp1. run_result.
  rewrite Ephase. unfold PolaritonMode.get_value in *. rewrite E0, E1.
  unfold mret, result_ret. f_equal.
  apply cx_add_zero; simpl; ring.
Qed.

Lemma second_derivative_idle h (ph : PhononMode.t ieee) t :
  pairings_resolve h ph -> zero_pairings ph -> pairings_finite h ph t ->
  PhononMode_second_derivative h ph t
  = PhononMode_second_derivative h (PhononMode.set_n_pairings 0 ph) t.
Proof.
  intros Hr Hc Hf. unfold PhononMode_second_derivative.
  rewrite for_each_r_fixed; [reflexivity|].
  apply Forall_forall. intros i Hi. apply elem_of_seq in Hi.
  apply pairing_term_idle; [done|done|done|lia].
Qed.

(** C5 as amended.  For a mechanical mode whose pairings all have
    coupling [0] (none at all included), at every time at which the
    phase factors of the pairings and the amplitudes of the paired
    oscillators are finite, [second_derivative(t)] is what it is without
    the pairings; with numbers for [Omega], [Gamma], position and velocity
    that is [-Omega^2*position - Gamma*velocity], and with [Omega = 20],
    [Gamma = 0.05], [position = 1], [velocity = 0] it is [-400]. *)
Theorem C5_decoupled_mode h (ph : PhononMode.t ieee) t :
  pairings_resolve h ph -> zero_pairings ph -> pairings_finite h ph t ->
  PhononMode_second_derivative h ph t
  = PhononMode_second_derivative h (PhononMode.set_n_pairings 0 ph) t /\
  (forall Omega Gamma x v : R,
     PhononMode.frequency ph = Num Omega -> PhononMode.dissipation ph = Num Gamma ->
     PhononMode.position ph = Num x -> PhononMode.velocity ph = Num v ->
     PhononMode_second_derivative h ph t
     = Val (Num (- (Omega * Omega) * x - Gamma * v))) /\
  (PhononMode.frequency ph = Num 20 -> PhononMode.dissipation ph = Num (5 / 100) ->
   PhononMode.position ph = Num 1 -> PhononMode.velocity ph = Num 0 ->
   PhononMode_second_derivative h ph t = Val (Num (-400))).
Proof.
  intros Hr Hc Hf.
  assert (E : forall Omega Gamma x v : R,
            PhononMode.frequency ph = Num Omega -> PhononMode.dissipation ph = Num Gamma ->
            PhononMode.position ph = Num x -> PhononMode.velocity ph = Num v ->
            PhononMode_second_derivative h ph t
            = Val (Num (- (Omega * Omega) * x - Gamma * v))).
  { intros Omega Gamma x v H1 H2 H3 H4. rewrite second_derivative_idle by done.
    unfold PhononMode_second_derivative. destruct ph; simpl in *. subst.
    unfold mret, result_ret. simpl. f_equal. f_equal. rewrite Q2R_0, Q2R_2. ring. }
  split; [by apply second_derivative_idle|]. split; [exact E|].
  intros H1 H2 H3 H4. rewrite (E _ _ _ _ H1 H2 H3 H4). f_equal. f_equal. lra.
Qed.

(** *** The oscillator *)

Lemma neighbor_term_idle h (p : PolaritonMode.t ieee) t drv i :
  links_resolve h p -> zero_links p -> links_finite h p t ->
  (i < PolaritonMode.n_neighbors p)%nat ->
  neighbor_term h p t drv i = Val drv.
Proof.
  intros (H1 & H2 & H3 & H4 & H5 & H6 & Hvp & Hvph) [HJ Hg] [Hmode Hamp] Hi.
  destruct (lookup_lt_is_Some_2 (PolaritonMode.signs p) i ltac:(lia)) as [sg Hsg].
  destruct (lookup_lt_is_Some_2 (PolaritonMode.neighboring_phonons p) i ltac:(lia))
    as [a Ha].
  destruct (lookup_lt_is_Some_2 (PolaritonMode.detunings_from_resonance p) i ltac:(lia))
    as [delta Hd].
  destruct (lookup_lt_is_Some_2 (PolaritonMode.phonon_couplings p) i ltac:(lia))
    as [g Hgi].
  destruct (lookup_lt_is_Some_2 (PolaritonMode.constant_couplings p) i ltac:(lia))
    as [J HJi].
  destruct (lookup_lt_is_Some_2 (PolaritonMode.neighboring_polaritons p) i ltac:(lia))
    as [b Hb].
  pose proof (proj1 (Forall_lookup _ _) Hvph _ _ Ha) as [ph Hph].
  pose proof (proj1 (Forall_lookup _ _) Hvp _ _ Hb) as [nb Hnb].
  pose proof (proj1 (Forall_lookup _ _) HJ _ _ HJi) as ->.
  pose proof (proj1 (Forall_lookup _ _) Hg _ _ Hgi) as ->.
  destruct (Hmode _ _ _ Ha Hph) as [[x Ex]%is_num_inv Hphase].
  destruct (cx_num_inv _ (Hphase _ _ Hsg Hd)) as (c & s & Ephase).
  destruct (cx_num_inv _ (Hamp _ _ _ Hb Hnb)) as (a0 & b0 & E0).
  unfold neighbor_term.
  rewrite (vector_at_Some _ _ _ Hsg), (vector_at_Some _ _ _ Ha), (vector_at_Some _ _ _ Hd),
    (vector_at_Some _ _ _ Hgi), (vector_at_Some _ _ _ HJi), (vector_at_Some _ _ _ Hb).
  unfold polariton_at, phonon_at. simpl in Hph, Hnb.
  run_result. rewrite Hph. run_result. rewrite Hnb. run_result.
  unfold PolaritonMode.get_value, PhononMode.get_position in *.
  rewrite Ephase, Ex, E0.
  unfold mret, result_ret. f_equal.
  apply cx_add_zero; simpl; ring.
Qed.

Lemma derivative_idle h (p : PolaritonMode.t ieee) t :
  links_resolve h p -> zero_links p -> links_finite h p t ->
  PolaritonMode_derivative h p t
  = PolaritonMode_derivative h (PolaritonMode.set_n_neighbors 0 p) t.
Proof.
  intros Hr Hc Hf. unfold PolaritonMode_derivative.
  rewrite for_each_r_fixed; [reflexivity|].
  apply Forall_forall. intros i Hi. apply elem_of_seq in Hi.
  apply neighbor_term_idle; [done|done|done|lia].
Qed.

Lemma derivative_idle_law h (p : PolaritonMode.t ieee) t
    (value : cx_double R) (gamma U xi n : R) (amp : cx_double R) (det tR : R) :
  links_resolve h p -> zero_links p -> links_finite h p t ->
  local_state p value gamma U xi n amp det -> t = Num tR ->
  PolaritonMode_derivative h p t
  = Val (of_reals (pumped_oscillator_law value gamma U xi n amp det tR)).
Proof.
  intros Hr Hc Hf (Hv & Hg & HU & Hxi & Hn & Ha & Hd) ->.
  rewrite derivative_idle by done. unfold PolaritonMode_derivative.
  destruct p; simpl in *. subst. destruct value as [vr vi], amp as [ar ai].
  unfold mret, result_ret, of_reals, pumped_oscillator_law, Cnorm2. f_equal.
  destruct reservoir_owned as [r|].
  - unfold NonResonantDriving.get_value. rewrite Hn.
    unfold mul, add, neg, mul_d, d_mul, conj, polar, of_double, I. simpl.
    f_equal; f_equal; rewrite ?Q2R_0, ?Q2R_1; ring.
  - subst n. unfold mul, add, neg, mul_d, d_mul, conj, polar, of_double, I. simpl.
    f_equal; f_equal; rewrite ?Q2R_0, ?Q2R_1; ring.
Qed.

(** C4 as amended.  For an oscillator whose links all have [J = 0] and
    [g = 0], at every time at which the positions of the linked modes, the
    phase factors of the links and the amplitudes of the linked
    oscillators are finite, [derivative(t)] is what it is without the
    links; for an oscillator whose own state holds numbers that is
    [-i*value*(-i*gamma + U*|value|^2 + i*xi*n) - i*drive_amp*exp(i*detuning*t)],
    with [xi] the reservoir coupling and [n] the value of its reservoir;
    without a reservoir it is the formula without the [xi*n] term, and for
    [gamma = 1], [U = 0], no drive, no reservoir and [value = 1 + 0i] the
    derivative at [t = 0] is [-1 + 0i]. *)
Theorem C4_uncoupled_oscillator h (p : PolaritonMode.t ieee) t :
  links_resolve h p -> zero_links p -> links_finite h p t ->
  PolaritonMode_derivative h p t
  = PolaritonMode_derivative h (PolaritonMode.set_n_neighbors 0 p) t /\
  (forall (value : cx_double R) (gamma U xi n : R) (amp : cx_double R) (det tR : R),
     local_state p value gamma U xi n amp det -> t = Num tR ->
     PolaritonMode_derivative h p t
     = Val (of_reals (pumped_oscillator_law value gamma U xi n amp det tR)) /\
     (PolaritonMode.reservoir_owned p = None ->
      PolaritonMode_derivative h p t
      = Val (of_reals (free_oscillator_law value gamma U amp det tR)))) /\
  (forall xi det : R,
     local_state p (cx 1 0) 1 0 xi 0 (cx 0 0) det ->
     PolaritonMode.reservoir_owned p = None -> t = Num 0 ->
     PolaritonMode_derivative h p t = Val (cx (Num (-1)) (Num 0))).
Proof.
  intros Hr Hc Hf. split; [by apply derivative_idle|]. split.
  - intros value gamma U xi n amp det tR Hs Ht.
    split; [by apply derivative_idle_law|].
    intros Hnone. rewrite (derivative_idle_law _ _ _ _ _ _ _ _ _ _ _ Hr Hc Hf Hs Ht).
    f_equal. f_equal. apply pumped_free_law.
    destruct Hs as (_ & _ & _ & _ & Hn & _). rewrite Hnone in Hn. rewrite Hn. ring.
  - intros xi det Hs Hnone Ht.
    rewrite (derivative_idle_law _ _ _ _ _ _ _ _ _ _ _ Hr Hc Hf Hs Ht).
    f_equal. unfold of_reals, pumped_oscillator_law, Cnorm2. simpl.
    f_equal; f_equal; ring.
Qed.
End special_values.

(** ** Invariants of a computation *)

Section preserves.
Context {S : Type} (Inv : S -> Prop).

Lemma preserves_ret {A} (a : A) : preserves Inv (mret a : M S A).
Proof. intros s Hs. exact Hs. Qed.

Lemma preserves_throw {A} (e : exn) : preserves Inv (throw e : M S A).
Proof. intros s Hs. exact Hs. Qed.

Lemma preserves_bind {A B} (m : M S A) (f : A -> M S B) :
  preserves Inv m -> (forall a, preserves Inv (f a)) -> preserves Inv (m ≫= f).
Proof.
  intros Hm Hf s Hs. rewrite M_bind_unfold. specialize (Hm s Hs).
  destruct (m s) as [a s'|e s']; [|exact Hm]. apply Hf, Hm.
Qed.

Lemma preserves_gets {A} (f : S -> A) : preserves Inv (gets f).
Proof. intros s Hs. exact Hs. Qed.

(** Reading the state and going on: what is read may be used with the
    invariant it was read under. *)
Lemma preserves_bind_gets {A B} (f : S -> A) (k : A -> M S B) :
  (forall s, Inv s -> preserves Inv (k (f s))) -> preserves Inv (gets f ≫= k).
Proof. intros H s Hs. rewrite M_bind_unfold. cbn [gets]. apply (H s Hs s Hs). Qed.

Lemma preserves_get : preserves Inv get.
Proof. intros s Hs. exact Hs. Qed.

Lemma preserves_eval {A} (r : result A) : preserves Inv (eval r).
Proof. intros s Hs. unfold eval. destruct r; exact Hs. Qed.

Lemma preserves_modify (f : S -> S) :
  (forall s, Inv s -> Inv (f s)) -> preserves Inv (modify f).
Proof. intros Hf s Hs. apply Hf, Hs. Qed.

Lemma preserves_for_each {A B} (body : B -> A -> M S B) (l : list A) (acc : B) :
  (forall b a, a ∈ l -> preserves Inv (body b a)) -> preserves Inv (for_each body l acc).
Proof.
  revert acc. induction l as [|a l IH]; intros acc Hb; simpl.
  - apply preserves_ret.
  - apply preserves_bind; [apply Hb; left|].
    intros b. apply IH. intros b' a' Ha'. apply Hb. by right.
Qed.

(** A loop throws when the body throws on one of the elements, in every
    state that satisfies an invariant of the body. *)
Lemma for_each_throws {A B} (body : B -> A -> M S B) (l : list A) (a : A) :
  (forall b a', preserves Inv (body b a')) ->
  (forall b s, Inv s -> exists e s', body b a s = Throw e s') ->
  a ∈ l -> forall acc s, Inv s -> exists e s', for_each body l acc s = Throw e s'.
Proof.
  intros Hp Ht. induction l as [|a' l IH]; intros Hin acc s Hs; [inversion Hin|].
  simpl. rewrite M_bind_unfold.
  apply elem_of_cons in Hin as [<-|Hin].
  - destruct (Ht acc s Hs) as (e & s' & ->). eauto.
  - pose proof (Hp acc a' s Hs) as Hs'.
    destruct (body acc a' s) as [b s'|e s']; [|eauto]. apply IH; done.
Qed.
End preserves.

Lemma frames_preserves {S A X} (obs : S -> X) (m : M S A) (v : X) :
  frames obs m -> preserves (fun s => obs s = v) m.
Proof.
  intros F s Hs. specialize (F s). destruct (m s); congruence.
Qed.

(** ** The configuration loader *)

Section loader.
Context {double : Type} `{!DoubleOps double} `{!StdLib double}.
Implicit Types (st : CavityConfig.state double) (p : ConfigParser.t double).

(** The parser's sections never change after [load]; only its random
    engine does. *)
Lemma distribution_sections n w1 w2 dist trimmed :
  frames ConfigParser.sections (ConfigParser.distribution n w1 w2 dist trimmed).
Proof.
  intros p. unfold ConfigParser.distribution.
  destruct (ConfigParser.starts_with _ _ _ _); [|reflexivity].
  destruct (ConfigParser.distribution_arguments _) as [[[a b]|]|]; try reflexivity.
  destruct (dist a b _). reflexivity.
Qed.

Lemma parse_expression_sections expr :
  frames ConfigParser.sections (ConfigParser.parse_expression expr).
Proof.
  unfold ConfigParser.parse_expression. destruct (stod _); [apply frames_ret|].
  apply frames_bind; [apply distribution_sections|]. intros [d|]; [apply frames_ret|].
  apply frames_bind; [apply distribution_sections|]. intros [d|]; [apply frames_ret|].
  apply frames_throw.
Qed.

Lemma get_double_sections section key d :
  frames ConfigParser.sections (ConfigParser.get_double section key d).
Proof.
  unfold ConfigParser.get_double. apply frames_bind; [apply frames_get|]. intros p.
  case_bool_decide; [apply frames_ret|apply parse_expression_sections].
Qed.

Lemma get_string_sections p p' section key d :
  ConfigParser.sections p = ConfigParser.sections p' ->
  ConfigParser.get_string p section key d = ConfigParser.get_string p' section key d.
Proof. unfold ConfigParser.get_string. by intros ->. Qed.

Lemma get_sections_by_type_sections p p' type :
  ConfigParser.sections p = ConfigParser.sections p' ->
  ConfigParser.get_sections_by_type p type = ConfigParser.get_sections_by_type p' type.
Proof. unfold ConfigParser.get_sections_by_type. by intros ->. Qed.

Section invariant.
Variables (to : string) (secs : list (string * gmap string string))
          (d : nat) (cs : vec double).
Let Inv := loading to secs d cs.

Lemma on_parser_preserves {A} (m : M (ConfigParser.t double) A) :
  frames ConfigParser.sections m -> preserves Inv (CavityConfig.on_parser m).
Proof.
  intros F st (H1 & H2 & H3 & H4). unfold CavityConfig.on_parser.
  specialize (F (CavityConfig.parser st)).
  destruct (m (CavityConfig.parser st)); repeat split; simpl; congruence.
Qed.

Lemma on_cavity_preserves {A} (m : M (Cavity.state double) A) :
  frames (fun s => (Cavity.system_dimension (Cavity.this s),
                    Cavity.current_state (Cavity.this s))) m ->
  preserves Inv (CavityConfig.on_cavity m).
Proof.
  intros F st (H1 & H2 & H3 & H4). unfold CavityConfig.on_cavity.
  specialize (F (CavityConfig.cavity st)).
  destruct (m (CavityConfig.cavity st)); repeat split; simpl; congruence.
Qed.

Lemma get_double_preserves section key v :
  preserves Inv (CavityConfig.get_double section key v).
Proof. apply on_parser_preserves, get_double_sections. Qed.

Lemma polariton_ptr_preserves id : preserves Inv (CavityConfig.polariton_ptr id).
Proof.
  apply on_cavity_preserves. apply frames_bind; [apply frames_gets|]. intros c.
  apply frames_eval.
Qed.

Lemma phonon_ptr_preserves id : preserves Inv (CavityConfig.phonon_ptr id).
Proof.
  apply on_cavity_preserves. apply frames_bind; [apply frames_gets|]. intros c.
  apply frames_eval.
Qed.

Lemma call_polariton_preserves (a : nat) f :
  preserves Inv (CavityConfig.on_cavity (Cavity.call_polariton a f)).
Proof.
  apply on_cavity_preserves.
  apply (call_polariton_frames
           (fun c => (Cavity.system_dimension c, Cavity.current_state c))).
Qed.

Lemma call_phonon_preserves (a : nat) f :
  preserves Inv (CavityConfig.on_cavity (Cavity.call_phonon a f)).
Proof.
  apply on_cavity_preserves.
  apply (call_phonon_frames
           (fun c => (Cavity.system_dimension c, Cavity.current_state c))).
Qed.

Lemma resolve_preserves map what name : preserves Inv (CavityConfig.resolve map what name).
Proof.
  unfold CavityConfig.resolve. apply preserves_bind; [apply preserves_get|]. intros s.
  destruct (map s !! name); [apply preserves_ret|apply preserves_throw].
Qed.

Lemma seed_phase_preserves : preserves Inv CavityConfig.seed_phase.
Proof.
  unfold CavityConfig.seed_phase. apply preserves_bind; [apply preserves_get|].
  intros s. destruct (ConfigParser.has_section _ _); [|apply preserves_ret].
  apply preserves_bind; [apply preserves_gets|]. intros seed_str.
  destruct (_ && _); [|apply preserves_ret].
  apply on_parser_preserves. intros p. destruct (stoul seed_str); reflexivity.
Qed.

Local Ltac step :=
  repeat first
    [ apply preserves_bind; [|intros ?]
    | apply get_double_preserves
    | apply polariton_ptr_preserves
    | apply phonon_ptr_preserves
    | apply call_polariton_preserves
    | apply call_phonon_preserves
    | apply resolve_preserves
    | apply preserves_gets
    | apply preserves_get
    | apply preserves_ret
    | apply preserves_throw ].

Lemma create_polariton_preserves u section :
  ConfigParser.extract_name section <> to ->
  preserves Inv (CavityConfig.create_polariton u section).
Proof.
  intros Hne. unfold CavityConfig.create_polariton, CavityConfig.get_string. step.
  apply preserves_modify. intros st (H1 & H2 & H3 & H4).
  repeat split; simpl; try congruence. by rewrite lookup_insert_ne.
Qed.

Lemma create_phonon_preserves u section :
  preserves Inv (CavityConfig.create_phonon u section).
Proof. unfold CavityConfig.create_phonon, CavityConfig.get_string. step. Qed.

Lemma create_reservoir_preserves u section :
  preserves Inv (CavityConfig.create_reservoir u section).
Proof. unfold CavityConfig.create_reservoir, CavityConfig.get_string. step. Qed.

Lemma create_coupling_preserves u section :
  preserves Inv (CavityConfig.create_coupling u section).
Proof.
  unfold CavityConfig.create_coupling, CavityConfig.get_string. step.
  repeat (case_bool_decide; [apply preserves_throw|]). step.
Qed.

Lemma create_entities_preserves :
  (forall p, ConfigParser.sections p = secs ->
     to ∉ ConfigParser.extract_name <$> ConfigParser.get_sections_by_type p "polariton") ->
  preserves Inv CavityConfig.create_entities.
Proof.
  intros Hto. unfold CavityConfig.create_entities.
  apply preserves_bind; [apply seed_phase_preserves|]. intros _.
  apply preserves_bind_gets. intros st (_ & Hsec & _).
  apply preserves_bind.
  { apply preserves_for_each. intros b a Ha. apply create_polariton_preserves.
    intros <-. apply (Hto _ Hsec), list_elem_of_fmap. eauto. }
  intros _. apply preserves_bind; [apply preserves_gets|]. intros l2.
  apply preserves_bind.
  { apply preserves_for_each. intros. apply create_phonon_preserves. }
  intros _. apply preserves_bind; [apply preserves_gets|]. intros l3.
  apply preserves_for_each. intros. apply create_reservoir_preserves.
Qed.
End invariant.
End loader.

Section unresolved_reference.
Context {double : Type} `{!DoubleOps double} `{!StdLib double}.
Implicit Types (st : CavityConfig.state double).

(** Where the name [to] of a coupling section does not resolve, the body
    of the coupling loop throws: on ['from'] if that does not resolve
    either, on ['to'] otherwise. *)
Lemma create_coupling_unresolved to secs d cs u section st :
  loading to secs d cs st ->
  ConfigParser.get_string (CavityConfig.parser st) section "to" EmptyString = to ->
  CavityConfig.create_coupling u section st
  = let from := ConfigParser.get_string (CavityConfig.parser st) section "from" EmptyString in
    if bool_decide (CavityConfig.polariton_map (CavityConfig.this st) !! from = None)
    then Throw (runtime_error ("Coupling 'from' not found: " ++ from)%string) st
    else Throw (runtime_error ("Coupling 'to' not found: " ++ to)%string) st.
Proof.
  intros (Hto & _) Eto. unfold CavityConfig.create_coupling, CavityConfig.get_string.
  repeat (rewrite M_bind_unfold; cbn [gets get]). rewrite Eto. cbn zeta.
  case_bool_decide; [reflexivity|].
  rewrite bool_decide_true by done. reflexivity.
Qed.

(** C9 as amended.  Loading a configuration in which the ['to'] name of a
    coupling section resolves to no oscillator, neither one created from
    the configuration nor one the loader already knew, always throws, and
    leaves the cavity's dimension and state vector untouched (the assembly
    step is not reached).  When the entities have been created and the
    coupling sections visited before this one have gone through, and the
    section's ['from'] name resolves, the exception is the runtime error
    ["Coupling 'to' not found: "] followed by that name. *)
Theorem C9_unresolved_to (st : CavityConfig.state double) (section : string) :
  let p := CavityConfig.parser st in
  let to := ConfigParser.get_string p section "to" EmptyString in
  section ∈ ConfigParser.get_sections_by_type p "coupling" ->
  CavityConfig.polariton_map (CavityConfig.this st) !! to = None ->
  to ∉ ConfigParser.extract_name <$> ConfigParser.get_sections_by_type p "polariton" ->
  (exists e st',
     CavityConfig.load_from_ini st = Throw e st' /\
     Cavity.system_dimension (Cavity.this (CavityConfig.cavity st'))
       = Cavity.system_dimension (Cavity.this (CavityConfig.cavity st)) /\
     Cavity.current_state (Cavity.this (CavityConfig.cavity st'))
       = Cavity.current_state (Cavity.this (CavityConfig.cavity st))) /\
  (forall st1 st2 pre post,
     CavityConfig.create_entities st = Ok tt st1 ->
     ConfigParser.get_sections_by_type p "coupling" = pre ++ section :: post ->
     for_each CavityConfig.create_coupling pre tt st1 = Ok tt st2 ->
     is_Some (CavityConfig.polariton_map (CavityConfig.this st2)
                !! ConfigParser.get_string p section "from" EmptyString) ->
     CavityConfig.load_from_ini st
     = Throw (runtime_error ("Coupling 'to' not found: " ++ to)%string) st2).
Proof.
  intros p to Hin Hmap Hnames.
  set (secs := ConfigParser.sections p).
  set (d := Cavity.system_dimension (Cavity.this (CavityConfig.cavity st))).
  set (cs := Cavity.current_state (Cavity.this (CavityConfig.cavity st))).
  assert (Hst : loading to secs d cs st) by done.
  assert (Hsame : forall st', loading to secs d cs st' ->
            ConfigParser.get_sections_by_type (CavityConfig.parser st') "coupling"
            = ConfigParser.get_sections_by_type p "coupling"
            /\ forall key, ConfigParser.get_string (CavityConfig.parser st') section key EmptyString
                           = ConfigParser.get_string p section key EmptyString).
  { intros st' (_ & Hs & _). split; [|intros key].
    - by apply get_sections_by_type_sections.
    - by apply get_string_sections. }
  pose proof (create_entities_preserves to secs d cs) as Pe.
  specialize (Pe ltac:(intros q Hq;
    rewrite (get_sections_by_type_sections q p) by done; exact Hnames) st Hst).
  split.
  - unfold CavityConfig.load_from_ini. rewrite M_bind_unfold.
    destruct (CavityConfig.create_entities st) as [[] st1|e st1].
    2:{ exists e, st1. destruct Pe as (_ & _ & ? & ?). done. }
    rewrite M_bind_unfold. unfold CavityConfig.get_sections_by_type at 1. cbn [gets].
    destruct (Hsame st1 Pe) as [-> _].
    rewrite M_bind_unfold.
    pose proof (preserves_for_each (loading to secs d cs) CavityConfig.create_coupling
      (ConfigParser.get_sections_by_type p "coupling") tt
      (fun b a _ => create_coupling_preserves to secs d cs b a) st1 Pe) as Pc.
    destruct (for_each_throws (loading to secs d cs) CavityConfig.create_coupling
      (ConfigParser.get_sections_by_type p "coupling") section
      (create_coupling_preserves to secs d cs)) with (acc := tt) (s := st1)
      as (e & st2 & E); [|exact Hin|exact Pe|].
    { intros b s Hs. destruct (Hsame s Hs) as [_ Hk].
      rewrite (create_coupling_unresolved to secs d cs) by (done || apply Hk).
      cbn zeta. case_bool_decide; eauto. }
    rewrite E in *. exists e, st2. destruct Pc as (_ & _ & ? & ?). done.
  - intros st1 st2 pre post E1 El E2 Hfrom.
    rewrite E1 in Pe.
    unfold CavityConfig.load_from_ini. rewrite M_bind_unfold, E1.
    rewrite M_bind_unfold. unfold CavityConfig.get_sections_by_type at 1. cbn [gets].
    destruct (Hsame st1 Pe) as [-> _]. rewrite El.
    rewrite M_bind_unfold, for_each_app, M_bind_unfold, E2.
    pose proof (preserves_for_each (loading to secs d cs) CavityConfig.create_coupling
      pre tt (fun b a _ => create_coupling_preserves to secs d cs b a) st1 Pe) as P2.
    rewrite E2 in P2. destruct (Hsame st2 P2) as [_ Hk].
    cbn [for_each]. rewrite M_bind_unfold.
    rewrite (create_coupling_unresolved to secs d cs) by (done || apply Hk).
    cbn zeta. rewrite Hk. rewrite bool_decide_false; [reflexivity|].
    destruct Hfrom as [x Hx]. congruence.
Qed.
End unresolved_reference.

(** ** The reservoir the loader builds *)


Section reservoir_alpha.
Context `{!StdLib R}.
Local Open Scope R_scope.
Implicit Types (st : CavityConfig.state R).





End reservoir_alpha.

(** ** The claims on the concrete inputs *)

Lemma prefix_app (sub post : string) : String.prefix sub (sub ++ post)%string = true.
Proof.
  induction sub as [|a sub IH]; simpl; [by destruct post|].
  destruct (ascii_dec a a); [exact IH|done].
Qed.

Lemma occurs_prefix (sub s : string) : String.prefix sub s = true -> occurs sub s = true.
Proof. intros H. destruct s; unfold occurs; fold occurs; rewrite H; reflexivity. Qed.

Lemma contains_occurs (sub s : string) : contains sub s -> occurs sub s = true.
Proof.
  intros (pre & post & ->). induction pre as [|a pre IH].
  - apply occurs_prefix. exact (prefix_app sub post).
  - change (occurs sub (String a (pre ++ sub ++ post)%string) = true).
    unfold occurs; fold occurs. rewrite IH. apply orb_true_r.
Qed.

Lemma C2_index_layout_witness :
  Cavity.new [1; 2] [1] 0%R two_site_heap = Ok tt two_site_cavity /\
  Cavity.system_dimension (Cavity.this two_site_cavity) = 2 * 2 + 2 * 1 + 2 /\
  Cavity.get_state (Cavity.this two_site_cavity) !! 7 = Some 3%R.
Proof.
  assert (H : Cavity.new [1; 2] [1] 0%R two_site_heap = Ok tt two_site_cavity)
    by (vm_compute; reflexivity).
  split; [exact H|].
  destruct (C2_index_layout _ _ _ _ _ H) as (Hown & Hdim & _ & Hpack & _).
  split.
  - rewrite Hdim, Hown. vm_compute. reflexivity.
  - destruct (Hpack 1 2) as (v & Hv & Hk).
    + rewrite Hown. vm_compute. reflexivity.
    + change (2 * length [1; 2] + 2 * length [1] + 1) with 7 in Hk.
      rewrite Hk, <- Hv. vm_compute. reflexivity.
Defined.

Lemma two_site_assembled : assembled two_site_cavity.
Proof.
  split; [split|split]; vm_compute; try reflexivity; repeat constructor; eexists; reflexivity.
Defined.

Lemma C3_pack_unpack_round_trip_witness :
  assembled two_site_cavity /\
  exists s1,
    Cavity.pack_state two_site_cavity = Ok tt s1 /\
    Cavity.unpack_state (Cavity.current_state (Cavity.this s1)) s1 = Ok tt s1 /\
    Cavity.heap s1 = Cavity.heap two_site_cavity.
Proof.
  split; [exact two_site_assembled|].
  apply C3_pack_unpack_round_trip. exact two_site_assembled.
Defined.

Lemma C7_vector_field_deterministic_witness :
  assembled two_site_cavity /\
  length eight = Cavity.system_dimension (Cavity.this two_site_cavity) /\
  match Cavity.call eight [] 1%R two_site_cavity with
  | Ok dxdt s1 => Cavity.call eight [0%R] 1%R s1 = Ok dxdt s1
  | Throw e s1 => Cavity.call eight [0%R] 1%R s1 = Throw e s1
  end.
Proof.
  split; [exact two_site_assembled|]. split; [vm_compute; reflexivity|].
  apply C7_vector_field_deterministic; [exact two_site_assembled|vm_compute; reflexivity].
Defined.

Lemma calm_heap_objects :
  polariton_objects calm_heap !! 1 = Some idle_site /\
  polariton_objects calm_heap !! 2 = Some calm_site /\
  phonon_objects calm_heap !! 1 = Some idle_mode.
Proof. repeat split; vm_compute; reflexivity. Qed.

Lemma diverged_heap_objects :
  polariton_objects diverged_heap !! 1 = Some idle_site /\
  polariton_objects diverged_heap !! 2 = Some diverged_site /\
  phonon_objects diverged_heap !! 1 = Some idle_mode.
Proof. repeat split; vm_compute; reflexivity. Qed.

Lemma idle_mode_resolves h :
  is_Some (polariton_objects h !! 1) -> is_Some (polariton_objects h !! 2) ->
  pairings_resolve h idle_mode.
Proof. intros H1 H2. repeat split; try reflexivity. repeat constructor; assumption. Qed.

Lemma idle_site_resolves h :
  is_Some (polariton_objects h !! 2) -> is_Some (phonon_objects h !! 1) ->
  links_resolve h idle_site.
Proof. intros H1 H2. repeat split; try reflexivity; repeat constructor; assumption. Qed.

Lemma idle_site_zero_links : zero_links idle_site.
Proof.
  split; repeat constructor; unfold of_double; simpl; f_equal; f_equal; apply Q2R_0.
Qed.

Lemma C5_decoupled_mode_witness :
  pairings_resolve calm_heap idle_mode /\ zero_pairings idle_mode /\
  pairings_finite calm_heap idle_mode (Num 7%R) /\
  PhononMode_second_derivative calm_heap idle_mode (Num 7%R) = Val (Num (-400)%R).
Proof.
  destruct calm_heap_objects as (E1 & E2 & E3).
  assert (H1 : pairings_resolve calm_heap idle_mode).
  { apply idle_mode_resolves; [rewrite E1|rewrite E2]; eauto. }
  assert (H2 : zero_pairings idle_mode) by repeat constructor.
  assert (H3 : pairings_finite calm_heap idle_mode (Num 7%R)).
  { split.
    - intros [|[|i]] delta; simpl; intros [= <-]. by split.
    - intros [|[|i]] pr p0 p1; cbn -[calm_heap]; intros [= <-]. cbn -[calm_heap].
      rewrite E1, E2. intros [= <-] [= <-]. by repeat split. }
  split; [exact H1|]. split; [exact H2|]. split; [exact H3|].
  apply (C5_decoupled_mode _ _ _ H1 H2 H3); reflexivity.
Defined.

(** C5 as stated fails in the arithmetic of doubles: [idle_mode] has one
    pairing, with coupling [0], [Omega = 20], [Gamma = 0.05],
    [position = 1] and [velocity = 0]; paired with an oscillator whose
    amplitude has diverged, its second derivative is NaN and not [-400]. *)
Lemma C5_diverged_oscillator :
  pairings_resolve diverged_heap idle_mode /\ zero_pairings idle_mode /\
  PhononMode.frequency idle_mode = Num 20%R /\
  PhononMode.dissipation idle_mode = Num (5 / 100)%R /\
  PhononMode.position idle_mode = Num 1%R /\
  PhononMode.velocity idle_mode = Num 0%R /\
  PhononMode_second_derivative diverged_heap idle_mode (Num 7%R) = Val NaN /\
  PhononMode_second_derivative diverged_heap idle_mode (Num 7%R) <> Val (Num (-400)%R).
Proof.
  destruct diverged_heap_objects as (E1 & E2 & E3).
  assert (E : PhononMode_second_derivative diverged_heap idle_mode (Num 7%R) = Val NaN).
  { unfold PhononMode_second_derivative, pairing_term, polariton_at.
    cbn -[diverged_heap Req_dec_T Rlt_dec Q2R cos sin].
    rewrite E1, E2. cbn -[diverged_heap Req_dec_T Rlt_dec Q2R cos sin].
    destruct (Req_dec_T _ _) as [_|Hne]; [reflexivity|].
    exfalso. apply Hne. ring. }
  split; [apply idle_mode_resolves; [rewrite E1|rewrite E2]; eauto|].
  split; [repeat constructor|]. repeat (split; [reflexivity|]).
  split; [exact E|]. rewrite E. discriminate.
Defined.

Lemma C4_uncoupled_oscillator_witness :
  links_resolve calm_heap idle_site /\ zero_links idle_site /\
  links_finite calm_heap idle_site (Num 0%R) /\
  PolaritonMode_derivative calm_heap idle_site (Num 0%R) = Val (cx (Num (-1)%R) (Num 0%R)).
Proof.
  destruct calm_heap_objects as (E1 & E2 & E3).
  assert (H1 : links_resolve calm_heap idle_site).
  { apply idle_site_resolves; [rewrite E2|rewrite E3]; eauto. }
  assert (H2 : zero_links idle_site) by exact idle_site_zero_links.
  assert (H3 : links_finite calm_heap idle_site (Num 0%R)).
  { split.
    - intros [|[|i]] a ph; cbn -[calm_heap]; intros [= <-]. rewrite E3. intros [= <-].
      split; [exact Logic.I|].
      intros sign delta. simpl. intros [= <-] [= <-]. by split.
    - intros [|[|i]] b nb; cbn -[calm_heap]; intros [= <-]. rewrite E2. intros [= <-].
      by split. }
  split; [exact H1|]. split; [exact H2|]. split; [exact H3|].
  apply (proj2 (proj2 (C4_uncoupled_oscillator _ _ _ H1 H2 H3)) (Q2R 0) 0%R);
    [|reflexivity|reflexivity].
  repeat split; try reflexivity.
Defined.

(** Nor do zero couplings switch a link off: linked with [J = g = 0] to
    the oscillator whose amplitude has diverged, [idle_site] has the
    derivative NaN at [t = 0]. *)
Lemma diverged_neighbour :
  links_resolve diverged_heap idle_site /\ zero_links idle_site /\
  PolaritonMode_derivative diverged_heap idle_site (Num 0%R) = Val (cx NaN NaN).
Proof.
  destruct diverged_heap_objects as (E1 & E2 & E3).
  split; [apply idle_site_resolves; [rewrite E2|rewrite E3]; eauto|].
  split; [exact idle_site_zero_links|].
  unfold PolaritonMode_derivative, neighbor_term, polariton_at, phonon_at.
  cbn -[diverged_heap Req_dec_T Rlt_dec Q2R cos sin].
  rewrite E3. cbn -[diverged_heap Req_dec_T Rlt_dec Q2R cos sin].
  rewrite E2. cbn -[diverged_heap Req_dec_T Rlt_dec Q2R cos sin].
  unfold mret, result_ret, mul, add, neg, mul_d, d_mul, conj, polar, of_double, I.
  cbn -[Req_dec_T Rlt_dec Q2R cos sin].
  repeat match goal with
         | |- context [Req_dec_T ?r ?z] =>
             destruct (Req_dec_T r z) as [_|Hne];
             [|exfalso; apply Hne; rewrite ?Q2R_0, ?Q2R_1; ring]
         end.
  reflexivity.
Qed.

Lemma C6_reservoir_derivative_witness :
  let r := NonResonantDriving.mk 1 1%R 1%R 12%R 2%R (1 / 4)%R in
  polariton_objects two_site_heap !! NonResonantDriving.polariton r = Some site_1 /\
  NonResonantDriving_derivative two_site_heap r 0%R
  = Val (1 * (12 - 1 / 4 * (1 + 2 * 2 * Cnorm2 (PolaritonMode.get_value site_1))))%R.
Proof.
  intros r.
  assert (H : polariton_objects two_site_heap !! NonResonantDriving.polariton r = Some site_1)
    by (vm_compute; reflexivity).
  split; [exact H|].
  exact (proj2 C6_reservoir_derivative two_site_heap r 0%R site_1 H).
Defined.

Lemma C9_unresolved_to_witness :
  let st := loaded dangling_to in
  let p := CavityConfig.parser st in
  "coupling link" ∈ ConfigParser.get_sections_by_type p "coupling" /\
  CavityConfig.polariton_map (CavityConfig.this st)
    !! ConfigParser.get_string p "coupling link" "to" EmptyString = None /\
  (ConfigParser.get_string p "coupling link" "to" EmptyString
     ∉ ConfigParser.extract_name <$> ConfigParser.get_sections_by_type p "polariton") /\
  exists st',
    CavityConfig.load_from_ini st
    = Throw (runtime_error "Coupling 'to' not found: site_9") st'.
Proof.
  intros st p.
  assert (H1 : "coupling link" ∈ ConfigParser.get_sections_by_type p "coupling")
    by (vm_compute; constructor).
  assert (H2 : CavityConfig.polariton_map (CavityConfig.this st)
                 !! ConfigParser.get_string p "coupling link" "to" EmptyString = None)
    by (vm_compute; reflexivity).
  assert (H3 : ConfigParser.get_string p "coupling link" "to" EmptyString
                 ∉ ConfigParser.extract_name <$> ConfigParser.get_sections_by_type p "polariton").
  { apply (bool_decide_unpack _). vm_compute. exact Logic.I. }
  split; [exact H1|]. split; [exact H2|]. split; [exact H3|].
  destruct (C9_unresolved_to st "coupling link" H1 H2 H3) as [_ HB].
  pose (st1 := match CavityConfig.create_entities st with Ok _ s | Throw _ s => s end).
  exists st1. apply (HB st1 st1 [] []).
  - vm_compute. reflexivity.
  - vm_compute. reflexivity.
  - reflexivity.
  - eexists. vm_compute. reflexivity.
Defined.

(** C9 as stated fails.  In [dangling_both] the coupling's ['to'] names no
    oscillator, and loading throws, but the message names the ['from']
    identifier, which the loader looks up first: the missing ['to']
    identifier [site_9] does not occur in it. *)
Lemma C9_from_is_checked_first :
  let st := loaded dangling_both in
  let p := CavityConfig.parser st in
  "coupling link" ∈ ConfigParser.get_sections_by_type p "coupling" /\
  ConfigParser.get_string p "coupling link" "to" EmptyString = "site_9" /\
  ("site_9" ∉ ConfigParser.extract_name <$> ConfigParser.get_sections_by_type p "polariton") /\
  exists msg st',
    CavityConfig.load_from_ini st = Throw (runtime_error msg) st' /\
    ~ contains "site_9" msg.
Proof.
  intros st p. split; [vm_compute; constructor|]. split; [vm_compute; reflexivity|].
  split; [apply (bool_decide_unpack _); vm_compute; exact Logic.I|].
  exists "Coupling 'from' not found: site_7",
    (match CavityConfig.load_from_ini st with Ok _ s | Throw _ s => s end).
  split; [vm_compute; reflexivity|].
  intros H. apply contains_occurs in H. vm_compute in H. discriminate.
Qed.


(** C1 on the default-constructed cavity: [do_step(0.5)] returns, and the
    stored time is not the initial time plus [0.5]. *)
Lemma C1_time_is_not_advanced :
  exists s',
    Cavity.do_step (lit (1 # 2)) empty_cavity = Ok tt s' /\
    Cavity.get_time (Cavity.this s')
      <> (Cavity.get_time (Cavity.this empty_cavity) + lit (1 # 2))%R.
Proof.
  exists (Cavity.with_this (Cavity.set_used_time_step (lit (1 # 2))) empty_cavity).
  split; [reflexivity|].
  change (Q2R 0 <> (Q2R 0 + Q2R (1 # 2))%R).
  unfold Q2R. simpl. lra.
Qed.

(** * Further properties of the code *)

(** ** [check()] on objects built through the public interface *)

Section built_objects.
Context {double : Type} `{!DoubleOps double}.

Lemma polariton_check_consistent (o : PolaritonMode.t double) :
  polariton_consistent o -> PolaritonMode.check o = Val o.
Proof.
  destruct o. unfold polariton_consistent, PolaritonMode.check. simpl.
  intros (-> & -> & -> & -> & -> & ->).
  unfold PolaritonMode.all_same_size. simpl. rewrite !Nat.eqb_refl. reflexivity.
Qed.

Lemma polariton_check_Val (o o' : PolaritonMode.t double) :
  PolaritonMode.check o = Val o' ->
  polariton_consistent o' /\
  o' = PolaritonMode.set_n_neighbors (length (PolaritonMode.neighboring_polaritons o)) o.
Proof.
  unfold PolaritonMode.check.
  destruct (PolaritonMode.all_same_size _) eqn:E; [|discriminate].
  intros [= <-]. split; [|reflexivity].
  unfold PolaritonMode.all_same_size in E. simpl in E.
  rewrite !andb_true_iff, !Nat.eqb_eq in E.
  destruct o; unfold polariton_consistent; simpl in *. intuition congruence.
Qed.

Lemma polariton_built_consistent (o : PolaritonMode.t double) :
  polariton_built o -> polariton_consistent o.
Proof.
  induction 1 as [| ? ? ? ? ? ? o _ IH | ? ? ? ? ? ? o _ IH | ? o _ IH | ? ? o _ IH
                 | ? o _ IH | o o' _ _ Hc].
  - by repeat split.
  - destruct IH as (A & B & C & D & E & F). unfold polariton_consistent. simpl.
    rewrite !length_app. simpl. lia.
  - exact IH.
  - exact IH.
  - exact IH.
  - exact IH.
  - by apply polariton_check_Val in Hc as [? _].
Qed.

Lemma phonon_check_consistent (o : PhononMode.t double) :
  phonon_consistent o -> PhononMode.check o = Val o.
Proof.
  destruct o. unfold phonon_consistent, PhononMode.check. simpl.
  intros (-> & -> & ->).
  unfold PolaritonMode.all_same_size. simpl. rewrite !Nat.eqb_refl. reflexivity.
Qed.

Lemma phonon_check_Val (o o' : PhononMode.t double) :
  PhononMode.check o = Val o' ->
  phonon_consistent o' /\
  o' = PhononMode.set_n_pairings (length (PhononMode.pairs o)) o.
Proof.
  unfold PhononMode.check.
  destruct (PolaritonMode.all_same_size _) eqn:E; [|discriminate].
  intros [= <-]. split; [|reflexivity].
  unfold PolaritonMode.all_same_size in E. simpl in E.
  rewrite !andb_true_iff, !Nat.eqb_eq in E.
  destruct o; unfold phonon_consistent; simpl in *. intuition congruence.
Qed.

Lemma phonon_built_consistent (o : PhononMode.t double) :
  phonon_built o -> phonon_consistent o.
Proof.
  induction 1 as [| ? ? ? o _ IH | ? o _ IH | ? o _ IH | o o' _ _ Hc].
  - by repeat split.
  - destruct IH as (A & B & C). unfold phonon_consistent. simpl.
    rewrite !length_app. simpl. lia.
  - exact IH.
  - exact IH.
  - by apply phonon_check_Val in Hc as [? _].
Qed.

(** X1.  An oscillator built through the public interface, in whatever
    order the methods were called, has six link arrays of [n_neighbors]
    entries each, so [check()] on it does not throw and changes nothing;
    the same holds for a mechanical mode and its three pairing arrays. *)
Theorem X1_check_is_redundant :
  (forall o : PolaritonMode.t double,
     polariton_built o ->
     PolaritonMode.check o = Val o /\
     length (PolaritonMode.neighboring_polaritons o) = PolaritonMode.n_neighbors o /\
     length (PolaritonMode.signs o) = PolaritonMode.n_neighbors o) /\
  (forall o : PhononMode.t double,
     phonon_built o ->
     PhononMode.check o = Val o /\
     length (PhononMode.pairs o) = PhononMode.n_pairings o /\
     length (PhononMode.couplings o) = PhononMode.n_pairings o).
Proof.
  split; intros o Ho.
  - apply polariton_built_consistent in Ho.
    split; [by apply polariton_check_consistent|]. destruct Ho; tauto.
  - apply phonon_built_consistent in Ho.
    split; [by apply phonon_check_consistent|]. destruct Ho; tauto.
Qed.
End built_objects.

(** ** When the constructor returns and when it throws *)

Section constructor.
Context {double : Type} `{!DoubleOps double}.
Implicit Types (h : Heap double) (c : Cavity.t double).

Lemma polariton_check_idem (o o' : PolaritonMode.t double) :
  PolaritonMode.check o = Val o' -> PolaritonMode.check o' = Val o'.
Proof. intros Hc. apply polariton_check_consistent. by apply polariton_check_Val in Hc as []. Qed.

Lemma phonon_check_idem (o o' : PhononMode.t double) :
  PhononMode.check o = Val o' -> PhononMode.check o' = Val o'.
Proof. intros Hc. apply phonon_check_consistent. by apply phonon_check_Val in Hc as []. Qed.

Lemma check_polaritons_total c ps : forall h,
  Forall (fun p => exists o o', polariton_objects h !! p = Some o
                                /\ PolaritonMode.check o = Val o') ps ->
  exists h', for_each Cavity.check_polariton ps tt (Cavity.mk_state h c)
             = Ok tt (Cavity.mk_state h' c)
             /\ phonon_objects h' = phonon_objects h.
Proof.
  induction ps as [|p ps IH]; intros h Hps; cbn [for_each].
  - exists h. split; reflexivity.
  - apply Forall_cons in Hps as [(o & o' & Ho & Hc) Hps].
    rewrite M_bind_unfold. unfold Cavity.check_polariton at 1, polariton_at.
    cbn [Cavity.heap Cavity.this]. rewrite Ho, Hc.
    destruct (IH (mkHeap (<[p := o']> (polariton_objects h)) (phonon_objects h)))
      as (h' & E & Hph).
    + eapply Forall_impl; [exact Hps|]. intros q (oq & oq' & Hq & Hcq). simpl.
      destruct (decide (p = q)) as [->|Hne].
      * rewrite lookup_insert_eq. exists o', o'. split; [reflexivity|].
        by eapply polariton_check_idem.
      * rewrite lookup_insert_ne by done. eauto.
    + exists h'. split; [exact E|exact Hph].
Qed.

Lemma check_phonons_total c ps : forall h,
  Forall (fun p => exists o o', phonon_objects h !! p = Some o
                                /\ PhononMode.check o = Val o') ps ->
  exists h', for_each Cavity.check_phonon ps tt (Cavity.mk_state h c)
             = Ok tt (Cavity.mk_state h' c).
Proof.
  induction ps as [|p ps IH]; intros h Hps; cbn [for_each].
  - exists h. reflexivity.
  - apply Forall_cons in Hps as [(o & o' & Ho & Hc) Hps].
    rewrite M_bind_unfold. unfold Cavity.check_phonon at 1, phonon_at.
    cbn [Cavity.heap Cavity.this]. rewrite Ho, Hc.
    apply IH.
    eapply Forall_impl; [exact Hps|]. intros q (oq & oq' & Hq & Hcq). simpl.
    destruct (decide (p = q)) as [->|Hne].
    * rewrite lookup_insert_eq. exists o', o'. split; [reflexivity|].
      by eapply phonon_check_idem.
    * rewrite lookup_insert_ne by done. eauto.
Qed.

Lemma check_polaritons_throw c ps e s' : forall h,
  for_each Cavity.check_polariton ps tt (Cavity.mk_state h c) = Throw e s' ->
  Cavity.this s' = c /\ check_failure e.
Proof.
  induction ps as [|p ps IH]; intros h; cbn [for_each]; [discriminate|].
  rewrite M_bind_unfold. unfold Cavity.check_polariton at 1, polariton_at.
  cbn [Cavity.heap Cavity.this].
  destruct (polariton_objects h !! p) as [o|].
  - unfold PolaritonMode.check. destruct (PolaritonMode.all_same_size _).
    + apply IH.
    + intros [= <- <-]. split; [reflexivity|]. by left.
  - intros [= <- <-]. split; [reflexivity|]. right. by left.
Qed.

Lemma check_phonons_throw c ps e s' : forall h,
  for_each Cavity.check_phonon ps tt (Cavity.mk_state h c) = Throw e s' ->
  Cavity.this s' = c /\ check_failure e.
Proof.
  induction ps as [|p ps IH]; intros h; cbn [for_each]; [discriminate|].
  rewrite M_bind_unfold. unfold Cavity.check_phonon at 1, phonon_at.
  cbn [Cavity.heap Cavity.this].
  destruct (phonon_objects h !! p) as [o|].
  - unfold PhononMode.check. destruct (PolaritonMode.all_same_size _).
    + apply IH.
    + intros [= <- <-]. split; [reflexivity|]. by left.
  - intros [= <- <-]. split; [reflexivity|]. right. by right.
Qed.

(** [assemble] can only fail in its two [check] loops, that is, before it
    has touched the dimension and the state vector. *)
Lemma assemble_throw h c e s' :
  Cavity.assemble (Cavity.mk_state h c) = Throw e s' ->
  check_failure e /\
  Cavity.system_dimension (Cavity.this s') = Cavity.system_dimension c /\
  Cavity.current_state (Cavity.this s') = Cavity.current_state c /\
  Cavity.polaritons (Cavity.this s') = Cavity.polaritons c /\
  Cavity.phonons (Cavity.this s') = Cavity.phonons c.
Proof.
  unfold Cavity.assemble. rewrite M_bind_unfold. cbn [gets Cavity.this].
  rewrite M_bind_unfold. cbn [modify]. rewrite with_this_mk.
  set (c1 := Cavity.set_dopri5_stepper _ c).
  change (Cavity.polaritons c) with (Cavity.polaritons c1).
  change (Cavity.phonons c) with (Cavity.phonons c1).
  rewrite M_bind_unfold.
  destruct (for_each Cavity.check_polariton _ _ _) as [[] [h1 c1']|e1 s1] eqn:E1.
  2:{ intros [= <- <-]. apply check_polaritons_throw in E1 as [-> He]. by repeat split. }
  pose proof E1 as E1'.
  apply check_polaritons_inv in E1 as (Hc1 & S1 & V1).
  cbn [Cavity.heap Cavity.this] in *. subst c1'.
  rewrite M_bind_unfold.
  destruct (for_each Cavity.check_phonon _ _ _) as [[] [h2 c2']|e2 s2] eqn:E2.
  2:{ intros [= <- <-]. apply check_phonons_throw in E2 as [-> He]. by repeat split. }
  apply check_phonons_inv in E2 as (Hc2 & S2 & V2).
  cbn [Cavity.heap Cavity.this] in *. subst c2'.
  assert (S12 : same_entities h h2) by (eapply same_entities_trans; eassumption).
  assert (Hv : pointers_valid h2 (Cavity.polaritons c1) (Cavity.phonons c1)).
  { split.
    - eapply Forall_impl; [exact V1|]. intros q. simpl. apply S12.
    - eapply Forall_impl; [exact V2|]. intros q. simpl. apply S2. }
  rewrite M_bind_unfold, count_reservoirs_spec by apply Hv.
  rewrite M_bind_unfold. cbn [modify]. rewrite with_this_mk.
  rewrite M_bind_unfold. cbn [modify]. rewrite with_this_mk.
  set (N := 2 * _ + 2 * _ + _).
  rewrite pack_state_spec; [discriminate|exact Hv|].
  change (length (set_size N (Cavity.current_state c1))
          = length (layout h2 (Cavity.polaritons c1) (Cavity.phonons c1))).
  rewrite length_set_size, length_layout. reflexivity.
Qed.

Lemma assemble_total h c :
  Forall (fun p => exists o o', polariton_objects h !! p = Some o
                                /\ PolaritonMode.check o = Val o') (Cavity.polaritons c) ->
  Forall (fun p => exists o o', phonon_objects h !! p = Some o
                                /\ PhononMode.check o = Val o') (Cavity.phonons c) ->
  exists s', Cavity.assemble (Cavity.mk_state h c) = Ok tt s'.
Proof.
  intros Hps Hphs.
  destruct (Cavity.assemble (Cavity.mk_state h c)) as [[] s'|e s'] eqn:E; [eauto|].
  exfalso. revert E.
  unfold Cavity.assemble. rewrite M_bind_unfold. cbn [gets Cavity.this].
  rewrite M_bind_unfold. cbn [modify]. rewrite with_this_mk.
  set (c1 := Cavity.set_dopri5_stepper _ c).
  change (Cavity.polaritons c) with (Cavity.polaritons c1) in *.
  change (Cavity.phonons c) with (Cavity.phonons c1) in *.
  destruct (check_polaritons_total c1 _ h Hps) as (h1 & E1 & Hph).
  rewrite M_bind_unfold, E1.
  destruct (check_phonons_total c1 (Cavity.phonons c1) h1) as (h2 & E2).
  { by rewrite Hph. }
  rewrite M_bind_unfold, E2.
  apply check_polaritons_inv in E1 as (_ & S1 & V1).
  apply check_phonons_inv in E2 as (_ & S2 & V2).
  cbn [Cavity.heap Cavity.this] in *.
  assert (S12 : same_entities h h2) by (eapply same_entities_trans; eassumption).
  assert (Hv : pointers_valid h2 (Cavity.polaritons c1) (Cavity.phonons c1)).
  { split.
    - eapply Forall_impl; [exact V1|]. intros q. simpl. apply S12.
    - eapply Forall_impl; [exact V2|]. intros q. simpl. apply S2. }
  rewrite M_bind_unfold, count_reservoirs_spec by apply Hv.
  rewrite M_bind_unfold. cbn [modify]. rewrite with_this_mk.
  rewrite M_bind_unfold. cbn [modify]. rewrite with_this_mk.
  set (N := 2 * _ + 2 * _ + _).
  rewrite pack_state_spec; [discriminate|exact Hv|].
  change (length (set_size N (Cavity.current_state c1))
          = length (layout h2 (Cavity.polaritons c1) (Cavity.phonons c1))).
  rewrite length_set_size, length_layout. reflexivity.
Qed.

(** X2.  The constructor returns whenever every pointer it is given
    points to an object whose [check()] passes (the same pointer may be
    listed several times). *)
Theorem X2_constructor_returns h (ps phs : list nat) (t0 : double) :
  Forall (fun p => exists o o', polariton_objects h !! p = Some o
                                /\ PolaritonMode.check o = Val o') ps ->
  Forall (fun p => exists o o', phonon_objects h !! p = Some o
                                /\ PhononMode.check o = Val o') phs ->
  exists s, Cavity.new ps phs t0 h = Ok tt s.
Proof. intros Hps Hphs. unfold Cavity.new. by apply assemble_total. Qed.

(** X3.  When the constructor throws, it does so in one of its [check]
    loops: the exception is the [domain_error] of [check()] or the
    dereference of a pointer that points to no object, and the dimension
    is still [0] and the state vector still empty. *)
Theorem X3_constructor_throws h (ps phs : list nat) (t0 : double) e s :
  Cavity.new ps phs t0 h = Throw e s ->
  check_failure e /\
  Cavity.system_dimension (Cavity.this s) = 0 /\
  Cavity.get_state (Cavity.this s) = [].
Proof.
  unfold Cavity.new. intros E. apply assemble_throw in E as (He & Hd & Hs & _).
  split; [exact He|]. split; [exact Hd|exact Hs].
Qed.
End constructor.

(** ** From the vector to the entities and back *)

Section unpack_pack.
Context {double : Type} `{!DoubleOps double}.
Implicit Types (h : Heap double) (c : Cavity.t double) (x : vec double).

Lemma elem_of_polariton_slots s ps :
  s ∈ polariton_slots ps <-> exists p, p ∈ ps /\ (s = Re p \/ s = Im p).
Proof.
  unfold polariton_slots. rewrite list_elem_of_bind. split.
  - intros (p & Hs & Hp). exists p. split; [done|].
    apply elem_of_cons in Hs as [-> |Hs]; [by left|].
    apply list_elem_of_singleton in Hs as ->. by right.
  - intros (p & Hp & [-> | ->]); exists p; split; try done; set_solver.
Qed.

Lemma elem_of_phonon_slots s ps :
  s ∈ phonon_slots ps <-> exists p, p ∈ ps /\ (s = Position p \/ s = Velocity p).
Proof.
  unfold phonon_slots. rewrite list_elem_of_bind. split.
  - intros (p & Hs & Hp). exists p. split; [done|].
    apply elem_of_cons in Hs as [-> |Hs]; [by left|].
    apply list_elem_of_singleton in Hs as ->. by right.
  - intros (p & Hp & [-> | ->]); exists p; split; try done; set_solver.
Qed.

Lemma NoDup_polariton_slots ps : NoDup ps -> NoDup (polariton_slots ps).
Proof.
  induction 1 as [|p ps Hp _ IH]; [constructor|].
  rewrite polariton_slots_cons. constructor; [|constructor; [|exact IH]].
  - rewrite elem_of_cons, elem_of_polariton_slots.
    intros [?|(q & Hq & [?|?])]; simplify_eq. done.
  - rewrite elem_of_polariton_slots. intros (q & Hq & [?|?]); simplify_eq. done.
Qed.

Lemma NoDup_phonon_slots ps : NoDup ps -> NoDup (phonon_slots ps).
Proof.
  induction 1 as [|p ps Hp _ IH]; [constructor|].
  rewrite phonon_slots_cons. constructor; [|constructor; [|exact IH]].
  - rewrite elem_of_cons, elem_of_phonon_slots.
    intros [?|(q & Hq & [?|?])]; simplify_eq. done.
  - rewrite elem_of_phonon_slots. intros (q & Hq & [?|?]); simplify_eq. done.
Qed.

Lemma NoDup_layout h ps phs : NoDup ps -> NoDup phs -> NoDup (layout h ps phs).
Proof.
  intros Hps Hphs. unfold layout. apply NoDup_app. split; [|split].
  - by apply NoDup_polariton_slots.
  - intros s Hs. apply elem_of_polariton_slots in Hs as (p & _ & Hs).
    rewrite elem_of_app, elem_of_phonon_slots. unfold reservoir_slots.
    rewrite list_elem_of_fmap.
    intros [(q & _ & [?|?])|(q & ? & _)]; destruct Hs; simplify_eq.
  - apply NoDup_app. split; [|split].
    + by apply NoDup_phonon_slots.
    + intros s Hs. apply elem_of_phonon_slots in Hs as (p & _ & Hs).
      unfold reservoir_slots. rewrite list_elem_of_fmap.
      intros (q & ? & _); destruct Hs; simplify_eq.
    + unfold reservoir_slots. apply NoDup_fmap_2; [by intros ?? [=]|].
      by apply NoDup_owners.
Qed.

(** After the components of [x] have been written along a list of
    distinct slots, each slot reads its component. *)
Lemma read_written h (l : list slot) x :
  NoDup l -> length x = length l ->
  Forall (fun s => is_Some (read_slot h s)) l ->
  Forall2 (fun s v => read_slot (foldl write_slot h (zip l x)) s = Some v) l x.
Proof.
  intros Hnd Hlen Hr. apply Forall2_same_length_lookup_2; [done|].
  intros i s v Hs Hv.
  pose proof (take_drop_middle l i s Hs) as El.
  rewrite <- El at 1.
  apply read_last_write.
  - rewrite <- El in Hnd. apply NoDup_app in Hnd as (_ & _ & Hnd).
    by apply NoDup_cons in Hnd as [? _].
  - rewrite length_take_le; [exact Hv|]. apply lookup_lt_Some in Hs. lia.
  - eapply Forall_lookup_1 in Hr; [exact Hr|exact Hs].
Qed.

Lemma omap_Forall2 {A B} (f : A -> option B) (l : list A) (k : list B) :
  Forall2 (fun a b => f a = Some b) l k -> omap f l = k.
Proof.
  induction 1 as [|a b l k Ha _ IH]; [done|].
  change (omap f (a :: l)) with (match f a with Some y => y :: omap f l | None => omap f l end).
  by rewrite Ha, IH.
Qed.

Lemma layout_unpacked h ps phs x :
  layout (unpacked h ps phs x) ps phs = layout h ps phs.
Proof. apply layout_ext. intros p. apply foldl_write_owns_reservoir. Qed.

(** X4.  The round trip from the vector: on an assembled cavity that
    lists no pointer twice, [unpack_state(x)] for a vector of the system
    dimension followed by [pack_state()] leaves [x] in the state vector,
    and packing does not touch the entities. *)
Theorem X4_unpack_pack_round_trip (s : Cavity.state double) (x : vec double) :
  assembled s ->
  NoDup (Cavity.polaritons (Cavity.this s)) ->
  NoDup (Cavity.phonons (Cavity.this s)) ->
  length x = Cavity.system_dimension (Cavity.this s) ->
  exists s1 s2,
    Cavity.unpack_state x s = Ok tt s1 /\
    Cavity.pack_state s1 = Ok tt s2 /\
    Cavity.get_state (Cavity.this s2) = x /\
    Cavity.heap s2 = Cavity.heap s1.
Proof.
  destruct s as [h c]. cbn [Cavity.heap Cavity.this].
  intros (Hv & Hdim & Hlen) Hps Hphs Hx. cbn [Cavity.heap Cavity.this] in *.
  set (ps := Cavity.polaritons c) in *. set (phs := Cavity.phonons c) in *.
  set (h1 := unpacked h ps phs x).
  assert (Hv1 : pointers_valid h1 ps phs) by (by apply pointers_valid_foldl_write).
  assert (Hl1 : layout h1 ps phs = layout h ps phs) by apply layout_unpacked.
  pose proof (unpack_state_spec x h c Hv ltac:(fold ps phs; lia)) as E1.
  fold ps phs h1 in E1.
  pose proof (pack_state_spec h1 c Hv1 ltac:(fold ps phs; rewrite Hl1; lia)) as E2.
  fold ps phs in E2.
  eexists _, _. split; [exact E1|]. split; [exact E2|]. split; [|reflexivity].
  cbn [Cavity.this Cavity.get_state Cavity.current_state Cavity.set_current_state].
  rewrite Hl1. apply omap_Forall2.
  unfold h1, unpacked. apply read_written.
  - by apply NoDup_layout.
  - lia.
  - by apply layout_readable.
Qed.

Lemma zip_app_short {A B} (l : list A) (k k' : list B) :
  length l <= length k -> zip l (k ++ k') = zip l k.
Proof.
  revert k. induction l as [|a l IH]; intros [|b k] Hlen; simpl in *; try lia; try done.
  f_equal. apply IH. lia.
Qed.

(** X5.  [unpack_state] reads the first [system_dimension] components of
    its argument and nothing else: whatever follows them does not change
    the outcome. *)
Theorem X5_unpack_ignores_the_rest (s : Cavity.state double) (x rest : vec double) :
  assembled s ->
  length x = Cavity.system_dimension (Cavity.this s) ->
  exists s1,
    Cavity.unpack_state x s = Ok tt s1 /\
    Cavity.unpack_state (x ++ rest) s = Ok tt s1.
Proof.
  destruct s as [h c]. cbn [Cavity.heap Cavity.this].
  intros (Hv & Hdim & Hlen) Hx. cbn [Cavity.heap Cavity.this] in *.
  pose proof (unpack_state_spec x h c Hv ltac:(lia)) as E1.
  eexists. split; [exact E1|].
  rewrite unpack_state_spec; [|exact Hv|rewrite length_app; lia].
  unfold unpacked. rewrite zip_app_short by lia. reflexivity.
Qed.

Lemma eval_vec_at_short {S} x i (s : S) :
  length x <= i ->
  eval (vec_at x i) s = Throw (logic_error "Mat::operator(): index out of bounds") s.
Proof.
  intros Hi. unfold eval, vec_at. rewrite (lookup_ge_None_2 x i) by lia. reflexivity.
Qed.

Lemma unpack_polaritons_short x c ps : forall idx h,
  Forall (fun p => is_Some (polariton_objects h !! p)) ps ->
  idx <= length x < idx + 2 * length ps ->
  exists s', for_each (Cavity.unpack_polariton x) ps idx (Cavity.mk_state h c)
             = Throw (logic_error "Mat::operator(): index out of bounds") s'.
Proof.
  induction ps as [|p ps IH]; intros idx h Hv Hlen; simpl in *; [lia|].
  apply Forall_cons in Hv as [Hp Hv].
  destruct (decide (idx + 2 <= length x)) as [Hle|Hgt].
  - destruct (lookup_lt_is_Some_2 x idx ltac:(lia)) as [re Hre].
    destruct (lookup_lt_is_Some_2 x (idx + 1) ltac:(lia)) as [im Him].
    rewrite (M_bind_Ok _ _ _ _ _ (unpack_polariton_ok _ _ _ _ c _ _ Hre Him Hp)).
    apply IH; [|lia].
    eapply Forall_impl; [exact Hv|]. intros q Hq. simpl in Hq.
    by rewrite !write_slot_polariton_is_Some.
  - rewrite M_bind_unfold. unfold Cavity.unpack_polariton. rewrite M_bind_unfold.
    destruct (decide (idx < length x)) as [Hlt|Hge].
    + destruct (lookup_lt_is_Some_2 x idx Hlt) as [re Hre].
      rewrite (eval_vec_at _ _ _ _ Hre), M_bind_unfold, eval_vec_at_short by lia.
      eauto.
    + rewrite eval_vec_at_short by lia. eauto.
Qed.

Lemma unpack_phonons_short x c ps : forall idx h,
  Forall (fun p => is_Some (phonon_objects h !! p)) ps ->
  idx <= length x < idx + 2 * length ps ->
  exists s', for_each (Cavity.unpack_phonon x) ps idx (Cavity.mk_state h c)
             = Throw (logic_error "Mat::operator(): index out of bounds") s'.
Proof.
  induction ps as [|p ps IH]; intros idx h Hv Hlen; simpl in *; [lia|].
  apply Forall_cons in Hv as [Hp Hv].
  destruct (decide (idx + 2 <= length x)) as [Hle|Hgt].
  - destruct (lookup_lt_is_Some_2 x idx ltac:(lia)) as [re Hre].
    destruct (lookup_lt_is_Some_2 x (idx + 1) ltac:(lia)) as [im Him].
    rewrite (M_bind_Ok _ _ _ _ _ (unpack_phonon_ok _ _ _ _ c _ _ Hre Him Hp)).
    apply IH; [|lia].
    eapply Forall_impl; [exact Hv|]. intros q Hq. simpl in Hq.
    by rewrite !write_slot_phonon_is_Some.
  - rewrite M_bind_unfold. unfold Cavity.unpack_phonon. rewrite M_bind_unfold.
    destruct (decide (idx < length x)) as [Hlt|Hge].
    + destruct (lookup_lt_is_Some_2 x idx Hlt) as [pos Hpos].
      destruct Hp as [o Ho].
      rewrite (eval_vec_at _ _ _ _ Hpos), M_bind_unfold.
      rewrite (call_phonon_ok _ _ _ _ _ Ho), M_bind_unfold, eval_vec_at_short by lia.
      eauto.
    + rewrite eval_vec_at_short by lia. eauto.
Qed.

Lemma unpack_reservoirs_short x c ps : forall idx h,
  Forall (fun p => is_Some (polariton_objects h !! p)) ps ->
  idx <= length x < idx + length (owners h ps) ->
  exists s', for_each (Cavity.unpack_reservoir x) ps idx (Cavity.mk_state h c)
             = Throw (logic_error "Mat::operator(): index out of bounds") s'.
Proof.
  induction ps as [|p ps IH]; intros idx h Hv Hlen; simpl in *; [lia|].
  apply Forall_cons in Hv as [Hp Hv].
  unfold owners in Hlen. cbn [List.filter] in Hlen.
  destruct (owns_reservoir h p) eqn:Ho.
  - cbn [length] in Hlen.
    destruct (decide (idx < length x)) as [Hlt|Hge].
    + rewrite M_bind_unfold, unpack_reservoir_ok; [|done|].
      2:{ intros _. by apply lookup_lt_is_Some_2. }
      rewrite Ho.
      set (h' := write_slot h _).
      assert (E : List.filter (owns_reservoir h') ps = List.filter (owns_reservoir h) ps).
      { apply (owners_ext h h'). intros q. apply write_slot_owns_reservoir. }
      apply IH.
      * eapply Forall_impl; [exact Hv|]. intros q Hq. simpl in Hq.
        unfold h'. by rewrite write_slot_polariton_is_Some.
      * unfold owners. rewrite E. lia.
    + rewrite M_bind_unfold. unfold Cavity.unpack_reservoir.
      unfold Cavity.deref_polariton, lift, polariton_at. rewrite M_bind_unfold.
      cbn [Cavity.heap]. unfold owns_reservoir in Ho.
      destruct Hp as [o Hp]. rewrite Hp in *. unfold PolaritonMode.get_reservoir.
      destruct (PolaritonMode.reservoir_owned o); [|discriminate].
      rewrite M_bind_unfold, eval_vec_at_short by lia. eauto.
  - rewrite M_bind_unfold, unpack_reservoir_ok; [|done|].
    2:{ intros ?. congruence. }
    rewrite Ho. apply IH; [done|]. unfold owners. lia.
Qed.

(** X6.  [unpack_state] on a vector with fewer components than the
    system dimension throws armadillo's bounds error. *)
Theorem X6_unpack_short_vector (s : Cavity.state double) (x : vec double) :
  assembled s ->
  length x < Cavity.system_dimension (Cavity.this s) ->
  exists s',
    Cavity.unpack_state x s
    = Throw (logic_error "Mat::operator(): index out of bounds") s'.
Proof.
  destruct s as [h c]. cbn [Cavity.heap Cavity.this].
  intros ([Hp Hph] & Hdim & _) Hx. cbn [Cavity.heap Cavity.this] in *.
  rewrite Hdim, length_layout in Hx.
  set (ps := Cavity.polaritons c) in *. set (phs := Cavity.phonons c) in *.
  unfold Cavity.unpack_state. rewrite M_bind_unfold. cbn [gets Cavity.this].
  fold ps phs. rewrite M_bind_unfold.
  destruct (decide (length x < 2 * length ps)) as [H1|H1].
  { destruct (unpack_polaritons_short x c ps 0 h Hp ltac:(lia)) as [s' ->]. eauto. }
  rewrite unpack_polaritons_spec by (done || lia).
  set (h1 := foldl write_slot h _).
  assert (Hph1 : Forall (fun p => is_Some (phonon_objects h1 !! p)) phs).
  { eapply Forall_impl; [exact Hph|]. intros q Hq. simpl in Hq.
    unfold h1. by rewrite foldl_write_phonon_is_Some. }
  rewrite M_bind_unfold.
  destruct (decide (length x < 2 * length ps + 2 * length phs)) as [H2|H2].
  { destruct (unpack_phonons_short x c phs (0 + 2 * length ps) h1 Hph1 ltac:(lia))
      as [s' ->]. eauto. }
  rewrite unpack_phonons_spec by (done || lia).
  set (h2 := foldl write_slot h1 _).
  assert (Eo : owners h2 ps = owners h ps).
  { apply owners_ext. intros q. unfold h2, h1. by rewrite !foldl_write_owns_reservoir. }
  rewrite M_bind_unfold.
  destruct (unpack_reservoirs_short x c ps (0 + 2 * length ps + 2 * length phs) h2)
    as [s' ->]; [|rewrite Eo; lia|eauto].
  eapply Forall_impl; [exact Hp|]. intros q Hq. simpl in Hq.
  unfold h2, h1. by rewrite !foldl_write_polariton_is_Some.
Qed.
End unpack_pack.

(** ** The vector field of a wired system never fails *)

Section safety.
Context {double : Type} `{!DoubleOps double}.
Implicit Types (h : Heap double) (c : Cavity.t double) (x : vec double).

Lemma for_each_r_total {A B} (body : B -> A -> result B) (l : list A) (acc : B) :
  (forall b a, a ∈ l -> exists b', body b a = Val b') ->
  exists b', for_each_r body l acc = Val b'.
Proof.
  revert acc. induction l as [|a l IH]; intros acc Hb; cbn [for_each_r].
  - by eexists.
  - destruct (Hb acc a) as [b' Hb']; [by left|].
    rewrite result_bind_unfold, Hb'. apply IH. intros b a' Ha'. apply Hb. by right.
Qed.

Lemma neighbor_term_total h o t drv i :
  polariton_wired h o -> i < PolaritonMode.n_neighbors o ->
  exists d, neighbor_term h o t drv i = Val d.
Proof.
  intros ((L1 & L2 & L3 & L4 & L5 & L6) & Hps & Hphs & _) Hi.
  destruct (lookup_lt_is_Some_2 (PolaritonMode.signs o) i ltac:(lia)) as [sg Hsg].
  destruct (lookup_lt_is_Some_2 (PolaritonMode.neighboring_phonons o) i ltac:(lia))
    as [ph Hph].
  destruct (lookup_lt_is_Some_2 (PolaritonMode.detunings_from_resonance o) i ltac:(lia))
    as [dl Hdl].
  destruct (lookup_lt_is_Some_2 (PolaritonMode.phonon_couplings o) i ltac:(lia))
    as [g Hg].
  destruct (lookup_lt_is_Some_2 (PolaritonMode.constant_couplings o) i ltac:(lia))
    as [J HJ].
  destruct (lookup_lt_is_Some_2 (PolaritonMode.neighboring_polaritons o) i ltac:(lia))
    as [nb Hnb].
  destruct (Forall_lookup_1 _ _ _ _ Hphs Hph) as [pho Hpho].
  destruct (Forall_lookup_1 _ _ _ _ Hps Hnb) as [nbo Hnbo].
  unfold neighbor_term.
  rewrite (vector_at_Some _ _ _ Hsg), (vector_at_Some _ _ _ Hph),
    (vector_at_Some _ _ _ Hdl), (vector_at_Some _ _ _ Hg),
    (vector_at_Some _ _ _ HJ), (vector_at_Some _ _ _ Hnb).
  unfold phonon_at, polariton_at. simpl. rewrite Hpho. simpl. rewrite Hnbo. simpl.
  by eexists.
Qed.

Lemma polariton_derivative_total h o t :
  polariton_wired h o -> exists d, PolaritonMode_derivative h o t = Val d.
Proof.
  intros Hw. unfold PolaritonMode_derivative.
  edestruct (for_each_r_total (neighbor_term h o t)
               (seq 0 (PolaritonMode.n_neighbors o))) as [d Hd].
  { intros b i Hi. apply elem_of_seq in Hi. apply neighbor_term_total; [done|lia]. }
  rewrite result_bind_unfold, Hd. by eexists.
Qed.

Lemma pairing_term_total h o t acc i :
  phonon_wired h o -> i < PhononMode.n_pairings o ->
  exists d, pairing_term h o t acc i = Val d.
Proof.
  intros ((L1 & L2 & L3) & Hps) Hi.
  destruct (lookup_lt_is_Some_2 (PhononMode.detunings o) i ltac:(lia)) as [dl Hdl].
  destruct (lookup_lt_is_Some_2 (PhononMode.couplings o) i ltac:(lia)) as [cp Hcp].
  destruct (lookup_lt_is_Some_2 (PhononMode.pairs o) i ltac:(lia)) as [pr Hpr].
  destruct (Forall_lookup_1 _ _ _ _ Hps Hpr) as [[o0 H0] [o1 H1]].
  unfold pairing_term.
  rewrite (vector_at_Some _ _ _ Hdl), (vector_at_Some _ _ _ Hcp), (vector_at_Some _ _ _ Hpr).
  unfold polariton_at. simpl. rewrite H0. simpl. rewrite H1. simpl. by eexists.
Qed.

Lemma phonon_second_derivative_total h o t :
  phonon_wired h o -> exists d, PhononMode_second_derivative h o t = Val d.
Proof.
  intros Hw. unfold PhononMode_second_derivative.
  edestruct (for_each_r_total (pairing_term h o t)
               (seq 0 (PhononMode.n_pairings o))) as [d Hd].
  { intros b i Hi. apply elem_of_seq in Hi. apply pairing_term_total; [done|lia]. }
  rewrite result_bind_unfold, Hd. by eexists.
Qed.

Lemma polariton_rows_total h t ps :
  Forall (fun p => exists o, polariton_objects h !! p = Some o /\ polariton_wired h o) ps ->
  exists v, polariton_rows h t ps = Val v.
Proof.
  induction 1 as [|p ps (o & Ho & Hw) _ [v IH]]; cbn [polariton_rows]; [by eexists|].
  unfold polariton_at. rewrite Ho, result_bind_unfold.
  destruct (polariton_derivative_total h o t Hw) as [d ->].
  rewrite result_bind_unfold, IH. by eexists.
Qed.

Lemma phonon_rows_total h t phs :
  Forall (fun ph => exists o, phonon_objects h !! ph = Some o /\ phonon_wired h o) phs ->
  exists v, phonon_rows h t phs = Val v.
Proof.
  induction 1 as [|p ps (o & Ho & Hw) _ [v IH]]; cbn [phonon_rows]; [by eexists|].
  unfold phonon_at. rewrite Ho, result_bind_unfold.
  destruct (phonon_second_derivative_total h o t Hw) as [d ->].
  rewrite result_bind_unfold, IH. by eexists.
Qed.

Lemma reservoir_rows_total h t ps :
  Forall (fun p => exists o, polariton_objects h !! p = Some o /\ polariton_wired h o) ps ->
  exists v, reservoir_rows h t ps = Val v.
Proof.
  induction 1 as [|p ps (o & Ho & Hw) _ [v IH]]; cbn [reservoir_rows]; [by eexists|].
  unfold polariton_at. rewrite Ho, result_bind_unfold.
  unfold PolaritonMode.get_reservoir.
  destruct Hw as (_ & _ & _ & Hr).
  destruct (PolaritonMode.reservoir_owned o) as [r|]; [|by eexists].
  destruct Hr as [q Hq].
  unfold NonResonantDriving_derivative, polariton_at. rewrite Hq.
  rewrite !result_bind_unfold, IH. by eexists.
Qed.

(** Writing a component into a field changes neither the links of an
    object nor the oscillator its reservoir points to. *)
Lemma write_slot_polariton_links h w p o :
  polariton_objects h !! p = Some o ->
  exists o', polariton_objects (write_slot h w) !! p = Some o' /\
    PolaritonMode.neighboring_polaritons o' = PolaritonMode.neighboring_polaritons o /\
    PolaritonMode.neighboring_phonons o' = PolaritonMode.neighboring_phonons o /\
    PolaritonMode.constant_couplings o' = PolaritonMode.constant_couplings o /\
    PolaritonMode.phonon_couplings o' = PolaritonMode.phonon_couplings o /\
    PolaritonMode.detunings_from_resonance o' = PolaritonMode.detunings_from_resonance o /\
    PolaritonMode.signs o' = PolaritonMode.signs o /\
    PolaritonMode.n_neighbors o' = PolaritonMode.n_neighbors o /\
    NonResonantDriving.polariton <$> PolaritonMode.reservoir_owned o'
      = NonResonantDriving.polariton <$> PolaritonMode.reservoir_owned o.
Proof.
  intros Ho. destruct w as [[q|q|q|q|q] v]; unfold write_slot; simpl;
    try (exists o; by repeat split);
    rewrite lookup_alter; case_decide; subst; rewrite Ho; simpl;
    eexists; (split; [reflexivity|]); repeat split; simpl;
    by destruct (PolaritonMode.reservoir_owned o).
Qed.

Lemma write_slot_phonon_links h w p o :
  phonon_objects h !! p = Some o ->
  exists o', phonon_objects (write_slot h w) !! p = Some o' /\
    PhononMode.pairs o' = PhononMode.pairs o /\
    PhononMode.detunings o' = PhononMode.detunings o /\
    PhononMode.couplings o' = PhononMode.couplings o /\
    PhononMode.n_pairings o' = PhononMode.n_pairings o.
Proof.
  intros Ho. destruct w as [[q|q|q|q|q] v]; unfold write_slot; simpl;
    try (exists o; by repeat split);
    rewrite lookup_alter; case_decide; subst; rewrite Ho; simpl;
    eexists; (split; [reflexivity|]); by repeat split.
Qed.

Lemma wired_write_slot h w ps phs : wired h ps phs -> wired (write_slot h w) ps phs.
Proof.
  intros [Hps Hphs]. split.
  - eapply Forall_impl; [exact Hps|]. intros p (o & Ho & Hc & Hn & Hm & Hr).
    destruct (write_slot_polariton_links h w p o Ho)
      as (o' & Ho' & E1 & E2 & E3 & E4 & E5 & E6 & E7 & E8).
    exists o'. split; [exact Ho'|]. split; [|split; [|split]].
    + unfold polariton_consistent in *. rewrite E1, E2, E3, E4, E5, E6, E7. exact Hc.
    + rewrite E1. eapply Forall_impl; [exact Hn|]. intros a Ha. simpl in *.
      by rewrite write_slot_polariton_is_Some.
    + rewrite E2. eapply Forall_impl; [exact Hm|]. intros a Ha. simpl in *.
      by rewrite write_slot_phonon_is_Some.
    + destruct (PolaritonMode.reservoir_owned o') as [r'|],
        (PolaritonMode.reservoir_owned o) as [r|]; simpl in E8; try done.
      injection E8 as ->. by rewrite write_slot_polariton_is_Some.
  - eapply Forall_impl; [exact Hphs|]. intros p (o & Ho & Hc & Hn).
    destruct (write_slot_phonon_links h w p o Ho) as (o' & Ho' & E1 & E2 & E3 & E4).
    exists o'. split; [exact Ho'|]. split.
    + unfold phonon_consistent in *. rewrite E1, E2, E3, E4. exact Hc.
    + rewrite E1. eapply Forall_impl; [exact Hn|]. intros a [Ha1 Ha2]. simpl in *.
      by rewrite !write_slot_polariton_is_Some.
Qed.

Lemma wired_foldl_write ws : forall h ps phs,
  wired h ps phs -> wired (foldl write_slot h ws) ps phs.
Proof.
  induction ws as [|w ws IH]; intros h ps phs Hw; simpl; [done|].
  by apply IH, wired_write_slot.
Qed.

Lemma vector_field_total h ps phs x t :
  wired h ps phs -> exists v, vector_field h ps phs x t = Val v.
Proof.
  intros Hw. unfold vector_field.
  destruct (wired_foldl_write (zip (layout h ps phs) x) h ps phs Hw) as [Hps Hphs].
  fold (unpacked h ps phs x) in Hps, Hphs.
  destruct (polariton_rows_total _ t ps Hps) as [a ->].
  destruct (phonon_rows_total _ t phs Hphs) as [b ->].
  destruct (reservoir_rows_total _ t ps Hps) as [c' ->].
  by eexists.
Qed.

Lemma reservoir_rows_length h t ps vals :
  reservoir_rows h t ps = Val vals -> length vals = length (owners h ps).
Proof.
  revert vals. induction ps as [|p ps IH]; intros vals; cbn [reservoir_rows].
  - by intros [= <-].
  - unfold owners. cbn [List.filter]. unfold owns_reservoir at 1, polariton_at.
    destruct (polariton_objects h !! p) as [o|]; [|discriminate].
    rewrite result_bind_unfold. unfold PolaritonMode.get_reservoir.
    destruct (PolaritonMode.reservoir_owned o) as [r|]; [|apply IH].
    rewrite result_bind_unfold. destruct (NonResonantDriving_derivative _ _ _); [|discriminate].
    rewrite result_bind_unfold. destruct (reservoir_rows h t ps); [|discriminate].
    intros [= <-]. cbn [length]. f_equal. by apply IH.
Qed.

Lemma vector_field_length h ps phs x t v :
  vector_field h ps phs x t = Val v -> length v = length (layout h ps phs).
Proof.
  unfold vector_field.
  destruct (polariton_rows _ t ps) as [a|] eqn:Ea; [|discriminate].
  rewrite result_bind_unfold.
  destruct (phonon_rows _ t phs) as [b|] eqn:Eb; [|discriminate].
  rewrite result_bind_unfold.
  destruct (reservoir_rows _ t ps) as [c'|] eqn:Ec; [|discriminate].
  intros [= <-].
  apply polariton_rows_length in Ea. apply phonon_rows_length in Eb.
  apply reservoir_rows_length in Ec.
  rewrite !length_app, Ea, Eb, Ec, length_layout.
  rewrite (owners_ext h) by (intros q; apply foldl_write_owns_reservoir). lia.
Qed.

(** The vector field depends on the entities only through what
    [unpack_state] leaves alone. *)
Lemma vector_field_unpacked h ps phs x' x t :
  length x' = length x ->
  vector_field (unpacked h ps phs x') ps phs x t = vector_field h ps phs x t.
Proof. intros Hl. unfold vector_field. by rewrite unpacked_idem. Qed.

(** X7.  On an assembled, wired system (consistent link arrays, links
    and reservoir back-pointers leading to objects) and a vector of the
    system dimension, [operator()] returns: no dereference of an invalid
    pointer, no index out of range.  The derivative vector has the system
    dimension whatever size the buffer had, the entities are left as
    [unpack_state(x)] leaves them, and of the members of the object only
    [evaluating_rhs] may have changed, to [false]. *)
Theorem X7_rhs_returns (s : Cavity.state double) (x dxdt : vec double) (t : double) :
  assembled s ->
  wired (Cavity.heap s) (Cavity.polaritons (Cavity.this s)) (Cavity.phonons (Cavity.this s)) ->
  length x = Cavity.system_dimension (Cavity.this s) ->
  exists v s1 s0,
    Cavity.call x dxdt t s = Ok v s1 /\
    length v = Cavity.system_dimension (Cavity.this s) /\
    Cavity.unpack_state x s = Ok tt s0 /\
    Cavity.heap s1 = Cavity.heap s0 /\
    Cavity.this s1 = Cavity.set_evaluating_rhs false (Cavity.this s).
Proof.
  destruct s as [h c]. cbn [Cavity.heap Cavity.this].
  intros (Hv & Hdim & Hlen) Hw Hx. cbn [Cavity.heap Cavity.this] in *.
  destruct (vector_field_total h _ _ x t Hw) as [v Ev].
  pose proof (call_spec h c x dxdt t Hv Hdim ltac:(lia)) as E. cbn zeta in E.
  rewrite Ev in E.
  pose proof (unpack_state_spec x h c Hv ltac:(lia)) as E0.
  eexists _, _, _. split; [exact E|]. split; [|split; [exact E0|split; reflexivity]].
  apply vector_field_length in Ev. lia.
Qed.
End safety.

(** ** The fixed step as a Runge-Kutta step of the vector field *)

Section fixed_step.
Context {double : Type} `{!DoubleOps double}.
Implicit Types (h : Heap double) (c : Cavity.t double) (x : vec double).

Lemma length_scale_sum x a k : length (odeint.scale_sum x a k) = length x `min` length k.
Proof. unfold odeint.scale_sum. apply length_zip_with. Qed.

(** A stage of the stepper on entities that an earlier stage has left
    unpacked from [y]. *)
Lemma call_stage h c y x dxdt t :
  pointers_valid h (Cavity.polaritons c) (Cavity.phonons c) ->
  Cavity.system_dimension c = length (layout h (Cavity.polaritons c) (Cavity.phonons c)) ->
  length y = Cavity.system_dimension c ->
  length x = Cavity.system_dimension c ->
  Cavity.call x dxdt t
    (Cavity.mk_state (unpacked h (Cavity.polaritons c) (Cavity.phonons c) y)
                     (Cavity.set_evaluating_rhs false c))
  = match vector_field h (Cavity.polaritons c) (Cavity.phonons c) x t with
    | Val v => Ok v (Cavity.mk_state (unpacked h (Cavity.polaritons c) (Cavity.phonons c) x)
                                     (Cavity.set_evaluating_rhs false c))
    | Exn e => Throw e (Cavity.mk_state
                          (unpacked h (Cavity.polaritons c) (Cavity.phonons c) x)
                          (Cavity.set_evaluating_rhs true c))
    end.
Proof.
  intros Hv Hdim Hy Hx.
  set (ps := Cavity.polaritons c) in *. set (phs := Cavity.phonons c) in *.
  rewrite call_spec.
  - change (Cavity.polaritons (Cavity.set_evaluating_rhs false c)) with ps.
    change (Cavity.phonons (Cavity.set_evaluating_rhs false c)) with phs.
    cbn zeta. rewrite vector_field_unpacked, unpacked_idem by lia. reflexivity.
  - by apply pointers_valid_foldl_write.
  - change (Cavity.system_dimension c = length (layout (unpacked h ps phs y) ps phs)).
    by rewrite layout_unpacked.
  - change (Cavity.system_dimension c <= length x). lia.
Qed.

Lemma rk4_call h c st x t dt :
  pointers_valid h (Cavity.polaritons c) (Cavity.phonons c) ->
  Cavity.system_dimension c = length (layout h (Cavity.polaritons c) (Cavity.phonons c)) ->
  length x = Cavity.system_dimension c ->
  match rk4_step (vector_field h (Cavity.polaritons c) (Cavity.phonons c)) x t dt with
  | Val x' =>
      length x' = Cavity.system_dimension c /\
      exists st' y,
        length y = Cavity.system_dimension c /\
        odeint.do_step Cavity.call st x t dt (Cavity.mk_state h c)
        = Ok (st', x')
             (Cavity.mk_state (unpacked h (Cavity.polaritons c) (Cavity.phonons c) y)
                              (Cavity.set_evaluating_rhs false c))
  | Exn e =>
      exists s', odeint.do_step Cavity.call st x t dt (Cavity.mk_state h c) = Throw e s'
  end.
Proof.
  intros Hv Hdim Hx.
  unfold rk4_step, odeint.do_step.
(* stage 1 *)
rewrite M_bind_unfold, result_bind_unfold, call_spec by (done || lia).
cbn zeta.
destruct (vector_field h _ _ x t) as [k1|e] eqn:E1; [|eauto].
pose proof (vector_field_length _ _ _ _ _ _ E1) as L1.
(* stage 2 *)
set (x2 := odeint.scale_sum x (dmul dt (ddiv (lit 1) (lit 2))) k1).
assert (L2x : length x2 = Cavity.system_dimension c)
  by (unfold x2; rewrite length_scale_sum; lia).
rewrite M_bind_unfold, result_bind_unfold, (call_stage h c x x2) by done.
destruct (vector_field h _ _ x2 _) as [k2|e] eqn:E2; [|eauto].
pose proof (vector_field_length _ _ _ _ _ _ E2) as L2.
(* stage 3 *)
set (x3 := odeint.scale_sum x (dmul dt (ddiv (lit 1) (lit 2))) k2).
assert (L3x : length x3 = Cavity.system_dimension c)
  by (unfold x3; rewrite length_scale_sum; lia).
rewrite M_bind_unfold, result_bind_unfold, (call_stage h c x2 x3) by done.
destruct (vector_field h _ _ x3 _) as [k3|e] eqn:E3; [|eauto].
pose proof (vector_field_length _ _ _ _ _ _ E3) as L3.
(* stage 4 *)
set (x4 := odeint.scale_sum x (dmul dt (lit 1)) k3).
assert (L4x : length x4 = Cavity.system_dimension c)
  by (unfold x4; rewrite length_scale_sum; lia).
rewrite M_bind_unfold, result_bind_unfold, (call_stage h c x3 x4) by done.
destruct (vector_field h _ _ x4 _) as [k4|e] eqn:E4; [|eauto].
pose proof (vector_field_length _ _ _ _ _ _ E4) as L4.
cbn [mret M_ret result_ret]. split.
- rewrite !length_scale_sum. lia.
- eexists _, x4. split; [exact L4x|reflexivity].
Qed.

Lemma do_step_spec h c dt :
  pointers_valid h (Cavity.polaritons c) (Cavity.phonons c) ->
  Cavity.system_dimension c = length (layout h (Cavity.polaritons c) (Cavity.phonons c)) ->
  length (Cavity.current_state c) = Cavity.system_dimension c ->
  match rk4_step (vector_field h (Cavity.polaritons c) (Cavity.phonons c))
                 (Cavity.current_state c) (Cavity.current_time c) dt with
  | Val x' =>
      length x' = Cavity.system_dimension c /\
      exists c',
        Cavity.do_step dt (Cavity.mk_state h c)
        = Ok tt (Cavity.mk_state (unpacked h (Cavity.polaritons c) (Cavity.phonons c) x') c')
        /\ Cavity.current_state c' = x'
        /\ Cavity.polaritons c' = Cavity.polaritons c
        /\ Cavity.phonons c' = Cavity.phonons c
        /\ Cavity.system_dimension c' = Cavity.system_dimension c
  | Exn e => exists s', Cavity.do_step dt (Cavity.mk_state h c) = Throw e s'
  end.
Proof.
  intros Hv Hdim Hx.
  pose proof (rk4_call h c (Cavity.rk4_stepper c) (Cavity.current_state c)
                (Cavity.current_time c) dt Hv Hdim Hx) as R.
  unfold Cavity.do_step. rewrite M_bind_unfold. cbn [gets Cavity.this].
  rewrite M_bind_unfold.
  destruct (rk4_step _ _ _ dt) as [x'|e].
  2:{ destruct R as [s' ->]. eauto. }
  destruct R as (Lx' & st' & y & Ly & ->). split; [exact Lx'|].
  eexists. split.
  2:{ split; [|split; [|split]]; shelve. }
  rewrite M_bind_unfold. cbn [modify].
  unfold Cavity.with_this. cbn [Cavity.heap Cavity.this snd fst].
  rewrite M_bind_unfold. cbn [gets Cavity.this].
  set (c1 := Cavity.set_current_state x' _).
  rewrite M_bind_unfold.
  rewrite (unpack_state_spec x' _ c1).
  - cbn [modify Cavity.heap Cavity.this].
    change (Cavity.polaritons c1) with (Cavity.polaritons c).
    change (Cavity.phonons c1) with (Cavity.phonons c).
    rewrite unpacked_idem by lia. reflexivity.
  - change (Cavity.polaritons c1) with (Cavity.polaritons c).
    change (Cavity.phonons c1) with (Cavity.phonons c).
    by apply pointers_valid_foldl_write.
  - change (Cavity.polaritons c1) with (Cavity.polaritons c).
    change (Cavity.phonons c1) with (Cavity.phonons c).
    rewrite layout_unpacked. lia.
  Unshelve. all: reflexivity.
Qed.

(** X8.  On an assembled cavity, [do_step(dt)] is the classical
    Runge-Kutta step of the vector field, the function of [(x, t)] that
    [operator()] computes from the entities' parameters: when the four
    stage evaluations return, the call returns, the state vector holds
    [x + dt/6 (k1 + 2 k2 + 2 k3 + k4)], the entities hold that state as
    [unpack_state] stores it, and the cavity is assembled again; when a
    stage fails, the call throws that exception. *)
Theorem X8_do_step_is_rk4 (s : Cavity.state double) (dt : double) :
  assembled s ->
  let c := Cavity.this s in
  match rk4_step (vector_field (Cavity.heap s) (Cavity.polaritons c) (Cavity.phonons c))
                 (Cavity.get_state c) (Cavity.get_time c) dt with
  | Val x' =>
      exists s' s0,
        Cavity.do_step dt s = Ok tt s' /\
        Cavity.get_state (Cavity.this s') = x' /\
        Cavity.unpack_state x' s = Ok tt s0 /\
        Cavity.heap s' = Cavity.heap s0 /\
        assembled s'
  | Exn e => exists s', Cavity.do_step dt s = Throw e s'
  end.
Proof.
  destruct s as [h c]. intros (Hv & Hdim & Hlen). cbn [Cavity.heap Cavity.this] in *.
  cbn zeta. unfold Cavity.get_state, Cavity.get_time.
  pose proof (do_step_spec h c dt Hv Hdim Hlen) as D.
  destruct (rk4_step _ _ _ dt) as [x'|e]; [|exact D].
  destruct D as (Lx' & c' & E & Hcs & Hps & Hphs & Hd).
  pose proof (unpack_state_spec x' h c Hv ltac:(lia)) as E0.
  eexists _, _. split; [exact E|]. split; [exact Hcs|]. split; [exact E0|].
  split; [reflexivity|].
  split; [|split]; cbn [Cavity.heap Cavity.this].
  - rewrite Hps, Hphs. by apply pointers_valid_foldl_write.
  - rewrite Hps, Hphs, layout_unpacked. congruence.
  - rewrite Hcs. congruence.
Qed.

Lemma rk4_step_total (f : vec double -> double -> result (vec double)) x t dt :
  (forall y u, exists v, f y u = Val v) -> exists x', rk4_step f x t dt = Val x'.
Proof.
  intros Hf. unfold rk4_step.
  destruct (Hf x t) as [k1 ->]. rewrite result_bind_unfold.
  edestruct Hf as [k2 ->]. rewrite result_bind_unfold.
  edestruct Hf as [k3 ->]. rewrite result_bind_unfold.
  edestruct Hf as [k4 ->]. by eexists.
Qed.

(** X9.  A fixed step on an assembled, wired system returns and leaves
    an assembled, wired system over the same entities: stepping can be
    repeated without ever failing. *)
Theorem X9_do_step_returns (s : Cavity.state double) (dt : double) :
  assembled s ->
  wired (Cavity.heap s) (Cavity.polaritons (Cavity.this s)) (Cavity.phonons (Cavity.this s)) ->
  exists s',
    Cavity.do_step dt s = Ok tt s' /\
    assembled s' /\
    Cavity.polaritons (Cavity.this s') = Cavity.polaritons (Cavity.this s) /\
    Cavity.phonons (Cavity.this s') = Cavity.phonons (Cavity.this s) /\
    Cavity.system_dimension (Cavity.this s') = Cavity.system_dimension (Cavity.this s) /\
    wired (Cavity.heap s') (Cavity.polaritons (Cavity.this s'))
          (Cavity.phonons (Cavity.this s')).
Proof.
  destruct s as [h c]. intros (Hv & Hdim & Hlen) Hw. cbn [Cavity.heap Cavity.this] in *.
  pose proof (do_step_spec h c dt Hv Hdim Hlen) as D.
  destruct (rk4_step_total (vector_field h (Cavity.polaritons c) (Cavity.phonons c))
              (Cavity.current_state c) (Cavity.current_time c) dt) as [x' Ex'].
  { intros y u. by apply vector_field_total. }
  rewrite Ex' in D. destruct D as (Lx' & c' & E & Hcs & Hps & Hphs & Hd).
  eexists. split; [exact E|]. cbn [Cavity.heap Cavity.this].
  split; [|split; [exact Hps|split; [exact Hphs|split; [exact Hd|]]]].
  - split; [|split]; cbn [Cavity.heap Cavity.this].
    + rewrite Hps, Hphs. by apply pointers_valid_foldl_write.
    + rewrite Hps, Hphs, layout_unpacked. congruence.
    + rewrite Hcs. congruence.
  - rewrite Hps, Hphs. by apply wired_foldl_write.
Qed.
End fixed_step.

(** ** Triples *)

Section triples.
Context {S : Type}.
Implicit Types (P E : S -> Prop).

Lemma triple_bind {A B} P (m : M S A) (Q : A -> S -> Prop) (f : A -> M S B)
    (R : B -> S -> Prop) E :
  triple P m Q E -> (forall a, triple (Q a) (f a) R E) -> triple P (m ≫= f) R E.
Proof.
  intros Hm Hf s Hs. rewrite M_bind_unfold. specialize (Hm s Hs).
  destruct (m s) as [a s'|e s']; [|exact Hm]. apply Hf, Hm.
Qed.

Lemma triple_conseq {A} P P' (m : M S A) (Q Q' : A -> S -> Prop) E E' :
  triple P' m Q' E' ->
  (forall s, P s -> P' s) -> (forall a s, Q' a s -> Q a s) -> (forall s, E' s -> E s) ->
  triple P m Q E.
Proof.
  intros Hm HP HQ HE s Hs. specialize (Hm s (HP s Hs)).
  destruct (m s); auto.
Qed.

Lemma triple_ret {A} P (a : A) E : triple P (mret a) (fun b s => P s /\ b = a) E.
Proof. intros s Hs. by split. Qed.

Lemma triple_throw {A} P (e : exn) (Q : A -> S -> Prop) : triple P (throw e) Q P.
Proof. intros s Hs. exact Hs. Qed.

Lemma triple_gets {A} P (f : S -> A) E : triple P (gets f) (fun a s => P s /\ a = f s) E.
Proof. intros s Hs. by split. Qed.

Lemma triple_get P E : triple P get (fun a s => P s /\ a = s) E.
Proof. intros s Hs. by split. Qed.

Lemma triple_modify P (f : S -> S) (Q : S -> Prop) E :
  (forall s, P s -> Q (f s)) -> triple P (modify f) (fun _ => Q) E.
Proof. intros Hf s Hs. apply Hf, Hs. Qed.

Lemma triple_preserves {A} P (m : M S A) :
  triple P m (fun _ => P) P <-> preserves P m.
Proof. reflexivity. Qed.

Lemma triple_for_each {A B} P (body : B -> A -> M S B) (l : list A) (acc : B) :
  (forall b a, a ∈ l -> triple P (body b a) (fun _ => P) P) ->
  triple P (for_each body l acc) (fun _ => P) P.
Proof. intros Hb. apply (preserves_for_each P body l acc). exact Hb. Qed.
End triples.

(** ** Wired heaps under allocation and method calls *)

Section wired_heaps.
Context {double : Type} `{!DoubleOps double}.
Implicit Types (h : Heap double).

Lemma polariton_wired_dom h h' o :
  (forall a, is_Some (polariton_objects h !! a) -> is_Some (polariton_objects h' !! a)) ->
  (forall a, is_Some (phonon_objects h !! a) -> is_Some (phonon_objects h' !! a)) ->
  polariton_wired h o -> polariton_wired h' o.
Proof.
  intros Hp Hph (Hc & Hn & Hm & Hr). split; [exact Hc|]. split; [|split].
  - eapply Forall_impl; [exact Hn|]. intros a. apply Hp.
  - eapply Forall_impl; [exact Hm|]. intros a. apply Hph.
  - destruct (PolaritonMode.reservoir_owned o); [by apply Hp|done].
Qed.

Lemma phonon_wired_dom h h' o :
  (forall a, is_Some (polariton_objects h !! a) -> is_Some (polariton_objects h' !! a)) ->
  phonon_wired h o -> phonon_wired h' o.
Proof.
  intros Hp (Hc & Hn). split; [exact Hc|].
  eapply Forall_impl; [exact Hn|]. intros a [? ?]. split; by apply Hp.
Qed.

(** Replacing the object at [p] by a wired one, or, when [p] is not
    listed, by any object. *)
Lemma wired_update_polariton h ps phs p o o' :
  wired h ps phs -> polariton_objects h !! p = Some o ->
  (p ∈ ps -> polariton_wired h o') ->
  wired (mkHeap (<[p := o']> (polariton_objects h)) (phonon_objects h)) ps phs.
Proof.
  intros [Hps Hphs] Ho Ho'.
  set (h' := mkHeap _ _).
  assert (Hd : forall a, is_Some (polariton_objects h !! a)
                         -> is_Some (polariton_objects h' !! a)).
  { intros a Ha. unfold h'. simpl. rewrite lookup_insert_is_Some.
    destruct (decide (p = a)); eauto. }
  split.
  - apply Forall_forall. intros q Hq.
    destruct (proj1 (Forall_forall _ _) Hps q Hq) as (oq & Hoq & Hw).
    unfold h' at 1. simpl. destruct (decide (p = q)) as [->|Hne].
    + rewrite lookup_insert_eq. eexists. split; [reflexivity|].
      eapply (polariton_wired_dom h); [exact Hd|done|by apply Ho'].
    + rewrite lookup_insert_ne by done. eexists. split; [exact Hoq|].
      eapply (polariton_wired_dom h); [exact Hd|done|exact Hw].
  - eapply Forall_impl; [exact Hphs|]. intros q (oq & Hoq & Hw).
    exists oq. split; [exact Hoq|]. by eapply (phonon_wired_dom h).
Qed.

Lemma wired_update_phonon h ps phs p o o' :
  wired h ps phs -> phonon_objects h !! p = Some o ->
  (p ∈ phs -> phonon_wired h o') ->
  wired (mkHeap (polariton_objects h) (<[p := o']> (phonon_objects h))) ps phs.
Proof.
  intros [Hps Hphs] Ho Ho'.
  set (h' := mkHeap _ _).
  assert (Hd : forall a, is_Some (phonon_objects h !! a)
                         -> is_Some (phonon_objects h' !! a)).
  { intros a Ha. unfold h'. simpl. rewrite lookup_insert_is_Some.
    destruct (decide (p = a)); eauto. }
  split.
  - eapply Forall_impl; [exact Hps|]. intros q (oq & Hoq & Hw).
    exists oq. split; [exact Hoq|]. by eapply (polariton_wired_dom h).
  - apply Forall_forall. intros q Hq.
    destruct (proj1 (Forall_forall _ _) Hphs q Hq) as (oq & Hoq & Hw).
    unfold h' at 1. simpl. destruct (decide (p = q)) as [->|Hne].
    + rewrite lookup_insert_eq. eexists. split; [reflexivity|].
      eapply (phonon_wired_dom h); [done|by apply Ho'].
    + rewrite lookup_insert_ne by done. eexists. split; [exact Hoq|].
      eapply (phonon_wired_dom h); [done|exact Hw].
Qed.

(** Allocation at an unused address. *)
Lemma wired_alloc_polariton h ps phs a o :
  wired h ps phs -> polariton_objects h !! a = None ->
  wired (mkHeap (<[a := o]> (polariton_objects h)) (phonon_objects h)) ps phs.
Proof.
  intros [Hps Hphs] Ha.
  set (h' := mkHeap _ _).
  assert (Hd : forall q, is_Some (polariton_objects h !! q)
                         -> is_Some (polariton_objects h' !! q)).
  { intros q Hq. unfold h'. simpl. rewrite lookup_insert_is_Some.
    destruct (decide (a = q)); eauto. }
  split.
  - eapply Forall_impl; [exact Hps|]. intros q (oq & Hoq & Hw).
    exists oq. split; [|by eapply (polariton_wired_dom h)].
    unfold h'. simpl. rewrite lookup_insert_ne; [done|]. congruence.
  - eapply Forall_impl; [exact Hphs|]. intros q (oq & Hoq & Hw).
    exists oq. split; [exact Hoq|]. by eapply (phonon_wired_dom h).
Qed.

Lemma wired_alloc_phonon h ps phs a o :
  wired h ps phs -> phonon_objects h !! a = None ->
  wired (mkHeap (polariton_objects h) (<[a := o]> (phonon_objects h))) ps phs.
Proof.
  intros [Hps Hphs] Ha.
  set (h' := mkHeap _ _).
  assert (Hd : forall q, is_Some (phonon_objects h !! q)
                         -> is_Some (phonon_objects h' !! q)).
  { intros q Hq. unfold h'. simpl. rewrite lookup_insert_is_Some.
    destruct (decide (a = q)); eauto. }
  split.
  - eapply Forall_impl; [exact Hps|]. intros q (oq & Hoq & Hw).
    exists oq. split; [exact Hoq|]. by eapply (polariton_wired_dom h).
  - eapply Forall_impl; [exact Hphs|]. intros q (oq & Hoq & Hw).
    exists oq. split; [|by eapply (phonon_wired_dom h)].
    unfold h'. simpl. rewrite lookup_insert_ne; [done|]. congruence.
Qed.

Lemma wired_polariton h ps phs p :
  wired h ps phs -> p ∈ ps ->
  exists o, polariton_objects h !! p = Some o /\ polariton_wired h o.
Proof. intros [Hps _] Hp. exact (proj1 (Forall_forall _ _) Hps p Hp). Qed.

Lemma wired_phonon h ps phs p :
  wired h ps phs -> p ∈ phs ->
  exists o, phonon_objects h !! p = Some o /\ phonon_wired h o.
Proof. intros [_ Hphs] Hp. exact (proj1 (Forall_forall _ _) Hphs p Hp). Qed.

Lemma wired_pointers_valid h ps phs : wired h ps phs -> pointers_valid h ps phs.
Proof.
  intros [Hps Hphs]. split.
  - eapply Forall_impl; [exact Hps|]. intros q (o & -> & _). eauto.
  - eapply Forall_impl; [exact Hphs|]. intros q (o & -> & _). eauto.
Qed.
End wired_heaps.

(** ** The loader keeps the system wired *)

Section loader_triples.
Context {double : Type} `{!DoubleOps double} `{!StdLib double}.
Implicit Types (st : CavityConfig.state double).
Implicit Types (P Q E : CavityConfig.state double -> Prop).

Abbreviation pol st := (Cavity.polaritons (Cavity.this (CavityConfig.cavity st))).
Abbreviation phn st := (Cavity.phonons (Cavity.this (CavityConfig.cavity st))).
Abbreviation heap_of st := (Cavity.heap (CavityConfig.cavity st)).

Lemma triple_get_double P section key v :
  parser_free P -> triple P (CavityConfig.get_double section key v) (fun _ => P) P.
Proof.
  intros HP st Hst. unfold CavityConfig.get_double, CavityConfig.on_parser.
  destruct (ConfigParser.get_double _ _ _ _); by apply HP.
Qed.

Lemma triple_polariton_ptr P E id :
  (forall st, P st -> E st) ->
  triple P (CavityConfig.polariton_ptr id)
         (fun a st => P st /\ pol st !! id = Some a) E.
Proof.
  intros HE st Hst. unfold CavityConfig.polariton_ptr, CavityConfig.on_cavity.
  rewrite M_bind_unfold. cbn [gets]. unfold eval, vector_at.
  destruct (_ !! id) eqn:Eid; destruct st; simpl in *; auto.
Qed.

Lemma triple_phonon_ptr P E id :
  (forall st, P st -> E st) ->
  triple P (CavityConfig.phonon_ptr id)
         (fun a st => P st /\ phn st !! id = Some a) E.
Proof.
  intros HE st Hst. unfold CavityConfig.phonon_ptr, CavityConfig.on_cavity.
  rewrite M_bind_unfold. cbn [gets]. unfold eval, vector_at.
  destruct (_ !! id) eqn:Eid; destruct st; simpl in *; auto.
Qed.

Lemma triple_resolve P E (map : CavityConfig.state double -> gmap string nat) what name :
  (forall st, P st -> E st) ->
  triple P (CavityConfig.resolve map what name)
         (fun id st => P st /\ map st !! name = Some id) E.
Proof.
  intros HE st Hst. unfold CavityConfig.resolve. rewrite M_bind_unfold. cbn [get].
  destruct (map st !! name) eqn:Em; simpl; auto.
Qed.

Lemma triple_on_cavity_modify P Q E (f : Cavity.state double -> Cavity.state double) :
  (forall st, P st ->
     Q (CavityConfig.mk_state (CavityConfig.this st) (f (CavityConfig.cavity st))
                              (CavityConfig.parser st))) ->
  triple P (CavityConfig.on_cavity (modify f)) (fun _ => Q) E.
Proof. intros Hf st Hst. apply Hf, Hst. Qed.

Lemma triple_call_polariton P Q (p : nat) f :
  (forall st o, P st -> polariton_objects (heap_of st) !! p = Some o ->
     Q (CavityConfig.mk_state (CavityConfig.this st)
          (Cavity.mk_state
             (mkHeap (<[p := f o]> (polariton_objects (heap_of st)))
                     (phonon_objects (heap_of st)))
             (Cavity.this (CavityConfig.cavity st)))
          (CavityConfig.parser st))) ->
  triple P (CavityConfig.on_cavity (Cavity.call_polariton p f)) (fun _ => Q) P.
Proof.
  intros Hf st Hst. unfold CavityConfig.on_cavity, Cavity.call_polariton,
    update_polariton, polariton_at.
  destruct (polariton_objects _ !! p) as [o|] eqn:Ho; simpl.
  - by apply Hf.
  - by destruct st as [? [] ?].
Qed.

Lemma triple_call_phonon P Q (p : nat) f :
  (forall st o, P st -> phonon_objects (heap_of st) !! p = Some o ->
     Q (CavityConfig.mk_state (CavityConfig.this st)
          (Cavity.mk_state
             (mkHeap (polariton_objects (heap_of st))
                     (<[p := f o]> (phonon_objects (heap_of st))))
             (Cavity.this (CavityConfig.cavity st)))
          (CavityConfig.parser st))) ->
  triple P (CavityConfig.on_cavity (Cavity.call_phonon p f)) (fun _ => Q) P.
Proof.
  intros Hf st Hst. unfold CavityConfig.on_cavity, Cavity.call_phonon,
    update_phonon, phonon_at.
  destruct (phonon_objects _ !! p) as [o|] eqn:Ho; simpl.
  - by apply Hf.
  - by destruct st as [? [] ?].
Qed.

Section at_dimension.
Variables (d : nat) (cs : vec double).
Let K := loader_inv_at d cs.

Lemma K_parser_free : parser_free K.
Proof. intros st p HK. exact HK. Qed.

Lemma K_and_parser_free (R : CavityConfig.t -> Cavity.state double -> Prop) :
  parser_free (fun st => K st /\ R (CavityConfig.this st) (CavityConfig.cavity st)).
Proof. intros st p HK. exact HK. Qed.

Lemma triple_new_polariton id o :
  triple (fun st => K st /\ id = length (pol st))
         (CavityConfig.new_polariton o)
         (fun a st => K st /\ id = length (pol st) /\ (a ∉ pol st)
                      /\ polariton_objects (heap_of st) !! a = Some o)
         K.
Proof.
  intros st [((Hnd1 & Hnd2 & Hw & Hm1 & Hm2) & Hd & Hcs) Hid].
  unfold CavityConfig.new_polariton. cbn zeta.
  set (a := fresh (dom (polariton_objects (heap_of st)))).
  assert (Ha : polariton_objects (heap_of st) !! a = None).
  { apply not_elem_of_dom. apply is_fresh. }
  split; [|split; [exact Hid|split]].
  - split; [|by split]. split; [exact Hnd1|]. split; [exact Hnd2|].
    split; [|by split]. by apply wired_alloc_polariton.
  - intros Hin. destruct (wired_polariton _ _ _ _ Hw Hin) as (o' & Ho' & _).
    simpl in Ho'. congruence.
  - simpl. apply lookup_insert_eq.
Qed.

Lemma triple_new_phonon id o :
  triple (fun st => K st /\ id = length (phn st))
         (CavityConfig.new_phonon o)
         (fun a st => K st /\ id = length (phn st) /\ (a ∉ phn st)
                      /\ phonon_objects (heap_of st) !! a = Some o)
         K.
Proof.
  intros st [((Hnd1 & Hnd2 & Hw & Hm1 & Hm2) & Hd & Hcs) Hid].
  unfold CavityConfig.new_phonon. cbn zeta.
  set (a := fresh (dom (phonon_objects (heap_of st)))).
  assert (Ha : phonon_objects (heap_of st) !! a = None).
  { apply not_elem_of_dom. apply is_fresh. }
  split; [|split; [exact Hid|split]].
  - split; [|by split]. split; [exact Hnd1|]. split; [exact Hnd2|].
    split; [|by split]. by apply wired_alloc_phonon.
  - intros Hin. destruct (wired_phonon _ _ _ _ Hw Hin) as (o' & Ho' & _).
    simpl in Ho'. congruence.
  - simpl. apply lookup_insert_eq.
Qed.

(** Method calls that keep an oscillator wired. *)
Lemma set_value_wired h (o : PolaritonMode.t double) v :
  polariton_wired h o -> polariton_wired h (PolaritonMode.set_value v o).
Proof. intros H. exact H. Qed.

Lemma add_reservoir_wired h (o : PolaritonMode.t double) p
    (coupling tau power alpha n0 : double) :
  polariton_wired h o -> is_Some (polariton_objects h !! p) ->
  polariton_wired h (PolaritonMode.add_reservoir p coupling tau power alpha n0 o).
Proof.
  intros (Hc & Hn & Hm & _) Hp.
  split; [exact Hc|split; [exact Hn|split; [exact Hm|exact Hp]]].
Qed.

Lemma connect_wired h (o : PolaritonMode.t double) p ph J g delta above :
  polariton_wired h o ->
  is_Some (polariton_objects h !! p) -> is_Some (phonon_objects h !! ph) ->
  polariton_wired h (PolaritonMode.connect p ph J g delta above o).
Proof.
  intros ((L1 & L2 & L3 & L4 & L5 & L6) & Hn & Hm & Hr) Hp Hph.
  split; [|split; [|split]]; simpl.
  - unfold polariton_consistent. simpl. rewrite !length_app. simpl. lia.
  - apply Forall_app. split; [exact Hn|]. by constructor.
  - apply Forall_app. split; [exact Hm|]. by constructor.
  - exact Hr.
Qed.

Lemma new_polariton_wired h gamma U :
  polariton_wired h (PolaritonMode.new gamma U).
Proof. by repeat split. Qed.

Lemma new_phonon_wired h Omega Gamma :
  phonon_wired h (PhononMode.new Omega Gamma).
Proof. by repeat split. Qed.

Lemma add_pairing_wired h (o : PhononMode.t double) p1 p2 delta g :
  phonon_wired h o ->
  is_Some (polariton_objects h !! p1) -> is_Some (polariton_objects h !! p2) ->
  phonon_wired h (PhononMode.add_pairing (p1, p2) delta g o).
Proof.
  intros ((L1 & L2 & L3) & Hn) H1 H2. split; simpl.
  - unfold phonon_consistent. simpl. rewrite !length_app. simpl. lia.
  - apply Forall_app. split; [exact Hn|]. by constructor.
Qed.

(** A method call on a listed oscillator that keeps it wired keeps the
    invariant. *)
Lemma K_call_polariton (R : CavityConfig.t -> Cavity.state double -> Prop) p f :
  (forall h o, polariton_objects h !! p = Some o -> polariton_wired h o ->
               forall this' cav, R this' cav -> Cavity.heap cav = h ->
               polariton_wired h (f o)) ->
  triple (fun st => K st /\ R (CavityConfig.this st) (CavityConfig.cavity st))
         (CavityConfig.on_cavity (Cavity.call_polariton p f))
         (fun _ => K) K.
Proof.
  intros Hf. eapply triple_conseq;
    [apply (triple_call_polariton
              (fun st => K st /\ R (CavityConfig.this st) (CavityConfig.cavity st)) K)
    | | |].
  - intros st o [((Hnd1 & Hnd2 & Hw & Hm1 & Hm2) & Hd & Hcs) HR] Ho.
    split; [|by split]. split; [exact Hnd1|]. split; [exact Hnd2|].
    split; [|by split]. cbn [Cavity.heap Cavity.this CavityConfig.cavity].
    eapply wired_update_polariton; [exact Hw|exact Ho|].
    intros Hin. destruct (wired_polariton _ _ _ _ Hw Hin) as (o' & Ho' & Hwo).
    assert (o' = o) as -> by congruence.
    eapply Hf; [exact Ho|exact Hwo|exact HR|reflexivity].
  - done.
  - done.
  - by intros st [HK _].
Qed.

Lemma K_call_phonon (R : CavityConfig.t -> Cavity.state double -> Prop) p f :
  (forall h o, phonon_objects h !! p = Some o -> phonon_wired h o ->
               forall this' cav, R this' cav -> Cavity.heap cav = h ->
               phonon_wired h (f o)) ->
  triple (fun st => K st /\ R (CavityConfig.this st) (CavityConfig.cavity st))
         (CavityConfig.on_cavity (Cavity.call_phonon p f))
         (fun _ => K) K.
Proof.
  intros Hf. eapply triple_conseq;
    [apply (triple_call_phonon
              (fun st => K st /\ R (CavityConfig.this st) (CavityConfig.cavity st)) K)
    | | |].
  - intros st o [((Hnd1 & Hnd2 & Hw & Hm1 & Hm2) & Hd & Hcs) HR] Ho.
    split; [|by split]. split; [exact Hnd1|]. split; [exact Hnd2|].
    split; [|by split]. cbn [Cavity.heap Cavity.this CavityConfig.cavity].
    eapply wired_update_phonon; [exact Hw|exact Ho|].
    intros Hin. destruct (wired_phonon _ _ _ _ Hw Hin) as (o' & Ho' & Hwo).
    assert (o' = o) as -> by congruence.
    eapply Hf; [exact Ho|exact Hwo|exact HR|reflexivity].
  - done.
  - done.
  - by intros st [HK _].
Qed.

Lemma K_weaken {A} (m : M (CavityConfig.state double) A)
    (R : CavityConfig.t -> Cavity.state double -> Prop) :
  triple (fun st => K st /\ True) m (fun _ => K) K ->
  triple K m (fun _ => K) K.
Proof. intros H st Hst. by apply (H st). Qed.

Lemma create_polariton_K u section :
  triple K (CavityConfig.create_polariton u section) (fun _ => K) K.
Proof.
  unfold CavityConfig.create_polariton.
  eapply triple_bind; [apply triple_get_double, K_parser_free|intros gamma].
  eapply triple_bind; [apply triple_get_double, K_parser_free|intros U].
  eapply triple_bind; [apply triple_gets|intros id].
  eapply triple_bind; [apply (triple_new_polariton id)|intros a].
  eapply triple_bind.
  { apply triple_on_cavity_modify with
      (Q := fun st => K st /\ pol st !! id = Some a).
    intros st (((Hnd1 & Hnd2 & Hw & Hm1 & Hm2) & Hd & Hcs) & Hid & Ha & Ho).
    unfold Cavity.with_this. simpl. split.
    - split; [|by split]. unfold loader_inv. simpl.
      split; [|split; [exact Hnd2|split; [|split]]].
      + apply NoDup_app. split; [exact Hnd1|]. split; [|apply NoDup_singleton].
        intros q Hq Hq'. apply list_elem_of_singleton in Hq' as ->. done.
      + destruct Hw as [Hps Hphs]. split; [|exact Hphs].
        apply Forall_app. split; [exact Hps|]. constructor; [|constructor].
        eexists. split; [exact Ho|]. apply new_polariton_wired.
      + intros name i Hi. rewrite length_app. specialize (Hm1 _ _ Hi). simpl. lia.
      + exact Hm2.
    - rewrite Hid. rewrite lookup_app_r by lia. by rewrite Nat.sub_diag. }
  intros ?. eapply triple_bind.
  { apply triple_modify with (Q := K).
    intros st (((Hnd1 & Hnd2 & Hw & Hm1 & Hm2) & Hd & Hcs) & Ha).
    split; [|by split]. split; [exact Hnd1|]. split; [exact Hnd2|].
    split; [exact Hw|]. split; [|exact Hm2].
    intros name i. simpl. rewrite lookup_insert. case_decide.
    - intros [= <-]. by eapply lookup_lt_Some.
    - apply Hm1. }
  intros ?.
  eapply triple_bind; [apply triple_get_double, K_parser_free|intros re].
  eapply triple_bind; [apply triple_get_double, K_parser_free|intros im].
  eapply triple_bind; [apply triple_polariton_ptr; tauto|intros p].
  apply (K_call_polariton (fun _ cav => Cavity.polaritons (Cavity.this cav) !! id = Some p)).
  intros h o Ho Hw _ _ _ _. exact Hw.
Qed.

Lemma create_phonon_K u section :
  triple K (CavityConfig.create_phonon u section) (fun _ => K) K.
Proof.
  unfold CavityConfig.create_phonon.
  eapply triple_bind; [apply triple_get_double, K_parser_free|intros omega].
  eapply triple_bind; [apply triple_get_double, K_parser_free|intros gamma].
  eapply triple_bind; [apply triple_gets|intros id].
  eapply triple_bind; [apply (triple_new_phonon id)|intros a].
  eapply triple_bind.
  { apply triple_on_cavity_modify with
      (Q := fun st => K st /\ phn st !! id = Some a).
    intros st (((Hnd1 & Hnd2 & Hw & Hm1 & Hm2) & Hd & Hcs) & Hid & Ha & Ho).
    unfold Cavity.with_this. simpl. split.
    - split; [|by split]. unfold loader_inv. simpl.
      split; [exact Hnd1|split; [|split; [|split]]].
      + apply NoDup_app. split; [exact Hnd2|]. split; [|apply NoDup_singleton].
        intros q Hq Hq'. apply list_elem_of_singleton in Hq' as ->. done.
      + destruct Hw as [Hps Hphs]. split; [exact Hps|].
        apply Forall_app. split; [exact Hphs|]. constructor; [|constructor].
        eexists. split; [exact Ho|]. apply new_phonon_wired.
      + exact Hm1.
      + intros name i Hi. rewrite length_app. specialize (Hm2 _ _ Hi). simpl. lia.
    - rewrite Hid. rewrite lookup_app_r by lia. by rewrite Nat.sub_diag. }
  intros ?. eapply triple_bind.
  { apply triple_modify with (Q := K).
    intros st (((Hnd1 & Hnd2 & Hw & Hm1 & Hm2) & Hd & Hcs) & Ha).
    split; [|by split]. split; [exact Hnd1|]. split; [exact Hnd2|].
    split; [exact Hw|]. split; [exact Hm1|].
    intros name i. simpl. rewrite lookup_insert. case_decide.
    - intros [= <-]. by eapply lookup_lt_Some.
    - apply Hm2. }
  intros ?.
  eapply triple_bind; [apply triple_get_double, K_parser_free|intros x].
  eapply triple_bind; [apply triple_get_double, K_parser_free|intros v].
  eapply triple_bind; [apply triple_phonon_ptr; tauto|intros p].
  eapply triple_bind.
  { apply (K_call_phonon (fun _ cav => Cavity.phonons (Cavity.this cav) !! id = Some p)).
    intros h o Ho Hw _ _ _ _. exact Hw. }
  intros ?.
  eapply triple_bind; [apply triple_phonon_ptr; tauto|intros p'].
  apply (K_call_phonon (fun _ cav => Cavity.phonons (Cavity.this cav) !! id = Some p')).
  intros h o Ho Hw _ _ _ _. exact Hw.
Qed.

Lemma K_pointer st id p : K st -> pol st !! id = Some p ->
  is_Some (polariton_objects (heap_of st) !! p).
Proof.
  intros ((_ & _ & Hw & _) & _) Hp.
  destruct (wired_polariton _ _ _ p Hw) as (o & -> & _); [|eauto].
  by eapply list_elem_of_lookup_2.
Qed.

Lemma K_phonon_pointer st id p : K st -> phn st !! id = Some p ->
  is_Some (phonon_objects (heap_of st) !! p).
Proof.
  intros ((_ & _ & Hw & _) & _) Hp.
  destruct (wired_phonon _ _ _ p Hw) as (o & -> & _); [|eauto].
  by eapply list_elem_of_lookup_2.
Qed.

Lemma create_reservoir_K u section :
  triple K (CavityConfig.create_reservoir u section) (fun _ => K) K.
Proof.
  unfold CavityConfig.create_reservoir, CavityConfig.get_string.
  eapply triple_bind; [apply triple_gets|intros target].
  eapply triple_bind.
  { eapply triple_conseq; [apply (triple_resolve K K); tauto| | |]; [tauto| |done].
    intros a st Hpost. exact (proj1 Hpost). }
  intros pol_id.
  eapply triple_bind; [apply triple_get_double, K_parser_free|intros coupling].
  eapply triple_bind; [apply triple_get_double, K_parser_free|intros tau].
  eapply triple_bind; [apply triple_get_double, K_parser_free|intros power].
  eapply triple_bind; [apply triple_get_double, K_parser_free|intros alpha_cfg].
  eapply triple_bind; [apply triple_get_double, K_parser_free|intros n0].
  eapply triple_bind; [apply triple_polariton_ptr; tauto|intros p].
  eapply triple_conseq;
    [apply (K_call_polariton
              (fun _ cav => is_Some (polariton_objects (Cavity.heap cav) !! p)))
    | |done|done].
  - intros h o Ho Hw _ cav Hp <-. by apply add_reservoir_wired.
  - intros st [HK Hp]. split; [exact HK|]. by eapply K_pointer.
Qed.

Lemma K_throw {A} (e : exn) :
  triple K (throw e : M (CavityConfig.state double) A) (fun _ => K) K.
Proof. intros st Hst. exact Hst. Qed.

Lemma create_coupling_K u section :
  triple K (CavityConfig.create_coupling u section) (fun _ => K) K.
Proof.
  unfold CavityConfig.create_coupling, CavityConfig.get_string.
  eapply triple_bind; [apply triple_gets|intros from].
  eapply triple_bind; [apply triple_gets|intros to].
  eapply triple_bind; [apply triple_gets|intros phonon].
  eapply triple_bind; [apply triple_get|intros s].
  apply (triple_conseq _ K _ _ (fun _ => K) _ K); [|tauto|done|done].
  case_bool_decide; [apply K_throw|].
  case_bool_decide; [apply K_throw|].
  case_bool_decide; [apply K_throw|].
  cbn zeta.
  eapply triple_bind; [apply triple_get_double, K_parser_free|intros J].
  eapply triple_bind; [apply triple_get_double, K_parser_free|intros g].
  eapply triple_bind; [apply triple_get_double, K_parser_free|intros delta].
  eapply triple_bind; [apply triple_gets|intros above].
  apply (triple_conseq _ K _ _ (fun _ => K) _ K); [|tauto|done|done].
  eapply triple_bind; [apply triple_polariton_ptr; tauto|intros p_from].
  eapply triple_bind; [apply triple_polariton_ptr; tauto|intros p_to].
  eapply triple_bind; [apply triple_phonon_ptr; tauto|intros ph].
  eapply triple_conseq;
    [apply (K_call_polariton
              (fun _ cav => is_Some (polariton_objects (Cavity.heap cav) !! p_to)
                            /\ is_Some (phonon_objects (Cavity.heap cav) !! ph)))
    | |done|done].
  - intros h o Ho Hw _ cav [Hp Hph] <-. by apply connect_wired.
  - intros st (((HK & _) & Hto) & Hph). split; [exact HK|]. split.
    + by eapply K_pointer.
    + by eapply K_phonon_pointer.
Qed.

Lemma create_pairing_K u section :
  triple K (CavityConfig.create_pairing u section) (fun _ => K) K.
Proof.
  unfold CavityConfig.create_pairing, CavityConfig.get_string.
  eapply triple_bind; [apply triple_gets|intros phonon].
  eapply triple_bind; [apply triple_gets|intros sites_str].
  eapply triple_bind; [apply triple_resolve; tauto|intros ph_id].
  apply (triple_conseq _ K _ _ (fun _ => K) _ K); [|tauto|done|done].
  case_bool_decide; [apply K_throw|].
  eapply (triple_bind K _ (fun _ => K)).
  { intros st Hst. unfold CavityConfig.on_cavity, eval.
    destruct (cstring.substr _ _ _); by destruct st as [? [] ?]. }
  intros site1. eapply (triple_bind K _ (fun _ => K)).
  { intros st Hst. unfold CavityConfig.on_cavity, eval.
    destruct (cstring.substr _ _ _); by destruct st as [? [] ?]. }
  intros site2. cbn zeta.
  eapply triple_bind; [apply (triple_resolve K K); tauto|intros p1_id].
  eapply triple_bind.
  { eapply triple_conseq; [apply (triple_resolve K K); tauto| | |]; [tauto| |done].
    intros a st Hpost. exact (proj1 Hpost). }
  intros p2_id.
  eapply triple_bind; [apply triple_get_double, K_parser_free|intros g].
  eapply triple_bind; [apply triple_get_double, K_parser_free|intros delta].
  eapply triple_bind; [apply triple_phonon_ptr; tauto|intros ph].
  eapply triple_bind; [apply triple_polariton_ptr; tauto|intros p1].
  eapply triple_bind; [apply triple_polariton_ptr; tauto|intros p2].
  eapply triple_conseq;
    [apply (K_call_phonon
              (fun _ cav => is_Some (polariton_objects (Cavity.heap cav) !! p1)
                            /\ is_Some (polariton_objects (Cavity.heap cav) !! p2)))
    | |done|done].
  - intros h o Ho Hw _ cav [H1 H2] <-. by apply add_pairing_wired.
  - intros st (((HK & _) & H1) & H2). split; [exact HK|]. split; by eapply K_pointer.
Qed.

Lemma seed_phase_K : triple K CavityConfig.seed_phase (fun _ => K) K.
Proof.
  unfold CavityConfig.seed_phase.
  eapply triple_bind; [apply triple_get|intros s].
  apply (triple_conseq _ K _ _ (fun _ => K) _ K); [|tauto|done|done].
  destruct (ConfigParser.has_section _ _).
  2:{ intros st Hst. exact Hst. }
  unfold CavityConfig.get_string.
  eapply triple_bind; [apply triple_gets|intros seed_str].
  apply (triple_conseq _ K _ _ (fun _ => K) _ K); [|tauto|done|done].
  destruct (_ && _).
  2:{ intros st Hst. exact Hst. }
  intros st Hst. unfold CavityConfig.on_parser.
  destruct (stoul seed_str); exact Hst.
Qed.

Lemma check_polaritons_id (c : Cavity.t double) ps : forall h,
  Forall (fun p => exists o, polariton_objects h !! p = Some o
                             /\ polariton_consistent o) ps ->
  for_each Cavity.check_polariton ps tt (Cavity.mk_state h c)
  = Ok tt (Cavity.mk_state h c).
Proof.
  induction ps as [|p ps IH]; intros h Hps; cbn [for_each]; [reflexivity|].
  apply Forall_cons in Hps as [(o & Ho & Hc) Hps].
  rewrite M_bind_unfold. unfold Cavity.check_polariton at 1, polariton_at.
  cbn [Cavity.heap Cavity.this]. rewrite Ho, (polariton_check_consistent o Hc).
  rewrite insert_id by done. destruct h. by apply IH.
Qed.

Lemma check_phonons_id (c : Cavity.t double) ps : forall h,
  Forall (fun p => exists o, phonon_objects h !! p = Some o
                             /\ phonon_consistent o) ps ->
  for_each Cavity.check_phonon ps tt (Cavity.mk_state h c)
  = Ok tt (Cavity.mk_state h c).
Proof.
  induction ps as [|p ps IH]; intros h Hps; cbn [for_each]; [reflexivity|].
  apply Forall_cons in Hps as [(o & Ho & Hc) Hps].
  rewrite M_bind_unfold. unfold Cavity.check_phonon at 1, phonon_at.
  cbn [Cavity.heap Cavity.this]. rewrite Ho, (phonon_check_consistent o Hc).
  rewrite insert_id by done. destruct h. by apply IH.
Qed.

(** On a wired system the assembly returns and leaves the entities
    untouched. *)
Lemma assemble_wired h (c : Cavity.t double) :
  wired h (Cavity.polaritons c) (Cavity.phonons c) ->
  exists c',
    Cavity.assemble (Cavity.mk_state h c) = Ok tt (Cavity.mk_state h c') /\
    Cavity.polaritons c' = Cavity.polaritons c /\
    Cavity.phonons c' = Cavity.phonons c /\
    assembled (Cavity.mk_state h c').
Proof.
  intros Hw. pose proof (wired_pointers_valid _ _ _ Hw) as Hv.
  assert (E : exists c', Cavity.assemble (Cavity.mk_state h c)
                         = Ok tt (Cavity.mk_state h c')).
  { unfold Cavity.assemble. rewrite M_bind_unfold. cbn [gets Cavity.this].
    rewrite M_bind_unfold. cbn [modify]. rewrite with_this_mk.
    set (c1 := Cavity.set_dopri5_stepper _ c).
    change (Cavity.polaritons c) with (Cavity.polaritons c1) in *.
    change (Cavity.phonons c) with (Cavity.phonons c1) in *.
    rewrite M_bind_unfold, check_polaritons_id.
    2:{ destruct Hw as [Hps _]. eapply Forall_impl; [exact Hps|].
        intros q (o & Ho & Hc & _). eauto. }
    rewrite M_bind_unfold, check_phonons_id.
    2:{ destruct Hw as [_ Hphs]. eapply Forall_impl; [exact Hphs|].
        intros q (o & Ho & Hc & _). eauto. }
    rewrite M_bind_unfold, count_reservoirs_spec by apply Hv.
    rewrite M_bind_unfold. cbn [modify]. rewrite with_this_mk.
    rewrite M_bind_unfold. cbn [modify]. rewrite with_this_mk.
    set (N := 2 * _ + 2 * _ + _).
    rewrite pack_state_spec; [eauto|exact Hv|].
    change (length (set_size N (Cavity.current_state c1))
            = length (layout h (Cavity.polaritons c1) (Cavity.phonons c1))).
    rewrite length_set_size, length_layout. reflexivity. }
  destruct E as [c' E]. exists c'. split; [exact E|].
  apply assemble_spec in E as (Ha & _ & Hps & Hphs & _).
  split; [exact Hps|split; [exact Hphs|exact Ha]].
Qed.

Lemma assemble_K :
  triple K (CavityConfig.on_cavity Cavity.assemble)
         (fun _ st => loader_inv st /\ assembled (CavityConfig.cavity st)) K.
Proof.
  intros st ((Hnd1 & Hnd2 & Hw & Hm1 & Hm2) & Hd & Hcs).
  unfold CavityConfig.on_cavity.
  destruct (CavityConfig.cavity st) as [h c] eqn:Ec. cbn [Cavity.heap Cavity.this] in *.
  destruct (assemble_wired h c Hw) as (c' & -> & Hps & Hphs & Ha).
  split; [|exact Ha]. unfold loader_inv. simpl. rewrite Hps, Hphs.
  split; [exact Hnd1|split; [exact Hnd2|split; [exact Hw|split; [exact Hm1|exact Hm2]]]].
Qed.

(** What [load_from_ini] leaves: a wired, assembled system when it
    returns; a wired system whose dimension and state vector have not
    been touched when it throws. *)
Lemma load_from_ini_K :
  triple K CavityConfig.load_from_ini
         (fun _ st => loader_inv st /\ assembled (CavityConfig.cavity st)) K.
Proof.
  unfold CavityConfig.load_from_ini, CavityConfig.create_entities,
    CavityConfig.get_sections_by_type.
  eapply (triple_bind K _ (fun _ => K)).
  { eapply triple_bind; [apply seed_phase_K|intros ?].
    eapply triple_bind; [apply triple_gets|intros l1].
    apply (triple_conseq _ K _ _ (fun _ => K) _ K); [|tauto|done|done].
    eapply triple_bind.
    { apply triple_for_each. intros. apply create_polariton_K. }
    intros ?. eapply triple_bind; [apply triple_gets|intros l2].
    apply (triple_conseq _ K _ _ (fun _ => K) _ K); [|tauto|done|done].
    eapply triple_bind.
    { apply triple_for_each. intros. apply create_phonon_K. }
    intros ?. eapply triple_bind; [apply triple_gets|intros l3].
    apply (triple_conseq _ K _ _ (fun _ => K) _ K); [|tauto|done|done].
    apply triple_for_each. intros. apply create_reservoir_K. }
  intros ?. eapply triple_bind; [apply triple_gets|intros l4].
  eapply (triple_conseq _ K); [|tauto|intros ? ? Hq; exact Hq|done].
  eapply triple_bind.
  { apply triple_for_each. intros. apply create_coupling_K. }
  intros ?. eapply triple_bind; [apply triple_gets|intros l5].
  eapply (triple_conseq _ K); [|tauto|intros ? ? Hq; exact Hq|done].
  eapply triple_bind.
  { apply triple_for_each. intros. apply create_pairing_K. }
  intros ?. unfold CavityConfig.initialize_cavity.
  eapply triple_bind; [apply triple_get_double, K_parser_free|intros t0].
  eapply triple_bind.
  { apply triple_on_cavity_modify with (Q := K).
    intros st ((Hnd1 & Hnd2 & Hw & Hm1 & Hm2) & Hd & Hcs).
    split; [|split; [exact Hd|exact Hcs]].
    split; [exact Hnd1|split; [exact Hnd2|split; [exact Hw|split; [exact Hm1|exact Hm2]]]]. }
  intros ?. apply assemble_K.
Qed.
End at_dimension.
End loader_triples.

(** ** What a configuration leaves behind *)

Section loaded.
Context {double : Type} `{!DoubleOps double} `{!StdLib double}.
Implicit Types (st : CavityConfig.state double).

Lemma load_from_ini_outcome st :
  loader_inv st ->
  match CavityConfig.load_from_ini st with
  | Ok _ st' => loader_inv st' /\ assembled (CavityConfig.cavity st')
  | Throw _ st' =>
      loader_inv st' /\
      Cavity.system_dimension (Cavity.this (CavityConfig.cavity st'))
        = Cavity.system_dimension (Cavity.this (CavityConfig.cavity st)) /\
      Cavity.current_state (Cavity.this (CavityConfig.cavity st'))
        = Cavity.current_state (Cavity.this (CavityConfig.cavity st))
  end.
Proof.
  intros Hst.
  pose proof (load_from_ini_K
    (Cavity.system_dimension (Cavity.this (CavityConfig.cavity st)))
    (Cavity.current_state (Cavity.this (CavityConfig.cavity st))) st) as T.
  specialize (T ltac:(by split)).
  destruct (CavityConfig.load_from_ini st); exact T.
Qed.

(** X10.  A configuration loaded into a cavity that satisfies the
    loader's invariant (an empty cavity does) leaves, when loading
    returns, an assembled cavity that lists no entity twice and is wired:
    every link and pairing leads to an object, every reservoir points
    back to an object. *)
Theorem X10_loaded_system_is_wired st st' :
  loader_inv st ->
  CavityConfig.load_from_ini st = Ok tt st' ->
  let s := CavityConfig.cavity st' in
  assembled s /\
  NoDup (Cavity.polaritons (Cavity.this s)) /\
  NoDup (Cavity.phonons (Cavity.this s)) /\
  wired (Cavity.heap s) (Cavity.polaritons (Cavity.this s)) (Cavity.phonons (Cavity.this s)).
Proof.
  intros Hst E. pose proof (load_from_ini_outcome st Hst) as O. rewrite E in O.
  destruct O as ((Hnd1 & Hnd2 & Hw & _) & Ha).
  split; [exact Ha|split; [exact Hnd1|split; [exact Hnd2|exact Hw]]].
Qed.

(** X11.  However loading fails (an unknown name in a reservoir,
    coupling or pairing section, a value that does not parse, a missing
    comma), the cavity has not been assembled: its dimension and its
    state vector are what they were before the call. *)
Theorem X11_failed_load_assembles_nothing st e st' :
  loader_inv st ->
  CavityConfig.load_from_ini st = Throw e st' ->
  Cavity.system_dimension (Cavity.this (CavityConfig.cavity st'))
    = Cavity.system_dimension (Cavity.this (CavityConfig.cavity st)) /\
  Cavity.get_state (Cavity.this (CavityConfig.cavity st'))
    = Cavity.get_state (Cavity.this (CavityConfig.cavity st)).
Proof.
  intros Hst E. pose proof (load_from_ini_outcome st Hst) as O. rewrite E in O.
  destruct O as (_ & Hd & Hcs). by split.
Qed.

(** X12.  After loading, returned or thrown, the identifier that
    [get_polariton_id] gives for a name is an index at which
    [Cavity::get_polariton] returns a pointer to an oscillator, and the
    same holds for [get_phonon_id] and [Cavity::get_phonon]. *)
Theorem X12_names_resolve_to_entities st :
  loader_inv st ->
  match CavityConfig.load_from_ini st with
  | Ok _ st' | Throw _ st' =>
      let s := CavityConfig.cavity st' in
      (forall name id,
         CavityConfig.get_polariton_id name (CavityConfig.this st') = Val id ->
         exists p o, Cavity.get_polariton id (Cavity.this s) = Val p /\
                     polariton_objects (Cavity.heap s) !! p = Some o) /\
      (forall name id,
         CavityConfig.get_phonon_id name (CavityConfig.this st') = Val id ->
         exists p o, Cavity.get_phonon id (Cavity.this s) = Val p /\
                     phonon_objects (Cavity.heap s) !! p = Some o)
  end.
Proof.
  intros Hst. pose proof (load_from_ini_outcome st Hst) as O.
  assert (G : forall st', loader_inv st' ->
    let s := CavityConfig.cavity st' in
    (forall name id,
       CavityConfig.get_polariton_id name (CavityConfig.this st') = Val id ->
       exists p o, Cavity.get_polariton id (Cavity.this s) = Val p /\
                   polariton_objects (Cavity.heap s) !! p = Some o) /\
    (forall name id,
       CavityConfig.get_phonon_id name (CavityConfig.this st') = Val id ->
       exists p o, Cavity.get_phonon id (Cavity.this s) = Val p /\
                   phonon_objects (Cavity.heap s) !! p = Some o)).
  { intros st' (_ & _ & Hw & Hm1 & Hm2). cbn zeta. split; intros name id.
    - unfold CavityConfig.get_polariton_id, Cavity.get_polariton.
      destruct (_ !! name) as [i|] eqn:Ei; [|discriminate]. intros [= ->].
      destruct (lookup_lt_is_Some_2 _ _ (Hm1 _ _ Ei)) as [p Hp]. rewrite Hp.
      destruct (wired_polariton _ _ _ p Hw) as (o & Ho & _);
        [by eapply list_elem_of_lookup_2|eauto].
    - unfold CavityConfig.get_phonon_id, Cavity.get_phonon.
      destruct (_ !! name) as [i|] eqn:Ei; [|discriminate]. intros [= ->].
      destruct (lookup_lt_is_Some_2 _ _ (Hm2 _ _ Ei)) as [p Hp]. rewrite Hp.
      destruct (wired_phonon _ _ _ p Hw) as (o & Ho & _);
        [by eapply list_elem_of_lookup_2|eauto]. }
  destruct (CavityConfig.load_from_ini st) as [? st'|? st']; apply G; tauto.
Qed.
End loaded.

(** ** The entities against the stand-alone right-hand side *)

Section two_site_structure.
Context {double : Type} `{!DoubleOps double}.
Implicit Types (params : test_cpp.Params double).

Lemma two_site_polariton_1 params phi1 phi2 x v n :
  polariton_objects (test_cpp.two_site params phi1 phi2 x v n) !! 1
  = Some (PolaritonMode.connect 2 1 (test_cpp.J params) (test_cpp.g params) (lit 0) true
            (PolaritonMode.add_reservoir 1 (test_cpp.xi params) (test_cpp.tau params)
               (test_cpp.P params) (test_cpp.alpha params) n
               (PolaritonMode.set_value phi1
                  (PolaritonMode.new (test_cpp.gamma1 params) (test_cpp.U1 params))))).
Proof. vm_compute. reflexivity. Qed.

Lemma two_site_polariton_2 params phi1 phi2 x v n :
  polariton_objects (test_cpp.two_site params phi1 phi2 x v n) !! 2
  = Some (PolaritonMode.connect 1 1 (test_cpp.J params) (test_cpp.g params) (lit 0) false
            (PolaritonMode.set_value phi2
               (PolaritonMode.new (test_cpp.gamma2 params) (test_cpp.U2 params)))).
Proof. vm_compute. reflexivity. Qed.

Lemma two_site_phonon_1 params phi1 phi2 x v n :
  phonon_objects (test_cpp.two_site params phi1 phi2 x v n) !! 1
  = Some (PhononMode.add_pairing (1, 2) (lit 0) (test_cpp.g params)
            (PhononMode.set_velocity v
               (PhononMode.set_position x
                  (PhononMode.new (test_cpp.Omega params) (test_cpp.Gamma params))))).
Proof. vm_compute. reflexivity. Qed.

Lemma two_site_layout params phi1 phi2 x v n :
  layout (test_cpp.two_site params phi1 phi2 x v n) [1; 2] [1]
  = [Re 1; Im 1; Re 2; Im 2; Position 1; Velocity 1; Reservoir 1].
Proof. vm_compute. reflexivity. Qed.

Lemma two_site_unpacked params phi1 phi2 x v n y0 y1 y2 y3 y4 y5 y6 :
  unpacked (test_cpp.two_site params phi1 phi2 x v n) [1; 2] [1]
           [y0; y1; y2; y3; y4; y5; y6]
  = test_cpp.two_site params (cx y0 y1) (cx y2 y3) y4 y5 y6.
Proof. destruct params, phi1, phi2. vm_compute. reflexivity. Qed.

Lemma two_site_wired params phi1 phi2 x v n :
  wired (test_cpp.two_site params phi1 phi2 x v n) [1; 2] [1].
Proof.
  pose proof (two_site_polariton_1 params phi1 phi2 x v n) as E1.
  pose proof (two_site_polariton_2 params phi1 phi2 x v n) as E2.
  pose proof (two_site_phonon_1 params phi1 phi2 x v n) as E3.
  split; repeat constructor.
  - eexists. split; [exact E1|].
    split; [by repeat split|]. cbn -[test_cpp.two_site lookup].
    split; [|split]; repeat constructor; eauto.
  - eexists. split; [exact E2|].
    split; [by repeat split|]. cbn -[test_cpp.two_site lookup].
    split; [|split]; repeat constructor; eauto.
  - eexists. split; [exact E3|].
    split; [by repeat split|]. cbn -[test_cpp.two_site lookup].
    repeat constructor; eauto.
Qed.

(** The constructor accepts the two sites and their mode, and leaves the
    entities as the driver built them. *)
Lemma two_site_new params phi1 phi2 x v n t0 :
  exists s, Cavity.new [1; 2] [1] t0 (test_cpp.two_site params phi1 phi2 x v n) = Ok tt s /\
    Cavity.heap s = test_cpp.two_site params phi1 phi2 x v n /\
    Cavity.polaritons (Cavity.this s) = [1; 2] /\
    Cavity.phonons (Cavity.this s) = [1] /\
    Cavity.system_dimension (Cavity.this s) = 7.
Proof.
  destruct params, phi1, phi2. eexists. split; [vm_compute; reflexivity|].
  repeat split.
Qed.
End two_site_structure.

Section two_site_rhs.
Context {double : Type} `{!DoubleOps double}.

(** The seven assignments of [rhs] overwrite the whole of [dydt]. *)
Lemma rhs_assignments (d : list double) a0 a1 a2 a3 a4 a5 a6 :
  length d = 7 ->
  (d ← test_cpp.vector_set d 0 a0;
   d ← test_cpp.vector_set d 1 a1;
   d ← test_cpp.vector_set d 2 a2;
   d ← test_cpp.vector_set d 3 a3;
   d ← test_cpp.vector_set d 4 a4;
   d ← test_cpp.vector_set d 5 a5;
   d ← test_cpp.vector_set d 6 a6;
   mret d) = Val [a0; a1; a2; a3; a4; a5; a6].
Proof.
  destruct d as [|? [|? [|? [|? [|? [|? [|? [|? ?]]]]]]]]; try discriminate.
  intros _. reflexivity.
Qed.

Lemma rhs_buffer (dydt : list double) :
  length (if decide (length dydt = 7) then dydt else test_cpp.resize 7 dydt) = 7.
Proof.
  case_decide; [done|]. unfold test_cpp.resize.
  rewrite length_app, length_take, length_replicate. lia.
Qed.
End two_site_rhs.

Section two_site_equivalence.
Local Open Scope R_scope.

Lemma sqrt_modulus (a b : R) : sqrt (a * a + b * b) * sqrt (a * a + b * b) = a * a + b * b.
Proof. apply sqrt_sqrt. nra. Qed.

(** The vector field of the entities is the stand-alone right-hand
    side. *)
Lemma two_site_vector_field (params : test_cpp.Params R) phi1 phi2 x v n
    y0 y1 y2 y3 y4 y5 y6 t dydt :
  vector_field (test_cpp.two_site params phi1 phi2 x v n) [1; 2]%nat [1]%nat
               [y0; y1; y2; y3; y4; y5; y6] t
  = test_cpp.rhs params [y0; y1; y2; y3; y4; y5; y6] dydt t.
Proof.
  unfold vector_field. rewrite two_site_unpacked.
  cbn [polariton_rows phonon_rows reservoir_rows].
  unfold PolaritonMode_derivative, PhononMode_second_derivative,
    NonResonantDriving_derivative, neighbor_term, pairing_term, polariton_at, phonon_at.
  cbn -[test_cpp.two_site Q2R cos sin sqrt].
  rewrite !two_site_polariton_1, !two_site_polariton_2, !two_site_phonon_1.
  cbn -[test_cpp.two_site Q2R cos sin sqrt].
  unfold test_cpp.rhs. cbn -[Q2R cos sin sqrt decide test_cpp.resize test_cpp.vector_set].
  rewrite rhs_assignments by apply rhs_buffer.
  unfold mret, result_ret. cbv beta. apply (f_equal Val).
  pose proof (sqrt_modulus y0 y1) as S1. pose proof (sqrt_modulus y2 y3) as S2.
  set (s1 := sqrt (y0 * y0 + y1 * y1)) in *.
  set (s2 := sqrt (y2 * y2 + y3 * y3)) in *.
  replace (test_cpp.U1 params * s1 * s1) with (test_cpp.U1 params * (y0 * y0 + y1 * y1))
    by (rewrite <- S1; ring).
  replace (test_cpp.U2 params * s2 * s2) with (test_cpp.U2 params * (y2 * y2 + y3 * y3))
    by (rewrite <- S2; ring).
  rewrite S1.
  rewrite ?Q2R_0, ?Q2R_1, ?Q2R_2.
  replace (1 * (test_cpp.Omega params + 0) * t) with (test_cpp.Omega params * t) by ring.
  replace (-1 * (test_cpp.Omega params + 0) * t) with (- test_cpp.Omega params * t) by ring.
  replace (- (test_cpp.Omega params + 0) * t) with (- test_cpp.Omega params * t) by ring.
  replace (0 * t) with 0 by ring.
  repeat (apply (f_equal2 cons);
    [cbn -[Q2R cos sin sqrt]; rewrite ?Q2R_0, ?Q2R_1, ?Q2R_2;
     try replace (1 * (test_cpp.Omega params + 0) * t)
       with (test_cpp.Omega params * t) by ring;
     try replace (- (1) * (test_cpp.Omega params + 0) * t)
       with (- test_cpp.Omega params * t) by ring;
     try ring|]). reflexivity.
Qed.

(** X13. The entity-based right-hand side against the stand-alone one of
    test.cpp.  For the two oscillators, the mechanical mode and the
    reservoir wired as the drivers do it (both links with detuning 0.0, the
    pairing (site_1, site_2) with the links' g), on any state of these
    entities and any vector [y] of seven components, [Cavity::operator()]
    returns, and returns the vector that [rhs] of test.cpp computes from
    the same parameters; the entities are left holding [y], wired as
    before.  Over the reals. *)
Theorem X13_two_site_matches_test_rhs (params : test_cpp.Params R)
    phi1 phi2 x v n (s : Cavity.state R) (y dxdt dydt : list R) (t : R) :
  Cavity.heap s = test_cpp.two_site params phi1 phi2 x v n ->
  Cavity.polaritons (Cavity.this s) = [1; 2]%nat ->
  Cavity.phonons (Cavity.this s) = [1]%nat ->
  Cavity.system_dimension (Cavity.this s) = 7%nat ->
  length y = 7%nat ->
  exists dy s',
    Cavity.call y dxdt t s = Ok dy s' /\
    test_cpp.rhs params y dydt t = Val dy /\
    exists phi1' phi2' x' v' n',
      y = [real phi1'; imag phi1'; real phi2'; imag phi2'; x'; v'; n'] /\
      Cavity.heap s' = test_cpp.two_site params phi1' phi2' x' v' n'.
Proof.
  destruct s as [h c]. cbn [Cavity.heap Cavity.this]. intros -> Hps Hphs Hdim Hy.
  destruct y as [|y0 [|y1 [|y2 [|y3 [|y4 [|y5 [|y6 [|? ?]]]]]]]]; try discriminate.
  rewrite call_spec; rewrite ?Hps, ?Hphs, ?Hdim.
  - cbn zeta. rewrite (two_site_vector_field params phi1 phi2 x v n _ _ _ _ _ _ _ t dydt).
    destruct (test_cpp.rhs params _ dydt t) as [dy|e] eqn:E.
    + eexists _, _. split; [reflexivity|]. split; [reflexivity|].
      exists (cx y0 y1), (cx y2 y3), y4, y5, y6. split; [reflexivity|].
      cbn [Cavity.heap]. apply two_site_unpacked.
    + rewrite <- (two_site_vector_field params phi1 phi2 x v n) in E.
      destruct (vector_field_total _ _ _ [y0; y1; y2; y3; y4; y5; y6] t
                  (two_site_wired params phi1 phi2 x v n)) as [dy E'].
      rewrite E' in E. discriminate.
  - apply wired_pointers_valid, two_site_wired.
  - by rewrite two_site_layout.
  - simpl. lia.
Qed.
End two_site_equivalence.

(** ** The further properties on the concrete inputs *)

Lemma two_site_cavity_heap : Cavity.heap two_site_cavity = two_site_heap.
Proof. vm_compute. reflexivity. Qed.

Lemma two_site_cavity_lists :
  Cavity.polaritons (Cavity.this two_site_cavity) = [1; 2] /\
  Cavity.phonons (Cavity.this two_site_cavity) = [1] /\
  Cavity.system_dimension (Cavity.this two_site_cavity) = 8.
Proof. repeat split. Qed.

Lemma two_site_cavity_wired :
  wired (Cavity.heap two_site_cavity) (Cavity.polaritons (Cavity.this two_site_cavity))
        (Cavity.phonons (Cavity.this two_site_cavity)).
Proof.
  destruct two_site_cavity_lists as (-> & -> & _). rewrite two_site_cavity_heap.
  assert (E1 : polariton_objects two_site_heap !! 1 = Some site_1) by (vm_compute; reflexivity).
  assert (E2 : polariton_objects two_site_heap !! 2 = Some site_2) by (vm_compute; reflexivity).
  assert (E3 : phonon_objects two_site_heap !! 1 = Some phonon_1) by (vm_compute; reflexivity).
  split; repeat constructor.
  - exists site_1. split; [exact E1|].
    split; [by repeat split|]. cbn -[two_site_heap lookup].
    split; [|split]; repeat constructor; eauto.
  - exists site_2. split; [exact E2|].
    split; [by repeat split|]. cbn -[two_site_heap lookup].
    split; [|split]; repeat constructor; eauto.
  - exists phonon_1. split; [exact E3|].
    split; [by repeat split|]. cbn -[two_site_heap lookup].
    repeat constructor; eauto.
Qed.

Lemma loaded_inv secs : loader_inv (loaded secs).
Proof.
  unfold loader_inv. simpl. split; [constructor|]. split; [constructor|].
  split; [split; constructor|]. split; intros name id; rewrite lookup_empty; discriminate.
Qed.

Lemma X1_check_is_redundant_witness :
  PolaritonMode.check site_1 = Val site_1 /\ PhononMode.check phonon_1 = Val phonon_1.
Proof.
  split.
  - apply (proj1 X1_check_is_redundant site_1).
    apply built_connect, built_add_reservoir, built_set_driving, built_set_value, built_new.
  - apply (proj2 X1_check_is_redundant phonon_1).
    apply phonon_built_add_pairing, phonon_built_set_velocity, phonon_built_set_position,
      phonon_built_new.
Defined.

Lemma X2_constructor_returns_witness :
  exists s, Cavity.new [1; 2] [1] 0%R two_site_heap = Ok tt s.
Proof.
  apply X2_constructor_returns.
  - repeat constructor.
    + exists site_1, site_1. split; vm_compute; reflexivity.
    + exists site_2, site_2. split; vm_compute; reflexivity.
  - repeat constructor. exists phonon_1, phonon_1. split; vm_compute; reflexivity.
Defined.

Lemma X3_constructor_throws_witness :
  check_failure (undefined_behavior "dereference of an invalid PolaritonMode*") /\
  Cavity.system_dimension (Cavity.this stray_cavity) = 0 /\
  Cavity.get_state (Cavity.this stray_cavity) = [].
Proof.
  apply (X3_constructor_throws (mkHeap ∅ ∅) [7] [] 0%R). vm_compute. reflexivity.
Defined.

Lemma X4_unpack_pack_round_trip_witness :
  exists s1 s2,
    Cavity.unpack_state eight two_site_cavity = Ok tt s1 /\
    Cavity.pack_state s1 = Ok tt s2 /\
    Cavity.get_state (Cavity.this s2) = eight /\
    Cavity.heap s2 = Cavity.heap s1.
Proof.
  apply X4_unpack_pack_round_trip.
  - exact two_site_assembled.
  - apply (bool_decide_unpack _). vm_compute. exact Logic.I.
  - apply (bool_decide_unpack _). vm_compute. exact Logic.I.
  - reflexivity.
Defined.

Lemma X5_unpack_ignores_the_rest_witness :
  exists s1,
    Cavity.unpack_state eight two_site_cavity = Ok tt s1 /\
    Cavity.unpack_state (eight ++ three) two_site_cavity = Ok tt s1.
Proof.
  apply X5_unpack_ignores_the_rest; [exact two_site_assembled|reflexivity].
Defined.

Lemma X6_unpack_short_vector_witness :
  exists s',
    Cavity.unpack_state three two_site_cavity
    = Throw (logic_error "Mat::operator(): index out of bounds") s'.
Proof.
  apply X6_unpack_short_vector; [exact two_site_assembled|].
  change (3 < 8). lia.
Defined.

Lemma X7_rhs_returns_witness :
  exists v s1 s0,
    Cavity.call eight [] 0%R two_site_cavity = Ok v s1 /\
    length v = 8 /\
    Cavity.unpack_state eight two_site_cavity = Ok tt s0 /\
    Cavity.heap s1 = Cavity.heap s0 /\
    Cavity.this s1 = Cavity.set_evaluating_rhs false (Cavity.this two_site_cavity).
Proof.
  apply (X7_rhs_returns two_site_cavity eight [] 0%R).
  - exact two_site_assembled.
  - exact two_site_cavity_wired.
  - reflexivity.
Defined.

Lemma X8_do_step_is_rk4_witness :
  let c := Cavity.this two_site_cavity in
  match rk4_step (vector_field (Cavity.heap two_site_cavity)
                               (Cavity.polaritons c) (Cavity.phonons c))
                 (Cavity.get_state c) (Cavity.get_time c) (1 / 10)%R with
  | Val x' =>
      exists s' s0,
        Cavity.do_step (1 / 10)%R two_site_cavity = Ok tt s' /\
        Cavity.get_state (Cavity.this s') = x' /\
        Cavity.unpack_state x' two_site_cavity = Ok tt s0 /\
        Cavity.heap s' = Cavity.heap s0 /\
        assembled s'
  | Exn e => exists s', Cavity.do_step (1 / 10)%R two_site_cavity = Throw e s'
  end.
Proof. apply (X8_do_step_is_rk4 two_site_cavity (1 / 10)%R). exact two_site_assembled. Defined.

Lemma X9_do_step_returns_witness :
  exists s',
    Cavity.do_step (1 / 10)%R two_site_cavity = Ok tt s' /\
    assembled s' /\
    Cavity.polaritons (Cavity.this s') = [1; 2] /\
    Cavity.phonons (Cavity.this s') = [1] /\
    Cavity.system_dimension (Cavity.this s') = 8 /\
    wired (Cavity.heap s') (Cavity.polaritons (Cavity.this s'))
          (Cavity.phonons (Cavity.this s')).
Proof.
  apply (X9_do_step_returns two_site_cavity (1 / 10)%R).
  - exact two_site_assembled.
  - exact two_site_cavity_wired.
Defined.

Lemma two_site_config_loads :
  CavityConfig.load_from_ini (loaded two_site_config) = Ok tt two_site_loaded.
Proof. vm_compute. reflexivity. Qed.

Lemma X10_loaded_system_is_wired_witness :
  let s := CavityConfig.cavity two_site_loaded in
  assembled s /\
  NoDup (Cavity.polaritons (Cavity.this s)) /\
  NoDup (Cavity.phonons (Cavity.this s)) /\
  wired (Cavity.heap s) (Cavity.polaritons (Cavity.this s)) (Cavity.phonons (Cavity.this s)).
Proof.
  apply (X10_loaded_system_is_wired (loaded two_site_config) two_site_loaded).
  - apply loaded_inv.
  - exact two_site_config_loads.
Defined.

Lemma X11_failed_load_assembles_nothing_witness :
  Cavity.system_dimension (Cavity.this (CavityConfig.cavity failed_load)) = 0 /\
  Cavity.get_state (Cavity.this (CavityConfig.cavity failed_load)) = [].
Proof.
  apply (X11_failed_load_assembles_nothing (loaded dangling_to)
           (runtime_error "Coupling 'to' not found: site_9") failed_load).
  - apply loaded_inv.
  - vm_compute. reflexivity.
Defined.

Lemma X12_names_resolve_to_entities_witness :
  exists p o,
    Cavity.get_polariton 1 (Cavity.this (CavityConfig.cavity two_site_loaded)) = Val p /\
    polariton_objects (Cavity.heap (CavityConfig.cavity two_site_loaded)) !! p = Some o.
Proof.
  pose proof (X12_names_resolve_to_entities (loaded two_site_config)
                (loaded_inv two_site_config)) as H.
  rewrite two_site_config_loads in H. destruct H as [H _].
  apply (H "site_2" 1). vm_compute. reflexivity.
Defined.

Lemma X13_two_site_matches_test_rhs_witness :
  exists dy s',
    Cavity.call seven [] 0%R test_cavity = Ok dy s' /\
    test_cpp.rhs test_cpp.default seven [] 0%R = Val dy /\
    exists phi1' phi2' x' v' n',
      seven = [real phi1'; imag phi1'; real phi2'; imag phi2'; x'; v'; n'] /\
      Cavity.heap s' = test_cpp.two_site test_cpp.default phi1' phi2' x' v' n'.
Proof.
  apply (X13_two_site_matches_test_rhs test_cpp.default (cx 1%R 0%R) (cx 1%R 0%R) 0%R 0%R 0%R).
  - vm_compute. reflexivity.
  - reflexivity.
  - reflexivity.
  - reflexivity.
  - reflexivity.
Defined.

(** ** Strings as the parser handles them *)

Section characters.
Implicit Types (s t : string) (l k : list ascii) (a c : ascii).

Lemma string_app_cons a s t : (String a s ++ t)%string = String a (s ++ t)%string.
Proof. reflexivity. Qed.

Lemma chars_app s t :
  list_ascii_of_string (s ++ t)%string = list_ascii_of_string s ++ list_ascii_of_string t.
Proof.
  induction s as [|a s IH]; [done|]. rewrite string_app_cons. simpl. by rewrite IH.
Qed.

Lemma str_app l k :
  string_of_list_ascii (l ++ k) = (string_of_list_ascii l ++ string_of_list_ascii k)%string.
Proof. induction l as [|a l IH]; simpl; [done|]. by rewrite IH. Qed.

Lemma length_chars s : length (list_ascii_of_string s) = String.length s.
Proof. induction s as [|a s IH]; simpl; [done|]. by rewrite IH. Qed.

Lemma string_app_nil_r s : (s ++ EmptyString)%string = s.
Proof. induction s as [|a s IH]; [done|]. rewrite !string_app_cons. simpl. by rewrite IH. Qed.

Lemma string_app_assoc s t u : ((s ++ t) ++ u)%string = (s ++ (t ++ u))%string.
Proof. induction s as [|a s IH]; [done|]. rewrite !string_app_cons. simpl. by rewrite IH. Qed.

Lemma length_string_app s t : String.length (s ++ t)%string = String.length s + String.length t.
Proof. induction s as [|a s IH]; [done|]. rewrite !string_app_cons. simpl. by rewrite IH. Qed.

(** *** [drop_spaces] and [trim] *)

Lemma drop_spaces_split l : exists pre, l = pre ++ cstring.drop_spaces l /\ spaces pre.
Proof.
  induction l as [|a l (pre & E & Hpre)]; [exists []; split; [done|constructor]|]. simpl.
  destruct (cstring.is_space a) eqn:Ea.
  - exists (a :: pre). split; [simpl; f_equal; exact E|by constructor].
  - exists []. split; [done|constructor].
Qed.

Lemma drop_spaces_head l a k : cstring.drop_spaces l = a :: k -> cstring.is_space a = false.
Proof.
  induction l as [|b l IH]; simpl; [done|].
  destruct (cstring.is_space b) eqn:Eb; [exact IH|]. by intros [= <- _].
Qed.

Lemma drop_spaces_spaces l k : spaces l -> cstring.drop_spaces (l ++ k) = cstring.drop_spaces k.
Proof. induction 1 as [|a l Ha _ IH]; simpl; [done|]. by rewrite Ha. Qed.

Lemma drop_spaces_cons l a : cstring.is_space a = false -> cstring.drop_spaces (a :: l) = a :: l.
Proof. intros Ha. simpl. by rewrite Ha. Qed.

Lemma drop_spaces_app l a k :
  cstring.is_space a = false ->
  cstring.drop_spaces (l ++ a :: k) = cstring.drop_spaces l ++ a :: k.
Proof.
  intros Ha. induction l as [|b l IH]; simpl; [by rewrite Ha|].
  by destruct (cstring.is_space b).
Qed.

Lemma drop_spaces_idem l : cstring.drop_spaces (cstring.drop_spaces l) = cstring.drop_spaces l.
Proof.
  destruct (cstring.drop_spaces l) as [|a k] eqn:E; [done|].
  apply drop_spaces_cons. by eapply drop_spaces_head.
Qed.

Lemma trim_unfold s :
  cstring.trim s = string_of_list_ascii (trim_chars (list_ascii_of_string s)).
Proof. reflexivity. Qed.

Lemma chars_trim s : list_ascii_of_string (cstring.trim s) = trim_chars (list_ascii_of_string s).
Proof. unfold cstring.trim. by rewrite list_ascii_of_string_of_list_ascii. Qed.

Lemma trim_chars_split l :
  exists pre post, l = pre ++ trim_chars l ++ post /\ spaces pre /\ spaces post.
Proof.
  destruct (drop_spaces_split l) as (pre & E1 & Hpre).
  destruct (drop_spaces_split (rev (cstring.drop_spaces l))) as (post & E2 & Hpost).
  exists pre, (rev post). split; [|split; [done|by apply Forall_rev]].
  unfold trim_chars. rewrite <- rev_app_distr, <- E2, rev_involutive. exact E1.
Qed.

Lemma trim_chars_head l a k : trim_chars l = a :: k -> cstring.is_space a = false.
Proof.
  unfold trim_chars. intros E.
  destruct (drop_spaces_split (rev (cstring.drop_spaces l))) as (post & E2 & Hpost).
  apply (f_equal (@rev _)) in E2. rewrite rev_involutive, rev_app_distr, E in E2.
  simpl in E2. eapply drop_spaces_head. exact E2.
Qed.

Lemma trim_chars_last l a k : trim_chars l = k ++ [a] -> cstring.is_space a = false.
Proof.
  unfold trim_chars. intros E. apply (f_equal (@rev _)) in E.
  rewrite rev_involutive, rev_app_distr in E. simpl in E.
  eapply drop_spaces_head. exact E.
Qed.

(** A string that neither starts nor ends with whitespace is its own
    trimming. *)
Lemma trim_chars_id l :
  (forall a k, l = a :: k -> cstring.is_space a = false) ->
  (forall a k, l = k ++ [a] -> cstring.is_space a = false) ->
  trim_chars l = l.
Proof.
  intros Hh Hl. unfold trim_chars.
  assert (E1 : cstring.drop_spaces l = l).
  { destruct l as [|a k]; [done|]. apply drop_spaces_cons. by eapply Hh. }
  rewrite E1.
  assert (E2 : cstring.drop_spaces (rev l) = rev l).
  { destruct (rev l) as [|a k] eqn:E; [done|]. apply drop_spaces_cons.
    apply (Hl a (rev k)). apply (f_equal (@rev _)) in E.
    by rewrite rev_involutive in E. }
  by rewrite E2, rev_involutive.
Qed.

Lemma trim_chars_idem l : trim_chars (trim_chars l) = trim_chars l.
Proof.
  apply trim_chars_id.
  - intros a k. apply trim_chars_head.
  - intros a k. apply trim_chars_last.
Qed.

Lemma trim_chars_spaces_l l k : spaces l -> trim_chars (l ++ k) = trim_chars k.
Proof. intros Hl. unfold trim_chars. by rewrite drop_spaces_spaces. Qed.

Lemma drop_spaces_all l : spaces l -> cstring.drop_spaces l = [].
Proof. intros Hl. rewrite <- (app_nil_r l), drop_spaces_spaces by done. done. Qed.

Lemma trim_chars_spaces_r l k : spaces k -> trim_chars (l ++ k) = trim_chars l.
Proof.
  intros Hk. unfold trim_chars.
  destruct (drop_spaces_split l) as (pre & E & Hpre).
  destruct (cstring.drop_spaces l) as [|a m] eqn:El.
  - rewrite app_nil_r in E. subst l.
    rewrite (drop_spaces_all (pre ++ k)) by (by apply Forall_app). done.
  - assert (Ha : cstring.is_space a = false) by (by eapply drop_spaces_head).
    rewrite E at 1. rewrite <- app_assoc, drop_spaces_spaces by done.
    rewrite <- app_comm_cons, drop_spaces_cons by done.
    rewrite app_comm_cons, rev_app_distr, drop_spaces_spaces by (by apply Forall_rev).
    done.
Qed.

(** Trimming around a character that is not whitespace. *)
Lemma trim_chars_around l a k :
  cstring.is_space a = false ->
  trim_chars (l ++ a :: k)
  = cstring.drop_spaces l ++ a :: rev (cstring.drop_spaces (rev k)).
Proof.
  intros Ha. unfold trim_chars. rewrite drop_spaces_app by done.
  rewrite rev_app_distr. simpl. rewrite <- app_assoc. simpl.
  rewrite drop_spaces_app by done. rewrite rev_app_distr. simpl.
  rewrite rev_involutive, <- app_assoc. done.
Qed.
End characters.

Section find_substr.
Implicit Types (s t : string) (a c : ascii).

Lemma size_app s t : cstring.size (s ++ t) = (cstring.size s + cstring.size t)%N.
Proof. unfold cstring.size. rewrite length_string_app. lia. Qed.

Lemma size_cons a s : cstring.size (String a s) = (1 + cstring.size s)%N.
Proof. unfold cstring.size. simpl. lia. Qed.

Lemma find_aux_none c s i :
  c ∉ list_ascii_of_string s -> cstring.find_aux c s i = cstring.npos.
Proof.
  revert i. induction s as [|a s IH]; intros i Hc; [done|]. simpl in *.
  apply not_elem_of_cons in Hc as [Hca Hc].
  destruct (Ascii.eqb_spec a c) as [->|_]; [done|]. by apply IH.
Qed.

Lemma find_aux_found c s t i :
  c ∉ list_ascii_of_string s ->
  cstring.find_aux c (s ++ String c t) i = (i + cstring.size s)%N.
Proof.
  revert i. induction s as [|a s IH]; intros i Hc.
  - simpl. rewrite Ascii.eqb_refl. unfold cstring.size. simpl. lia.
  - rewrite string_app_cons. simpl in *. apply not_elem_of_cons in Hc as [Hca Hc].
    destruct (Ascii.eqb_spec a c) as [->|_]; [done|].
    rewrite IH by done. rewrite size_cons. lia.
Qed.

Lemma find_none s c : c ∉ list_ascii_of_string s -> cstring.find s c = cstring.npos.
Proof. apply find_aux_none. Qed.

Lemma find_found s t c :
  c ∉ list_ascii_of_string s -> cstring.find (s ++ String c t) c = cstring.size s.
Proof. intros Hc. unfold cstring.find. by rewrite find_aux_found. Qed.

(** The first occurrence of [c] splits the string. *)
Lemma find_cases s c :
  ((c ∉ list_ascii_of_string s) /\ cstring.find s c = cstring.npos) \/
  (exists s1 s2, s = (s1 ++ String c s2)%string /\ (c ∉ list_ascii_of_string s1) /\
                 cstring.find s c = cstring.size s1).
Proof.
  induction s as [|a s IH].
  - left. split; [|done]. simpl. apply not_elem_of_nil.
  - destruct (decide (a = c)) as [->|Hac].
    + right. exists EmptyString, s. split; [done|]. split; [apply not_elem_of_nil|].
      apply (find_found EmptyString). apply not_elem_of_nil.
    + destruct IH as [[Hc _]|(s1 & s2 & -> & Hc & _)].
      * left. assert (Hc' : c ∉ list_ascii_of_string (String a s)).
        { simpl. apply not_elem_of_cons. split; [congruence|done]. }
        split; [done|by apply find_none].
      * right. exists (String a s1), s2. split; [done|].
        assert (Hc' : c ∉ list_ascii_of_string (String a s1)).
        { simpl. apply not_elem_of_cons. split; [congruence|done]. }
        split; [done|]. by apply (find_found (String a s1)).
Qed.

Lemma substring_prefix s t : String.substring 0 (String.length s) (s ++ t) = s.
Proof.
  induction s as [|a s IH]; [by destruct t|].
  rewrite string_app_cons. simpl. by rewrite IH.
Qed.

Lemma substring_skip s t n :
  String.substring (String.length s) n (s ++ t) = String.substring 0 n t.
Proof. induction s as [|a s IH]; [done|]. rewrite string_app_cons. simpl. exact IH. Qed.

Lemma substring_all t : String.substring 0 (String.length t) t = t.
Proof. induction t as [|a t IH]; [done|]. simpl. by rewrite IH. Qed.

Lemma substr_prefix s t : cstring.substr (s ++ t) 0 (cstring.size s) = Val s.
Proof.
  unfold cstring.substr. rewrite size_app.
  destruct (N.ltb_spec (cstring.size s + cstring.size t) 0) as [?|_]; [lia|].
  replace (N.min _ _) with (cstring.size s) by lia.
  unfold cstring.size. rewrite Nat2N.id. change (N.to_nat 0) with 0.
  by rewrite substring_prefix.
Qed.

Lemma substr_suffix s t pos n :
  pos = cstring.size s -> (cstring.size t <= n)%N ->
  cstring.substr (s ++ t) pos n = Val t.
Proof.
  intros -> Hn. unfold cstring.substr. rewrite size_app.
  destruct (N.ltb_spec (cstring.size s + cstring.size t) (cstring.size s)) as [?|_]; [lia|].
  replace (N.min _ _) with (cstring.size t) by lia.
  unfold cstring.size. rewrite !Nat2N.id. by rewrite substring_skip, substring_all.
Qed.

Lemma substr_total s pos n : (pos <= cstring.size s)%N -> exists r, cstring.substr s pos n = Val r.
Proof.
  intros Hpos. unfold cstring.substr.
  destruct (N.ltb_spec (cstring.size s) pos) as [?|_]; [lia|]. eauto.
Qed.
End find_substr.

Section front_back.
Implicit Types (s t : string) (a c : ascii).

Lemma front_chars s a : config_file.front s = Some a <-> exists k, list_ascii_of_string s = a :: k.
Proof.
  destruct s as [|b s]; simpl.
  - split; [done|]. by intros (k & ?).
  - split; [intros [= ->]; eauto|]. by intros (k & [= -> _]).
Qed.

Lemma back_chars s a :
  config_file.back s = Some a <-> exists k, list_ascii_of_string s = k ++ [a].
Proof.
  induction s as [|b s IH].
  - split; [done|]. intros (k & Hk). by destruct k.
  - destruct s as [|b' s].
    + simpl. split.
      * intros [= ->]. by exists [].
      * intros (k & Hk). destruct k as [|? [|? ?]]; simplify_eq/=; done.
    + change (config_file.back (String b (String b' s)))
        with (config_file.back (String b' s)).
      rewrite IH. split.
      * intros (k & Hk). exists (b :: k). simpl in *. by rewrite Hk.
      * intros (k & Hk). destruct k as [|b0 k]; [done|].
        exists k. simpl in *. by simplify_eq.
Qed.

Lemma back_app s a : config_file.back (s ++ String a EmptyString) = Some a.
Proof. apply back_chars. exists (list_ascii_of_string s). by rewrite chars_app. Qed.
End front_back.

(** X14.  [trim(s)] is [s] without the whitespace (blank, tab, carriage
    return, newline) at its two ends: it removes a blank prefix and a
    blank suffix, what remains neither begins nor ends with whitespace,
    and trimming again changes nothing. *)
Theorem X14_trim_strips_outer_whitespace (s : string) :
  (exists pre post,
     s = (pre ++ cstring.trim s ++ post)%string /\
     config_file.blank pre /\ config_file.blank post) /\
  (forall a, config_file.front (cstring.trim s) = Some a -> cstring.is_space a = false) /\
  (forall a, config_file.back (cstring.trim s) = Some a -> cstring.is_space a = false) /\
  cstring.trim (cstring.trim s) = cstring.trim s.
Proof.
  split; [|split; [|split]].
  - destruct (trim_chars_split (list_ascii_of_string s)) as (pre & post & E & Hpre & Hpost).
    exists (string_of_list_ascii pre), (string_of_list_ascii post).
    split; [|split].
    + rewrite trim_unfold, <- !str_app, <- E. by rewrite string_of_list_ascii_of_string.
    + unfold config_file.blank. by rewrite list_ascii_of_string_of_list_ascii.
    + unfold config_file.blank. by rewrite list_ascii_of_string_of_list_ascii.
  - intros a (k & Hk)%front_chars. rewrite chars_trim in Hk. by eapply trim_chars_head.
  - intros a (k & Hk)%back_chars. rewrite chars_trim in Hk. by eapply trim_chars_last.
  - rewrite (trim_unfold (cstring.trim s)), chars_trim, trim_chars_idem. done.
Qed.

Section names.
Implicit Types (s t : string) (a c : ascii).

Lemma avoids_not_elem_of c s : config_file.avoids [c] s -> c ∉ list_ascii_of_string s.
Proof.
  unfold config_file.avoids. rewrite Forall_forall. intros H Hc.
  apply (H c Hc). apply list_elem_of_singleton. done.
Qed.

Lemma substring_split n s :
  exists rest, s = (String.substring 0 n s ++ rest)%string.
Proof.
  revert n. induction s as [|a s IH]; intros n.
  - exists EmptyString. by destruct n.
  - destruct n as [|n]; [by exists (String a s)|].
    destruct (IH n) as (rest & E). exists rest.
    change (String.substring 0 (S n) (String a s)) with (String a (String.substring 0 n s)).
    rewrite string_app_cons. by rewrite <- E.
Qed.

Lemma substr_is_prefix name type :
  cstring.substr name 0 (cstring.size type) = Val type <-> exists rest, name = (type ++ rest)%string.
Proof.
  split.
  - unfold cstring.substr.
    destruct (N.ltb_spec (cstring.size name) 0) as [?|_]; [lia|]. intros [= E].
    destruct (substring_split
                (N.to_nat (N.min (cstring.size type) (cstring.size name - 0))) name)
      as (rest & Hrest).
    exists rest. rewrite <- E at 1. exact Hrest.
  - intros (rest & ->). apply substr_prefix.
Qed.
End names.

(** X15.  [extract_name] of a section header [type name], where the
    type holds no blank, is the name without its outer whitespace, whatever
    blanks the name itself holds; a header without any blank is its own
    name.  (Strings shorter than [npos].) *)
Theorem X15_extract_name_of_header :
  (forall type name : string,
     config_file.avoids [" "%char] type ->
     (cstring.size type + 1 + cstring.size name < cstring.npos)%N ->
     ConfigParser.extract_name (type ++ " " ++ name) = cstring.trim name) /\
  (forall section : string,
     config_file.avoids [" "%char] section ->
     ConfigParser.extract_name section = section).
Proof.
  split.
  - intros type name Hty%avoids_not_elem_of Hsize. unfold ConfigParser.extract_name.
    change (type ++ " " ++ name)%string with (type ++ String " " name)%string.
    rewrite find_found by done.
    rewrite bool_decide_true by (unfold cstring.npos in *; lia).
    change (type ++ String " " name)%string with (type ++ (" " ++ name))%string.
    rewrite <- string_app_assoc.
    rewrite (substr_suffix (type ++ " ") name); [done| |unfold cstring.npos in *; lia].
    rewrite size_app. unfold cstring.size. simpl. lia.
  - intros section Hs%avoids_not_elem_of. unfold ConfigParser.extract_name.
    rewrite find_none by done. by rewrite bool_decide_false by (intros H; by apply H).
Qed.

Section kinds.
Context {double : Type} `{!DoubleOps double} `{!StdLib double}.

Lemma elem_of_sections_by_type (p : ConfigParser.t double) (type name : string) :
  name ∈ ConfigParser.get_sections_by_type p type <->
  name ∈ (ConfigParser.sections p).*1 /\ exists rest, name = (type ++ rest)%string.
Proof.
  unfold ConfigParser.get_sections_by_type.
  rewrite list_elem_of_In, filter_In, <- list_elem_of_In, <- substr_is_prefix.
  destruct (cstring.substr name 0 (cstring.size type)) as [pre|e].
  - rewrite bool_decide_eq_true. split; intros [? H]; (split; [done|]); congruence.
  - split; intros [? H]; discriminate.
Qed.

(** X16.  [get_sections_by_type(type)] returns the sections whose
    header begins with [type], and only those: the test is on the prefix,
    not on the first word. *)
Theorem X16_sections_by_type_is_a_prefix_test (p : ConfigParser.t double)
    (type name : string) :
  name ∈ ConfigParser.get_sections_by_type p type <->
  name ∈ (ConfigParser.sections p).*1 /\ exists rest, name = (type ++ rest)%string.
Proof. apply elem_of_sections_by_type. Qed.

(** X17.  No section is visited by two phases of [load_from_ini]: a
    header begins with at most one of the five types. *)
Theorem X17_section_has_one_kind (p : ConfigParser.t double) (t1 t2 name : string) :
  t1 ∈ section_kinds -> t2 ∈ section_kinds ->
  name ∈ ConfigParser.get_sections_by_type p t1 ->
  name ∈ ConfigParser.get_sections_by_type p t2 ->
  t1 = t2.
Proof.
  intros H1 H2 [_ (r1 & E1)]%elem_of_sections_by_type [_ (r2 & E2)]%elem_of_sections_by_type.
  rewrite E1 in E2. clear E1. unfold section_kinds in *.
  repeat (apply elem_of_cons in H1 as [->|H1]);
    repeat (apply elem_of_cons in H2 as [->|H2]);
    try (by apply elem_of_nil in H1); try (by apply elem_of_nil in H2);
    try reflexivity; vm_compute in E2; discriminate.
Qed.
End kinds.

(** ** Reading the file *)

Section load_returns.
Implicit Types (s t line : string) (m : config_file.content).

Lemma result_bind_Val {A B} (f : A -> result B) (a : A) : (Val a ≫= f) = f a.
Proof. reflexivity. Qed.

Lemma for_each_r_app {A B} (body : B -> A -> result B) (l1 l2 : list A) (acc : B) :
  for_each_r body (l1 ++ l2) acc = (for_each_r body l1 acc ≫= for_each_r body l2).
Proof.
  revert acc. induction l1 as [|a l1 IH]; intros acc; [done|]. simpl.
  destruct (body acc a) as [acc'|e]; [|done]. rewrite !result_bind_Val. apply IH.
Qed.

(** The comment is cut without an exception. *)
Lemma strip_comment_total line :
  exists l1, (if bool_decide (cstring.find line "#" ≠ cstring.npos)
              then cstring.substr line 0 (cstring.find line "#") else Val line) = Val l1.
Proof.
  case_bool_decide; [|eauto]. apply substr_total. lia.
Qed.

Lemma size_pos s : s <> EmptyString -> (1 <= cstring.size s)%N.
Proof. destruct s; [done|]. intros _. rewrite size_cons. lia. Qed.

Lemma load_line_total st line : exists st', config_file.load_line st line = Val st'.
Proof.
  destruct st as [cur m]. unfold config_file.load_line.
  destruct (strip_comment_total line) as (l1 & ->). rewrite result_bind_Val.
  set (l2 := cstring.trim l1). cbn zeta.
  case_bool_decide as Hempty; [eauto|].
  case_bool_decide as Hheader.
  - destruct (substr_total l2 1 (cstring.size_t (Z.of_N (cstring.size l2) - 2)))
      as (cs & ->); [by apply size_pos|].
    rewrite result_bind_Val. eauto.
  - case_bool_decide as Heq; [|eauto].
    destruct (find_cases l2 "=") as [[_ E]|(s1 & s2 & E2 & _ & E)]; [done|].
    rewrite E, E2. rewrite substr_prefix, result_bind_Val.
    destruct (substr_total (s1 ++ String "=" s2) (cstring.size s1 + 1) cstring.npos)
      as (v & ->).
    { rewrite size_app, size_cons. lia. }
    rewrite result_bind_Val. eauto.
Qed.

Lemma load_lines_total lines st :
  exists st', for_each_r config_file.load_line lines st = Val st'.
Proof.
  revert st. induction lines as [|line lines IH]; intros st; [by exists st|].
  simpl. destruct (load_line_total st line) as (st1 & ->). rewrite result_bind_Val.
  apply IH.
Qed.

(** X18.  [load] throws only when the file cannot be opened: every text
    is accepted, whatever its lines look like (lines that are neither a
    header nor an assignment are skipped, no [substr] is ever out of
    range). *)
Theorem X18_load_accepts_every_text (filename text : string) m :
  exists m', config_file.load filename (Some text) m = Val m'.
Proof.
  unfold config_file.load.
  destruct (load_lines_total (config_file.getlines text) (EmptyString, m)) as (st & ->).
  rewrite result_bind_Val. eauto.
Qed.
End load_returns.

Section avoiding.
Implicit Types (s t line : string) (cs : list ascii).

Lemma avoids_app cs s t :
  config_file.avoids cs (s ++ t) <-> config_file.avoids cs s /\ config_file.avoids cs t.
Proof. unfold config_file.avoids. rewrite chars_app. apply Forall_app. Qed.

Lemma avoids_trim cs s : config_file.avoids cs s -> config_file.avoids cs (cstring.trim s).
Proof.
  unfold config_file.avoids. rewrite chars_trim.
  destruct (trim_chars_split (list_ascii_of_string s)) as (pre & post & E & _).
  rewrite E at 1. rewrite !Forall_app. tauto.
Qed.

Lemma substring_infix n k s :
  exists pre post, s = (pre ++ String.substring n k s ++ post)%string.
Proof.
  revert n. induction s as [|a s IH]; intros n.
  - exists EmptyString, EmptyString. by destruct n, k.
  - destruct n as [|n].
    + destruct (substring_split k (String a s)) as (rest & E). by exists EmptyString, rest.
    + destruct (IH n) as (pre & post & E). exists (String a pre), post.
      change (String.substring (S n) k (String a s)) with (String.substring n k s).
      rewrite string_app_cons. by rewrite <- E.
Qed.

Lemma avoids_substr cs s pos n r :
  cstring.substr s pos n = Val r -> config_file.avoids cs s -> config_file.avoids cs r.
Proof.
  unfold cstring.substr. destruct (N.ltb _ _); [done|]. intros [= <-] Hs.
  destruct (substring_infix (N.to_nat pos)
              (N.to_nat (N.min n (cstring.size s - pos))) s) as (pre & post & E).
  rewrite E in Hs. apply avoids_app in Hs as [_ Hs]. by apply avoids_app in Hs as [Hs _].
Qed.

Lemma avoids_one c s : c ∉ list_ascii_of_string s -> config_file.avoids [c] s.
Proof.
  intros Hc. unfold config_file.avoids. apply Forall_forall. intros a Ha Hin.
  apply list_elem_of_singleton in Hin as ->. done.
Qed.

Lemma avoids_two c1 c2 s :
  config_file.avoids [c1] s -> config_file.avoids [c2] s -> config_file.avoids [c1; c2] s.
Proof.
  unfold config_file.avoids. rewrite !Forall_forall. intros H1 H2 a Ha Hin.
  apply elem_of_cons in Hin as [->|Hin]; [by eapply H1; [|apply list_elem_of_singleton]|].
  by eapply H2.
Qed.
End avoiding.

Section load_tidy.
Implicit Types (s t line cur : string) (m : config_file.content).

Lemma trim_idem s : cstring.trim (cstring.trim s) = cstring.trim s.
Proof. rewrite (trim_unfold (cstring.trim s)), chars_trim, trim_chars_idem. done. Qed.

(** What a line does to the state of the loop. *)
Lemma load_line_cases cur m line :
  (cstring.size line < cstring.npos)%N ->
  config_file.load_line (cur, m) line = Val (cur, m) \/
  (exists section, config_file.avoids ["#"%char] section /\
     config_file.load_line (cur, m) line = Val (cstring.trim section, m)) \/
  (exists key value,
     config_file.avoids ["#"%char; "="%char] key /\ config_file.avoids ["#"%char] value /\
     config_file.load_line (cur, m) line
     = Val (cur, config_file.store cur (cstring.trim key) (cstring.trim value) m)).
Proof.
  intros Hsize. unfold config_file.load_line.
  assert (exists l1, (if bool_decide (cstring.find line "#" ≠ cstring.npos)
                      then cstring.substr line 0 (cstring.find line "#") else Val line)
                     = Val l1 /\ config_file.avoids ["#"%char] l1) as (l1 & -> & Hl1).
  { destruct (find_cases line "#") as [[Hno E]|(s1 & s2 & -> & Hno & E)].
    - rewrite E. rewrite bool_decide_false by (intros H; by apply H).
      exists line. split; [done|by apply avoids_one].
    - rewrite E. rewrite size_app in Hsize. rewrite bool_decide_true by lia.
      exists s1. split; [apply substr_prefix|by apply avoids_one]. }
  rewrite result_bind_Val. apply avoids_trim in Hl1.
  set (l2 := cstring.trim l1) in *. cbn zeta.
  case_bool_decide as Hempty; [by left|].
  case_bool_decide as Hheader.
  - destruct (substr_total l2 1 (cstring.size_t (Z.of_N (cstring.size l2) - 2)))
      as (section & E); [by apply size_pos|].
    rewrite E, result_bind_Val. right; left. exists section. split; [|done].
    by eapply avoids_substr.
  - case_bool_decide as Heq; [|by left].
    destruct (find_cases l2 "=") as [[_ E]|(s1 & s2 & E2 & Hno & E)]; [done|].
    rewrite E, E2 in *. rewrite substr_prefix, result_bind_Val.
    destruct (substr_total (s1 ++ String "=" s2) (cstring.size s1 + 1) cstring.npos)
      as (v & Ev).
    { rewrite size_app, size_cons. lia. }
    rewrite Ev, result_bind_Val. right; right. exists s1, v.
    split; [|split; [|done]].
    + apply avoids_two; [|by apply avoids_one]. by apply avoids_app in Hl1 as [? _].
    + by eapply avoids_substr.
Qed.

Lemma tidy_empty : tidy ∅.
Proof. intros name keys H. by apply lookup_empty_Some in H. Qed.

Lemma tidy_store cur key value m :
  tidy m ->
  cstring.trim cur = cur -> config_file.avoids ["#"%char] cur ->
  config_file.avoids ["#"%char; "="%char] key -> config_file.avoids ["#"%char] value ->
  tidy (config_file.store cur (cstring.trim key) (cstring.trim value) m).
Proof.
  intros Hm Hcur Hcur' Hkey Hvalue name keys. unfold config_file.store.
  destruct (decide (name = cur)) as [->|Hne].
  - rewrite lookup_insert_eq. intros [= <-].
    split; [apply insert_non_empty|]. split; [done|]. split; [done|].
    intros k v. destruct (decide (k = cstring.trim key)) as [->|Hk].
    + rewrite lookup_insert_eq. intros [= <-].
      split; [apply trim_idem|]. split; [apply trim_idem|].
      split; by apply avoids_trim.
    + rewrite lookup_insert_ne by done.
      destruct (m !! cur) as [keys0|] eqn:E; simpl; [|done].
      apply (Hm cur keys0 E).
  - rewrite lookup_insert_ne by done. apply Hm.
Qed.

Lemma load_lines_tidy lines cur m cur' m' :
  Forall (fun line => (cstring.size line < cstring.npos)%N) lines ->
  cstring.trim cur = cur -> config_file.avoids ["#"%char] cur -> tidy m ->
  for_each_r config_file.load_line lines (cur, m) = Val (cur', m') ->
  tidy m'.
Proof.
  intros Hlines. revert cur m.
  induction Hlines as [|line lines Hline _ IH]; intros cur m Hcur Hcur' Hm.
  - by intros [= _ <-].
  - cbn [for_each_r].
    destruct (load_line_cases cur m line Hline)
      as [E|[(section & Hs & E)|(key & value & Hk & Hv & E)]];
      rewrite E, result_bind_Val.
    + by apply IH.
    + apply IH; [apply trim_idem|by apply avoids_trim|done].
    + apply IH; [done|done|]. by apply tidy_store.
Qed.

Lemma getlines_size text :
  Forall (fun line => (cstring.size line <= cstring.size text)%N) (config_file.getlines text).
Proof.
  induction text as [|a text IH]; [constructor|]. simpl.
  destruct (Ascii.eqb a "010").
  - constructor; [change (cstring.size EmptyString) with 0%N; lia|].
    eapply Forall_impl; [exact IH|]. intros line Hl. cbv beta in Hl. rewrite size_cons. lia.
  - destruct (config_file.getlines text) as [|line lines].
    + constructor; [|constructor]. rewrite !size_cons.
      change (cstring.size EmptyString) with 0%N. lia.
    + apply Forall_cons in IH as [Hl IH]. constructor.
      * rewrite !size_cons. lia.
      * eapply Forall_impl; [exact IH|]. intros l Hl'. cbv beta in Hl'. rewrite size_cons. lia.
Qed.

(** X19.  What [load] stores from a file (of fewer than [npos]
    characters) into an empty parser is tidy: every section that exists
    holds at least one key (a header without assignments creates no
    section), section names, keys and values have no whitespace at their
    ends, none of them holds a ['#'], and no key holds an ['=']. *)
Theorem X19_loaded_sections_are_tidy (filename text : string) m :
  (cstring.size text < cstring.npos)%N ->
  config_file.load filename (Some text) ∅ = Val m ->
  tidy m.
Proof.
  intros Hsize. unfold config_file.load.
  destruct (for_each_r _ _ _) as [[cur' m']|e] eqn:E; [|done].
  rewrite result_bind_Val. intros [= <-].
  eapply load_lines_tidy; [| | | |exact E].
  - eapply Forall_impl; [apply getlines_size|]. intros line Hl. cbv beta in Hl. lia.
  - done.
  - constructor.
  - apply tidy_empty.
Qed.
End load_tidy.

Section lines.
Implicit Types (s t line : string) (cs : list ascii).

Lemma avoids_elem cs c s : config_file.avoids cs s -> c ∈ cs -> c ∉ list_ascii_of_string s.
Proof.
  unfold config_file.avoids. rewrite Forall_forall. intros H Hc Hin. by apply (H c Hin).
Qed.

Lemma getlines_line line rest :
  config_file.avoids ["010"%char] line ->
  config_file.getlines (line ++ String "010" rest) = line :: config_file.getlines rest.
Proof.
  induction line as [|a line IH]; intros Hl; [done|].
  rewrite string_app_cons. cbn [config_file.getlines].
  assert (Ha : a <> "010"%char).
  { intros ->. eapply (avoids_elem _ "010"%char _ Hl); [|simpl; left].
    apply list_elem_of_singleton. done. }
  destruct (Ascii.eqb_spec a "010") as [?|_]; [done|].
  rewrite IH; [done|].
  unfold config_file.avoids in *. simpl in Hl. by apply Forall_cons in Hl as [_ ?].
Qed.

Lemma getlines_unlines lines :
  Forall (config_file.avoids ["010"%char]) lines ->
  config_file.getlines (config_file.unlines lines) = lines.
Proof.
  induction 1 as [|line lines Hl _ IH]; [done|].
  cbn [config_file.unlines foldr]. rewrite getlines_line by done. f_equal. exact IH.
Qed.

Lemma substr_middle s1 s2 s3 n :
  n = cstring.size s2 ->
  cstring.substr (s1 ++ s2 ++ s3) (cstring.size s1) n = Val s2.
Proof.
  intros ->. unfold cstring.substr. rewrite !size_app.
  destruct (N.ltb_spec (cstring.size s1 + (cstring.size s2 + cstring.size s3))
              (cstring.size s1)) as [?|_]; [lia|].
  replace (N.min _ _) with (cstring.size s2) by lia.
  unfold cstring.size. rewrite !Nat2N.id. by rewrite substring_skip, substring_prefix.
Qed.

Lemma str_chars_eq s l : list_ascii_of_string s = l -> s = string_of_list_ascii l.
Proof. intros <-. by rewrite string_of_list_ascii_of_string. Qed.

Lemma trim_id s :
  (forall a, config_file.front s = Some a -> cstring.is_space a = false) ->
  (forall a, config_file.back s = Some a -> cstring.is_space a = false) ->
  cstring.trim s = s.
Proof.
  intros Hf Hb. rewrite trim_unfold, trim_chars_id.
  - apply string_of_list_ascii_of_string.
  - intros a k E. apply Hf. apply front_chars. eauto.
  - intros a k E. apply Hb. apply back_chars. eauto.
Qed.

(** A header line. *)
Lemma load_line_header cur m name :
  config_file.avoids ["#"%char] name ->
  (cstring.size name + 2 < cstring.npos)%N ->
  config_file.load_line (cur, m) ("[" ++ name ++ "]") = Val (cstring.trim name, m).
Proof.
  intros Hname Hsize. unfold config_file.load_line.
  set (line := ("[" ++ name ++ "]")%string).
  assert (Hno : "#"%char ∉ list_ascii_of_string line).
  { unfold line. rewrite !chars_app. simpl. rewrite not_elem_of_cons, not_elem_of_app.
    split; [done|]. split; [by apply avoids_not_elem_of|].
    apply not_elem_of_cons. split; [done|apply not_elem_of_nil]. }
  rewrite find_none by done. rewrite bool_decide_false by (intros H; by apply H).
  rewrite result_bind_Val.
  assert (Hback : config_file.back line = Some "]"%char).
  { unfold line. change ("[" ++ name ++ "]")%string with (("[" ++ name) ++ "]")%string.
    apply back_app. }
  assert (Htrim : cstring.trim line = line).
  { apply trim_id.
    - by intros a [= <-].
    - rewrite Hback. by intros a [= <-]. }
  rewrite Htrim. cbn zeta.
  rewrite bool_decide_false by done.
  rewrite bool_decide_true by (split; [done|exact Hback]).
  assert (Hlen : cstring.size_t (Z.of_N (cstring.size line) - 2) = cstring.size name).
  { unfold line. rewrite !size_app. change (cstring.size "[") with 1%N.
    change (cstring.size "]") with 1%N. unfold cstring.size_t.
    rewrite Z.mod_small by (unfold cstring.npos in *; lia). lia. }
  rewrite Hlen. change 1%N with (cstring.size "[").
  unfold line. rewrite substr_middle by done. done.
Qed.

Lemma drop_spaces_length l : length (cstring.drop_spaces l) <= length l.
Proof.
  destruct (drop_spaces_split l) as (pre & E & _). rewrite E at 2.
  rewrite length_app. lia.
Qed.

Lemma trim_chars_drop_spaces l : trim_chars (cstring.drop_spaces l) = trim_chars l.
Proof. unfold trim_chars. by rewrite drop_spaces_idem. Qed.

Lemma trim_chars_rtrim l : trim_chars (rev (cstring.drop_spaces (rev l))) = trim_chars l.
Proof.
  destruct (drop_spaces_split (rev l)) as (pre & E & Hpre).
  apply (f_equal (@rev _)) in E. rewrite rev_involutive, rev_app_distr in E.
  rewrite E at 2. rewrite trim_chars_spaces_r by (by apply Forall_rev). done.
Qed.

Lemma trim_chars_first l a k :
  cstring.drop_spaces l = a :: k -> exists k', trim_chars l = a :: k'.
Proof.
  intros E. unfold trim_chars. rewrite E. simpl.
  rewrite (drop_spaces_app (rev k) a []) by (by eapply drop_spaces_head).
  rewrite rev_app_distr. simpl. eauto.
Qed.

Lemma size_str l : cstring.size (string_of_list_ascii l) = N.of_nat (length l).
Proof.
  unfold cstring.size. by rewrite <- length_chars, list_ascii_of_string_of_list_ascii.
Qed.

Lemma size_chars s : cstring.size s = N.of_nat (length (list_ascii_of_string s)).
Proof. unfold cstring.size. by rewrite length_chars. Qed.

(** An assignment line. *)
Lemma load_line_assignment cur m key value :
  config_file.avoids ["#"%char; "="%char] key ->
  config_file.avoids ["#"%char] value ->
  config_file.front (cstring.trim key) <> Some "["%char ->
  (cstring.size key < cstring.npos)%N ->
  (cstring.size value < cstring.npos)%N ->
  config_file.load_line (cur, m) (key ++ "=" ++ value)
  = Val (cur, config_file.store cur (cstring.trim key) (cstring.trim value) m).
Proof.
  intros Hkey Hvalue Hfront Hsk Hsv. unfold config_file.load_line.
  set (K := list_ascii_of_string key). set (V := list_ascii_of_string value).
  assert (HK1 : "#"%char ∉ K) by (eapply avoids_elem; [exact Hkey|set_solver]).
  assert (HK2 : "="%char ∉ K) by (eapply avoids_elem; [exact Hkey|set_solver]).
  assert (HV : "#"%char ∉ V) by (by apply avoids_not_elem_of).
  assert (Hno : "#"%char ∉ list_ascii_of_string (key ++ "=" ++ value)).
  { rewrite !chars_app. fold K V. simpl. rewrite not_elem_of_app, not_elem_of_cons.
    done. }
  rewrite find_none by done. rewrite bool_decide_false by (intros H; by apply H).
  rewrite result_bind_Val.
  set (k := string_of_list_ascii (cstring.drop_spaces K)).
  set (v := string_of_list_ascii (rev (cstring.drop_spaces (rev V)))).
  assert (Htrim : cstring.trim (key ++ "=" ++ value) = (k ++ String "=" v)%string).
  { rewrite trim_unfold, chars_app. fold K. simpl. fold V.
    rewrite trim_chars_around by done. by rewrite str_app. }
  rewrite Htrim. cbn zeta.
  rewrite bool_decide_false by (by destruct k).
  assert (Hhead : config_file.front (k ++ String "=" v) <> Some "["%char).
  { unfold k. destruct (cstring.drop_spaces K) as [|a K'] eqn:E; [done|].
    destruct (trim_chars_first _ _ _ E) as (k' & Ek').
    simpl. intros [= ->]. apply Hfront. rewrite trim_unfold. fold K. by rewrite Ek'. }
  rewrite bool_decide_false by (by intros [? _]).
  assert (Hk : "="%char ∉ list_ascii_of_string k).
  { unfold k. rewrite list_ascii_of_string_of_list_ascii.
    destruct (drop_spaces_split K) as (pre & E & _). intros Hin. apply HK2.
    rewrite E. apply elem_of_app. by right. }
  assert (Hklen : (cstring.size k <= cstring.size key)%N).
  { unfold k. rewrite size_str, size_chars. fold K.
    pose proof (drop_spaces_length K). lia. }
  assert (Hvlen : (cstring.size v <= cstring.size value)%N).
  { unfold v. rewrite size_str, size_chars. fold V. rewrite length_rev.
    pose proof (drop_spaces_length (rev V)) as H. rewrite length_rev in H. lia. }
  rewrite find_found by done.
  rewrite bool_decide_true by lia.
  rewrite substr_prefix, result_bind_Val.
  change (k ++ String "=" v)%string with (k ++ ("=" ++ v))%string.
  rewrite <- string_app_assoc.
  rewrite (substr_suffix (k ++ "=") v); [| |lia].
  2:{ rewrite size_app. change (cstring.size "=") with 1%N. done. }
  rewrite result_bind_Val.
  assert (Ek : cstring.trim k = cstring.trim key).
  { rewrite !trim_unfold. unfold k. rewrite list_ascii_of_string_of_list_ascii.
    by rewrite trim_chars_drop_spaces. }
  assert (Ev : cstring.trim v = cstring.trim value).
  { rewrite !trim_unfold. unfold v. rewrite list_ascii_of_string_of_list_ascii.
    by rewrite trim_chars_rtrim. }
  by rewrite Ek, Ev.
Qed.
End lines.

Section lookup.
Context {double : Type} `{!DoubleOps double} `{!StdLib double}.
Implicit Types (p : ConfigParser.t double) (m : config_file.content).

Lemma find_section_elem_of l name keys :
  ConfigParser.find_section l name = Some keys -> (name, keys) ∈ l.
Proof.
  induction l as [|[n ks] l IH]; [done|]. simpl.
  case_bool_decide as E; [intros [= <-]; subst; left|right; by apply IH].
Qed.

Lemma find_section_NoDup l name keys :
  NoDup l.*1 -> (name, keys) ∈ l -> ConfigParser.find_section l name = Some keys.
Proof.
  induction l as [|[n ks] l IH]; [by intros _ ?%elem_of_nil|].
  simpl. intros [Hn Hl]%NoDup_cons [E|Hin]%elem_of_cons.
  - simplify_eq. by rewrite bool_decide_true.
  - rewrite bool_decide_false; [by apply IH|].
    intros ->. apply Hn. apply list_elem_of_fmap. by exists (name, keys).
Qed.

(** The sections a parser visits are those of the content it
    enumerates. *)
Lemma find_section_enumerates l m name :
  config_file.enumerates l m -> ConfigParser.find_section l name = m !! name.
Proof.
  intros [Hnd Hl]. destruct (m !! name) as [keys|] eqn:E.
  - apply find_section_NoDup; [done|]. by apply Hl.
  - destruct (ConfigParser.find_section l name) as [keys|] eqn:E'; [|done].
    apply find_section_elem_of, Hl in E'. congruence.
Qed.

(** X20.  Writing and reading back: when a file ends with a header
    line [[name]] followed by an assignment line [key=value], whatever
    lines come before, [load] returns and the parser then has the section
    (its name trimmed) and [get_string] gives the trimmed value for the
    trimmed key: blanks around the three do not matter, and an earlier
    assignment of the same key is overwritten.  The three strings hold
    neither ['#'] nor a newline, the key holds no ['='] and does not
    begin with ['['], and they are shorter than [npos]. *)
Theorem X20_header_then_assignment (filename : string) (lines : list string)
    (name key value : string) (sections : config_file.content) :
  Forall (config_file.avoids ["010"%char]) lines ->
  config_file.avoids ["#"%char; "010"%char] name ->
  config_file.avoids ["#"%char; "="%char; "010"%char] key ->
  config_file.avoids ["#"%char; "010"%char] value ->
  config_file.front (cstring.trim key) <> Some "["%char ->
  (cstring.size name + 2 < cstring.npos)%N ->
  (cstring.size key < cstring.npos)%N ->
  (cstring.size value < cstring.npos)%N ->
  exists m,
    config_file.load filename
      (Some (config_file.unlines (lines ++ [("[" ++ name ++ "]")%string;
                                              (key ++ "=" ++ value)%string])))
      sections = Val m /\
    forall p, config_file.enumerates (ConfigParser.sections p) m ->
      ConfigParser.has_section p (cstring.trim name) = true /\
      forall default_val,
        ConfigParser.get_string p (cstring.trim name) (cstring.trim key) default_val
        = cstring.trim value.
Proof.
  intros Hlines Hname Hkey Hvalue Hfront Hsn Hsk Hsv.
  assert (Hn : forall cs c s, config_file.avoids cs s -> c ∈ cs -> config_file.avoids [c] s).
  { intros cs c s Hs Hc. apply avoids_one. by eapply avoids_elem. }
  unfold config_file.load. rewrite getlines_unlines.
  2:{ assert (Hlit : forall c : ascii, c <> "010"%char ->
                config_file.avoids ["010"%char] (String c EmptyString)).
      { intros c Hc. apply avoids_one. simpl.
        apply not_elem_of_cons. split; [congruence|apply not_elem_of_nil]. }
      apply Forall_app. split; [done|].
      apply Forall_cons. split; [|apply Forall_cons; split; [|constructor]].
      - apply avoids_app. split; [by apply Hlit|].
        apply avoids_app. split; [|by apply Hlit].
        eapply Hn; [exact Hname|set_solver].
      - apply avoids_app. split; [eapply Hn; [exact Hkey|set_solver]|].
        apply avoids_app. split; [by apply Hlit|].
        eapply Hn; [exact Hvalue|set_solver]. }
  rewrite for_each_r_app.
  destruct (load_lines_total lines (EmptyString, sections)) as ([cur m1] & ->).
  rewrite result_bind_Val. cbn [for_each_r].
  rewrite load_line_header; [|eapply Hn; [exact Hname|set_solver]|done].
  rewrite result_bind_Val.
  rewrite load_line_assignment; [|apply avoids_two|..]; try done;
    try (eapply Hn; [eassumption|set_solver]).
  rewrite !result_bind_Val. eexists. split; [reflexivity|].
  intros p Hp. cbn [snd].
  assert (E : ConfigParser.find_section (ConfigParser.sections p) (cstring.trim name)
              = Some (<[cstring.trim key := cstring.trim value]>
                        (default ∅ (m1 !! cstring.trim name)))).
  { rewrite (find_section_enumerates _ _ _ Hp). unfold config_file.store.
    apply lookup_insert_eq. }
  split.
  - unfold ConfigParser.has_section. rewrite E. by apply bool_decide_eq_true.
  - intros d. unfold ConfigParser.get_string. rewrite E. by rewrite lookup_insert_eq.
Qed.
End lookup.

(** ** One entity for every section *)

Section more_triples.
Context {S : Type}.
Implicit Types (P E : S -> Prop).

Lemma triple_frames {A X} (obs : S -> X) (G : X -> Prop) (m : M S A) :
  frames obs m ->
  triple (fun s => G (obs s)) m (fun _ s => G (obs s)) (fun _ => True).
Proof. intros F s Hs. specialize (F s). destruct (m s); [by rewrite F|done]. Qed.

Lemma triple_gets_any {A B} P (f : S -> A) (k : A -> M S B) (R : B -> S -> Prop) E :
  (forall a, triple P (k a) R E) -> triple P (gets f ≫= k) R E.
Proof. intros Hk s Hs. rewrite M_bind_unfold. cbn [gets]. by apply Hk. Qed.

Lemma triple_gets_const {A B} P (f : S -> A) (k : A -> M S B) (R : B -> S -> Prop) E c :
  (forall s, P s -> f s = c) -> triple P (k c) R E -> triple P (gets f ≫= k) R E.
Proof.
  intros Hf Hk s Hs. rewrite M_bind_unfold. cbn [gets]. rewrite (Hf s Hs). by apply Hk.
Qed.

(** A loop whose body moves the invariant from the elements visited so
    far to one element more. *)
Lemma triple_for_each_prefix {A B} (J : list A -> S -> Prop)
    (body : B -> A -> M S B) (l : list A) :
  (forall visited b a, triple (J visited) (body b a) (fun _ => J (visited ++ [a]))
                              (fun _ => True)) ->
  forall visited acc,
    triple (J visited) (for_each body l acc) (fun _ => J (visited ++ l)) (fun _ => True).
Proof.
  intros Hb. induction l as [|a l IH]; intros visited acc.
  - intros s Hs. simpl. by rewrite app_nil_r.
  - simpl. eapply triple_bind; [apply Hb|]. intros b.
    replace (visited ++ a :: l) with ((visited ++ [a]) ++ l) by (by rewrite <- app_assoc).
    apply IH.
Qed.
End more_triples.

Section counting.
Context {double : Type} `{!DoubleOps double} `{!StdLib double}.
Implicit Types (st : CavityConfig.state double).

Abbreviation pol st := (Cavity.polaritons (Cavity.this (CavityConfig.cavity st))).
Abbreviation phn st := (Cavity.phonons (Cavity.this (CavityConfig.cavity st))).

(** The loader's bookkeeping: the two lists, the parser's sections and
    the two name tables. *)
Let obs st :=
  (pol st, phn st, ConfigParser.sections (CavityConfig.parser st), CavityConfig.this st).

Lemma on_parser_obs {A} (m : M (ConfigParser.t double) A) :
  frames ConfigParser.sections m -> frames obs (CavityConfig.on_parser m).
Proof.
  intros F st. unfold CavityConfig.on_parser. specialize (F (CavityConfig.parser st)).
  destruct (m _); unfold obs; simpl; congruence.
Qed.

Lemma on_cavity_obs {A} (m : M (Cavity.state double) A) :
  frames (fun s => (Cavity.polaritons (Cavity.this s), Cavity.phonons (Cavity.this s))) m ->
  frames obs (CavityConfig.on_cavity m).
Proof.
  intros F st. unfold CavityConfig.on_cavity. specialize (F (CavityConfig.cavity st)).
  destruct (m _); unfold obs; simpl in *; congruence.
Qed.

Lemma get_double_obs section key v : frames obs (CavityConfig.get_double section key v).
Proof. apply on_parser_obs, get_double_sections. Qed.

Lemma polariton_ptr_obs id : frames obs (CavityConfig.polariton_ptr id).
Proof.
  apply on_cavity_obs. apply frames_bind; [apply frames_gets|]. intros c. apply frames_eval.
Qed.

Lemma phonon_ptr_obs id : frames obs (CavityConfig.phonon_ptr id).
Proof.
  apply on_cavity_obs. apply frames_bind; [apply frames_gets|]. intros c. apply frames_eval.
Qed.

Lemma call_polariton_obs (a : nat) f :
  frames obs (CavityConfig.on_cavity (Cavity.call_polariton a f)).
Proof.
  apply on_cavity_obs.
  apply (call_polariton_frames (fun c => (Cavity.polaritons c, Cavity.phonons c))).
Qed.

Lemma call_phonon_obs (a : nat) f :
  frames obs (CavityConfig.on_cavity (Cavity.call_phonon a f)).
Proof.
  apply on_cavity_obs.
  apply (call_phonon_frames (fun c => (Cavity.polaritons c, Cavity.phonons c))).
Qed.

Lemma resolve_obs map what name : frames obs (CavityConfig.resolve map what name).
Proof.
  unfold CavityConfig.resolve. apply frames_bind; [apply frames_get|]. intros s.
  destruct (map s !! name); [apply frames_ret|apply frames_throw].
Qed.

Lemma new_polariton_obs o : frames obs (CavityConfig.new_polariton o).
Proof. intros st. reflexivity. Qed.

Lemma new_phonon_obs o : frames obs (CavityConfig.new_phonon o).
Proof. intros st. reflexivity. Qed.

Lemma seed_phase_obs : frames obs CavityConfig.seed_phase.
Proof.
  unfold CavityConfig.seed_phase. apply frames_bind; [apply frames_get|].
  intros s. destruct (ConfigParser.has_section _ _); [|apply frames_ret].
  apply frames_bind; [apply frames_gets|]. intros seed_str.
  destruct (_ && _); [|apply frames_ret].
  apply on_parser_obs. intros p. destruct (stoul seed_str); reflexivity.
Qed.

Local Ltac fstep :=
  repeat first
    [ apply frames_bind; [|intros ?]
    | apply get_double_obs
    | apply polariton_ptr_obs
    | apply phonon_ptr_obs
    | apply call_polariton_obs
    | apply call_phonon_obs
    | apply resolve_obs
    | apply new_polariton_obs
    | apply new_phonon_obs
    | apply frames_gets
    | apply frames_get
    | apply frames_ret
    | apply frames_throw ].

Lemma create_reservoir_obs u section : frames obs (CavityConfig.create_reservoir u section).
Proof. unfold CavityConfig.create_reservoir, CavityConfig.get_string. fstep. Qed.

Lemma create_coupling_obs u section : frames obs (CavityConfig.create_coupling u section).
Proof.
  unfold CavityConfig.create_coupling, CavityConfig.get_string. fstep.
  repeat (case_bool_decide; [apply frames_throw|]). fstep.
Qed.

Lemma create_pairing_obs u section : frames obs (CavityConfig.create_pairing u section).
Proof.
  unfold CavityConfig.create_pairing, CavityConfig.get_string. fstep.
  case_bool_decide; [apply frames_throw|]. fstep.
  all: try (apply on_cavity_obs, frames_eval). all: fstep.
Qed.

(** The invariant: [n] oscillators and [k] modes are listed, the parser
    holds the sections [secs], and the names of the sections [D1] and
    [D2] are in the two tables. *)
Let G (secs : list (string * gmap string string)) (n k : nat) (D1 D2 : list string) st :=
  length (pol st) = n /\ length (phn st) = k /\
  ConfigParser.sections (CavityConfig.parser st) = secs /\
  (forall x, x ∈ D1 ->
     is_Some (CavityConfig.polariton_map (CavityConfig.this st)
                !! ConfigParser.extract_name x)) /\
  (forall x, x ∈ D2 ->
     is_Some (CavityConfig.phonon_map (CavityConfig.this st)
                !! ConfigParser.extract_name x)).

Lemma G_frames {A} secs n k D1 D2 (m : M (CavityConfig.state double) A) :
  frames obs m ->
  triple (G secs n k D1 D2) m (fun _ => G secs n k D1 D2) (fun _ => True).
Proof.
  intros F.
  apply (triple_frames obs
           (fun o => length o.1.1.1 = n /\ length o.1.1.2 = k /\ o.1.2 = secs /\
                     (forall x, x ∈ D1 ->
                        is_Some (CavityConfig.polariton_map o.2
                                   !! ConfigParser.extract_name x)) /\
                     (forall x, x ∈ D2 ->
                        is_Some (CavityConfig.phonon_map o.2
                                   !! ConfigParser.extract_name x))) m F).
Qed.

Lemma create_polariton_G secs n k D1 D2 u section :
  triple (G secs n k D1 D2) (CavityConfig.create_polariton u section)
         (fun _ => G secs (Datatypes.S n) k (D1 ++ [section]) D2) (fun _ => True).
Proof.
  unfold CavityConfig.create_polariton.
  eapply triple_bind; [apply G_frames, get_double_obs|]. intros gamma.
  eapply triple_bind; [apply G_frames, get_double_obs|]. intros U.
  apply triple_gets_any. intros id.
  eapply triple_bind; [apply G_frames, new_polariton_obs|]. intros a.
  eapply (triple_bind _ _ (fun _ => G secs (Datatypes.S n) k D1 D2)).
  { apply triple_on_cavity_modify. intros st (H1 & H2 & H3 & H4 & H5).
    repeat split; simpl; try done. rewrite length_app. simpl. lia. }
  intros ?.
  eapply (triple_bind _ _ (fun _ => G secs (Datatypes.S n) k (D1 ++ [section]) D2)).
  { apply triple_modify. intros st (H1 & H2 & H3 & H4 & H5).
    repeat split; simpl; try done. intros x [Hx|Hx%list_elem_of_singleton]%elem_of_app.
    - apply lookup_insert_is_Some'. right. by apply H4.
    - subst x. apply lookup_insert_is_Some'. by left. }
  intros ?.
  eapply triple_bind; [apply G_frames, get_double_obs|]. intros re.
  eapply triple_bind; [apply G_frames, get_double_obs|]. intros im.
  eapply triple_bind; [apply G_frames, polariton_ptr_obs|]. intros p.
  apply G_frames, call_polariton_obs.
Qed.

Lemma create_phonon_G secs n k D1 D2 u section :
  triple (G secs n k D1 D2) (CavityConfig.create_phonon u section)
         (fun _ => G secs n (Datatypes.S k) D1 (D2 ++ [section])) (fun _ => True).
Proof.
  unfold CavityConfig.create_phonon.
  eapply triple_bind; [apply G_frames, get_double_obs|]. intros omega.
  eapply triple_bind; [apply G_frames, get_double_obs|]. intros gamma.
  apply triple_gets_any. intros id.
  eapply triple_bind; [apply G_frames, new_phonon_obs|]. intros a.
  eapply (triple_bind _ _ (fun _ => G secs n (Datatypes.S k) D1 D2)).
  { apply triple_on_cavity_modify. intros st (H1 & H2 & H3 & H4 & H5).
    repeat split; simpl; try done. rewrite length_app. simpl. lia. }
  intros ?.
  eapply (triple_bind _ _ (fun _ => G secs n (Datatypes.S k) D1 (D2 ++ [section]))).
  { apply triple_modify. intros st (H1 & H2 & H3 & H4 & H5).
    repeat split; simpl; try done. intros x [Hx|Hx%list_elem_of_singleton]%elem_of_app.
    - apply lookup_insert_is_Some'. right. by apply H5.
    - subst x. apply lookup_insert_is_Some'. by left. }
  intros ?.
  eapply triple_bind; [apply G_frames, get_double_obs|]. intros x.
  eapply triple_bind; [apply G_frames, get_double_obs|]. intros v.
  eapply triple_bind; [apply G_frames, phonon_ptr_obs|]. intros ph.
  eapply triple_bind; [apply G_frames, call_phonon_obs|]. intros ?.
  eapply triple_bind; [apply G_frames, phonon_ptr_obs|]. intros ph'.
  apply G_frames, call_phonon_obs.
Qed.

Lemma assemble_G secs n k D1 D2 :
  triple (G secs n k D1 D2) (CavityConfig.on_cavity Cavity.assemble)
         (fun _ => G secs n k D1 D2) (fun _ => True).
Proof.
  intros st (H1 & H2 & H3 & H4 & H5). unfold CavityConfig.on_cavity.
  destruct (Cavity.assemble (CavityConfig.cavity st)) as [[] s'|] eqn:E; [|done].
  destruct (CavityConfig.cavity st) as [h c] eqn:Ec.
  apply assemble_spec in E as (_ & _ & Hps & Hphs & _).
  simpl in *. repeat split; simpl; try done; congruence.
Qed.

Lemma initialize_cavity_G secs n k D1 D2 :
  triple (G secs n k D1 D2) CavityConfig.initialize_cavity
         (fun _ => G secs n k D1 D2) (fun _ => True).
Proof.
  unfold CavityConfig.initialize_cavity.
  eapply triple_bind; [apply G_frames, get_double_obs|]. intros t0.
  eapply triple_bind.
  { apply G_frames, on_cavity_obs, frames_modify. by intros []. }
  intros ?. apply assemble_G.
Qed.

Lemma sections_by_type_G secs n k D1 D2 type (p0 : ConfigParser.t double) st :
  ConfigParser.sections p0 = secs ->
  G secs n k D1 D2 st ->
  ConfigParser.get_sections_by_type (CavityConfig.parser st) type
  = ConfigParser.get_sections_by_type p0 type.
Proof.
  intros Hp0 (_ & _ & Hs & _). apply get_sections_by_type_sections. congruence.
Qed.

Lemma load_from_ini_G (p0 : ConfigParser.t double) n k :
  let l1 := ConfigParser.get_sections_by_type p0 "polariton" in
  let l2 := ConfigParser.get_sections_by_type p0 "phonon" in
  triple (G (ConfigParser.sections p0) n k [] []) CavityConfig.load_from_ini
         (fun _ => G (ConfigParser.sections p0) (n + length l1) (k + length l2) l1 l2)
         (fun _ => True).
Proof.
  intros l1 l2. set (secs := ConfigParser.sections p0).
  unfold CavityConfig.load_from_ini, CavityConfig.create_entities,
    CavityConfig.get_sections_by_type.
  eapply (triple_bind _ _ (fun _ => G secs (n + length l1) (k + length l2) l1 l2)).
  { eapply triple_bind; [apply G_frames, seed_phase_obs|]. intros ?.
    eapply (triple_gets_const _ _ _ _ _ l1).
    { intros st Hst. by eapply sections_by_type_G. }
    eapply (triple_bind _ _ (fun _ => G secs (n + length l1) k l1 [])).
    { assert (Hb : forall visited b a,
                triple (G secs (n + length visited) k visited [])
                       (CavityConfig.create_polariton b a)
                       (fun _ => G secs (n + length (visited ++ [a])) k (visited ++ [a]) [])
                       (fun _ => True)).
      { intros visited b x. rewrite length_app, Nat.add_assoc. simpl.
        rewrite Nat.add_1_r. apply create_polariton_G. }
      pose proof (triple_for_each_prefix
                    (fun visited => G secs (n + length visited) k visited [])
                    CavityConfig.create_polariton l1 Hb [] tt) as H.
      eapply triple_conseq; [exact H| | |done].
      - intros st Hst. simpl. by rewrite Nat.add_0_r.
      - intros ? st Hst. exact Hst. }
    intros ?.
    eapply (triple_gets_const _ _ _ _ _ l2).
    { intros st Hst. by eapply sections_by_type_G. }
    eapply (triple_bind _ _ (fun _ => G secs (n + length l1) (k + length l2) l1 l2)).
    { assert (Hb : forall visited b a,
                triple (G secs (n + length l1) (k + length visited) l1 visited)
                       (CavityConfig.create_phonon b a)
                       (fun _ => G secs (n + length l1) (k + length (visited ++ [a])) l1
                                   (visited ++ [a]))
                       (fun _ => True)).
      { intros visited b x. rewrite length_app, Nat.add_assoc. simpl.
        rewrite Nat.add_1_r. apply create_phonon_G. }
      pose proof (triple_for_each_prefix
                    (fun visited => G secs (n + length l1) (k + length visited) l1 visited)
                    CavityConfig.create_phonon l2 Hb [] tt) as H.
      eapply triple_conseq; [exact H| | |done].
      - intros st Hst. simpl. by rewrite Nat.add_0_r.
      - intros ? st Hst. exact Hst. }
    intros ?. apply triple_gets_any. intros l3.
    apply G_frames, frames_for_each. intros. apply create_reservoir_obs. }
  intros ?. apply triple_gets_any. intros l4.
  eapply triple_bind.
  { apply G_frames, frames_for_each. intros. apply create_coupling_obs. }
  intros ?. apply triple_gets_any. intros l5.
  eapply triple_bind.
  { apply G_frames, frames_for_each. intros. apply create_pairing_obs. }
  intros ?. apply initialize_cavity_G.
Qed.

(** X21.  When loading returns, every section of type polariton has
    added one oscillator to the cavity and every section of type phonon
    one mechanical mode (sections of the same name included), and the
    name of each of these sections resolves with [get_polariton_id] or
    [get_phonon_id]. *)
Theorem X21_one_entity_per_section st st' :
  CavityConfig.load_from_ini st = Ok tt st' ->
  let polariton_sections :=
    ConfigParser.get_sections_by_type (CavityConfig.parser st) "polariton" in
  let phonon_sections :=
    ConfigParser.get_sections_by_type (CavityConfig.parser st) "phonon" in
  length (pol st') = length (pol st) + length polariton_sections /\
  length (phn st') = length (phn st) + length phonon_sections /\
  (forall section, section ∈ polariton_sections ->
     exists id, CavityConfig.get_polariton_id (ConfigParser.extract_name section)
                  (CavityConfig.this st') = Val id) /\
  (forall section, section ∈ phonon_sections ->
     exists id, CavityConfig.get_phonon_id (ConfigParser.extract_name section)
                  (CavityConfig.this st') = Val id).
Proof.
  intros E l1 l2.
  pose proof (load_from_ini_G (CavityConfig.parser st) (length (pol st)) (length (phn st))
                st) as H.
  rewrite E in H. destruct H as (H1 & H2 & _ & H4 & H5).
  { repeat split; intros x Hx; by apply elem_of_nil in Hx. }
  split; [exact H1|]. split; [exact H2|]. split.
  - intros section Hs. destruct (H4 section Hs) as [id Hid]. exists id.
    unfold CavityConfig.get_polariton_id. by rewrite Hid.
  - intros section Hs. destruct (H5 section Hs) as [id Hid]. exists id.
    unfold CavityConfig.get_phonon_id. by rewrite Hid.
Qed.
End counting.

(** ** The parser's properties on the concrete inputs *)

Lemma X15_extract_name_of_header_witness :
  ConfigParser.extract_name "polariton   site_1 " = "site_1".
Proof.
  apply (proj1 X15_extract_name_of_header "polariton" "  site_1 ").
  - unfold config_file.avoids. apply (bool_decide_unpack _). vm_compute. exact Logic.I.
  - vm_compute. reflexivity.
Defined.

Lemma X17_section_has_one_kind_witness : "phonon" = "phonon".
Proof.
  apply (X17_section_has_one_kind (CavityConfig.parser (loaded two_site_config))
           "phonon" "phonon" "phonon mech").
  - apply (bool_decide_unpack _). vm_compute. exact Logic.I.
  - apply (bool_decide_unpack _). vm_compute. exact Logic.I.
  - apply (bool_decide_unpack _). vm_compute. exact Logic.I.
  - apply (bool_decide_unpack _). vm_compute. exact Logic.I.
Defined.

Lemma X19_loaded_sections_are_tidy_witness : tidy two_site_content.
Proof.
  apply (X19_loaded_sections_are_tidy "two_site.ini" two_site_text).
  - vm_compute. reflexivity.
  - vm_compute. reflexivity.
Defined.

Lemma X20_header_then_assignment_witness :
  exists m,
    config_file.load "two_site.ini"
      (Some (config_file.unlines
               (two_site_lines ++ ["[ pairing pair_1 ]"; "sites = site_1, site_2  "])))
      ∅ = Val m /\
    forall p : @ConfigParser.t R example_lib.lib,
      config_file.enumerates (ConfigParser.sections p) m ->
      ConfigParser.has_section p "pairing pair_1" = true /\
      forall default_val,
        ConfigParser.get_string p "pairing pair_1" "sites" default_val = "site_1, site_2".
Proof.
  apply (X20_header_then_assignment "two_site.ini" two_site_lines
           " pairing pair_1 " "sites " " site_1, site_2  " ∅).
  - unfold config_file.avoids. apply (bool_decide_unpack _). vm_compute. exact Logic.I.
  - unfold config_file.avoids. apply (bool_decide_unpack _). vm_compute. exact Logic.I.
  - unfold config_file.avoids. apply (bool_decide_unpack _). vm_compute. exact Logic.I.
  - unfold config_file.avoids. apply (bool_decide_unpack _). vm_compute. exact Logic.I.
  - vm_compute. discriminate.
  - vm_compute. reflexivity.
  - vm_compute. reflexivity.
  - vm_compute. reflexivity.
Defined.

Lemma X21_one_entity_per_section_witness :
  length (Cavity.polaritons (Cavity.this (CavityConfig.cavity two_site_loaded))) = 2 /\
  length (Cavity.phonons (Cavity.this (CavityConfig.cavity two_site_loaded))) = 1 /\
  (forall section,
     section ∈ ["polariton site_1"; "polariton site_2"] ->
     exists id, CavityConfig.get_polariton_id (ConfigParser.extract_name section)
                  (CavityConfig.this two_site_loaded) = Val id) /\
  (forall section,
     section ∈ ["phonon mech"] ->
     exists id, CavityConfig.get_phonon_id (ConfigParser.extract_name section)
                  (CavityConfig.this two_site_loaded) = Val id).
Proof.
  apply (X21_one_entity_per_section (loaded two_site_config) two_site_loaded).
  exact two_site_config_loads.
Defined.
